(** * Snapshot decryption and persistence pipeline: a shallow embedding

    The development follows the TypeScript sources

    - [src/lib/decrypt-snapshot.ts]  (envelope decoding, MessagePack decoder,
      RSA-OAEP / AES-GCM decryption),
    - [src/lib/decrypt-snapshot-streaming-multiworker.ts]  (chunking, worker
      pool, resumable metadata, persistence path),
    - [src/lib/decrypt-snapshot-streaming-full-worker.ts]  (the inline
      decrypt worker),
    - [src/app/page.tsx]  (bulk prefetch scheduler).

    JavaScript values are embedded as an inductive type (objects with their
    own properties in the order of own properties and with their prototype
    when it was replaced), typed arrays as lists of bytes, numbers that the
    code uses as counts and offsets as [Z] (with the 32-bit wrap-around of
    the bit operators written out), the sizes the prefetch scheduler adds
    up as IEEE-754 binary64 values, the metadata object store as a finite
    map keyed by [snapshotId], and asynchronous code as a
    state-and-exception monad over the store and a log of the observable
    effects. *)

From Stdlib Require Import ZArith QArith Lia SpecFloat.
From Stdlib Require Import Strings.Byte Strings.Ascii Strings.String.
From stdpp Require Import base option list gmap strings pretty.

Set Warnings "-register-all,-abstract-large-number".
Local Open Scope Z_scope.

(* ===================================================================== *)
(** * JavaScript arrays                                                    *)
(* ===================================================================== *)

Module Js.

(** [Array.prototype.slice] / [TypedArray.prototype.slice]: a relative index
    below zero counts from the end, every index is clamped to the array. *)
Definition clampIndex (len i : Z) : Z :=
  if i <? 0 then Z.max (len + i) 0 else Z.min i len.

Definition slice {A} (l : list A) (start stop : Z) : list A :=
  let len := Z.of_nat (length l) in
  let k := clampIndex len start in
  let final := clampIndex len stop in
  take (Z.to_nat (final - k)) (drop (Z.to_nat k) l).

(** [l.slice(start)]: the end defaults to the length. *)
Definition sliceFrom {A} (l : list A) (start : Z) : list A :=
  slice l start (Z.of_nat (length l)).

(** [l[i]], [None] standing for [undefined]. *)
Definition index {A} (l : list A) (i : Z) : option A :=
  if i <? 0 then None else l !! Z.to_nat i.

(** A count that may be [Infinity] (a division by zero). *)
Inductive Count := Finite (n : Z) | Infinity.

(** An offset that may be [NaN] (a sum with [undefined]). *)
Inductive Num := Int (z : Z) | NaN.

Definition addNum (a : Num) (k : Z) : Num :=
  match a with Int z => Int (z + k) | NaN => NaN end.

(** ToIntegerOrInfinity, as applied to the arguments of [slice]. *)
Definition toInteger (a : Num) : Z :=
  match a with Int z => z | NaN => 0 end.

Definition sliceNum {A} (l : list A) (start stop : Num) : list A :=
  slice l (toInteger start) (toInteger stop).

End Js.

(* ===================================================================== *)
(** * Chunk partitioning (decrypt-snapshot-streaming-multiworker.ts)       *)
(* ===================================================================== *)

Module Chunking.
Import Js.

Definition CHUNK_SIZE_SMALL : Z := 1000.
Definition CHUNK_SIZE_MEDIUM : Z := 2000.
Definition CHUNK_SIZE_LARGE : Z := 3000.
Definition CHUNK_SIZE_XLARGE : Z := 5000.

(** [Math.ceil(a / b)] for integers [a] and [b > 0]. *)
Definition ceilDiv (a b : Z) : Z := - ((- a) / b).

(** [calculateOptimalChunkSize(totalMessages, workerCount)].  With a worker
    count of zero the quotient is [Infinity], and so is the maximum. *)
Definition calculateOptimalChunkSize (totalMessages : Z) (workerCount : nat) : Count :=
  let minChunksPerWorker := 2 in
  let targetTotalChunks := Z.of_nat workerCount * minChunksPerWorker in
  if totalMessages <? 4000 then Finite CHUNK_SIZE_SMALL
  else if totalMessages <? 16000 then Finite CHUNK_SIZE_MEDIUM
  else if totalMessages <? 64000 then Finite CHUNK_SIZE_LARGE
  else if targetTotalChunks =? 0 then Infinity
  else Finite (Z.max CHUNK_SIZE_XLARGE (ceilDiv totalMessages targetTotalChunks)).

(** The loop [for (let i = 0; i < messages.length; i += chunkSize)] of
    [chunkMessages].  [fuel] bounds the number of iterations; [None] is a
    loop that has not finished (with [chunkSize <= 0] it never does). *)
Fixpoint chunkLoop {A} (fuel : nat) (messages : list A) (chunkSize i : Z)
  : option (list (list A)) :=
  if i <? Z.of_nat (length messages) then
    match fuel with
    | O => None
    | S fuel' =>
        match chunkLoop fuel' messages chunkSize (i + chunkSize) with
        | Some chunks => Some (slice messages i (i + chunkSize) :: chunks)
        | None => None
        end
    end
  else Some [].

(** [chunkMessages(messages, chunkSize)].  An infinite chunk size makes the
    first slice the whole array and ends the loop after it. *)
Definition chunkMessages {A} (messages : list A) (chunkSize : Count)
  : option (list (list A)) :=
  match chunkSize with
  | Finite c => chunkLoop (length messages) messages c 0
  | Infinity =>
      if 0 <? Z.of_nat (length messages)
      then Some [sliceFrom messages 0] else Some []
  end.

(** Start index of chunk [j]: the total length of the chunks before it. *)
Definition chunkStart {A} (chunks : list (list A)) (j : nat) : nat :=
  length (concat (take j chunks)).

End Chunking.

(* ===================================================================== *)
(** * JavaScript values, errors and completions                            *)
(* ===================================================================== *)

Module Value.

Inductive FloatWidth := F32 | F64.

(** Values that reach the pipeline: results of [JSON.parse] and of the
    MessagePack decoder.  A number is [JNum] when it is an integer and
    [JFloat] (its IEEE-754 bit pattern, big-endian as read) otherwise.
    An object is given by its own properties, in the order [Object.entries]
    lists them, and by its prototype: [JObj props] inherits from
    [Object.prototype], as every object literal and every object made by
    [JSON.parse] or [Object.fromEntries] does; [JObjProto proto props] is an
    object whose prototype was replaced by [proto] ([JNull] or an object),
    which the decoder does on a key ["__proto__"]. *)
Inductive JsVal :=
| JUndefined
| JNull
| JBool (b : bool)
| JNum (z : Z)
| JFloat (w : FloatWidth) (bits : Z)
| JStr (s : string)
| JBytes (bs : list byte)
| JArr (items : list JsVal)
| JObj (props : list (string * JsVal))
| JObjProto (proto : JsVal) (props : list (string * JsVal)).

(** Thrown values.  [Error msg] is [new Error(msg)] of the sources; the
    other constructors are raised by the engine or by a Web API. *)
Inductive JsError :=
| Error (message : string)
| TypeError (what : string)
| RangeError (what : string)
| StackOverflow
| ApiError (api : string) (message : string).

(** A completion record: normal, or a throw. *)
Inductive Completion (A : Type) :=
| Normal (a : A)
| Throw (e : JsError).
Arguments Normal {A} a.
Arguments Throw {A} e.

Definition cbind {A B} (c : Completion A) (k : A → Completion B) : Completion B :=
  match c with
  | Normal a => k a
  | Throw e => Throw e
  end.

Definition floatIsZero (w : FloatWidth) (bits : Z) : bool :=
  match w with
  | F32 => bits mod 2 ^ 31 =? 0
  | F64 => bits mod 2 ^ 63 =? 0
  end.

Definition floatIsNaN (w : FloatWidth) (bits : Z) : bool :=
  match w with
  | F32 => ((bits / 2 ^ 23) mod 2 ^ 8 =? 255) && negb (bits mod 2 ^ 23 =? 0)
  | F64 => ((bits / 2 ^ 52) mod 2 ^ 11 =? 2047) && negb (bits mod 2 ^ 52 =? 0)
  end.

(** ToBoolean. *)
Definition truthy (v : JsVal) : bool :=
  match v with
  | JUndefined | JNull => false
  | JBool b => b
  | JNum z => negb (z =? 0)
  | JFloat w bits => negb (floatIsZero w bits || floatIsNaN w bits)
  | JStr s => negb (String.eqb s "")
  | JBytes _ | JArr _ | JObj _ | JObjProto _ _ => true
  end.

(** [typeof v === 'object'] ([null] included). *)
Definition typeofObject (v : JsVal) : bool :=
  match v with
  | JNull | JBytes _ | JArr _ | JObj _ | JObjProto _ _ => true
  | _ => false
  end.

(** The value is an object (not [null]). *)
Definition isObject (v : JsVal) : bool :=
  match v with
  | JBytes _ | JArr _ | JObj _ | JObjProto _ _ => true
  | _ => false
  end.

Definition isArray (v : JsVal) : bool :=
  match v with JArr _ => true | _ => false end.

Fixpoint lookupProp (props : list (string * JsVal)) (name : string) : option JsVal :=
  match props with
  | [] => None
  | (k, v) :: rest => if String.eqb k name then Some v else lookupProp rest name
  end.

(** The value of an own property that exists is replaced in place. *)
Fixpoint setProp (props : list (string * JsVal)) (name : string) (v : JsVal)
  : list (string * JsVal) :=
  match props with
  | [] => [(name, v)]
  | (k, w) :: rest =>
      if String.eqb k name then (k, v) :: rest else (k, w) :: setProp rest name v
  end.

Definition digitOf (c : ascii) : option Z :=
  let n := Z.of_nat (nat_of_ascii c) in
  if (48 <=? n) && (n <=? 57) then Some (n - 48) else None.

Fixpoint parseDigits (s : string) (acc : Z) : option Z :=
  match s with
  | EmptyString => Some acc
  | String c rest =>
      match digitOf c with
      | Some d => parseDigits rest (acc * 10 + d)
      | None => None
      end
  end.

(** The array index a property key denotes, if it denotes one: the key is
    the decimal numeral, without sign or leading zero, of an integer below
    [2^32 - 1]. *)
Definition arrayIndex (name : string) : option Z :=
  match name with
  | EmptyString => None
  | String c rest =>
      if Ascii.eqb c "0" && negb (String.eqb rest "") then None
      else
        match parseDigits name 0 with
        | Some n => if n <? 2 ^ 32 - 1 then Some n else None
        | None => None
        end
  end.

Fixpoint insertIndexed (props : list (string * JsVal)) (n : Z) (name : string)
    (v : JsVal) : list (string * JsVal) :=
  match props with
  | [] => [(name, v)]
  | (k, w) :: rest =>
      match arrayIndex k with
      | Some m =>
          if m <? n then (k, w) :: insertIndexed rest n name v
          else (name, v) :: props
      | None => (name, v) :: props
      end
  end.

(** A new own property.  The own properties are listed with the array
    indices first, in ascending order, then the other keys in the order of
    their creation. *)
Definition defineOwn (props : list (string * JsVal)) (name : string) (v : JsVal)
  : list (string * JsVal) :=
  match arrayIndex name with
  | Some n => insertIndexed props n name v
  | None => props ++ [(name, v)]
  end.

(** The value found for a property name from an object: that of an own
    property, or of the first object on the prototype chain that has one.
    The names the sources read ([enc], [wrappedKey], [ciphertext], [nonce],
    [tag], [compression], [projectId], [queueId], [messageCount],
    [messages], [created_at]) are not properties of [Object.prototype], of
    an array, a typed array, a string, a number or a boolean, or of their
    prototypes. *)
Fixpoint lookupChain (v : JsVal) (name : string) : JsVal :=
  match v with
  | JObj props => default JUndefined (lookupProp props name)
  | JObjProto proto props =>
      match lookupProp props name with
      | Some x => x
      | None => lookupChain proto name
      end
  | _ => JUndefined
  end.

(** [v.name] for these names; reading a property of [null] or [undefined]
    throws. *)
Definition getProp (v : JsVal) (name : string) : Completion JsVal :=
  match v with
  | JUndefined => Throw (TypeError ("Cannot read properties of undefined: " +:+ name))
  | JNull => Throw (TypeError ("Cannot read properties of null: " +:+ name))
  | _ => Normal (lookupChain v name)
  end.

(** Where the lookup of a property name from an object ends: at a data
    property of the object or of an ordinary object on its prototype chain,
    at [Object.prototype], at an [Array] or a [Uint8Array] that is on the
    chain, or at the [null] that ends a chain. *)
Inductive Holder :=
| HeldBy (v : JsVal)
| AtObjectPrototype
| AtArray (items : list JsVal)
| AtBytes (bs : list byte)
| AtNull.

Fixpoint holder (v : JsVal) (name : string) : Holder :=
  match v with
  | JObj props =>
      match lookupProp props name with
      | Some x => HeldBy x
      | None => AtObjectPrototype
      end
  | JObjProto proto props =>
      match lookupProp props name with
      | Some x => HeldBy x
      | None => holder proto name
      end
  | JArr items => AtArray items
  | JBytes bs => AtBytes bs
  | _ => AtNull
  end.

(** The own properties of an object. *)
Definition ownProps (v : JsVal) : list (string * JsVal) :=
  match v with
  | JObj props | JObjProto _ props => props
  | _ => []
  end.

(** The same object with other own properties. *)
Definition withProps (v : JsVal) (props : list (string * JsVal)) : JsVal :=
  match v with
  | JObjProto proto _ => JObjProto proto props
  | _ => JObj props
  end.

(** [v === 'text']. *)
Definition strictEqStr (v : JsVal) (text : string) : bool :=
  match v with JStr s => String.eqb s text | _ => false end.

Definition joinWith (sep : string) (parts : list string) : string :=
  match parts with
  | [] => ""
  | p :: rest => fold_left (λ acc q, acc +:+ sep +:+ q) rest p
  end.

Definition hexChar (d : N) : ascii :=
  match d with
  | 0 => "0" | 1 => "1" | 2 => "2" | 3 => "3" | 4 => "4" | 5 => "5"
  | 6 => "6" | 7 => "7" | 8 => "8" | 9 => "9" | 10 => "a" | 11 => "b"
  | 12 => "c" | 13 => "d" | 14 => "e" | _ => "f"
  end%char%N.

Fixpoint toHexGo (fuel : nat) (x : N) (acc : string) : string :=
  match fuel with
  | O => acc
  | S fuel' =>
      if (x =? 0)%N then acc
      else toHexGo fuel' (x / 16)%N (String (hexChar (x mod 16)%N) acc)
  end.

(** [n.toString(16)] for an integer. *)
Definition toHex (z : Z) : string :=
  let digits (x : N) := if (x =? 0)%N then "0" else toHexGo (N.size_nat x) x "" in
  if z <? 0 then "-" +:+ digits (Z.to_N (- z)) else digits (Z.to_N z).

(** [String(z)] for an integer below [10^21] in magnitude. *)
Definition toDecimal (z : Z) : string := pretty z.

Definition byteToZ (b : byte) : Z := Z.of_N (Byte.to_N b).

End Value.


(* ===================================================================== *)
(** * The platform: Web APIs the sources call                              *)
(* ===================================================================== *)

Module Platform.
Import Value.

(** The browser functions are parameters of the development.  Keys are the
    key material handed to [crypto.subtle.importKey]. *)
Record Api := {
  (** [new TextDecoder().decode(bytes)] *)
  utf8Decode : list byte → string;
  (** [JSON.parse(text)] *)
  jsonParse : string → Completion JsVal;
  (** [String(x)] for a number [x] ([JNum] or [JFloat]) *)
  numberToString : JsVal → string;
  (** [atob(text)], the binary string as bytes *)
  atob : string → Completion (list byte);
  (** the three [replace] calls of [importPrivateKey] on the PEM text *)
  pemBody : string → string;
  (** [fetch(url)] then [arrayBuffer()]: [response.ok], status, body *)
  fetch : string → Completion (bool * Z * list byte);
  (** [crypto.subtle.importKey('pkcs8', der, RSA-OAEP/SHA-256)] *)
  importPkcs8 : list byte → Completion (list byte);
  (** [crypto.subtle.decrypt(RSA-OAEP, privateKey, data)] *)
  rsaOaepDecrypt : list byte → list byte → Completion (list byte);
  (** [crypto.subtle.importKey('raw', key, AES-GCM)] *)
  importAesKey : list byte → Completion (list byte);
  (** [crypto.subtle.decrypt(AES-GCM iv tagLength=128, key, data)] *)
  aesGcmDecrypt : list byte → list byte → list byte → Completion (list byte);
  (** [DecompressionStream('gzip')] over the whole input *)
  gunzip : list byte → Completion (list byte);
  (** [e.message] of an error raised by the engine or an API *)
  engineMessage : JsError → string;
  (** number of nested activations of [decodeMsgpack] the stack can hold *)
  stackDepth : nat;
  (** [new Date().toISOString()] *)
  isoNow : string;
  (** the [substring] and [replace] of the inline decrypt worker on the PEM text *)
  pemBodyWorker : string → string;
  (** [String(o)] for an object [o] that inherits its [toString] from an
      [Array] on its prototype chain and does not shadow [join]:
      [Array.prototype.join] applied to an object that is not an array *)
  arrayLikeToString : JsVal → Completion string;
  (** [o[name] = v] for an object [o] with a [Uint8Array] on its prototype
      chain, where no ordinary object before it on the chain holds [name]:
      the typed array decides (integer-indexed keys, the read-only
      properties of its prototypes) *)
  typedArraySet : JsVal → string → JsVal → Completion JsVal;
}.

(** [error instanceof Error ? error.message : 'Unknown error']: every thrown
    value of the model is an [Error]. *)
Definition errorMessage (api : Api) (e : JsError) : string :=
  match e with
  | Error message => message
  | _ => engineMessage api e
  end.

End Platform.

(* ===================================================================== *)
(** * MessagePack decoder (decrypt-snapshot.ts, [decodeMsgpack])           *)
(* ===================================================================== *)

Module Msgpack.
Import Js Value Platform.

(** ToInt32 and the bit operators [<<], [|], [>>> 0] on int32. *)
Definition toInt32 (z : Z) : Z := (z + 2 ^ 31) mod 2 ^ 32 - 2 ^ 31.
Definition toUint32 (z : Z) : Z := z mod 2 ^ 32.
Definition shl (a n : Z) : Z := toInt32 (Z.shiftl (toInt32 a) n).
Definition bor (a b : Z) : Z := toInt32 (Z.lor (toInt32 a) (toInt32 b)).

(** [buffer[i]]: [None] is [undefined]. *)
Definition byteAt (buffer : list byte) (i : Z) : option Z :=
  byteToZ <$> index buffer i.

(** ToInt32 of an element read: [undefined] counts as zero. *)
Definition int32Of (b : option Z) : Z := default 0 b.

(** [(b[o] << 8) | b[o+1]] and [(b[o] << 24) | (b[o+1] << 16) | (b[o+2] << 8) | b[o+3]]. *)
Definition be16 (buffer : list byte) (o : Z) : Z :=
  bor (shl (int32Of (byteAt buffer o)) 8) (int32Of (byteAt buffer (o + 1))).

Definition be32 (buffer : list byte) (o : Z) : Z :=
  bor (bor (bor (shl (int32Of (byteAt buffer o)) 24)
                (shl (int32Of (byteAt buffer (o + 1))) 16))
           (shl (int32Of (byteAt buffer (o + 2))) 8))
      (int32Of (byteAt buffer (o + 3))).

(** The length loop of [readStr] and [readBin]:
    [len = (len << 8) | buffer[offset + 1 + i]] for [i < lenBytes]. *)
Definition readLen (buffer : list byte) (offset : Z) (lenBytes : nat) : Z :=
  fold_left
    (λ len i, bor (shl len 8) (int32Of (byteAt buffer (offset + 1 + Z.of_nat i))))
    (seq 0 lenBytes) 0.

(** The big-endian unsigned integer held by a list of bytes. *)
Definition beUnsigned (bs : list byte) : Z :=
  fold_left (λ acc b, acc * 256 + byteToZ b) bs 0.

(** [new DataView(buffer.buffer, buffer.byteOffset + offset + 1, size)]: the
    view must lie inside the buffer.  The buffers decoded here span their
    whole [ArrayBuffer] ([byteOffset = 0]). *)
Definition dataView (buffer : list byte) (start size : Z) : Completion (list byte) :=
  if (start <? 0) || (Z.of_nat (length buffer) <? start + size)
  then Throw (RangeError "DataView out of bounds")
  else Normal (slice buffer start (start + size)).

(** [Number(v)] for a BigInt: round to the nearest double, ties to even. *)
Definition bigintToNumber (v : Z) : Z :=
  let a := Z.abs v in
  if a <? 2 ^ 53 then v
  else
    let e := Z.log2 a - 52 in
    let q := Z.shiftr a e in
    let r := a mod 2 ^ e in
    let half := 2 ^ (e - 1) in
    let q' := if (half <? r) || ((r =? half) && Z.odd q) then q + 1 else q in
    Z.sgn v * (q' * 2 ^ e).

(** [for (let i = 0; i < n; i++) step], leaving at the first throw. *)
Fixpoint iterPos {S} (step : S → Completion S) (p : positive) (s : S) : Completion S :=
  match p with
  | xH => step s
  | xO p' => cbind (iterPos step p' s) (iterPos step p')
  | xI p' => cbind (step s) (λ s1, cbind (iterPos step p' s1) (iterPos step p'))
  end.

Definition repeatZ {S} (step : S → Completion S) (n : Z) (s : S) : Completion S :=
  match n with
  | Zpos p => iterPos step p s
  | _ => Normal s
  end.

(** [String(o)] for an ordinary object [o]: its [toString] is looked up
    along the prototype chain.  A data property of that name holds a decoded
    value, which is not callable, and so does one named [valueOf];
    [Object.prototype.valueOf] returns the object itself: in each of these
    cases, and when the chain ends at [null], the conversion throws.  The
    [toString] of a [Uint8Array] on the chain is [Array.prototype.toString],
    which calls the [join] found from [o]: that of the typed array refuses
    an object that is not a typed array, and in place of one that is not
    callable stands [Object.prototype.toString]. *)
Definition objectToString (api : Api) (o : JsVal) : Completion string :=
  let notPrimitive := Throw (TypeError "Cannot convert object to primitive value") in
  match holder o "toString" with
  | AtObjectPrototype => Normal "[object Object]"
  | HeldBy _ | AtNull => notPrimitive
  | AtArray _ =>
      match holder o "join" with
      | HeldBy _ => Normal "[object Object]"
      | _ => arrayLikeToString api o
      end
  | AtBytes _ =>
      match holder o "join" with
      | HeldBy _ => Normal "[object Object]"
      | _ => Throw (TypeError "this is not a typed array")
      end
  end.

(** [String(v)], as used for a property key [obj[v]] and for the argument
    of [atob]. *)
Fixpoint toString (api : Api) (v : JsVal) : Completion string :=
  match v with
  | JUndefined => Normal "undefined"
  | JNull => Normal "null"
  | JBool true => Normal "true"
  | JBool false => Normal "false"
  | JNum _ | JFloat _ _ => Normal (numberToString api v)
  | JStr s => Normal s
  | JBytes bs => Normal (joinWith "," (map (λ b, toDecimal (byteToZ b)) bs))
  | JArr items =>
      cbind
        ((fix elements (items : list JsVal) : Completion (list string) :=
            match items with
            | [] => Normal []
            | x :: rest =>
                cbind (match x with
                       | JUndefined | JNull => Normal ""
                       | _ => toString api x
                       end) (λ text,
                cbind (elements rest) (λ texts, Normal (text :: texts)))
            end) items)
        (λ texts, Normal (joinWith "," texts))
  | JObj _ | JObjProto _ _ => objectToString api v
  end.

(** [obj[name] = v] on the object a map is decoded into.  An own property is
    replaced.  Otherwise the prototype chain decides: the setter of
    [Object.prototype.__proto__] replaces the prototype when [v] is an
    object or [null] and does nothing for another [v]; a data property on
    the chain, or none, makes a new own property. *)
Definition assign (api : Api) (obj : JsVal) (name : string) (v : JsVal)
  : Completion JsVal :=
  match lookupProp (ownProps obj) name with
  | Some _ => Normal (withProps obj (setProp (ownProps obj) name v))
  | None =>
      let created := Normal (withProps obj (defineOwn (ownProps obj) name v)) in
      let inherited :=
        if String.eqb name "__proto__" then
          if isObject v || negb (truthy v) && typeofObject v
          then Normal (JObjProto v (ownProps obj))
          else Normal obj
        else created in
      match holder obj name with
      | HeldBy _ | AtNull => created
      | AtObjectPrototype | AtArray _ => inherited
      | AtBytes _ => typedArraySet api obj name v
      end
  end.

(** The leading bytes that [decodeMsgpack] decodes, in the order of its
    tests: nil and booleans, the fix families, then the [switch] labels. *)
Definition tagDefined (t : Z) : bool :=
  (t =? 0xc0) || (t =? 0xc2) || (t =? 0xc3)
  || (t <=? 0x7f) || (0xe0 <=? t)
  || (Z.land t 0xe0 =? 0xa0) || (Z.land t 0xf0 =? 0x80) || (Z.land t 0xf0 =? 0x90)
  || (0xc4 <=? t) && (t <=? 0xdf).

(** The message of the [default:] branch,
    [`Unsupported msgpack type 0x${type?.toString(16)} at offset ${offset}`]. *)
Definition unsupportedMessage (type : option Z) (offset : Num) : string :=
  "Unsupported msgpack type 0x"
  +:+ match type with Some t => toHex t | None => "undefined" end
  +:+ " at offset "
  +:+ match offset with Int o => toDecimal o | NaN => "NaN" end.

Section Decoder.
Context (api : Api).

(** Array body: [len] times, decode an element and push it. *)
Definition decodeItems (decode : Num → Completion (JsVal * Num)) (len offset : Z)
  : Completion (JsVal * Num) :=
  cbind
    (repeatZ (λ '(arr, off),
                cbind (decode off) (λ '(v, off'), Normal (arr ++ [v], off')))
             len ([], Int offset))
    (λ '(arr, off), Normal (JArr arr, off)).

(** Map body: starting from [{}], [len] times: decode a key, decode a
    value, [obj[key] = value]. *)
Definition decodePairs (decode : Num → Completion (JsVal * Num)) (len offset : Z)
  : Completion (JsVal * Num) :=
  cbind
    (repeatZ (λ '(obj, off),
                cbind (decode off) (λ '(k, off1),
                cbind (decode off1) (λ '(v, off2),
                cbind (toString api k) (λ name,
                cbind (assign api obj name v) (λ obj', Normal (obj', off2))))))
             len (JObj [], Int offset))
    (λ '(obj, off), Normal (obj, off)).

(** [readStr(lenBytes)] and [readBin(lenBytes)]. *)
Definition readStr (buffer : list byte) (offset : Z) (lenBytes : nat) : JsVal * Z :=
  let len := readLen buffer offset lenBytes in
  let offset := offset + 1 + Z.of_nat lenBytes in
  (JStr (utf8Decode api (slice buffer offset (offset + len))), offset + len).

Definition readBin (buffer : list byte) (offset : Z) (lenBytes : nat) : JsVal * Z :=
  let len := readLen buffer offset lenBytes in
  let offset := offset + 1 + Z.of_nat lenBytes in
  (JBytes (slice buffer offset (offset + len)), offset + len).

(** Extension bodies: skip [header] bytes, take [len] bytes. *)
Definition readExt (buffer : list byte) (offset header len : Z) : JsVal * Z :=
  let offset := offset + header in
  (JBytes (slice buffer offset (offset + len)), offset + len).

(** ext 8, whose length [buffer[offset + 1]] is used unconverted: when it is
    [undefined] the end of the slice and the new offset are [NaN]. *)
Definition readExt8 (buffer : list byte) (offset : Z) : JsVal * Num :=
  match byteAt buffer (offset + 1) with
  | Some len =>
      let offset := offset + 3 in
      (JBytes (slice buffer offset (offset + len)), Int (offset + len))
  | None => (JBytes (sliceNum buffer (Int (offset + 3)) NaN), NaN)
  end.

(** A result whose new offset is an integer. *)
Definition advance (r : JsVal * Z) : Completion (JsVal * Num) :=
  Normal (r.1, Int r.2).

(** An element read that may be [undefined]. *)
Definition numOf (b : option Z) (f : Z → Z) : JsVal :=
  match b with Some z => JNum (f z) | None => JUndefined end.

(** [decodeMsgpack(buffer, offset)].  [depth] is the room left on the call
    stack; the recursive calls run one level deeper. *)
Fixpoint decodeMsgpack (depth : nat) (buffer : list byte) (offset : Num)
  : Completion (JsVal * Num) :=
  match depth with
  | O => Throw StackOverflow
  | S depth' =>
    let recur := decodeMsgpack depth' buffer in
    match offset with
    | NaN => Throw (Error (unsupportedMessage None NaN))
    | Int offset =>
    match byteAt buffer offset with
    | None => Throw (Error (unsupportedMessage None (Int offset)))
    | Some type =>
      if type =? 0xc0 then advance (JNull, offset + 1)
      else if type =? 0xc2 then advance (JBool false, offset + 1)
      else if type =? 0xc3 then advance (JBool true, offset + 1)
      else if type <=? 0x7f then advance (JNum type, offset + 1)
      else if 0xe0 <=? type then advance (JNum (type - 0x100), offset + 1)
      else if Z.land type 0xe0 =? 0xa0 then
        let len := Z.land type 0x1f in
        let offset := offset + 1 in
        advance (JStr (utf8Decode api (slice buffer offset (offset + len))), offset + len)
      else if Z.land type 0xf0 =? 0x80 then
        decodePairs recur (Z.land type 0x0f) (offset + 1)
      else if Z.land type 0xf0 =? 0x90 then
        decodeItems recur (Z.land type 0x0f) (offset + 1)
      else if type =? 0xc4 then advance (readBin buffer offset 1)
      else if type =? 0xc5 then advance (readBin buffer offset 2)
      else if type =? 0xc6 then advance (readBin buffer offset 4)
      else if type =? 0xc7 then Normal (readExt8 buffer offset)
      else if type =? 0xc8 then
        advance (readExt buffer offset 4 (be16 buffer (offset + 1)))
      else if type =? 0xc9 then
        advance (readExt buffer offset 6 (be32 buffer (offset + 1)))
      else if type =? 0xd4 then advance (readExt buffer offset 2 1)
      else if type =? 0xd5 then advance (readExt buffer offset 2 2)
      else if type =? 0xd6 then advance (readExt buffer offset 2 4)
      else if type =? 0xd7 then advance (readExt buffer offset 2 8)
      else if type =? 0xd8 then advance (readExt buffer offset 2 16)
      else if type =? 0xca then
        cbind (dataView buffer (offset + 1) 4) (λ view,
        advance (JFloat F32 (beUnsigned view), offset + 5))
      else if type =? 0xcb then
        cbind (dataView buffer (offset + 1) 8) (λ view,
        advance (JFloat F64 (beUnsigned view), offset + 9))
      else if type =? 0xcc then
        advance (numOf (byteAt buffer (offset + 1)) id, offset + 2)
      else if type =? 0xcd then
        advance (JNum (be16 buffer (offset + 1)), offset + 3)
      else if type =? 0xce then
        advance (JNum (toUint32 (be32 buffer (offset + 1))), offset + 5)
      else if type =? 0xcf then
        cbind (dataView buffer (offset + 1) 8) (λ view,
        advance (JNum (bigintToNumber (beUnsigned view)), offset + 9))
      else if type =? 0xd0 then
        advance (numOf (byteAt buffer (offset + 1))
                (λ v, if 127 <? v then v - 256 else v), offset + 2)
      else if type =? 0xd1 then
        let v := be16 buffer (offset + 1) in
        advance (JNum (if 32767 <? v then v - 65536 else v), offset + 3)
      else if type =? 0xd2 then
        advance (JNum (toInt32 (be32 buffer (offset + 1))), offset + 5)
      else if type =? 0xd3 then
        cbind (dataView buffer (offset + 1) 8) (λ view,
        let u := beUnsigned view in
        advance (JNum (bigintToNumber (if u <? 2 ^ 63 then u else u - 2 ^ 64)),
              offset + 9))
      else if type =? 0xd9 then advance (readStr buffer offset 1)
      else if type =? 0xda then advance (readStr buffer offset 2)
      else if type =? 0xdb then advance (readStr buffer offset 4)
      else if type =? 0xdc then
        decodeItems recur (be16 buffer (offset + 1)) (offset + 3)
      else if type =? 0xdd then
        decodeItems recur (be32 buffer (offset + 1)) (offset + 5)
      else if type =? 0xde then
        decodePairs recur (be16 buffer (offset + 1)) (offset + 3)
      else if type =? 0xdf then
        decodePairs recur (be32 buffer (offset + 1)) (offset + 5)
      else Throw (Error (unsupportedMessage (Some type) (Int offset)))
    end
    end
  end.

(** [value instanceof Uint8Array]: [Uint8Array.prototype] is on the
    prototype chain of a typed array and of every object that inherits from
    one. *)
Fixpoint instanceofUint8Array (value : JsVal) : bool :=
  match value with
  | JBytes _ => true
  | JObjProto proto _ => instanceofUint8Array proto
  | _ => false
  end.

(** [Object.fromEntries(entries)]: a new object that inherits from
    [Object.prototype], with one own property for each key, in the order of
    own properties. *)
Definition fromEntries (entries : list (string * JsVal)) : JsVal :=
  JObj (fold_left
          (λ props '(k, v),
             match lookupProp props k with
             | Some _ => setProp props k v
             | None => defineOwn props k v
             end)
          entries []).

(** [normalizeMsgpackValue(value)].  [TextDecoder.decode] refuses an object
    that is not a buffer source, which an object that inherits from a
    [Uint8Array] is not. *)
Fixpoint normalizeMsgpackValue (value : JsVal) : Completion JsVal :=
  let entries :=
    fix entries (props : list (string * JsVal))
      : Completion (list (string * JsVal)) :=
      match props with
      | [] => Normal []
      | (k, v) :: rest =>
          cbind (normalizeMsgpackValue v) (λ v',
          cbind (entries rest) (λ rest', Normal ((k, v') :: rest')))
      end in
  match value with
  | JBytes bs => Normal (JStr (utf8Decode api bs))
  | JArr items =>
      cbind
        ((fix each (items : list JsVal) : Completion (list JsVal) :=
            match items with
            | [] => Normal []
            | x :: rest =>
                cbind (normalizeMsgpackValue x) (λ x',
                cbind (each rest) (λ rest', Normal (x' :: rest')))
            end) items)
        (λ items', Normal (JArr items'))
  | JObj props => cbind (entries props) (λ es, Normal (fromEntries es))
  | JObjProto proto props =>
      if instanceofUint8Array proto
      then Throw (TypeError "TextDecoder.decode: the input is not a buffer source")
      else cbind (entries props) (λ es, Normal (fromEntries es))
  | _ => Normal value
  end.

End Decoder.
End Msgpack.


(* ===================================================================== *)
(** * Data model (indexeddb-manager.ts, StreamingProgress)                 *)
(* ===================================================================== *)

Module Model.
Import Value.

(** [status: 'processing' | 'completed' | 'error'] *)
Inductive Status := Processing | Completed | Errored.

Global Instance Status_eq_dec : EqDecision Status.
Proof. solve_decision. Defined.

(** [SnapshotMetadata].  Optional fields of type [any] or [string] hold
    [JUndefined] when absent. *)
Record SnapshotMetadata := {
  snapshotId : string;
  projectId : JsVal;
  queueId : JsVal;
  messageCount : JsVal;
  totalMessages : option Z;
  processedMessages : Z;
  firstMessageDate : JsVal;
  lastMessageDate : JsVal;
  createdAt : string;
  status : Status;
  error : option string;
}.

(** [stage] of a progress event. *)
Inductive Stage :=
| StDownloading | StDecrypting | StProcessing | StSaving | StCompleted | StError.

(** [message] of a progress event: the fixed texts and the templates of the
    multi-worker pipeline, with the numbers the templates print. *)
Inductive ProgressText :=
| TxtAlreadyLoaded                    (* 'Snapshot already loaded in IndexedDB' *)
| TxtDownloading                      (* 'Downloading snapshot file...' *)
| TxtStatus (status : string)         (* the status text of decryptSnapshot *)
| TxtProcessingData                   (* 'Processing snapshot data...' *)
| TxtNoMessages                       (* 'Snapshot contains no messages to cache.' *)
| TxtAllCached                        (* 'All messages already cached - skipped reprocessing.' *)
| TxtResuming (resumeFrom : Z)        (* `Resuming from ${resumeFrom} cached messages...` *)
| TxtInitializing (workers : nat)     (* `Initializing ${n} workers for parallel processing...` *)
| TxtProcessingWith (workers : nat) (processed denominator : Z)
| TxtResumeComplete (workers : nat) (remaining total : Z)
| TxtComplete (workers : nat) (total : Z)
| TxtFailed.                          (* 'Failed to load snapshot' *)

(** [StreamingProgress].  The wall-clock fields ([decryptDurationMs],
    [insertDurationMs], [totalDurationMs], [throughputMessagesPerSec]) are
    readings of [performance.now()] and are not part of the record. *)
Record StreamingProgress := {
  stage : Stage;
  progress : Z;
  message : ProgressText;
  progressProcessed : option Z;      (* processedMessages *)
  progressTotal : option Z;          (* totalMessages *)
  progressError : option string;     (* error *)
  insertedMessages : option Z;
}.

(** Messages a save worker posts to the pool. *)
Inductive WorkerMsg :=
| WProgress (chunkIndex : nat) (saved total : Z)
| WComplete (chunkIndex : nat) (saved : Z)
| WError (chunkIndex : nat) (error : string).

(** One attempt of the batch write inside a worker: the transaction commits
    after [succeeded] puts reported success, or fails after that many. *)
Inductive AttemptOutcome :=
| Committed (succeeded : nat)
| Failed (succeeded : nat) (error : JsError).

(** What a worker does with one chunk, in order. *)
Inductive WorkerAction :=
| ActAttempt (attempt : Z) (messages : list JsVal) (outcome : AttemptOutcome)
| ActSleep (delay : Q)
| ActPost (msg : WorkerMsg).

(** Observable effects, in the order they happen. *)
Inductive Effect :=
| EFetch (url : string)
| ERsaDecrypt (data : JsVal) (result : Completion (list byte))
| EAesGcmDecrypt (iv data : list byte) (result : Completion (list byte))
| EGunzip (data : list byte)
| ESaveMetadata (m : SnapshotMetadata)
| EProgress (p : StreamingProgress)
| EPoolCreated (workerCount totalChunks : nat)
| ESubmit (chunkIndex : nat) (chunk : list JsVal)
| EPostToWorker (worker chunkIndex : nat) (chunk : list JsVal)
| EWorker (worker : nat) (action : WorkerAction)
| EPoolTerminated.

Definition isPoolCreated (e : Effect) : bool :=
  match e with EPoolCreated _ _ => true | _ => false end.

End Model.

(* ===================================================================== *)
(** * Asynchronous code as a monad                                         *)
(* ===================================================================== *)

Module Async.
Import Value Model.

(** The result of running an [async] function from a given metadata store:
    how it settled ([None]: the promise never settles), the store it left,
    and the effects it caused. *)
Record Run (A : Type) := {
  outcome : option (Completion A);
  storeAfter : gmap string SnapshotMetadata;
  effects : list Effect;
}.
Arguments outcome {A} r.
Arguments storeAfter {A} r.
Arguments effects {A} r.

Definition M (A : Type) : Type := gmap string SnapshotMetadata → Run A.

Definition ret {A} (a : A) : M A :=
  λ s, {| outcome := Some (Normal a); storeAfter := s; effects := [] |}.

Definition throw {A} (e : JsError) : M A :=
  λ s, {| outcome := Some (Throw e); storeAfter := s; effects := [] |}.

(** [await] of a promise that never settles. *)
Definition never {A} : M A :=
  λ s, {| outcome := None; storeAfter := s; effects := [] |}.

Definition bind {A B} (m : M A) (k : A → M B) : M B :=
  λ s,
    let r := m s in
    match outcome r with
    | Some (Normal a) =>
        let r' := k a (storeAfter r) in
        {| outcome := outcome r'; storeAfter := storeAfter r';
           effects := effects r ++ effects r' |}
    | Some (Throw e) =>
        {| outcome := Some (Throw e); storeAfter := storeAfter r; effects := effects r |}
    | None =>
        {| outcome := None; storeAfter := storeAfter r; effects := effects r |}
    end.

(** [try { m } catch (e) { handler e }] *)
Definition tryCatch {A} (m : M A) (handler : JsError → M A) : M A :=
  λ s,
    let r := m s in
    match outcome r with
    | Some (Throw e) =>
        let r' := handler e (storeAfter r) in
        {| outcome := outcome r'; storeAfter := storeAfter r';
           effects := effects r ++ effects r' |}
    | _ => r
    end.

(** [try { m } finally { fin }], for a [fin] that completes normally. *)
Definition tryFinally {A} (m : M A) (fin : M unit) : M A :=
  λ s,
    let r := m s in
    match outcome r with
    | Some c =>
        let r' := fin (storeAfter r) in
        {| outcome := match outcome r' with
                      | Some (Normal _) => Some c
                      | Some (Throw e) => Some (Throw e)
                      | None => None
                      end;
           storeAfter := storeAfter r';
           effects := effects r ++ effects r' |}
    | None => r
    end.

(** A run preceded by the effects [es]. *)
Definition prepend {A} (es : list Effect) (r : Run A) : Run A :=
  {| outcome := outcome r; storeAfter := storeAfter r; effects := es ++ effects r |}.

Definition emit (e : Effect) : M unit :=
  λ s, {| outcome := Some (Normal tt); storeAfter := s; effects := [e] |}.

Definition lift {A} (c : Completion A) : M A :=
  match c with
  | Normal a => ret a
  | Throw e => throw e
  end.

(** [dbManager.getMetadata(id)]: [request.result || null]. *)
Definition getMetadata (id : string) : M (option SnapshotMetadata) :=
  λ s, {| outcome := Some (Normal (s !! id)); storeAfter := s; effects := [] |}.

(** [dbManager.saveMetadata(m)]: [store.put(m)] under the key path
    [snapshotId]. *)
Definition saveMetadata (m : SnapshotMetadata) : M unit :=
  λ s, {| outcome := Some (Normal tt);
          storeAfter := <[snapshotId m := m]> s;
          effects := [ESaveMetadata m] |}.

Module Import Notations.
  Notation "'let*' x ':=' m 'in' k" := (bind m (λ x, k))
    (at level 10, x name, m at level 100, k at level 200,
     format "'let*'  x  :=  m  'in'  '//' k") : stdpp_scope.
  Notation "'let*' ' pat ':=' m 'in' k" :=
    (bind m (λ x, match x with pat => k end))
    (at level 10, pat pattern, m at level 100, k at level 200) : stdpp_scope.
End Notations.

End Async.


(* ===================================================================== *)
(** * Envelope decoding and decryption (decrypt-snapshot.ts)               *)
(* ===================================================================== *)

Module Decrypt.
Import Js Value Platform Msgpack Model Async Async.Notations.

(** [fileSource: string | ArrayBuffer | Blob] *)
Inductive FileSource :=
| FromUrl (url : string)
| FromBlob (content : list byte)
| FromBuffer (content : list byte).

Section WithApi.
Context (api : Api).

(** [crypto.subtle.decrypt({ name: 'RSA-OAEP' }, privateKey, data)]: [data]
    must be a buffer source. *)
Definition rsaDecrypt (privateKey : list byte) (data : JsVal) : M (list byte) :=
  let result :=
    match data with
    | JBytes bs => rsaOaepDecrypt api privateKey bs
    | _ => Throw (TypeError "RSA-OAEP data is not a BufferSource")
    end in
  let* _ := emit (ERsaDecrypt data result) in
  lift result.

(** [crypto.subtle.decrypt({ name: 'AES-GCM', iv, tagLength: 128 }, key, data)] *)
Definition aesDecrypt (key iv data : list byte) : M (list byte) :=
  let result := aesGcmDecrypt api key iv data in
  let* _ := emit (EAesGcmDecrypt iv data result) in
  lift result.

(** [decompressGzip(data)] *)
Definition decompressGzip (data : list byte) : M (list byte) :=
  let* _ := emit (EGunzip data) in
  lift (gunzip api data).

(** [base64ToUint8Array(base64)]: [atob] converts its argument to a string. *)
Definition base64ToUint8Array (base64 : JsVal) : M (list byte) :=
  let* text := lift (toString api base64) in
  lift (atob api text).

(** [importPrivateKey(pemKey)] *)
Definition importPrivateKey (pemKey : string) : M (list byte) :=
  let pemContents := pemBody api pemKey in
  let* binaryDer := lift (atob api pemContents) in
  lift (importPkcs8 api binaryDer).

(** [decryptJsonSnapshot(payload, privateKey)] *)
Definition decryptJsonSnapshot (payload : JsVal) (privateKey : list byte) : M JsVal :=
  let* enc := lift (getProp payload "enc") in
  let field name := match getProp enc name with Normal x => x | Throw _ => JUndefined end in
  if negb (truthy enc) || negb (truthy (field "wrappedKey"))
     || negb (truthy (field "ciphertext")) || negb (truthy (field "nonce"))
     || negb (truthy (field "tag"))
  then throw (Error "Invalid snapshot format: missing encryption fields")
  else
    let* wrappedKeyBytes := base64ToUint8Array (field "wrappedKey") in
    let* contentKeyBytes := rsaDecrypt privateKey (JBytes wrappedKeyBytes) in
    let* contentKey := lift (importAesKey api contentKeyBytes) in
    let* cipherBytes := base64ToUint8Array (field "ciphertext") in
    let* tagBytes := base64ToUint8Array (field "tag") in
    let* nonceBytes := base64ToUint8Array (field "nonce") in
    let cipherWithTag := cipherBytes ++ tagBytes in
    let* plainBytes := aesDecrypt contentKey nonceBytes cipherWithTag in
    let* finalBytes :=
      if strictEqStr (field "compression") "gzip"
      then decompressGzip plainBytes
      else ret plainBytes in
    let jsonText := utf8Decode api finalBytes in
    lift (jsonParse api jsonText).

(** [new DataView(buffer.buffer).getUint32(offset)]: big-endian; the offset
    goes through ToIndex ([NaN] becomes 0, a negative offset is refused). *)
Definition getUint32 (buffer : list byte) (offset : Num) : Completion Z :=
  let i := toInteger offset in
  if (i <? 0) || (Z.of_nat (length buffer) <? i + 4)
  then Throw (RangeError "getUint32 out of bounds")
  else Normal (beUnsigned (slice buffer i (i + 4))).

(** The parsing half of [decryptOsnpSnapshot]: everything before the first
    call into Web Crypto. *)
Record OsnpEnvelope := {
  osnpHeaderOffset : Z;
  osnpHeader : JsVal;
  osnpAfterHeader : Num;
  osnpCipherLen : Z;
  osnpNonce : list byte;
  osnpTag : list byte;
  osnpCiphertext : list byte;
}.

Definition parseOsnp (buffer : list byte) : Completion OsnpEnvelope :=
  if Z.of_nat (length buffer) <? 32 then Throw (Error "Snapshot buffer is too small")
  else
    let magic := utf8Decode api (slice buffer 0 4) in
    if negb (String.eqb magic "OSNP") then Throw (Error "Not an OSNP snapshot")
    else
      cbind
        (match decodeMsgpack api (stackDepth api) buffer (Int 9) with
         | Normal r => Normal (9, r)
         | Throw _ =>
             cbind (decodeMsgpack api (stackDepth api) buffer (Int 8))
                   (λ r, Normal (8, r))
         end)
        (λ '(headerOffset, (header, afterHeader)),
          if negb (truthy header) || negb (typeofObject header)
             || negb (truthy (match getProp header "wrappedKey" with
                              | Normal x => x
                              | Throw _ => JUndefined
                              end))
          then Throw (Error "Invalid OSNP header")
          else
            cbind (getUint32 buffer afterHeader) (λ cipherLen,
              let nonceStart := addNum afterHeader 4 in
              Normal {|
                osnpHeaderOffset := headerOffset;
                osnpHeader := header;
                osnpAfterHeader := afterHeader;
                osnpCipherLen := cipherLen;
                osnpNonce := sliceNum buffer nonceStart (addNum nonceStart 12);
                osnpTag := sliceNum buffer (addNum nonceStart 12) (addNum nonceStart 28);
                osnpCiphertext :=
                  sliceNum buffer (addNum nonceStart 28)
                           (addNum (addNum nonceStart 28) cipherLen);
              |})).

(** [decryptOsnpSnapshot(buffer, privateKey)] *)
Definition decryptOsnpSnapshot (buffer : list byte) (privateKey : list byte) : M JsVal :=
  let* env := lift (parseOsnp buffer) in
  let header := osnpHeader env in
  let field name :=
    match getProp header name with Normal x => x | Throw _ => JUndefined end in
  let* contentKeyBytes := rsaDecrypt privateKey (field "wrappedKey") in
  let* contentKey := lift (importAesKey api contentKeyBytes) in
  let cipherWithTag := osnpCiphertext env ++ osnpTag env in
  let* plainBytes := aesDecrypt contentKey (osnpNonce env) cipherWithTag in
  let* finalBytes :=
    if strictEqStr (field "compression") "gzip"
    then decompressGzip plainBytes
    else ret plainBytes in
  tryCatch
    (let jsonText := utf8Decode api finalBytes in
     lift (jsonParse api jsonText))
    (λ _,
      let* msg := lift (decodeMsgpack api (stackDepth api) finalBytes (Int 0)) in
      lift (normalizeMsgpackValue api msg.1)).

(** [decryptSnapshot(fileSource, privateKeyPem, onProgress)].  The outer
    [catch] logs and rethrows. *)
Definition decryptSnapshot (fileSource : FileSource) (privateKeyPem : string)
    (onProgress : string → M unit) : M JsVal :=
  let* arrayBuffer :=
    match fileSource with
    | FromUrl url =>
        let* _ := onProgress "Downloading snapshot file..." in
        let* _ := emit (EFetch url) in
        let* response := lift (fetch api url) in
        let '(ok, statusCode, body) := response in
        if negb ok
        then throw (Error ("Failed to download file: " +:+ toDecimal statusCode))
        else ret body
    | FromBlob content =>
        let* _ := onProgress "Reading snapshot blob..." in
        ret content
    | FromBuffer content =>
        let* _ := onProgress "Reading staged snapshot..." in
        ret content
    end in
  let buffer := arrayBuffer in
  let* _ := onProgress "Importing private key..." in
  let* privateKey := importPrivateKey privateKeyPem in
  let* _ := onProgress "Decrypting snapshot..." in
  tryCatch
    (let text := utf8Decode api buffer in
     let* parsed := lift (jsonParse api text) in
     decryptJsonSnapshot parsed privateKey)
    (λ _, decryptOsnpSnapshot buffer privateKey).

(** [decryptSnapshotData(encryptedData, privateKeyPem)] of the inline decrypt
    worker (decrypt-snapshot-streaming-full-worker.ts): a flagless layout,
    256 bytes of wrapped key, 12 bytes of IV, then the ciphertext. *)
Definition decryptSnapshotData (encryptedData : list byte) (privateKeyPem : string)
  : M JsVal :=
  let pemContents := pemBodyWorker api privateKeyPem in
  let* privateKeyBuffer := lift (atob api pemContents) in
  let* privateKey := lift (importPkcs8 api privateKeyBuffer) in
  let encryptedAesKey := slice encryptedData 0 256 in
  let encryptedContent := sliceFrom encryptedData 256 in
  let* aesKeyBuffer := rsaDecrypt privateKey (JBytes encryptedAesKey) in
  let iv := slice encryptedContent 0 12 in
  let ciphertext := sliceFrom encryptedContent 12 in
  let* aesKey := lift (importAesKey api aesKeyBuffer) in
  let* decryptedData := aesDecrypt aesKey iv ciphertext in
  let* decompressed :=
    if bool_decide (byteAt decryptedData 0 = Some 0x1f)
       && bool_decide (byteAt decryptedData 1 = Some 0x8b)
    then decompressGzip decryptedData
    else ret decryptedData in
  let jsonText := utf8Decode api decompressed in
  lift (jsonParse api jsonText).

End WithApi.
End Decrypt.


(* ===================================================================== *)
(** * A small concrete platform, for running the model on examples         *)
(* ===================================================================== *)

Module TestPlatform.
Import Js Value Platform.

(** Text is decoded byte for byte; [JSON.parse] knows two texts; base64 is
    the identity on bytes; the "ciphers" are the identity, AES-GCM dropping
    the 16-byte tag; "gunzip" drops the two magic bytes. *)
Definition testApi : Api := {|
  utf8Decode := string_of_list_byte;
  jsonParse := λ text,
    if String.eqb text "{}" then Normal (JObj [])
    else if String.eqb text "[]" then Normal (JArr [])
    else Throw (ApiError "JSON.parse" "SyntaxError");
  numberToString := λ v, match v with JNum z => toDecimal z | _ => "NaN" end;
  atob := λ text, Normal (list_byte_of_string text);
  pemBody := λ pem, pem;
  fetch := λ url, Normal (true, 200, list_byte_of_string url);
  importPkcs8 := λ der, Normal der;
  rsaOaepDecrypt := λ _ data, Normal data;
  importAesKey := λ key, Normal key;
  aesGcmDecrypt := λ _ _ data, Normal (take (length data - 16) data);
  gunzip := λ data, Normal (drop 2 data);
  engineMessage := λ _, "engine error";
  stackDepth := 64;
  isoNow := "2024-01-01T00:00:00.000Z";
  pemBodyWorker := λ pem, pem;
  arrayLikeToString := λ _, Normal "";
  typedArraySet := λ obj _ _, Normal obj;
|}.

(** "OSNP", five header bytes, then the MessagePack map
    [{ wrappedKey: <bin 8, 2 bytes> }]. *)
Definition osnpPrefix : list byte :=
  [x4f; x53; x4e; x50; x00; x01; x00; x00; x00;
   x81; xaa; x77; x72; x61; x70; x70; x65; x64; x4b; x65; x79;
   xc4; x02; xaa; xbb].

Definition testNonce : list byte :=
  [x01; x02; x03; x04; x05; x06; x07; x08; x09; x0a; x0b; x0c].

Definition testTag : list byte :=
  [xf0; xf1; xf2; xf3; xf4; xf5; xf6; xf7; xf8; xf9; xfa; xfb; xfc; xfd; xfe; xff].

(** A complete OSNP buffer: cipher length 2, nonce, tag, ciphertext "{}". *)
Definition osnpComplete : list byte :=
  osnpPrefix ++ [x00; x00; x00; x02] ++ testNonce ++ testTag ++ [x7b; x7d].

(** The same envelope cut after its cipher length and padded by three bytes
    so that it still has 32 bytes. *)
Definition osnpTruncated : list byte :=
  osnpPrefix ++ [x00; x00; x00; x02] ++ [x01; x02; x03].

End TestPlatform.


(** * Predicates used in the statements about the envelope decoder *)

Module DecryptSpec.
Import Js Value Platform Msgpack Model Async Decrypt.

(** The ASCII codes of "OSNP". *)
Definition magicBytes : list byte := [x4f; x53; x4e; x50].

(** [TextDecoder] maps four bytes to "OSNP" exactly when they are the ASCII
    codes of the four letters. *)
Definition decodesMagic (api : Api) : Prop :=
  ∀ bs : list byte, length bs = 4%nat →
    (utf8Decode api bs = "OSNP" ↔ bs = magicBytes).

(** The data handed to [decompressGzip], in order. *)
Definition gunzipCalls (es : list Effect) : list (list byte) :=
  omap (λ e, match e with EGunzip data => Some data | _ => None end) es.

(** The plaintexts returned by successful AES-GCM decryptions, in order. *)
Definition aesPlaintexts (es : list Effect) : list (list byte) :=
  omap (λ e, match e with
             | EAesGcmDecrypt _ _ (Normal plain) => Some plain
             | _ => None
             end) es.

(** [enc.compression === 'gzip'] of a JSON envelope, [header.compression ===
    'gzip'] of an OSNP header. *)
Definition compressionIsGzip (container : JsVal) : bool :=
  match getProp container "compression" with
  | Normal x => strictEqStr x "gzip"
  | Throw _ => false
  end.

(** The decrypted bytes begin with the gzip magic [0x1f 0x8b]. *)
Definition beginsWithGzipMagic (bytes : list byte) : bool :=
  match bytes with
  | b0 :: b1 :: _ => Byte.eqb b0 x1f && Byte.eqb b1 x8b
  | _ => false
  end.

End DecryptSpec.


Module DecryptExamples.
Import Js Value Platform Msgpack Model Async Decrypt TestPlatform.

(** A JSON envelope without a [compression] field whose "ciphertext" is the
    gzip magic followed by "{}". *)
Definition jsonEnvelopeNoFlag : JsVal :=
  JObj [("enc",
         JObj [("wrappedKey", JStr "k");
               ("ciphertext", JStr (string_of_list_byte [x1f; x8b; x7b; x7d]));
               ("nonce", JStr "n");
               ("tag", JStr "0123456789abcdef")])].

(** The same envelope with [compression: 'gzip']. *)
Definition jsonEnvelopeGzip : JsVal :=
  JObj [("enc",
         JObj [("wrappedKey", JStr "k");
               ("ciphertext", JStr (string_of_list_byte [x1f; x8b; x7b; x7d]));
               ("nonce", JStr "n");
               ("tag", JStr "0123456789abcdef");
               ("compression", JStr "gzip")])].

(** An OSNP buffer without a [compression] field in its header whose
    ciphertext is the gzip magic followed by "{}". *)
Definition osnpNoFlag : list byte :=
  osnpPrefix ++ [x00; x00; x00; x04] ++ testNonce ++ testTag ++ [x1f; x8b; x7b; x7d].

(** "OSNP", five header bytes, then the MessagePack map
    [{ wrappedKey: <bin 8, 2 bytes>, "__proto__": { compression: "gzip" } }],
    whose second key makes the inner map the prototype of the header; the
    ciphertext is the gzip magic followed by "{}". *)
Definition osnpInheritedGzip : list byte :=
  [x4f; x53; x4e; x50; x00; x01; x00; x00; x00;
   x82; xaa; x77; x72; x61; x70; x70; x65; x64; x4b; x65; x79; xc4; x02; xaa; xbb;
   xa9; x5f; x5f; x70; x72; x6f; x74; x6f; x5f; x5f;
   x81; xab; x63; x6f; x6d; x70; x72; x65; x73; x73; x69; x6f; x6e;
   xa4; x67; x7a; x69; x70]
  ++ [x00; x00; x00; x04] ++ testNonce ++ testTag ++ [x1f; x8b; x7b; x7d].

(** "OSNP", five header bytes, then the MessagePack map
    [{ "__proto__": { wrappedKey: <bin 8, 2 bytes> } }]: the header has no
    own property and inherits [wrappedKey]; ciphertext "{}". *)
Definition osnpInheritedKey : list byte :=
  [x4f; x53; x4e; x50; x00; x01; x00; x00; x00;
   x81; xa9; x5f; x5f; x70; x72; x6f; x74; x6f; x5f; x5f;
   x81; xaa; x77; x72; x61; x70; x70; x65; x64; x4b; x65; x79; xc4; x02; xaa; xbb]
  ++ [x00; x00; x00; x02] ++ testNonce ++ testTag ++ [x7b; x7d].

(** Input of the inline decrypt worker: 256 bytes of wrapped key, the IV,
    then a ciphertext that decrypts to the gzip magic followed by "{}". *)
Definition workerInputGzip : list byte :=
  replicate 256 x00 ++ testNonce ++ [x1f; x8b; x7b; x7d] ++ testTag.

(** The MessagePack map [{ {"toString": 1}: 2 }], whose key is a map with
    an own property [toString]. *)
Definition mapWithUnprintableKey : list byte :=
  [x81; x81; xa8; x74; x6f; x53; x74; x72; x69; x6e; x67; x01; x02].

(** The MessagePack map [{ "b": 1, "10": 2, "9": 3, "b": 4 }]. *)
Definition mapWithIndexKeys : list byte :=
  [x84; xa1; x62; x01; xa2; x31; x30; x02; xa1; x39; x03; xa1; x62; x04].

End DecryptExamples.


(* ===================================================================== *)
(** * Save workers (the inline worker script of [WorkerPool])              *)
(* ===================================================================== *)

Module Worker.
Import Js Value Platform Model.

Definition MAX_RETRIES : nat := 3.
Definition BASE_BACKOFF_MS : Z := 150.
Definition PROGRESS_REPORT_INTERVAL : Z := 100.

(** The storage engine and the random source, as seen by one chunk:
    the outcome of the batch write at each attempt (1, 2, 3) and the value
    of [Math.random()] drawn after a failed attempt. *)
Record ChunkEnv := {
  attemptOutcome : nat → AttemptOutcome;
  randomDraw : nat → Q;
}.

(** The arguments [saveMessagesBatch] passes to [onProgress] while [n] puts
    succeed one after the other, counting from [from + 1]: every multiple
    of 100 and the total. *)
Fixpoint putCallbacks (n : nat) (completed total : Z) : list Z :=
  match n with
  | O => []
  | S n' =>
      let completed := completed + 1 in
      (if (completed mod PROGRESS_REPORT_INTERVAL =? 0) || (completed =? total)
       then [completed] else [])
      ++ putCallbacks n' completed total
  end.

(** [saveMessagesBatch(snapshotId, messages, onProgress)], one attempt: the
    calls of [onProgress], and how the promise settles ([resolve(completed)]
    or a rejection). *)
Definition saveMessagesBatch (messages : list JsVal) (outcome : AttemptOutcome)
  : list Z * Completion Z :=
  let total := length messages in
  match outcome with
  | Committed succeeded =>
      let completed := Nat.min succeeded total in
      (putCallbacks completed 0 (Z.of_nat total)
       ++ (if Z.of_nat completed =? Z.of_nat total then [] else [Z.of_nat completed]),
       Normal (Z.of_nat completed))
  | Failed succeeded e =>
      let completed := Nat.min succeeded total in
      (putCallbacks completed 0 (Z.of_nat total), Throw e)
  end.

(** The [onProgress] callback of the worker's message handler: it records
    [savedCount] and posts PROGRESS at multiples of 100 and at the total. *)
Definition progressPosts (chunkIndex : nat) (total : Z) (calls : list Z)
  : list WorkerAction :=
  omap (λ saved,
          if (saved mod 100 =? 0) || (saved =? total)
          then Some (ActPost (WProgress chunkIndex saved total)) else None)
       calls.

Definition lastSaved (savedCount : Z) (calls : list Z) : Z :=
  default savedCount (last calls).

(** [delay = BASE_BACKOFF_MS * attempt + Math.random() * 200] *)
Definition backoffDelay (attempt : nat) (random : Q) : Q :=
  (inject_Z (BASE_BACKOFF_MS * Z.of_nat attempt) + random * 200)%Q.

(** [saveMessagesBatchWithRetry]: the loop
    [for (attempt = 1; attempt <= MAX_RETRIES; attempt++)], entered at
    [attempt] with [remaining = MAX_RETRIES - attempt + 1] rounds to go.
    Returns what the worker did, the last value of [savedCount], and how the
    promise settles. *)
Fixpoint retryLoop (env : ChunkEnv) (chunkIndex : nat) (messages : list JsVal)
    (remaining attempt : nat) (savedCount : Z)
  : list WorkerAction * Z * Completion unit :=
  match remaining with
  | O => ([], savedCount, Normal tt)
  | S remaining' =>
      let outcome := attemptOutcome env attempt in
      let '(calls, settled) := saveMessagesBatch messages outcome in
      let acts := ActAttempt (Z.of_nat attempt) messages outcome
                  :: progressPosts chunkIndex (Z.of_nat (length messages)) calls in
      let savedCount := lastSaved savedCount calls in
      match settled with
      | Normal _ => (acts, savedCount, Normal tt)
      | Throw e =>
          if decide (attempt = MAX_RETRIES) then (acts, savedCount, Throw e)
          else
            let delay := backoffDelay attempt (randomDraw env attempt) in
            let '(acts', savedCount', settled') :=
              retryLoop env chunkIndex messages remaining' (S attempt) savedCount in
            (acts ++ ActSleep delay :: acts', savedCount', settled')
      end
  end.

Definition saveMessagesBatchWithRetry (env : ChunkEnv) (chunkIndex : nat)
    (messages : list JsVal) : list WorkerAction * Z * Completion unit :=
  retryLoop env chunkIndex messages MAX_RETRIES 1 0.

(** [error.message || 'Unknown error'] *)
Definition workerErrorText (api : Api) (e : JsError) : string :=
  let message := errorMessage api e in
  if String.eqb message "" then "Unknown error" else message.

(** [self.onmessage] for a SAVE_BATCH task: everything the worker does for
    one chunk, ending with exactly one COMPLETE or ERROR. *)
Definition workerScript (api : Api) (env : ChunkEnv) (chunkIndex : nat)
    (messages : list JsVal) : list WorkerAction :=
  let '(acts, savedCount, settled) :=
    saveMessagesBatchWithRetry env chunkIndex messages in
  acts ++ [ActPost (match settled with
                    | Normal _ => WComplete chunkIndex savedCount
                    | Throw e => WError chunkIndex (workerErrorText api e)
                    end)].

End Worker.

(* ===================================================================== *)
(** * The worker pool ([class WorkerPool])                                 *)
(* ===================================================================== *)

Module Pool.
Import Js Value Platform Model Worker.

Record Task := { taskChunk : list JsVal; taskIndex : nat }.

(** The pool, the workers it owns, and the state of the progress callback
    it was built with ([updateProgress]: [chunkProgress], [totalProcessed]).
    [running] maps a busy worker to the actions it still has to perform. *)
Record State := {
  workerCount : nat;
  availableWorkers : list nat;
  taskQueue : list Task;
  running : list (nat * list WorkerAction);
  chunkProgress : gmap nat (Z * Z);
  totalProcessed : Z;
}.

Section WithEnv.
Context (api : Api).
(** [CONFIG.WORKER_COUNT], the storage and random behaviour per chunk, and
    the order in which the event loop serves the busy workers. *)
Context (WORKER_COUNT : nat) (chunkEnv : nat → ChunkEnv).
(** [totalMessages] and [messagesToInsert.length] of the run. *)
Context (totalMessages insertCount : Z).

(** [new WorkerPool(workerCount, ...)]: [initializeWorkers] makes every
    worker available. *)
Definition create (workers : nat) (resumeFrom : Z) : State := {|
  workerCount := workers;
  availableWorkers := seq 0 workers;
  taskQueue := [];
  running := [];
  chunkProgress := ∅;
  totalProcessed := resumeFrom;
|}.

(** A worker handles its messages one at a time: a task posted to a busy
    worker is run after the one in hand. *)
Fixpoint enqueueAt (w : nat) (script : list WorkerAction)
    (rs : list (nat * list WorkerAction)) : list (nat * list WorkerAction) :=
  match rs with
  | [] => [(w, script)]
  | (w', acts) :: rest =>
      if decide (w' = w) then (w', acts ++ script) :: rest
      else (w', acts) :: enqueueAt w script rest
  end.

(** [processNextTask()] *)
Definition processNextTask (st : State) : State * list Effect :=
  match taskQueue st, availableWorkers st with
  | task :: queue', workerIndex :: available' =>
      ({| workerCount := workerCount st;
          availableWorkers := available';
          taskQueue := queue';
          running := enqueueAt workerIndex
                       (workerScript api (chunkEnv (taskIndex task))
                          (taskIndex task) (taskChunk task))
                       (running st);
          chunkProgress := chunkProgress st;
          totalProcessed := totalProcessed st |},
       [EPostToWorker workerIndex (taskIndex task) (taskChunk task)])
  | _, _ => (st, [])
  end.

(** [processChunk(chunk, chunkIndex)]: queue the task, then try to hand it
    out.  Its promise resolves when the task is posted to a worker. *)
Definition processChunk (st : State) (chunk : list JsVal) (chunkIndex : nat)
  : State * list Effect :=
  let st1 := {| workerCount := workerCount st;
                availableWorkers := availableWorkers st;
                taskQueue := taskQueue st
                             ++ [{| taskChunk := chunk; taskIndex := chunkIndex |}];
                running := running st;
                chunkProgress := chunkProgress st;
                totalProcessed := totalProcessed st |} in
  let '(st2, es) := processNextTask st1 in
  (st2, ESubmit chunkIndex chunk :: es).

(** [chunks.map((chunk, index) => workerPool.processChunk(chunk, index))] *)
Fixpoint submitAll (st : State) (chunks : list (list JsVal)) (index : nat)
  : State * list Effect :=
  match chunks with
  | [] => (st, [])
  | chunk :: rest =>
      let '(st1, es1) := processChunk st chunk index in
      let '(st2, es2) := submitAll st1 rest (S index) in
      (st2, es1 ++ es2)
  end.

(** The progress of the run in percent.  The quotient is taken exactly,
    where the source rounds it to a double first. *)
Definition savingProgress (processed denominator : Z) : Z :=
  65 + (if denominator <=? processed then 30 else (processed * 30) / denominator).

(** [updateProgress(chunkIndex, saved, total)] *)
Definition updateProgress (st : State) (chunkIndex : nat) (saved total : Z)
  : State * list Effect :=
  let prevSaved := match chunkProgress st !! chunkIndex with
                   | Some prev => prev.1
                   | None => 0
                   end in
  let delta := saved - prevSaved in
  let totalProcessed' := totalProcessed st + delta in
  let denominator :=
    if negb (totalMessages =? 0) then totalMessages
    else if negb (insertCount =? 0) then insertCount else 1 in
  ({| workerCount := workerCount st;
      availableWorkers := availableWorkers st;
      taskQueue := taskQueue st;
      running := running st;
      chunkProgress := <[chunkIndex := (saved, total)]> (chunkProgress st);
      totalProcessed := totalProcessed' |},
   [EProgress {| stage := StSaving;
                 progress := savingProgress totalProcessed' denominator;
                 message := TxtProcessingWith WORKER_COUNT totalProcessed' denominator;
                 progressProcessed := Some totalProcessed';
                 progressTotal := Some denominator;
                 progressError := None;
                 insertedMessages := None |}]).

Definition release (st : State) (workerIndex : nat) : State := {|
  workerCount := workerCount st;
  availableWorkers := availableWorkers st ++ [workerIndex];
  taskQueue := taskQueue st;
  running := running st;
  chunkProgress := chunkProgress st;
  totalProcessed := totalProcessed st |}.

(** [handleWorkerMessage(workerIndex, data)]: PROGRESS goes to the progress
    callback; COMPLETE and ERROR both make the worker available again and
    hand out the next task (an ERROR is only logged). *)
Definition handleWorkerMessage (st : State) (workerIndex : nat) (data : WorkerMsg)
  : State * list Effect :=
  match data with
  | WProgress chunkIndex saved total => updateProgress st chunkIndex saved total
  | WComplete _ _ => processNextTask (release st workerIndex)
  | WError _ _ => processNextTask (release st workerIndex)
  end.

(** The condition polled by [waitForCompletion()]. *)
Definition drained (st : State) : bool :=
  bool_decide (length (availableWorkers st) = workerCount st)
  && bool_decide (taskQueue st = []).

(** One turn of the event loop: the busy worker at position [choice] (modulo
    the number of busy workers) performs its next action; a posted message
    is handled by the pool. *)
Definition turn (st : State) (choice : nat) : State * list Effect :=
  let k := (choice `mod` length (running st))%nat in
  match running st !! k with
  | Some (w, act :: rest) =>
      let running' :=
        match rest with
        | [] => delete k (running st)
        | _ => <[k := (w, rest)]> (running st)
        end in
      let st1 := {| workerCount := workerCount st;
                    availableWorkers := availableWorkers st;
                    taskQueue := taskQueue st;
                    running := running';
                    chunkProgress := chunkProgress st;
                    totalProcessed := totalProcessed st |} in
      let '(st2, es) :=
        match act with
        | ActPost msg => handleWorkerMessage st1 w msg
        | _ => (st1, [])
        end in
      (st2, EWorker w act :: es)
  | Some (w, []) =>
      ({| workerCount := workerCount st;
          availableWorkers := availableWorkers st;
          taskQueue := taskQueue st;
          running := delete k (running st);
          chunkProgress := chunkProgress st;
          totalProcessed := totalProcessed st |}, [])
  | None => (st, [])
  end.

(** How waiting for the pool ends. *)
Inductive Wait :=
| Drained (st : State) (es : list Effect)
| Stuck (st : State) (es : list Effect)   (* nothing runs, the pool is not drained *)
| OutOfFuel.

(** [await Promise.all(...); await workerPool.waitForCompletion()]: turns of
    the event loop until the pool is drained.  [schedule] picks the worker
    served at each turn (the first busy one when it runs out). *)
Fixpoint wait (fuel : nat) (schedule : list nat) (st : State) : Wait :=
  if drained st then Drained st []
  else
    match running st with
    | [] => Stuck st []
    | _ =>
      match fuel with
      | O => OutOfFuel
      | S fuel' =>
          let '(st1, es1) := turn st (hd 0%nat schedule) in
          match wait fuel' (tl schedule) st1 with
          | Drained st2 es2 => Drained st2 (es1 ++ es2)
          | Stuck st2 es2 => Stuck st2 (es1 ++ es2)
          | OutOfFuel => OutOfFuel
          end
      end
    end.

(** The number of worker actions still to come: a bound on the turns. *)
Definition pendingActions (st : State) : nat :=
  sum_list_with (λ r, S (length r.2)) (running st)
  + sum_list_with (λ t, S (length (workerScript api (chunkEnv (taskIndex t))
                                     (taskIndex t) (taskChunk t))))
      (taskQueue st).

(** Submit every chunk, then wait for the pool. *)
Definition runPool (schedule : list nat) (resumeFrom : Z) (chunks : list (list JsVal))
  : Wait :=
  let st0 := create WORKER_COUNT resumeFrom in
  let '(st1, es1) := submitAll st0 chunks 0 in
  match wait (pendingActions st1) schedule st1 with
  | Drained st2 es2 => Drained st2 (es1 ++ es2)
  | Stuck st2 es2 => Stuck st2 (es1 ++ es2)
  | OutOfFuel => OutOfFuel
  end.

End WithEnv.
End Pool.


(* ===================================================================== *)
(** * The persistence path (decrypt-snapshot-streaming-multiworker.ts)     *)
(* ===================================================================== *)

Module Pipeline.
Import Js Value Platform Model Async Async.Notations Chunking Decrypt.

(** [text.includes(part)] *)
Fixpoint includes (text part : string) : bool :=
  String.prefix part text
  || match text with
     | EmptyString => false
     | String _ rest => includes rest part
     end.

Definition withStatus (m : SnapshotMetadata) (st : Status) (err : option string)
  : SnapshotMetadata := {|
  snapshotId := snapshotId m;
  projectId := projectId m;
  queueId := queueId m;
  messageCount := messageCount m;
  totalMessages := totalMessages m;
  processedMessages := processedMessages m;
  firstMessageDate := firstMessageDate m;
  lastMessageDate := lastMessageDate m;
  createdAt := createdAt m;
  status := st;
  error := err |}.

Definition progressEvent (st : Stage) (percent : Z) (text : ProgressText)
    (processed total : option Z) : StreamingProgress := {|
  stage := st;
  progress := percent;
  message := text;
  progressProcessed := processed;
  progressTotal := total;
  progressError := None;
  insertedMessages := None |}.

Definition withInserted (p : StreamingProgress) (inserted : Z) : StreamingProgress := {|
  stage := stage p;
  progress := progress p;
  message := message p;
  progressProcessed := progressProcessed p;
  progressTotal := progressTotal p;
  progressError := progressError p;
  insertedMessages := Some inserted |}.

Section WithEnv.
Context (api : Api).
(** [CONFIG.WORKER_COUNT]; the storage engine and random source met by each
    chunk; the order in which the event loop serves the busy workers. *)
Context (WORKER_COUNT : nat) (chunkEnv : nat → Worker.ChunkEnv) (schedule : list nat).

(** [onProgress?.(p)] *)
Definition onProgress (p : StreamingProgress) : M unit := emit (EProgress p).

(** [ensureProcessingMetadata(dbManager, snapshotId)]: the metadata and
    the [skip] flag. *)
Definition ensureProcessingMetadata (id : string) : M (SnapshotMetadata * bool) :=
  let* existingMetadata := getMetadata id in
  match existingMetadata with
  | Some existing =>
      if decide (status existing = Completed) then ret (existing, true)
      else
        let metadata := withStatus existing Processing None in
        let* _ := saveMetadata metadata in
        ret (metadata, false)
  | None =>
      let metadata := {|
        snapshotId := id;
        projectId := JUndefined;
        queueId := JUndefined;
        messageCount := JNum 0;
        totalMessages := None;
        processedMessages := 0;
        firstMessageDate := JUndefined;
        lastMessageDate := JUndefined;
        createdAt := isoNow api;
        status := Processing;
        error := None |} in
      let* _ := saveMetadata metadata in
      ret (metadata, false)
  end.

(** The [catch] block shared by the pipeline entry points. *)
Definition recordFailure (id : string) (e : JsError) : M unit :=
  let* errorMetadata := getMetadata id in
  let* _ :=
    match errorMetadata with
    | Some m => saveMetadata (withStatus m Errored (Some (errorMessage api e)))
    | None => ret tt
    end in
  let* _ := onProgress {|
    stage := StError;
    progress := 0;
    message := TxtFailed;
    progressProcessed := None;
    progressTotal := None;
    progressError := Some (errorMessage api e);
    insertedMessages := None |} in
  throw e.

(** [try { m } finally { if (workerPool) workerPool.terminate() }]:
    [workerPool] is set exactly when the pool was created. *)
Definition finallyTerminate {A} (m : M A) : M A :=
  λ s,
    let r := m s in
    match outcome r with
    | Some _ =>
        if existsb isPoolCreated (effects r)
        then {| outcome := outcome r; storeAfter := storeAfter r;
                effects := effects r ++ [EPoolTerminated] |}
        else r
    | None => r
    end.

(** The pool phase: [new WorkerPool], submission of every chunk, and the two
    awaits.  A pool that never drains leaves the promise pending. *)
Definition persistChunks (totalMessages resumeFrom : Z) (chunks : list (list JsVal))
    (insertCount : Z) : M unit :=
  let* _ := emit (EPoolCreated WORKER_COUNT (length chunks)) in
  λ s,
    match Pool.runPool api WORKER_COUNT chunkEnv totalMessages insertCount
            schedule resumeFrom chunks with
    | Pool.Drained _ es =>
        {| outcome := Some (Normal tt); storeAfter := s; effects := es |}
    | Pool.Stuck _ es =>
        {| outcome := None; storeAfter := s; effects := es |}
    | Pool.OutOfFuel =>
        {| outcome := None; storeAfter := s; effects := [] |}
    end.

(** The [try] block of [cacheDecryptedSnapshotMultiWorker]. *)
Definition cacheBody (id : string) (decryptedData : JsVal)
    (optionsMetadata : option SnapshotMetadata) : M unit :=
  let* metadataInit :=
    match optionsMetadata with
    | Some m => ret (m, false)
    | None => ensureProcessingMetadata id
    end in
  let '(metadata, skip) := metadataInit in
  if skip then
    onProgress (progressEvent StCompleted 100 TxtAlreadyLoaded
                  (Some (processedMessages metadata)) (totalMessages metadata))
  else
    let* projectId' := lift (getProp decryptedData "projectId") in
    let* queueId' := lift (getProp decryptedData "queueId") in
    let* messageCount' := lift (getProp decryptedData "messageCount") in
    let* messages' := lift (getProp decryptedData "messages") in
    match messages' with
    | JArr messages =>
        let total := Z.of_nat (length messages) in
        if total =? 0 then
          let metadata := {|
            snapshotId := snapshotId metadata;
            projectId := projectId';
            queueId := queueId';
            messageCount := JNum 0;
            totalMessages := Some 0;
            processedMessages := 0;
            firstMessageDate := firstMessageDate metadata;
            lastMessageDate := lastMessageDate metadata;
            createdAt := createdAt metadata;
            status := Completed;
            error := error metadata |} in
          let* _ := saveMetadata metadata in
          onProgress (withInserted
                        (progressEvent StCompleted 100 TxtNoMessages (Some 0) (Some 0)) 0)
        else
          let resumeFrom := Z.min (processedMessages metadata) total in
          let messagesToInsert :=
            if 0 <? resumeFrom then sliceFrom messages resumeFrom else messages in
          let* firstDate :=
            lift (getProp (default JUndefined (index messages 0)) "created_at") in
          let* lastDate :=
            lift (getProp (default JUndefined (index messages (total - 1))) "created_at") in
          let metadata := {|
            snapshotId := snapshotId metadata;
            projectId := projectId';
            queueId := queueId';
            messageCount := if truthy messageCount' then messageCount' else JNum total;
            totalMessages := Some total;
            processedMessages := processedMessages metadata;
            firstMessageDate := firstDate;
            lastMessageDate := lastDate;
            createdAt := createdAt metadata;
            status := status metadata;
            error := error metadata |} in
          let* _ := saveMetadata metadata in
          let insertCount := Z.of_nat (length messagesToInsert) in
          let completed := {|
            snapshotId := snapshotId metadata;
            projectId := projectId metadata;
            queueId := queueId metadata;
            messageCount := messageCount metadata;
            totalMessages := totalMessages metadata;
            processedMessages := total;
            firstMessageDate := firstMessageDate metadata;
            lastMessageDate := lastMessageDate metadata;
            createdAt := createdAt metadata;
            status := Completed;
            error := error metadata |} in
          if insertCount =? 0 then
            let* _ := saveMetadata completed in
            onProgress (withInserted
                          (progressEvent StCompleted 100 TxtAllCached
                             (Some total) (Some total)) 0)
          else
            let* _ := onProgress
              (progressEvent StSaving
                 (if (0 <? resumeFrom) && (0 <? total)
                  then 65 + (resumeFrom * 30) / total else 65)
                 (if 0 <? resumeFrom then TxtResuming resumeFrom
                  else TxtInitializing WORKER_COUNT)
                 (Some resumeFrom) (Some total)) in
            let chunkSize := calculateOptimalChunkSize insertCount WORKER_COUNT in
            match chunkMessages messagesToInsert chunkSize with
            | None => never
            | Some chunks =>
                let* _ := persistChunks total resumeFrom chunks insertCount in
                let* _ := saveMetadata completed in
                onProgress (withInserted
                              (progressEvent StCompleted 100
                                 (if 0 <? resumeFrom
                                  then TxtResumeComplete WORKER_COUNT insertCount total
                                  else TxtComplete WORKER_COUNT total)
                                 (Some total) (Some total))
                              insertCount)
            end
    | _ => throw (Error "Invalid snapshot format: missing messages array")
    end.

(** [cacheDecryptedSnapshotMultiWorker(snapshotId, decryptedData, onProgress,
    options)]; [optionsMetadata] is [options.metadata]. *)
Definition cacheDecryptedSnapshotMultiWorker (id : string) (decryptedData : JsVal)
    (optionsMetadata : option SnapshotMetadata) : M unit :=
  finallyTerminate
    (tryCatch (cacheBody id decryptedData optionsMetadata) (recordFailure id)).

(** The status callback handed to [decryptSnapshot]. *)
Definition decryptStatus (statusText : string) : M unit :=
  if includes statusText "Downloading" then
    onProgress (progressEvent StDownloading 10 (TxtStatus statusText) None None)
  else if includes statusText "Importing" then
    onProgress (progressEvent StDecrypting 30 (TxtStatus statusText) None None)
  else if includes statusText "Decrypting" then
    onProgress (progressEvent StDecrypting 50 (TxtStatus statusText) None None)
  else ret tt.

(** [decryptAndStreamToIndexedDBMultiWorker(snapshotId, fileUrl,
    privateKeyPem, onProgress)] *)
Definition decryptAndStreamToIndexedDBMultiWorker (id fileUrl privateKeyPem : string)
  : M unit :=
  tryCatch
    (let* init := ensureProcessingMetadata id in
     let '(metadata, skip) := init in
     if skip then
       onProgress (progressEvent StCompleted 100 TxtAlreadyLoaded
                     (Some (processedMessages metadata)) (totalMessages metadata))
     else
       let* _ := onProgress (progressEvent StDownloading 0 TxtDownloading None None) in
       let* decryptedData :=
         decryptSnapshot api (FromUrl fileUrl) privateKeyPem decryptStatus in
       let* _ := onProgress (progressEvent StProcessing 60 TxtProcessingData None None) in
       cacheDecryptedSnapshotMultiWorker id decryptedData (Some metadata))
    (recordFailure id).

End WithEnv.
End Pipeline.


(** * Predicates used in the statements about the pipeline *)

Module PipelineSpec.
Import Js Value Platform Model Async.

(** Effects on the metadata store and the progress callback only. *)
Definition isMetadataOrProgress (e : Effect) : bool :=
  match e with
  | ESaveMetadata _ | EProgress _ => true
  | _ => false
  end.

End PipelineSpec.


(** * Predicates used in the statements about the worker pool *)

Module PoolSpec.
Import Js Value Platform Model Async Worker Pool.

(** A COMPLETE or ERROR message: the last word of a worker on a chunk. *)
Definition isTerminal (msg : WorkerMsg) : bool :=
  match msg with
  | WComplete _ _ | WError _ _ => true
  | WProgress _ _ _ => false
  end.

Definition terminalOf (act : WorkerAction) : option WorkerMsg :=
  match act with
  | ActPost msg => if isTerminal msg then Some msg else None
  | _ => None
  end.

(** The chunks handed to [processChunk], in order. *)
Definition submittedTasks (es : list Effect) : list Task :=
  omap (λ e, match e with
             | ESubmit i chunk => Some {| taskChunk := chunk; taskIndex := i |}
             | _ => None
             end) es.

(** The chunks posted to a worker, in order. *)
Definition postedTasks (es : list Effect) : list Task :=
  omap (λ e, match e with
             | EPostToWorker _ i chunk => Some {| taskChunk := chunk; taskIndex := i |}
             | _ => None
             end) es.

(** The COMPLETE and ERROR messages posted by the workers, in order. *)
Definition terminalPosts (es : list Effect) : list WorkerMsg :=
  omap (λ e, match e with
             | EWorker _ act => terminalOf act
             | _ => None
             end) es.

(** What a worker does for a chunk, in order, whichever worker it is. *)
Definition workerActions (es : list Effect) : list WorkerAction :=
  omap (λ e, match e with EWorker _ act => Some act | _ => None end) es.

(** The metadata records written, in order. *)
Definition metadataWrites (es : list Effect) : list SnapshotMetadata :=
  omap (λ e, match e with ESaveMetadata m => Some m | _ => None end) es.

(** The last message of the worker script for a chunk. *)
Definition verdict (api : Api) (chunkEnv : nat → ChunkEnv) (t : Task) : WorkerMsg :=
  match saveMessagesBatchWithRetry (chunkEnv (taskIndex t)) (taskIndex t)
          (taskChunk t) with
  | (_, savedCount, Normal _) => WComplete (taskIndex t) savedCount
  | (_, _, Throw e) => WError (taskIndex t) (workerErrorText api e)
  end.

(** [chunks.map((chunk, index) => ...)]: the chunks with their indices. *)
Definition indexed (chunks : list (list JsVal)) (from : nat) : list Task :=
  imap (λ i chunk, {| taskChunk := chunk; taskIndex := from + i |}) chunks.

(** The attempts a worker made, in order: the attempt number, the batch
    handed to [saveMessagesBatch], and how the write ended. *)
Definition attemptsOf (acts : list WorkerAction)
  : list (Z * list JsVal * AttemptOutcome) :=
  omap (λ a, match a with ActAttempt k ms o => Some (k, ms, o) | _ => None end) acts.

(** The delays a worker slept, in order. *)
Definition sleepsOf (acts : list WorkerAction) : list Q :=
  omap (λ a, match a with ActSleep d => Some d | _ => None end) acts.

Definition isFailed (o : AttemptOutcome) : bool :=
  match o with Failed _ _ => true | Committed _ => false end.

(** What is left of a worker script: actions that post no verdict, then one
    verdict. *)
Definition wellFormedScript (acts : list WorkerAction) : Prop :=
  ∃ pre msg, acts = pre ++ [ActPost msg]
             ∧ isTerminal msg = true ∧ omap terminalOf pre = [].

(** The verdicts still to come: those of the running scripts and those of
    the queued tasks. *)
Definition pendingVerdicts (api : Api) (chunkEnv : nat → ChunkEnv) (st : State)
  : list WorkerMsg :=
  (running st ≫= λ r, omap terminalOf r.2)
  ++ map (verdict api chunkEnv) (taskQueue st).

(** The script a worker runs for a task. *)
Definition scriptOf (api : Api) (chunkEnv : nat → ChunkEnv) (t : Task)
  : list WorkerAction :=
  workerScript api (chunkEnv (taskIndex t)) (taskIndex t) (taskChunk t).

(** The worker actions still to come: what is left of the running scripts,
    and the scripts of the queued tasks. *)
Definition pendingScripts (api : Api) (chunkEnv : nat → ChunkEnv) (st : State)
  : list WorkerAction :=
  (running st ≫= snd) ++ (taskQueue st ≫= scriptOf api chunkEnv).

(** The invariant of the pool between two turns of the event loop: every
    worker is either available or running, once; a running worker has a
    well-formed script left; a task waits only when no worker is available. *)
Record Inv (st : State) : Prop := {
  inv_nodup : NoDup (availableWorkers st ++ (running st).*1);
  inv_count : (length (availableWorkers st) + length (running st))%nat = workerCount st;
  inv_scripts : Forall (λ r, wellFormedScript r.2) (running st);
  inv_greedy : taskQueue st ≠ [] → availableWorkers st = [];
}.

(** What a run of pool steps from [st] to [st'] with effects [es] does, when
    the tasks [pushed] are submitted on the way: the invariant holds at the
    end; the tasks posted to workers are taken from the queue in order;
    every verdict and every worker action seen is one that was pending, and
    the others are still pending; nothing else happens. *)
Record StepOk (api : Api) (chunkEnv : nat → ChunkEnv)
    (pushed : list Task) (st st' : State) (es : list Effect) : Prop := {
  ok_inv : Inv st';
  ok_workers : workerCount st' = workerCount st;
  ok_posted : postedTasks es ++ taskQueue st' = taskQueue st ++ pushed;
  ok_verdicts :
    terminalPosts es ++ pendingVerdicts api chunkEnv st' ≡ₚ
      pendingVerdicts api chunkEnv st ++ map (verdict api chunkEnv) pushed;
  ok_writes : metadataWrites es = [];
  ok_submitted : submittedTasks es = pushed;
  ok_pool : existsb isPoolCreated es = false;
  ok_actions :
    workerActions es ++ pendingScripts api chunkEnv st' ≡ₚ
      pendingScripts api chunkEnv st ++ (pushed ≫= scriptOf api chunkEnv);
}.

End PoolSpec.



(** * Sample snapshots, stores and storage engines *)

Module PipelineExamples.
Import Js Value Platform Model Worker.

Definition sampleMessage (createdAt : string) : JsVal :=
  JObj [("created_at", JStr createdAt)].

Definition threeMessages : list JsVal :=
  [sampleMessage "mon"; sampleMessage "tue"; sampleMessage "wed"].

Definition sampleData (messages : list JsVal) : JsVal :=
  JObj [("projectId", JStr "p1"); ("queueId", JStr "q1"); ("messages", JArr messages)].

(** The record of a snapshot "snap" with [processed] messages cached. *)
Definition sampleMetadata (st : Status) (processed : Z) (err : option string)
  : SnapshotMetadata := {|
  snapshotId := "snap";
  projectId := JStr "p1";
  queueId := JStr "q1";
  messageCount := JNum 3;
  totalMessages := Some 3;
  processedMessages := processed;
  firstMessageDate := JStr "mon";
  lastMessageDate := JStr "wed";
  createdAt := "2023-12-31T00:00:00.000Z";
  status := st;
  error := err |}.

Definition sampleStore (m : SnapshotMetadata) : gmap string SnapshotMetadata :=
  {[ snapshotId m := m ]}.

(** A storage engine on which every batch write commits. *)
Definition reliable : ChunkEnv := {|
  attemptOutcome := λ _, Committed 8;
  randomDraw := λ _, 0%Q |}.

(** A storage engine on which every batch write fails before its first put. *)
Definition broken : ChunkEnv := {|
  attemptOutcome := λ _, Failed 0 (Error "QuotaExceededError");
  randomDraw := λ _, (1 # 2)%Q |}.

(** The second chunk (index 1) meets the broken engine, the others the
    reliable one. *)
Definition secondChunkBroken (chunkIndex : nat) : ChunkEnv :=
  if decide (chunkIndex = 1%nat) then broken else reliable.

End PipelineExamples.


Module RetrySpec.
Import Js Value Platform Model Worker Pool PoolSpec.

(** What a worker does apart from posting messages: its attempts and the
    pauses between them, in order. *)
Definition withoutPosts (acts : list WorkerAction) : list WorkerAction :=
  omap (λ a, match a with ActPost _ => None | _ => Some a end) acts.

(** [BASE_BACKOFF_MS * attempt + Math.random() * 200] with the constants
    written out. *)
Definition linearBackoff (attempt : nat) (random : Q) : Q :=
  (inject_Z (150 * Z.of_nat attempt) + random * 200)%Q.

(** The attempts and pauses the retry policy prescribes for a chunk: a
    second attempt after a failed first one, a third after a failed second
    one, and no more. *)
Definition prescribed (env : ChunkEnv) (chunk : list JsVal) : list WorkerAction :=
  let o := attemptOutcome env in
  let pause k := ActSleep (linearBackoff k (randomDraw env k)) in
  ActAttempt 1 chunk (o 1%nat)
  :: if isFailed (o 1%nat) then
       pause 1%nat :: ActAttempt 2 chunk (o 2%nat)
       :: (if isFailed (o 2%nat) then [pause 2%nat; ActAttempt 3 chunk (o 3%nat)] else [])
     else [].

(** All three attempts fail. *)
Definition exhausted (env : ChunkEnv) : bool :=
  isFailed (attemptOutcome env 1) && isFailed (attemptOutcome env 2)
  && isFailed (attemptOutcome env 3).

Definition isError (chunkIndex : nat) (msg : WorkerMsg) : bool :=
  match msg with
  | WError i _ => bool_decide (i = chunkIndex)
  | _ => false
  end.

Definition isComplete (chunkIndex : nat) (msg : WorkerMsg) : bool :=
  match msg with
  | WComplete i _ => bool_decide (i = chunkIndex)
  | _ => false
  end.

End RetrySpec.


(** * The status of a snapshot along the metadata writes of a run *)

Module StatusSpec.
Import Value Model Async PoolSpec.

(** The status recorded for a snapshot, if any. *)
Definition statusAt (id : string) (s : gmap string SnapshotMetadata) : option Status :=
  status <$> s !! id.

(** The record stored under [id], if any, carries [id] as its [snapshotId]
    (the key path of the object store). *)
Definition keyed (id : string) (s : gmap string SnapshotMetadata) : Prop :=
  ∀ m, s !! id = Some m → snapshotId m = id.

(** The moves of the status the pipeline makes: a new record starts as
    'processing'; 'processing' may stay or end as 'completed' or 'error';
    'error' may stay or go back to 'processing'; 'completed' never moves. *)
Definition allowed (from : option Status) (to : Status) : bool :=
  match from, to with
  | None, Processing => true
  | Some Processing, _ => true
  | Some Errored, Processing => true
  | Some Errored, Errored => true
  | _, _ => false
  end.

(** The moves the specification names: 'processing' to 'completed' or to
    'error', and the first write of a new record. *)
Definition allowedBySpec (from : option Status) (to : Status) : bool :=
  match from, to with
  | None, Processing => true
  | Some Processing, Completed => true
  | Some Processing, Errored => true
  | _, _ => false
  end.

(** Every write in [ws] is a record of snapshot [id], and each status
    follows the one before it by a move of [step]. *)
Fixpoint followsBy (step : option Status → Status → bool) (id : string)
    (from : option Status) (ws : list SnapshotMetadata) : bool :=
  match ws with
  | [] => true
  | m :: ws' =>
      bool_decide (snapshotId m = id) && step from (status m)
      && followsBy step id (Some (status m)) ws'
  end.

Definition follows := followsBy allowed.

(** The status after the writes [ws]. *)
Definition lastStatus (from : option Status) (ws : list SnapshotMetadata)
  : option Status :=
  match last ws with
  | Some m => Some (status m)
  | None => from
  end.

(** A computation that leaves the metadata store alone. *)
Definition silent {A} (m : M A) : Prop :=
  ∀ s, storeAfter (m s) = s ∧ metadataWrites (effects (m s)) = [].

(** The promise of a computation settles: it is fulfilled or rejected. *)
Definition settles {A} (m : M A) : Prop :=
  ∀ s, is_Some (outcome (m s)).

(** [triple id P m Q]: from a store that satisfies [P], the writes of [m]
    are records of [id] whose statuses follow one another by allowed moves,
    the store ends in the last status written, and [Q] holds of how [m]
    settles and of the store it leaves. *)
Definition triple {A} (id : string) (P : gmap string SnapshotMetadata → Prop)
    (m : M A) (Q : Completion A → gmap string SnapshotMetadata → Prop) : Prop :=
  ∀ s, keyed id s → P s →
    keyed id (storeAfter (m s))
    ∧ follows id (statusAt id s) (metadataWrites (effects (m s))) = true
    ∧ statusAt id (storeAfter (m s))
      = lastStatus (statusAt id s) (metadataWrites (effects (m s)))
    ∧ match outcome (m s) with
      | Some c => Q c (storeAfter (m s))
      | None => True
      end.

End StatusSpec.


(* ===================================================================== *)
(** * Bulk loading: the prefetch budget (app/page.tsx, [handleBulkLoadAll]) *)
(* ===================================================================== *)

Module Prefetch.

(** The numbers of page.tsx are IEEE-754 binary64 values: [spec_float] at
    precision 53 with [emax = 1024].  [+], [-] and [<=] are the operations
    of the standard, rounding to nearest, ties to even. *)
Definition plus (x y : spec_float) : spec_float := SFadd 53 1024 x y.
Definition minus (x y : spec_float) : spec_float := SFsub 53 1024 x y.
Definition lessEq (x y : spec_float) : bool := SFleb x y.

(** [const PREFETCH_SIZE_LIMIT_MB = 25]: 25 = 7036874417766400 * 2^-48. *)
Definition PREFETCH_SIZE_LIMIT_MB : spec_float :=
  S754_finite false 7036874417766400 (-48).

(** The fields of [Snapshot] the scheduler reads. *)
Record Snapshot := {
  id : string;
  file_size : option string;
}.

(** How the promise of [stageSnapshotToStorage] settles. *)
Inductive Settled :=
| Staged (success : bool)
| Rejected.

(** The variables of [handleBulkLoadAll] shared by its closures, and the
    staging promises that have not settled yet, each with the [snapshot] and
    the [sizeMb] its callbacks close over. *)
Record State := {
  nextToSchedule : nat;
  inFlightMb : spec_float;
  activePreparations : gmap string spec_float;
  stagedSnapshotQueue : list string;
  pending : list (Snapshot * spec_float);
}.

(** What a run does, in order: [stageSnapshotToStorage(snapshot, ...)] is
    called from [startPreparation(snapshot, sizeMb)]; the [finally] callback
    of the [k]-th staging promise that has not settled yet runs. *)
Inductive Event :=
| Started (snapshot : Snapshot) (sizeMb : spec_float)
| Finished (k : nat).

(** What happens between two calls of the scheduler: a staging promise
    settles, or the consumer takes the next staged snapshot. *)
Inductive Step :=
| Settle (k : nat) (result : Settled)
| Take.

Section WithSnapshots.
(** [parseFileSizeMb], and the list returned by [fetchAllSnapshotsList]. *)
Context (parseFileSizeMb : option string → spec_float) (allSnapshots : list Snapshot).

Definition initial : State := {|
  nextToSchedule := 0;
  inFlightMb := S754_zero false;
  activePreparations := ∅;
  stagedSnapshotQueue := [];
  pending := [] |}.

(** [startPreparation(snapshot, sizeMb)], up to the call of
    [stageSnapshotToStorage], whose promise joins the pending ones. *)
Definition startPreparation (st : State) (snapshot : Snapshot) (sizeMb : spec_float)
  : State * list Event :=
  ({| nextToSchedule := nextToSchedule st;
      inFlightMb := plus (inFlightMb st) sizeMb;
      activePreparations := <[id snapshot := sizeMb]> (activePreparations st);
      stagedSnapshotQueue := stagedSnapshotQueue st;
      pending := pending st ++ [(snapshot, sizeMb)] |},
   [Started snapshot sizeMb]).

(** The loop of [schedulePrefetch] over
    [allSnapshots[nextToSchedule], allSnapshots[nextToSchedule + 1], ...]. *)
Fixpoint scheduleLoop (rest : list Snapshot) (st : State) : State * list Event :=
  match rest with
  | [] => (st, [])
  | snapshot :: rest' =>
      let sizeMb := parseFileSizeMb (file_size snapshot) in
      let canStart :=
        lessEq (plus (inFlightMb st) sizeMb) PREFETCH_SIZE_LIMIT_MB
        || bool_decide (size (activePreparations st) = 0%nat) in
      if negb canStart then (st, [])
      else
        let '(st1, started) := startPreparation st snapshot sizeMb in
        let st2 := {| nextToSchedule := S (nextToSchedule st1);
                      inFlightMb := inFlightMb st1;
                      activePreparations := activePreparations st1;
                      stagedSnapshotQueue := stagedSnapshotQueue st1;
                      pending := pending st1 |} in
        let '(st3, later) := scheduleLoop rest' st2 in
        (st3, started ++ later)
  end.

(** [schedulePrefetch()]; its result [startedAny] says whether the list of
    events is non-empty. *)
Definition schedulePrefetch (st : State) : State * list Event :=
  scheduleLoop (drop (nextToSchedule st) allSnapshots) st.

(** The callbacks of the [k]-th pending staging promise: [then] queues the
    snapshot when staging succeeded, [finally] releases its size and calls
    the scheduler ([notifyPrepared] only wakes the consumer). *)
Definition settle (st : State) (k : nat) (result : Settled) : State * list Event :=
  match pending st !! k with
  | None => (st, [])
  | Some (snapshot, sizeMb) =>
      let '(st1, started) :=
        schedulePrefetch {|
          nextToSchedule := nextToSchedule st;
          inFlightMb := minus (inFlightMb st) sizeMb;
          activePreparations := delete (id snapshot) (activePreparations st);
          stagedSnapshotQueue :=
            match result with
            | Staged true => stagedSnapshotQueue st ++ [id snapshot]
            | _ => stagedSnapshotQueue st
            end;
          pending := delete k (pending st) |} in
      (st1, Finished k :: started)
  end.

(** [stagedSnapshotQueue.shift()] in [getNextStagedSnapshotId]. *)
Definition shiftStaged (st : State) : State := {|
  nextToSchedule := nextToSchedule st;
  inFlightMb := inFlightMb st;
  activePreparations := activePreparations st;
  stagedSnapshotQueue := tail (stagedSnapshotQueue st);
  pending := pending st |}.

Definition step (st : State) (s : Step) : State * list Event :=
  match s with
  | Settle k result => settle st k result
  | Take => (shiftStaged st, [])
  end.

Fixpoint steps (st : State) (ss : list Step) : State * list Event :=
  match ss with
  | [] => (st, [])
  | s :: ss' =>
      let '(st1, es1) := step st s in
      let '(st2, es2) := steps st1 ss' in
      (st2, es1 ++ es2)
  end.

(** A bulk run: the first call of [schedulePrefetch], then whatever the
    event loop brings. *)
Definition bulkRun (ss : list Step) : State * list Event :=
  let '(st0, es0) := schedulePrefetch initial in
  let '(st1, es1) := steps st0 ss in
  (st1, es0 ++ es1).

End WithSnapshots.

End Prefetch.


(** * What the events of a bulk run say about the preparations in flight *)

Module PrefetchSpec.
Import Prefetch.

(** The account an observer keeps of a run: the preparations in flight
    (started, their staging promise not settled), in the order of their
    start; the running total of their sizes, each size added at the start
    and subtracted at the end in double arithmetic; the ids of the
    preparations in flight, where the end of one preparation strikes its id
    whoever else bears it. *)
Record Ledger := {
  inFlight : list (Snapshot * spec_float);
  runningTotal : spec_float;
  registered : gset string;
}.

Definition opening : Ledger := {|
  inFlight := [];
  runningTotal := S754_zero false;
  registered := ∅ |}.

Definition record (g : Ledger) (e : Event) : Ledger :=
  match e with
  | Started snapshot sizeMb => {|
      inFlight := inFlight g ++ [(snapshot, sizeMb)];
      runningTotal := plus (runningTotal g) sizeMb;
      registered := {[id snapshot]} ∪ registered g |}
  | Finished k =>
      match inFlight g !! k with
      | Some (snapshot, sizeMb) => {|
          inFlight := delete k (inFlight g);
          runningTotal := minus (runningTotal g) sizeMb;
          registered := registered g ∖ {[id snapshot]} |}
      | None => g
      end
  end.

(** The account after a sequence of events. *)
Definition ledger (trace : list Event) : Ledger := fold_left record trace opening.

(** The preparations started, in order. *)
Definition starts (trace : list Event) : list (Snapshot * spec_float) :=
  omap (λ e, match e with
             | Started snapshot sizeMb => Some (snapshot, sizeMb)
             | Finished _ => None
             end) trace.

(** The real number a binary64 value stands for, [m * 2^e] with its sign;
    none for an infinity, for NaN, and for a triple that is not a binary64
    value. *)
Definition magnitude (m : positive) (e : Z) : Q :=
  match e with
  | Z0 => inject_Z (Z.pos m)
  | Zpos p => inject_Z (Z.pos m * 2 ^ Z.pos p)
  | Zneg p => Z.pos m # 2 ^ p
  end.

Definition valueOf (x : spec_float) : option Q :=
  if valid_binary 53 1024 x then
    match x with
    | S754_zero _ => Some 0%Q
    | S754_finite s m e => Some (if s then - magnitude m e else magnitude m e)%Q
    | _ => None
    end
  else None.

Definition sumMb (sizes : list Q) : Q := foldr Qplus 0%Q sizes.

(** The exact sum of the sizes in flight, when each of them is a number. *)
Definition exactInFlightMb (g : Ledger) : option Q :=
  sumMb <$> mapM valueOf (inFlight g).*2.


(** Between two steps: the state agrees with the account of the events so
    far; every registered id is the id of a preparation in flight; the
    preparations in flight were taken from the scheduled prefix of the
    list; and, the ids of the list being distinct, the preparations in
    flight have distinct ids, all of them registered. *)
Record Inv (allSnapshots : list Snapshot) (st : State) (g : Ledger) : Prop := {
  inv_pending : pending st = inFlight g;
  inv_total : inFlightMb st = runningTotal g;
  inv_registered : dom (activePreparations st) = registered g;
  inv_known : ∀ k, k ∈ registered g → k ∈ id <$> (inFlight g).*1;
  inv_scheduled : (inFlight g).*1 ⊆ take (nextToSchedule st) allSnapshots;
  inv_next : (nextToSchedule st ≤ length allSnapshots)%nat;
  inv_distinct :
    NoDup (id <$> allSnapshots) →
    NoDup (id <$> (inFlight g).*1)
    ∧ ∀ p, p ∈ inFlight g → id p.1 ∈ registered g;
}.

(** The rule of the scheduler at the start of [snapshot] with [sizeMb],
    the account before being [g]: the test of [schedulePrefetch] passed,
    that is, the running total with the new size is at most 25 in double
    arithmetic or no id is registered; and, the ids of the list being
    distinct and the running total with the new size being exact, the
    sizes in flight, the new one included, sum to at most 25 MB or the new
    preparation is the only one in flight. *)
Definition startRule (allSnapshots : list Snapshot) (g : Ledger)
    (snapshot : Snapshot) (sizeMb : spec_float) : Prop :=
  let now := record g (Started snapshot sizeMb) in
  (lessEq (runningTotal now) PREFETCH_SIZE_LIMIT_MB = true ∨ registered g = ∅)
  ∧ (NoDup (id <$> allSnapshots) →
     ∀ total sum,
       valueOf (runningTotal now) = Some total →
       exactInFlightMb now = Some sum →
       (total == sum)%Q →
       (sum <= 25)%Q ∨ inFlight now = [(snapshot, sizeMb)]).

(** The rule holds at every start of a sequence of events that follows the
    account [g]. *)
Fixpoint audit (allSnapshots : list Snapshot) (g : Ledger) (es : list Event) : Prop :=
  match es with
  | [] => True
  | e :: es' =>
      match e with
      | Started snapshot sizeMb => startRule allSnapshots g snapshot sizeMb
      | Finished _ => True
      end
      ∧ audit allSnapshots (record g e) es'
  end.

End PrefetchSpec.


Module PrefetchExamples.
Import Prefetch.

(** Three snapshots of 20, 10 and 40 MB. *)
Definition sampleSnapshots : list Snapshot :=
  [ {| id := "s1"; file_size := Some "20 MB" |};
    {| id := "s2"; file_size := Some "10 MB" |};
    {| id := "s3"; file_size := Some "40 MB" |} ].

(** The doubles 5, 10, 20 and 40, all of mantissa 1.25 * 2^52. *)
Definition mb5 : spec_float := S754_finite false 5629499534213120 (-50).
Definition mb10 : spec_float := S754_finite false 5629499534213120 (-49).
Definition mb20 : spec_float := S754_finite false 5629499534213120 (-48).
Definition mb40 : spec_float := S754_finite false 5629499534213120 (-47).

(** The sizes [parseFileSizeMb] returns for the sample snapshots. *)
Definition sampleSizes (fileSize : option string) : spec_float :=
  match fileSize with
  | Some text =>
      if String.eqb text "20 MB" then mb20
      else if String.eqb text "10 MB" then mb10
      else if String.eqb text "40 MB" then mb40
      else mb5
  | None => mb5
  end.






End PrefetchExamples.


(* ===================================================================== *)
(** * The number of workers ([getOptimalWorkerCount])                      *)
(* ===================================================================== *)

Module WorkerCount.

(** [CONFIG.WORKER_COUNT] as the module is loaded. *)
Definition WORKER_COUNT_DEFAULT : Z := 4.

(** [getOptimalWorkerCount()].  [hardwareConcurrency] is
    [navigator.hardwareConcurrency], an integer, or [None] when [navigator]
    or the property is undefined; [configured] is [CONFIG.WORKER_COUNT]. *)
Definition getOptimalWorkerCount (configured : Z) (hardwareConcurrency : option Z) : Z :=
  match hardwareConcurrency with
  | Some cores =>
      if cores =? 0 then configured
      else Z.max 2 (Z.min 8 (cores / 2))
  | None => configured
  end.

End WorkerCount.


(* ===================================================================== *)
(** * The stand-alone save worker (lib/workers/indexeddb-worker.ts)        *)
(* ===================================================================== *)

Module StandaloneWorker.
Import Js Value Platform Model Worker.

(** [self.onmessage] for a SAVE_BATCH task: one call of
    [dbManager.saveMessagesBatch], whose callbacks and settlement are those
    of the inline worker's [saveMessagesBatch], then COMPLETE or ERROR with
    [error instanceof Error ? error.message : 'Unknown error']. *)
Definition workerScript (api : Api) (outcome : AttemptOutcome) (chunkIndex : nat)
    (messages : list JsVal) : list WorkerAction :=
  let '(calls, settled) := saveMessagesBatch messages outcome in
  let savedCount := lastSaved 0 calls in
  ActAttempt 1 messages outcome
  :: progressPosts chunkIndex (Z.of_nat (length messages)) calls
  ++ [ActPost (match settled with
               | Normal _ => WComplete chunkIndex savedCount
               | Throw e => WError chunkIndex (errorMessage api e)
               end)].

End StandaloneWorker.


(* ===================================================================== *)
(** * Reading messages back ([IndexedDBManager.getMessages])               *)
(* ===================================================================== *)

Module Manager.
Import Js Value.

Inductive Order := Asc | Desc.

(** [const { snapshotId: _, ...message } = cursor.value] *)
Definition withoutSnapshotId (record : JsVal) : JsVal :=
  match record with
  | JObj props => JObj (filter (λ kv, kv.1 ≠ "snapshotId") props)
  | _ => record
  end.

(** The [onsuccess] handler of the cursor request, called once per record
    of the cursor and once more at its end. *)
Fixpoint cursorLoop (records : list JsVal) (offset limit : Z)
    (messages : list JsVal) (currentOffset : Z) : list JsVal :=
  if limit <=? Z.of_nat (length messages) then messages
  else
    match records with
    | [] => messages
    | record :: rest =>
        let messages :=
          if offset <=? currentOffset
          then messages ++ [withoutSnapshotId record] else messages in
        cursorLoop rest offset limit messages (currentOffset + 1)
    end.

(** [getMessages(snapshotId, options)], given the records of the snapshot in
    the order of the [snapshotId] index.  The options default to
    [offset = 0], [limit = 100], [order = 'asc']. *)
Definition getMessages (records : list JsVal) (offset limit : option Z)
    (order : option Order) : list JsVal :=
  let offset := default 0 offset in
  let limit := default 100 limit in
  let cursor := match order with Some Desc => reverse records | _ => records end in
  cursorLoop cursor offset limit [] 0.

End Manager.


Module PoolProgressSpec.
Import Pool.

(** The sum, over the chunks that have reported progress, of the count each
    reported last. *)
Definition savedSoFar (chunkProgress : gmap nat (Z * Z)) : Z :=
  map_fold (λ _ (entry : Z * Z) acc, entry.1 + acc) 0 chunkProgress.

(** The progress counter is the resume point plus what the chunks have
    reported last. *)
Definition accounted (resumeFrom : Z) (st : State) : Prop :=
  totalProcessed st = resumeFrom + savedSoFar (chunkProgress st).

(** The PROGRESS messages the workers post, in order: the chunk and the
    count of each. *)
Definition progressPosts (es : list Model.Effect) : list (nat * Z) :=
  omap (λ e, match e with
             | Model.EWorker _ (Model.ActPost (Model.WProgress chunkIndex saved _)) =>
                 Some (chunkIndex, saved)
             | _ => None
             end) es.

(** The count each chunk reported last. *)
Definition lastReported (posts : list (nat * Z)) : gmap nat Z :=
  fold_left (λ (last : gmap nat Z) (post : nat * Z), <[post.1 := post.2]> last)
            posts ∅.

(** The sum, over the chunks that reported, of the count each reported
    last. *)
Definition reportedTotal (posts : list (nat * Z)) : Z :=
  map_fold (λ _ (saved : Z) acc, saved + acc) 0 (lastReported posts).

(** The counts handed to the progress callback, in order. *)
Definition progressCounts (es : list Model.Effect) : list Z :=
  omap (λ e, match e with
             | Model.EProgress p => Model.progressProcessed p
             | _ => None
             end) es.

(** The counts the callback should see: after each PROGRESS message, the
    resume point plus the counts reported last up to that message. *)
Definition runningCounts (resumeFrom : Z) (posts : list (nat * Z)) : list Z :=
  (λ k, resumeFrom + reportedTotal (take (S k) posts)) <$> seq 0 (length posts).

(** The pool's progress state agrees with the messages posted so far. *)
Record tracked (resumeFrom : Z) (st : State) (es : list Model.Effect) : Prop := {
  tracked_last :
    (λ entry : Z * Z, entry.1) <$> chunkProgress st = lastReported (progressPosts es);
  tracked_total :
    totalProcessed st = resumeFrom + reportedTotal (progressPosts es);
  tracked_counts :
    progressCounts es = runningCounts resumeFrom (progressPosts es);
}.

(** The number of puts of the attempt that commits, if one of the three
    attempts does. *)
Definition committedPuts (env : Worker.ChunkEnv) : option nat :=
  match Worker.attemptOutcome env 1 with
  | Model.Committed n => Some n
  | Model.Failed _ _ =>
      match Worker.attemptOutcome env 2 with
      | Model.Committed n => Some n
      | Model.Failed _ _ =>
          match Worker.attemptOutcome env 3 with
          | Model.Committed n => Some n
          | Model.Failed _ _ => None
          end
      end
  end.

End PoolProgressSpec.


Module NormalizeSpec.
Import Value Msgpack.

(** The value holds a binary ([Uint8Array]) somewhere. *)
Fixpoint hasBytes (v : JsVal) : bool :=
  match v with
  | JBytes _ => true
  | JArr items => existsb hasBytes items
  | JObj props => existsb (λ kv, hasBytes kv.2) props
  | JObjProto proto props => hasBytes proto || existsb (λ kv, hasBytes kv.2) props
  | _ => false
  end.

(** An object somewhere in the value had its prototype replaced. *)
Fixpoint hasReplacedPrototype (v : JsVal) : bool :=
  match v with
  | JArr items => existsb hasReplacedPrototype items
  | JObj props => existsb (λ kv, hasReplacedPrototype kv.2) props
  | JObjProto _ _ => true
  | _ => false
  end.

(** The value cannot be normalized: an object reached through array items
    and own properties inherits from a [Uint8Array]. *)
Fixpoint inheritsBytes (v : JsVal) : bool :=
  match v with
  | JArr items => existsb inheritsBytes items
  | JObj props => existsb (λ kv, inheritsBytes kv.2) props
  | JObjProto proto props =>
      instanceofUint8Array proto || existsb (λ kv, inheritsBytes kv.2) props
  | _ => false
  end.

(** The keys come in the order of own properties: first the array indices,
    ascending from [lo], then the keys that are not array indices. *)
Fixpoint indicesFirst (lo : Z) (props : list (string * JsVal)) : Prop :=
  match props with
  | [] => True
  | (k, _) :: rest =>
      match arrayIndex k with
      | Some n => lo ≤ n ∧ indicesFirst (n + 1) rest
      | None => Forall (λ kv, arrayIndex kv.1 = None) rest
      end
  end.

(** The list can be the own properties of an object: no key twice, and the
    keys in the order of own properties. *)
Definition ownOrder (props : list (string * JsVal)) : Prop :=
  NoDup props.*1 ∧ indicesFirst 0 props.

(** Every object of the value lists its properties in that order. *)
Fixpoint wellOrdered (v : JsVal) : Prop :=
  match v with
  | JArr items => Forall id (map wellOrdered items)
  | JObj props => ownOrder props ∧ Forall id (map (λ kv, wellOrdered kv.2) props)
  | JObjProto proto props =>
      wellOrdered proto
      ∧ ownOrder props ∧ Forall id (map (λ kv, wellOrdered kv.2) props)
  | _ => True
  end.

(** The value holds no binary and no object with a replaced prototype, and
    its objects list their properties in the order of own properties: it is
    a value that [normalizeMsgpackValue] may return. *)
Definition normal (v : JsVal) : Prop :=
  hasBytes v = false ∧ hasReplacedPrototype v = false ∧ wellOrdered v.

(** The step of [Object.fromEntries]. *)
Definition store (props : list (string * JsVal)) (kv : string * JsVal)
  : list (string * JsVal) :=
  let '(k, v) := kv in
  match lookupProp props k with
  | Some _ => setProp props k v
  | None => defineOwn props k v
  end.

(** [value.map(normalizeMsgpackValue)] and
    [Object.entries(value).map(([k, v]) => [k, normalizeMsgpackValue(v)])]. *)
Fixpoint normalizeItems (api : Platform.Api) (items : list JsVal)
  : Completion (list JsVal) :=
  match items with
  | [] => Normal []
  | x :: rest =>
      cbind (normalizeMsgpackValue api x) (λ x',
      cbind (normalizeItems api rest) (λ rest', Normal (x' :: rest')))
  end.

Fixpoint normalizeEntries (api : Platform.Api) (props : list (string * JsVal))
  : Completion (list (string * JsVal)) :=
  match props with
  | [] => Normal []
  | (k, v) :: rest =>
      cbind (normalizeMsgpackValue api v) (λ v',
      cbind (normalizeEntries api rest) (λ rest', Normal ((k, v') :: rest')))
  end.

End NormalizeSpec.




Module DownloadExamples.
Import Js Value Platform TestPlatform.

(** The test platform with a server that answers every download with 404. *)
Definition notFoundApi : Api := {|
  utf8Decode := utf8Decode testApi;
  jsonParse := jsonParse testApi;
  numberToString := numberToString testApi;
  atob := atob testApi;
  pemBody := pemBody testApi;
  fetch := λ _, Normal (false, 404, []);
  importPkcs8 := importPkcs8 testApi;
  rsaOaepDecrypt := rsaOaepDecrypt testApi;
  importAesKey := importAesKey testApi;
  aesGcmDecrypt := aesGcmDecrypt testApi;
  gunzip := gunzip testApi;
  engineMessage := engineMessage testApi;
  stackDepth := stackDepth testApi;
  isoNow := isoNow testApi;
  pemBodyWorker := pemBodyWorker testApi;
  arrayLikeToString := arrayLikeToString testApi;
  typedArraySet := typedArraySet testApi;
|}.

End DownloadExamples.




(* ===================================================================== *)
(** * The single-threaded pipeline ([decryptAndStreamToIndexedDB])         *)
(* ===================================================================== *)

Module Sequential.
Import Js Value Platform Model Chunking.

Definition BATCH_SIZE_SMALL : Z := 500.
Definition BATCH_SIZE_MEDIUM : Z := 1000.
Definition BATCH_SIZE_LARGE : Z := 2000.
Definition BATCH_SIZE_XLARGE : Z := 3000.

Definition calculateOptimalBatchSize (totalMessages : Z) : Z :=
  if totalMessages <? 1000 then BATCH_SIZE_SMALL
  else if totalMessages <? 10000 then BATCH_SIZE_MEDIUM
  else if totalMessages <? 50000 then BATCH_SIZE_LARGE
  else BATCH_SIZE_XLARGE.

(** The progress events of this pipeline; [message] is the text itself. *)
Record Report := {
  reportStage : Stage;
  reportProgress : Z;
  reportMessage : string;
  reportProcessed : option Z;
  reportTotal : option Z;
  reportError : option string;
}.

(** What the pipeline does, in order: writes of the snapshot's record,
    progress events, the call of the imported [decryptSnapshot], and the
    batch writes with the outcome the storage engine gave them. *)
Inductive Event :=
| EvSaveMetadata (m : SnapshotMetadata)
| EvProgress (p : Report)
| EvDecrypt (fileUrl : string)
| EvSaveBatch (batchIndex : nat) (batch : list JsVal) (outcome : AttemptOutcome).

(** A run from a given metadata store: how the promise settles, the store
    it leaves, and the events.  Nothing in this pipeline waits for a worker,
    so every run settles. *)
Record Run (A : Type) := {
  settled : Completion A;
  finalStore : gmap string SnapshotMetadata;
  events : list Event;
}.
Arguments settled {A} r.
Arguments finalStore {A} r.
Arguments events {A} r.

Definition M (A : Type) : Type := gmap string SnapshotMetadata → Run A.

Definition ret {A} (a : A) : M A :=
  λ s, {| settled := Normal a; finalStore := s; events := [] |}.

Definition throw {A} (e : JsError) : M A :=
  λ s, {| settled := Throw e; finalStore := s; events := [] |}.

Definition bind {A B} (m : M A) (k : A → M B) : M B :=
  λ s,
    let r := m s in
    match settled r with
    | Normal a =>
        let r' := k a (finalStore r) in
        {| settled := settled r'; finalStore := finalStore r';
           events := events r ++ events r' |}
    | Throw e =>
        {| settled := Throw e; finalStore := finalStore r; events := events r |}
    end.

(** [try { m } catch (e) { handler e }] *)
Definition tryCatch {A} (m : M A) (handler : JsError → M A) : M A :=
  λ s,
    let r := m s in
    match settled r with
    | Throw e =>
        let r' := handler e (finalStore r) in
        {| settled := settled r'; finalStore := finalStore r';
           events := events r ++ events r' |}
    | Normal _ => r
    end.

Definition lift {A} (c : Completion A) : M A :=
  match c with
  | Normal a => ret a
  | Throw e => throw e
  end.

Definition getMetadata (id : string) : M (option SnapshotMetadata) :=
  λ s, {| settled := Normal (s !! id); finalStore := s; events := [] |}.

Definition saveMetadata (m : SnapshotMetadata) : M unit :=
  λ s, {| settled := Normal tt;
          finalStore := <[snapshotId m := m]> s;
          events := [EvSaveMetadata m] |}.

(** [onProgress?.(p)] *)
Definition onProgress (p : Report) : M unit :=
  λ s, {| settled := Normal tt; finalStore := s; events := [EvProgress p] |}.

(** A run preceded by the events [es]. *)
Definition prepend {A} (es : list Event) (r : Run A) : Run A :=
  {| settled := settled r; finalStore := finalStore r; events := es ++ events r |}.

Local Notation "'let!' x ':=' m 'in' k" := (bind m (λ x, k))
  (at level 10, x name, m at level 100, k at level 200, only parsing).

Definition report (st : Stage) (percent : Z) (text : string)
    (processed total : option Z) : Report := {|
  reportStage := st;
  reportProgress := percent;
  reportMessage := text;
  reportProcessed := processed;
  reportTotal := total;
  reportError := None |}.

(** [IndexedDBManager.saveMessagesBatch(snapshotId, messages, onProgress)]:
    the calls of [onProgress] (every hundredth put and the last; once more
    from [oncomplete] when some put did not succeed) and how the promise
    settles. *)
Definition saveMessagesBatch (messages : list JsVal) (outcome : AttemptOutcome)
  : list Z * Completion unit :=
  let total := length messages in
  match outcome with
  | Committed succeeded =>
      let completed := Nat.min succeeded total in
      (Worker.putCallbacks completed 0 (Z.of_nat total)
       ++ (if Z.of_nat completed =? Z.of_nat total then [] else [Z.of_nat completed]),
       Normal tt)
  | Failed succeeded e =>
      let completed := Nat.min succeeded total in
      (Worker.putCallbacks completed 0 (Z.of_nat total), Throw e)
  end.

(** [65 + Math.floor((processedCount / messages.length) * 30)].  The
    quotient is taken exactly, where the source rounds it to a double
    first. *)
Definition savingPercent (processedCount total : Z) : Z :=
  65 + (processedCount * 30) / total.

Section WithEnv.
Context (api : Api).
(** [decryptSnapshot] is imported from a module outside these sources: for a
    URL and a key it is given by the status texts it reports, in order, and
    by how its promise settles. *)
Context (decryptSnapshot : string → string → list string * Completion JsVal).
(** The outcome the storage engine gives to the write of each batch. *)
Context (batchOutcome : nat → AttemptOutcome).

(** The status callback handed to [decryptSnapshot]. *)
Definition decryptStatus (status : string) : list Event :=
  if Pipeline.includes status "Downloading" then
    [EvProgress (report StDownloading 10 status None None)]
  else if Pipeline.includes status "Importing" then
    [EvProgress (report StDecrypting 30 status None None)]
  else if Pipeline.includes status "Decrypting" then
    [EvProgress (report StDecrypting 50 status None None)]
  else [].

Definition awaitDecrypt (fileUrl privateKeyPem : string) : M JsVal :=
  λ s,
    let '(statuses, result) := decryptSnapshot fileUrl privateKeyPem in
    {| settled := result; finalStore := s;
       events := EvDecrypt fileUrl :: (statuses ≫= decryptStatus) |}.

(** One round of the batch loop up to its [await]: the write of the batch
    and the progress events of its callback. *)
Definition saveBatch (messages : list JsVal) (batchSize totalBatches : Z)
    (batchIndex : nat) : M unit :=
  λ s,
    let total := Z.of_nat (length messages) in
    let start := Z.of_nat batchIndex * batchSize in
    let stop := Z.min (start + batchSize) total in
    let batch := slice messages start stop in
    let outcome := batchOutcome batchIndex in
    let '(calls, result) := saveMessagesBatch batch outcome in
    {| settled := result; finalStore := s;
       events :=
         EvSaveBatch batchIndex batch outcome
         :: ((λ saved,
                let processedCount := start + saved in
                EvProgress
                  (report StSaving (savingPercent processedCount total)
                     ("Saving batch " +:+ toDecimal (Z.of_nat batchIndex + 1)
                      +:+ "/" +:+ toDecimal totalBatches
                      +:+ "... (" +:+ toDecimal processedCount
                      +:+ "/" +:+ toDecimal total +:+ ")")
                     (Some processedCount) (Some total)))
             <$> calls) |}.

(** [for (let batchIndex = 0; batchIndex < totalBatches; batchIndex++)],
    over the indices still to run.  The [setTimeout(0)] between two batches
    has no effect of its own. *)
Fixpoint batchLoop (messages : list JsVal) (batchSize totalBatches : Z)
    (indices : list nat) : M unit :=
  match indices with
  | [] => ret tt
  | batchIndex :: rest =>
      let! _ := saveBatch messages batchSize totalBatches batchIndex in
      batchLoop messages batchSize totalBatches rest
  end.

(** The [catch] block. *)
Definition recordFailure (id : string) (e : JsError) : M unit :=
  let! errorMetadata := getMetadata id in
  let! _ :=
    match errorMetadata with
    | Some m => saveMetadata (Pipeline.withStatus m Errored (Some (errorMessage api e)))
    | None => ret tt
    end in
  let! _ := onProgress {|
    reportStage := StError;
    reportProgress := 0;
    reportMessage := "Failed to load snapshot";
    reportProcessed := None;
    reportTotal := None;
    reportError := Some (errorMessage api e) |} in
  throw e.

(** The [try] block past the check for a completed record. *)
Definition load (id fileUrl privateKeyPem : string) : M unit :=
  let metadata := {|
    snapshotId := id;
    projectId := JUndefined;
    queueId := JUndefined;
    messageCount := JNum 0;
    totalMessages := None;
    processedMessages := 0;
    firstMessageDate := JUndefined;
    lastMessageDate := JUndefined;
    createdAt := isoNow api;
    status := Processing;
    error := None |} in
  let! _ := saveMetadata metadata in
  let! _ := onProgress (report StDownloading 0 "Downloading snapshot file..."
                          None None) in
  let! decryptedData := awaitDecrypt fileUrl privateKeyPem in
  let! _ := onProgress (report StProcessing 60 "Processing snapshot data..."
                          None None) in
  let! projectId' := lift (getProp decryptedData "projectId") in
  let! queueId' := lift (getProp decryptedData "queueId") in
  let! messageCount' := lift (getProp decryptedData "messageCount") in
  let! messages' := lift (getProp decryptedData "messages") in
  match messages' with
  | JArr messages =>
      let total := Z.of_nat (length messages) in
      let! dates :=
        (if 0 <? total then
           let! firstDate :=
             lift (getProp (default JUndefined (index messages 0)) "created_at") in
           let! lastDate :=
             lift (getProp (default JUndefined (index messages (total - 1)))
                     "created_at") in
           ret (firstDate, lastDate)
         else ret (firstMessageDate metadata, lastMessageDate metadata)) in
      let metadata := {|
        snapshotId := snapshotId metadata;
        projectId := projectId';
        queueId := queueId';
        messageCount := if truthy messageCount' then messageCount' else JNum total;
        totalMessages := Some total;
        processedMessages := processedMessages metadata;
        firstMessageDate := dates.1;
        lastMessageDate := dates.2;
        createdAt := createdAt metadata;
        status := status metadata;
        error := error metadata |} in
      let! _ := saveMetadata metadata in
      let! _ := onProgress (report StSaving 65 "Saving messages to IndexedDB..."
                              (Some 0) (Some total)) in
      let batchSize := calculateOptimalBatchSize total in
      let totalBatches := ceilDiv total batchSize in
      let! _ := batchLoop messages batchSize totalBatches
                  (seq 0 (Z.to_nat totalBatches)) in
      let metadata := {|
        snapshotId := snapshotId metadata;
        projectId := projectId metadata;
        queueId := queueId metadata;
        messageCount := messageCount metadata;
        totalMessages := totalMessages metadata;
        processedMessages := total;
        firstMessageDate := firstMessageDate metadata;
        lastMessageDate := lastMessageDate metadata;
        createdAt := createdAt metadata;
        status := Completed;
        error := error metadata |} in
      let! _ := saveMetadata metadata in
      onProgress (report StCompleted 100 "Snapshot loaded successfully!"
                    (Some total) (Some total))
  | _ => throw (Error "Invalid snapshot format: missing messages array")
  end.

(** [decryptAndStreamToIndexedDB(snapshotId, fileUrl, privateKeyPem,
    onProgress)] *)
Definition decryptAndStreamToIndexedDB (id fileUrl privateKeyPem : string)
  : M unit :=
  tryCatch
    (let! existingMetadata := getMetadata id in
     match existingMetadata with
     | Some existing =>
         if decide (status existing = Completed) then
           onProgress (report StCompleted 100 "Snapshot already loaded in IndexedDB"
                         (Some (processedMessages existing)) (totalMessages existing))
         else load id fileUrl privateKeyPem
     | None => load id fileUrl privateKeyPem
     end)
    (recordFailure id).

End WithEnv.

(** The batches written, in order. *)
Definition savedBatches (es : list Event) : list (nat * list JsVal) :=
  omap (λ e, match e with
             | EvSaveBatch batchIndex batch _ => Some (batchIndex, batch)
             | _ => None
             end) es.

End Sequential.


Module SequentialExamples.
Import Js Value Platform Model Sequential PipelineExamples.

(** 501 messages make two batches of the smallest size. *)
Definition manyMessages : list JsVal := replicate 501 (sampleMessage "2024-01-01").

(** A [decryptSnapshot] that reports two status texts and returns the
    snapshot with these messages. *)
Definition sampleDecrypt (fileUrl privateKeyPem : string)
  : list string * Completion JsVal :=
  (["Downloading snapshot file..."; "Decrypting snapshot..."],
   Normal (sampleData manyMessages)).

(** A storage engine that commits every batch, and one that fails the
    second batch. *)
Definition allCommit (batchIndex : nat) : AttemptOutcome := Committed 500.

Definition secondFails (batchIndex : nat) : AttemptOutcome :=
  if decide (batchIndex = 1%nat) then Failed 0 (Error "Transaction aborted")
  else Committed 500.

End SequentialExamples.


(* ===================================================================== *)
(** * The save pool of the fully-offloaded pipeline ([class SaveWorkerPool]) *)
(* ===================================================================== *)

Module SavePool.
Import Js Value Platform Model.

(** Messages a save worker posts: PROGRESS carries no chunk index. *)
Inductive Msg :=
| MsgProgress (saved total : Z)
| MsgComplete (chunkIndex : nat) (saved : Z)
| MsgError (chunkIndex : nat) (error : string).

Record Task := { taskChunk : list JsVal; taskIndex : nat }.

(** What the pool does, in order. *)
Inductive Event :=
| EvSubmit (chunkIndex : nat) (chunk : list JsVal)
| EvPost (worker chunkIndex : nat) (chunk : list JsVal)
| EvWorker (worker : nat) (msg : Msg)
| EvProgress (totalSaved : Z).

(** The pool and its workers; [running] maps a busy worker to the messages
    it still has to post. *)
Record State := {
  workerCount : nat;
  availableWorkers : list nat;
  taskQueue : list Task;
  running : list (nat * list Msg);
  progressMap : gmap nat (Z * Z);
}.

Section WithEnv.
Context (api : Api).
(** The outcome the storage engine gives to the write of each chunk. *)
Context (chunkOutcome : nat → AttemptOutcome).

(** [self.onmessage] of a save worker for a SAVE_BATCH task: the PROGRESS
    posts of [saveMessagesBatch] (every hundredth put and the last), then
    COMPLETE when the transaction completes or ERROR when it fails.  There
    is no second attempt. *)
Definition workerScript (chunkIndex : nat) (messages : list JsVal) : list Msg :=
  let total := Z.of_nat (length messages) in
  match chunkOutcome chunkIndex with
  | Committed succeeded =>
      let completed := Nat.min succeeded (length messages) in
      ((λ saved, MsgProgress saved total) <$> Worker.putCallbacks completed 0 total)
      ++ [MsgComplete chunkIndex (Z.of_nat completed)]
  | Failed succeeded e =>
      let completed := Nat.min succeeded (length messages) in
      ((λ saved, MsgProgress saved total) <$> Worker.putCallbacks completed 0 total)
      ++ [MsgError chunkIndex (errorMessage api e)]
  end.

(** [new SaveWorkerPool(workerCount, ...)]: [initWorkers] makes every worker
    available. *)
Definition create (workers : nat) : State := {|
  workerCount := workers;
  availableWorkers := seq 0 workers;
  taskQueue := [];
  running := [];
  progressMap := ∅;
|}.

(** A worker handles its messages one at a time: a task posted to a busy
    worker is run after the one in hand. *)
Fixpoint enqueueAt (w : nat) (script : list Msg) (rs : list (nat * list Msg))
  : list (nat * list Msg) :=
  match rs with
  | [] => [(w, script)]
  | (w', msgs) :: rest =>
      if decide (w' = w) then (w', msgs ++ script) :: rest
      else (w', msgs) :: enqueueAt w script rest
  end.

(** [processNextTask()] *)
Definition processNextTask (st : State) : State * list Event :=
  match taskQueue st, availableWorkers st with
  | task :: queue', workerIndex :: available' =>
      ({| workerCount := workerCount st;
          availableWorkers := available';
          taskQueue := queue';
          running := enqueueAt workerIndex
                       (workerScript (taskIndex task) (taskChunk task))
                       (running st);
          progressMap := progressMap st |},
       [EvPost workerIndex (taskIndex task) (taskChunk task)])
  | _, _ => (st, [])
  end.

(** [processChunk(chunk, chunkIndex)]: queue the task, then try to hand it
    out.  Its promise resolves when the task is posted to a worker. *)
Definition processChunk (st : State) (chunk : list JsVal) (chunkIndex : nat)
  : State * list Event :=
  let st1 := {| workerCount := workerCount st;
                availableWorkers := availableWorkers st;
                taskQueue := taskQueue st
                             ++ [{| taskChunk := chunk; taskIndex := chunkIndex |}];
                running := running st;
                progressMap := progressMap st |} in
  let '(st2, es) := processNextTask st1 in
  (st2, EvSubmit chunkIndex chunk :: es).

(** [chunks.map((chunk, i) => saveWorkerPool.processChunk(chunk, i))] *)
Fixpoint submitAll (st : State) (chunks : list (list JsVal)) (index : nat)
  : State * list Event :=
  match chunks with
  | [] => (st, [])
  | chunk :: rest =>
      let '(st1, es1) := processChunk st chunk index in
      let '(st2, es2) := submitAll st1 rest (S index) in
      (st2, es1 ++ es2)
  end.

(** [handleWorkerMessage(workerIndex, data)]: PROGRESS records the count
    under the worker's index and reports the sum over the workers; COMPLETE
    makes the worker available again and hands out the next task.  There is
    no branch for ERROR. *)
Definition handleWorkerMessage (st : State) (workerIndex : nat) (data : Msg)
  : State * list Event :=
  match data with
  | MsgProgress saved total =>
      let progressMap' := <[workerIndex := (saved, total)]> (progressMap st) in
      ({| workerCount := workerCount st;
          availableWorkers := availableWorkers st;
          taskQueue := taskQueue st;
          running := running st;
          progressMap := progressMap' |},
       [EvProgress (map_fold (λ _ (entry : Z * Z) totalSaved, totalSaved + entry.1)
                      0 progressMap')])
  | MsgComplete _ _ =>
      processNextTask
        {| workerCount := workerCount st;
           availableWorkers := availableWorkers st ++ [workerIndex];
           taskQueue := taskQueue st;
           running := running st;
           progressMap := progressMap st |}
  | MsgError _ _ => (st, [])
  end.

(** The condition polled by [waitForCompletion()]. *)
Definition drained (st : State) : bool :=
  bool_decide (length (availableWorkers st) = workerCount st)
  && bool_decide (taskQueue st = []).

(** One turn of the event loop: the busy worker at position [choice] (modulo
    the number of busy workers) posts its next message, which the pool
    handles. *)
Definition turn (st : State) (choice : nat) : State * list Event :=
  let k := (choice `mod` length (running st))%nat in
  match running st !! k with
  | Some (w, msg :: rest) =>
      let running' :=
        match rest with
        | [] => delete k (running st)
        | _ => <[k := (w, rest)]> (running st)
        end in
      let st1 := {| workerCount := workerCount st;
                    availableWorkers := availableWorkers st;
                    taskQueue := taskQueue st;
                    running := running';
                    progressMap := progressMap st |} in
      let '(st2, es) := handleWorkerMessage st1 w msg in
      (st2, EvWorker w msg :: es)
  | Some (w, []) =>
      ({| workerCount := workerCount st;
          availableWorkers := availableWorkers st;
          taskQueue := taskQueue st;
          running := delete k (running st);
          progressMap := progressMap st |}, [])
  | None => (st, [])
  end.

(** How waiting for the pool ends within [fuel] turns of the event loop. *)
Inductive Wait :=
| Drained (st : State) (es : list Event)
| Stuck (st : State) (es : list Event)   (* nothing runs, the pool is not drained *)
| StillWaiting (st : State) (es : list Event).

(** [await Promise.all(...); await saveWorkerPool.waitForCompletion()]:
    turns of the event loop until the pool is drained.  [schedule] picks the
    worker served at each turn (the first busy one when it runs out). *)
Fixpoint wait (fuel : nat) (schedule : list nat) (st : State) : Wait :=
  if drained st then Drained st []
  else
    match running st with
    | [] => Stuck st []
    | _ =>
      match fuel with
      | O => StillWaiting st []
      | S fuel' =>
          let '(st1, es1) := turn st (hd 0%nat schedule) in
          match wait fuel' (tl schedule) st1 with
          | Drained st2 es2 => Drained st2 (es1 ++ es2)
          | Stuck st2 es2 => Stuck st2 (es1 ++ es2)
          | StillWaiting st2 es2 => StillWaiting st2 (es1 ++ es2)
          end
      end
    end.

(** The save stage of [decryptAndStreamToIndexedDBFullWorker]: a pool of
    [workers] workers, every chunk submitted, then the two awaits. *)
Definition runPool (workers : nat) (chunks : list (list JsVal))
    (fuel : nat) (schedule : list nat) : Wait :=
  let st0 := create workers in
  let '(st1, es1) := submitAll st0 chunks 0 in
  match wait fuel schedule st1 with
  | Drained st2 es2 => Drained st2 (es1 ++ es2)
  | Stuck st2 es2 => Stuck st2 (es1 ++ es2)
  | StillWaiting st2 es2 => StillWaiting st2 (es1 ++ es2)
  end.

End WithEnv.

Definition isDrained (w : Wait) : bool :=
  match w with Drained _ _ => true | _ => false end.

Definition isComplete (msg : Msg) : bool :=
  match msg with MsgComplete _ _ => true | _ => false end.

(** A COMPLETE is the last message of a worker's script. *)
Definition completeLast (msgs : list Msg) : Prop :=
  ∀ i msg, msgs !! i = Some msg → isComplete msg = true → S i = length msgs.

(** What the proofs keep of a pool: the available workers are distinct
    workers of the pool, the busy workers are distinct workers of the pool
    and not available, and a busy worker becomes available only with its
    last message. *)
Record Inv (st : State) : Prop := {
  inv_distinct : NoDup (availableWorkers st);
  inv_range : ∀ w, w ∈ availableWorkers st → (w < workerCount st)%nat;
  inv_workers : NoDup (running st).*1;
  inv_busy : ∀ w msgs, (w, msgs) ∈ running st →
                       (w ∉ availableWorkers st) ∧ (w < workerCount st)%nat;
  inv_scripts : ∀ w msgs, (w, msgs) ∈ running st → completeLast msgs;
}.

(** A pool that can no longer drain: a task whose write fails waits in the
    queue, or some worker of the pool is not available and has no COMPLETE
    left to post. *)
Definition doomed (chunkOutcome : nat → AttemptOutcome) (st : State) : Prop :=
  (∃ t succeeded e, t ∈ taskQueue st
                    ∧ chunkOutcome (taskIndex t) = Failed succeeded e)
  ∨ (∃ w, (w < workerCount st)%nat ∧ (w ∉ availableWorkers st)
          ∧ (∀ msgs, (w, msgs) ∈ running st
                     → Forall (λ msg, isComplete msg = false) msgs)).

End SavePool.

Module SavePoolExamples.
Import Js Value Platform Model SavePool PipelineExamples.

Definition twoChunks : list (list JsVal) :=
  [[sampleMessage "mon"; sampleMessage "tue"]; [sampleMessage "wed"]].

Definition everyWriteCommits (chunkIndex : nat) : AttemptOutcome := Committed 3000.

Definition secondWriteFails (chunkIndex : nat) : AttemptOutcome :=
  if decide (chunkIndex = 1%nat) then Failed 0 (Error "QuotaExceededError")
  else Committed 3000.

End SavePoolExamples.

(* ===================================================================== *)
(** * Properties                                                           *)
(* ===================================================================== *)

Module JsFacts.
Import Js.

Lemma slice_nat {A} (l : list A) (i c : nat) :
  slice l (Z.of_nat i) (Z.of_nat i + Z.of_nat c) = take c (drop i l).
Proof.
  unfold slice, clampIndex.
  destruct (Z.ltb_spec (Z.of_nat i) 0); [lia|].
  destruct (Z.ltb_spec (Z.of_nat i + Z.of_nat c) 0); [lia|].
  destruct (decide (i ≤ length l)%nat) as [Hi|Hi].
  - rewrite (Z.min_l (Z.of_nat i)) by lia. rewrite Nat2Z.id.
    destruct (decide (i + c ≤ length l)%nat).
    + rewrite Z.min_l by lia. f_equal. lia.
    + rewrite Z.min_r by lia.
      rewrite (take_ge (drop i l) c) by (rewrite length_drop; lia).
      apply take_ge. rewrite length_drop. lia.
  - rewrite !Z.min_r by lia. rewrite Nat2Z.id, Z.sub_diag. simpl.
    rewrite !drop_ge by lia. by rewrite !take_nil.
Qed.

Lemma sliceFrom_nat {A} (l : list A) (i : nat) :
  sliceFrom l (Z.of_nat i) = drop i l.
Proof.
  unfold sliceFrom, slice, clampIndex.
  destruct (Z.ltb_spec (Z.of_nat i) 0); [lia|].
  destruct (Z.ltb_spec (Z.of_nat (length l)) 0); [lia|].
  rewrite Z.min_id.
  destruct (decide (i ≤ length l)%nat).
  - rewrite Z.min_l by lia. rewrite Nat2Z.id.
    apply take_ge. rewrite length_drop. lia.
  - rewrite Z.min_r by lia. rewrite Z.sub_diag, Nat2Z.id.
    rewrite !drop_ge by lia. by rewrite take_nil.
Qed.

End JsFacts.

Module ValueFacts.
Import Value.

(** A value of which one property can be read is neither [null] nor
    [undefined]: each of its properties can be read. *)
Lemma getProp_readable v name0 r name :
  getProp v name0 = Normal r → getProp v name = Normal (lookupChain v name).
Proof. by destruct v. Qed.

Lemma getProp_JObj props name :
  getProp (JObj props) name = Normal (default JUndefined (lookupProp props name)).
Proof. done. Qed.

End ValueFacts.

Module ChunkingFacts.
Import Js JsFacts Chunking.

Section Partition.
Context {A : Type}.
Implicit Types (messages : list A) (chunks : list (list A)).

(** Loop invariant of [chunkMessages]: started at index [i] with enough fuel,
    the loop returns the consecutive slices of width [c] of the rest. *)
Lemma chunkLoop_spec messages (c : nat) (Hc : (0 < c)%nat) :
  ∀ (fuel i : nat), (length messages - i ≤ fuel)%nat →
  ∃ chunks,
    chunkLoop fuel messages (Z.of_nat c) (Z.of_nat i) = Some chunks
    ∧ concat chunks = drop i messages
    ∧ ∀ j ch, chunks !! j = Some ch →
        (i + j * c < length messages)%nat
        ∧ ch = take c (drop (i + j * c) messages).
Proof.
  induction fuel as [|fuel IH]; intros i Hfuel; simpl.
  - destruct (Z.ltb_spec (Z.of_nat i) (Z.of_nat (length messages))); [lia|].
    exists []. split_and!; [done| |done].
    by rewrite drop_ge by lia.
  - destruct (Z.ltb_spec (Z.of_nat i) (Z.of_nat (length messages))) as [Hlt|Hge].
    + destruct (IH (i + c)%nat) as (chunks & Hrun & Hcat & Hnth); [lia|].
      rewrite <- Nat2Z.inj_add, Hrun, Nat2Z.inj_add, slice_nat.
      eexists. split_and!; [done| |].
      * simpl. rewrite Hcat. rewrite <- drop_drop. apply take_drop.
      * intros [|j] ch Hj; simpl in Hj.
        -- inversion Hj; subst. rewrite Nat.add_0_r. split; [lia|done].
        -- destruct (Hnth j ch Hj) as [Hb ->].
           replace (i + S j * c)%nat with (i + c + j * c)%nat by lia. done.
    + exists []. split_and!; [done| |done].
      by rewrite drop_ge by lia.
Qed.

Lemma concat_take_chunks messages chunks (c : nat) :
  concat chunks = messages →
  (∀ j ch, chunks !! j = Some ch →
     (j * c < length messages)%nat ∧ ch = take c (drop (j * c) messages)) →
  ∀ j, (j ≤ length chunks)%nat → concat (take j chunks) = take (j * c) messages.
Proof.
  intros Hcat Hnth. induction j as [|j IH]; intros Hj; [done|].
  destruct (lookup_lt_is_Some_2 chunks j) as [ch Hch]; [lia|].
  rewrite (take_S_r _ _ _ Hch), concat_app, IH by lia. simpl.
  rewrite app_nil_r. destruct (Hnth j ch Hch) as [_ ->].
  rewrite take_take_drop. f_equal. lia.
Qed.

End Partition.
End ChunkingFacts.

Module ChunkingTheorems.
Import Js JsFacts Chunking ChunkingFacts.

Lemma length_concat_sum {A} (chunks : list (list A)) :
  length (concat chunks) = sum_list (length <$> chunks).
Proof.
  induction chunks as [|ch chunks IH]; [done|].
  simpl. rewrite length_app, IH. done.
Qed.

(** C6. For every message array and every positive chunk size,
    [chunkMessages] terminates with a list of chunks whose lengths sum to the
    length of the array and whose concatenation is the array; chunk [j]
    starts where chunk [j - 1] ended (at index [j * chunkSize]), is non-empty,
    at most [chunkSize] long, and is the slice of the array at that range, so
    the index ranges are in order, contiguous and pairwise disjoint. *)
Theorem chunkMessages_partition {A} (messages : list A) (chunkSize : Z) :
  0 < chunkSize →
  ∃ chunks,
    chunkMessages messages (Finite chunkSize) = Some chunks
    ∧ sum_list (length <$> chunks) = length messages
    ∧ concat chunks = messages
    ∧ ∀ j ch, chunks !! j = Some ch →
        Z.of_nat (chunkStart chunks j) = Z.of_nat j * chunkSize
        ∧ 0 < Z.of_nat (length ch) ≤ chunkSize
        ∧ ch = slice messages (Z.of_nat (chunkStart chunks j))
                 (Z.of_nat (chunkStart chunks j) + Z.of_nat (length ch))
        ∧ chunkStart chunks (S j) = (chunkStart chunks j + length ch)%nat.
Proof.
  intros Hpos. set (c := Z.to_nat chunkSize).
  assert (Hc : chunkSize = Z.of_nat c) by lia.
  destruct (chunkLoop_spec messages c ltac:(lia) (length messages) 0%nat)
    as (chunks & Hrun & Hcat & Hnth); [lia|].
  rewrite drop_0 in Hcat.
  exists chunks. split_and!.
  - simpl. by rewrite Hc.
  - by rewrite <- length_concat_sum, Hcat.
  - done.
  - intros j ch Hj.
    pose proof (lookup_lt_Some _ _ _ Hj) as Hlen.
    destruct (Hnth j ch Hj) as [Hb Hch]. simpl in Hb, Hch.
    assert (Hstart : chunkStart chunks j = (j * c)%nat).
    { unfold chunkStart.
      rewrite (concat_take_chunks messages chunks c Hcat) by (done || lia).
      rewrite length_take. lia. }
    assert (Hlch : length ch = Nat.min c (length messages - j * c)).
    { rewrite Hch, length_take, length_drop. done. }
    split_and!.
    + rewrite Hstart. lia.
    + lia.
    + lia.
    + rewrite Hstart, slice_nat, Hlch, Hch.
      destruct (decide (c ≤ length messages - j * c)%nat).
      * by rewrite Nat.min_l by lia.
      * rewrite Nat.min_r by lia.
        rewrite !take_ge; [done|..]; rewrite length_drop; lia.
    + unfold chunkStart at 1. rewrite (take_S_r _ _ _ Hj), concat_app.
      rewrite length_app. simpl. rewrite app_nil_r. done.
Qed.

(** Witness of C6: five messages in chunks of two. *)
Lemma chunkMessages_partition_witness :
  0 < 2 ∧
  ∃ chunks,
    chunkMessages [1; 2; 3; 4; 5] (Finite 2) = Some chunks
    ∧ sum_list (length <$> chunks) = length [1; 2; 3; 4; 5]
    ∧ concat chunks = [1; 2; 3; 4; 5]
    ∧ ∀ j ch, chunks !! j = Some ch →
        Z.of_nat (chunkStart chunks j) = Z.of_nat j * 2
        ∧ 0 < Z.of_nat (length ch) ≤ 2
        ∧ ch = slice [1; 2; 3; 4; 5] (Z.of_nat (chunkStart chunks j))
                 (Z.of_nat (chunkStart chunks j) + Z.of_nat (length ch))
        ∧ chunkStart chunks (S j) = (chunkStart chunks j + length ch)%nat.
Proof.
  split; [lia | apply (chunkMessages_partition [1; 2; 3; 4; 5] 2); lia].
Defined.

Example chunkMessages_five :
  chunkMessages [1; 2; 3; 4; 5] (Finite 2) = Some [[1; 2]; [3; 4]; [5]].
Proof. reflexivity. Qed.

Example chunkMessages_zero_diverges :
  chunkMessages [1; 2; 3] (Finite 0) = None.
Proof. reflexivity. Qed.

End ChunkingTheorems.

Module MsgpackTheorems.
Import Js Value Platform Msgpack.

(** Among the 256 byte values, the decoder's tests leave out exactly [0xc1]. *)
Lemma tagDefined_byte (b : byte) : tagDefined (byteToZ b) = false ↔ b = xc1.
Proof. split; [destruct b; vm_compute; congruence | intros ->; reflexivity]. Qed.

Lemma decodeMsgpack_unsupported_eq api depth buffer offset type :
  byteAt buffer offset = Some type →
  tagDefined type = false →
  decodeMsgpack api (S depth) buffer (Int offset)
  = Throw (Error (unsupportedMessage (Some type) (Int offset))).
Proof.
  intros Hty Hdef. unfold tagDefined in Hdef.
  repeat (apply orb_false_elim in Hdef; destruct Hdef as [Hdef ?]).
  assert (Hrange : ¬ (0xc4 <= type <= 0xdf)).
  { intros [? ?].
    match goal with H : _ && _ = false |- _ =>
      apply andb_false_iff in H; destruct H as [H|H];
      [apply Z.leb_gt in H | apply Z.leb_gt in H]; lia end. }
  simpl. rewrite Hty.
  repeat match goal with
  | H : (_ =? _) = false |- _ => rewrite H; clear H
  | H : (_ <=? _) = false |- _ => rewrite H; clear H
  end.
  repeat match goal with
  | |- context [type =? ?k] =>
      let E := fresh in
      destruct (Z.eqb_spec type k) as [E|E]; [exfalso; lia | clear E]
  end.
  reflexivity.
Qed.

(** C8. For every buffer and offset whose leading byte is outside the tag
    table of [decodeMsgpack], the call throws
    [Error("Unsupported msgpack type 0x<tag in hex> at offset <offset>")]:
    the message names the tag value and the offset, and no value is returned. *)
Theorem decodeMsgpack_unsupported api depth (buffer : list byte) (offset type : Z) :
  byteAt buffer offset = Some type →
  tagDefined type = false →
  decodeMsgpack api (S depth) buffer (Int offset)
  = Throw (Error ("Unsupported msgpack type 0x" +:+ toHex type
                  +:+ " at offset " +:+ toDecimal offset)).
Proof.
  intros Hty Hdef.
  rewrite (decodeMsgpack_unsupported_eq api depth buffer offset type Hty Hdef).
  reflexivity.
Qed.

Lemma decodeMsgpack_unsupported_witness :
  decodeMsgpack TestPlatform.testApi 1 [x92; x01; xc1] (Int 2)
  = Throw (Error "Unsupported msgpack type 0xc1 at offset 2").
Proof.
  exact (decodeMsgpack_unsupported TestPlatform.testApi 0 [x92; x01; xc1] 2 0xc1
           eq_refl eq_refl).
Defined.

End MsgpackTheorems.

Module DecryptFacts.
Import Js JsFacts Value Platform Msgpack Model Async Decrypt DecryptSpec.

Lemma slice_Z {A} (l : list A) (i c : Z) :
  0 ≤ i → 0 ≤ c →
  slice l i (i + c) = take (Z.to_nat c) (drop (Z.to_nat i) l).
Proof.
  intros Hi Hc. rewrite <- (slice_nat l (Z.to_nat i) (Z.to_nat c)).
  by rewrite !Z2Nat.id by lia.
Qed.

Lemma byteToZ_range (b : byte) : 0 ≤ byteToZ b < 256.
Proof.
  unfold byteToZ. pose proof (Byte.to_N_bounded b) as H. lia.
Qed.

Lemma beUnsigned_nonneg (bs : list byte) : 0 ≤ beUnsigned bs.
Proof.
  unfold beUnsigned.
  assert (H : ∀ acc, 0 ≤ acc → 0 ≤ fold_left (λ acc b, acc * 256 + byteToZ b) bs acc).
  { induction bs as [|b bs IH]; intros acc Hacc; simpl; [done|].
    apply IH. pose proof (byteToZ_range b). lia. }
  by apply H.
Qed.

Lemma testApi_decodesMagic : decodesMagic TestPlatform.testApi.
Proof.
  intros bs _. simpl. split.
  - intros H. apply (f_equal list_byte_of_string) in H.
    by rewrite list_byte_of_string_of_list_byte in H.
  - by intros ->.
Qed.

Lemma getUint32_Normal buffer a v :
  getUint32 buffer (Int a) = Normal v →
  0 ≤ a ∧ a + 4 ≤ Z.of_nat (length buffer)
  ∧ v = beUnsigned (take 4 (drop (Z.to_nat a) buffer)).
Proof.
  unfold getUint32. simpl.
  destruct (Z.ltb_spec a 0); simpl; [done|].
  destruct (Z.ltb_spec (Z.of_nat (length buffer)) (a + 4)); simpl; [done|].
  intros [= <-]. split_and!; [done..|].
  by rewrite slice_Z by lia.
Qed.

Lemma parseOsnp_too_small api buffer :
  Z.of_nat (length buffer) < 32 →
  parseOsnp api buffer = Throw (Error "Snapshot buffer is too small").
Proof.
  intros H. unfold parseOsnp.
  by destruct (Z.ltb_spec (Z.of_nat (length buffer)) 32); [|lia].
Qed.

Lemma slice_0_4_length {A} (l : list A) :
  32 ≤ Z.of_nat (length l) → length (slice l 0 4) = 4%nat.
Proof.
  intros H. change (slice l 0 4) with (slice l 0 (0 + 4)).
  rewrite (slice_Z l 0 4) by lia.
  rewrite length_take, length_drop. lia.
Qed.

Lemma parseOsnp_bad_magic api buffer :
  decodesMagic api →
  32 ≤ Z.of_nat (length buffer) →
  slice buffer 0 4 ≠ magicBytes →
  parseOsnp api buffer = Throw (Error "Not an OSNP snapshot").
Proof.
  intros Hmagic Hlen Hne. unfold parseOsnp.
  destruct (Z.ltb_spec (Z.of_nat (length buffer)) 32); [lia|].
  destruct (String.eqb_spec (utf8Decode api (slice buffer 0 4)) "OSNP") as [Heq|]; [|done].
  apply Hmagic in Heq; [done|]. by apply slice_0_4_length.
Qed.

Lemma parseOsnp_header_fails api buffer e9 e8 :
  decodeMsgpack api (stackDepth api) buffer (Int 9) = Throw e9 →
  decodeMsgpack api (stackDepth api) buffer (Int 8) = Throw e8 →
  ∃ e, parseOsnp api buffer = Throw e.
Proof.
  intros H9 H8. unfold parseOsnp.
  destruct (Z.of_nat (length buffer) <? 32); [by eexists|].
  destruct (negb _); [by eexists|].
  rewrite H9, H8. simpl. by eexists.
Qed.

(** What [parseOsnp] returns when it accepts a buffer. *)
Lemma parseOsnp_Normal api buffer env :
  parseOsnp api buffer = Normal env →
  32 ≤ Z.of_nat (length buffer)
  ∧ utf8Decode api (slice buffer 0 4) = "OSNP"
  ∧ ((osnpHeaderOffset env = 9
      ∧ decodeMsgpack api (stackDepth api) buffer (Int 9)
        = Normal (osnpHeader env, osnpAfterHeader env))
     ∨ (osnpHeaderOffset env = 8
        ∧ (∃ e, decodeMsgpack api (stackDepth api) buffer (Int 9) = Throw e)
        ∧ decodeMsgpack api (stackDepth api) buffer (Int 8)
          = Normal (osnpHeader env, osnpAfterHeader env)))
  ∧ getUint32 buffer (osnpAfterHeader env) = Normal (osnpCipherLen env)
  ∧ osnpNonce env
    = sliceNum buffer (addNum (osnpAfterHeader env) 4)
        (addNum (addNum (osnpAfterHeader env) 4) 12)
  ∧ osnpTag env
    = sliceNum buffer (addNum (addNum (osnpAfterHeader env) 4) 12)
        (addNum (addNum (osnpAfterHeader env) 4) 28)
  ∧ osnpCiphertext env
    = sliceNum buffer (addNum (addNum (osnpAfterHeader env) 4) 28)
        (addNum (addNum (addNum (osnpAfterHeader env) 4) 28) (osnpCipherLen env)).
Proof.
  unfold parseOsnp.
  destruct (Z.ltb_spec (Z.of_nat (length buffer)) 32); [done|].
  destruct (String.eqb_spec (utf8Decode api (slice buffer 0 4)) "OSNP"); [|done].
  simpl.
  destruct (decodeMsgpack api (stackDepth api) buffer (Int 9)) as [[h9 a9]|e9] eqn:H9.
  - simpl. destruct (_ || _); [done|].
    destruct (getUint32 buffer a9) eqn:Hlen; [|done]. simpl.
    intros [= <-]. simpl. split_and!; try done. by left.
  - destruct (decodeMsgpack api (stackDepth api) buffer (Int 8)) as [[h8 a8]|e8] eqn:H8; [|done].
    simpl. destruct (_ || _); [done|].
    destruct (getUint32 buffer a8) eqn:Hlen; [|done]. simpl.
    intros [= <-]. simpl. split_and!; try done. right. eauto.
Qed.

(** The header of an accepted buffer is an object from which a truthy
    [wrappedKey] can be read. *)
Lemma parseOsnp_wrappedKey api buffer env :
  parseOsnp api buffer = Normal env →
  ∃ wrappedKey,
    getProp (osnpHeader env) "wrappedKey" = Normal wrappedKey
    ∧ truthy wrappedKey = true.
Proof.
  unfold parseOsnp.
  destruct (Z.of_nat (length buffer) <? 32); [done|].
  destruct (negb _); [done|]. simpl.
  assert (Hcheck : ∀ headerOffset header afterHeader,
    (if negb (truthy header) || negb (typeofObject header)
        || negb (truthy (match getProp header "wrappedKey" with
                         | Normal x => x
                         | Throw _ => JUndefined
                         end))
     then Throw (Error "Invalid OSNP header")
     else
       cbind (getUint32 buffer afterHeader) (λ cipherLen,
         let nonceStart := addNum afterHeader 4 in
         Normal {|
           osnpHeaderOffset := headerOffset;
           osnpHeader := header;
           osnpAfterHeader := afterHeader;
           osnpCipherLen := cipherLen;
           osnpNonce := sliceNum buffer nonceStart (addNum nonceStart 12);
           osnpTag := sliceNum buffer (addNum nonceStart 12) (addNum nonceStart 28);
           osnpCiphertext :=
             sliceNum buffer (addNum nonceStart 28)
                      (addNum (addNum nonceStart 28) cipherLen);
         |})) = Normal env →
    ∃ wrappedKey,
      getProp (osnpHeader env) "wrappedKey" = Normal wrappedKey
      ∧ truthy wrappedKey = true).
  { intros headerOffset header afterHeader.
    destruct (getProp header "wrappedKey") as [k|e] eqn:Hk.
    - destruct (truthy k) eqn:Htruthy.
      + destruct (_ || _); [done|].
        destruct (getUint32 buffer afterHeader); [|done]. simpl.
        intros [= <-]. simpl. eauto.
      + rewrite orb_true_r. done.
    - simpl. rewrite orb_true_r. done. }
  destruct (decodeMsgpack api (stackDepth api) buffer (Int 9)) as [[h9 a9]|e9].
  - simpl. apply Hcheck.
  - destruct (decodeMsgpack api (stackDepth api) buffer (Int 8)) as [[h8 a8]|e8]; [|done].
    simpl. apply Hcheck.
Qed.

(** The slices of an accepted buffer, clamped at the end of the buffer. *)
Lemma parseOsnp_slices api buffer env :
  parseOsnp api buffer = Normal env →
  match osnpAfterHeader env with
  | Int a =>
      0 ≤ a ∧ a + 4 ≤ Z.of_nat (length buffer)
      ∧ osnpCipherLen env = beUnsigned (take 4 (drop (Z.to_nat a) buffer))
      ∧ osnpNonce env = take 12 (drop (Z.to_nat a + 4) buffer)
      ∧ osnpTag env = take 16 (drop (Z.to_nat a + 16) buffer)
      ∧ osnpCiphertext env
        = take (Z.to_nat (osnpCipherLen env)) (drop (Z.to_nat a + 32) buffer)
  | NaN =>
      osnpCipherLen env = beUnsigned (take 4 buffer)
      ∧ osnpNonce env = [] ∧ osnpTag env = [] ∧ osnpCiphertext env = []
  end.
Proof.
  intros Hparse.
  pose proof (parseOsnp_Normal _ _ _ Hparse)
    as (Hsize & _ & _ & Hcl & Hnonce & Htag & Hct).
  destruct (osnpAfterHeader env) as [a|].
  - apply getUint32_Normal in Hcl as (Ha0 & Ha4 & Hcl).
    assert (Hcl0 : 0 ≤ osnpCipherLen env) by (rewrite Hcl; apply beUnsigned_nonneg).
    unfold sliceNum in *. simpl in Hnonce, Htag, Hct.
    replace (a + 4 + 28) with (a + 4 + 12 + 16) in Htag by lia.
    rewrite slice_Z in Hnonce, Htag, Hct by lia.
    replace (Z.to_nat (a + 4)) with (Z.to_nat a + 4)%nat in * by lia.
    replace (Z.to_nat (a + 4 + 12)) with (Z.to_nat a + 16)%nat in * by lia.
    replace (Z.to_nat (a + 4 + 28)) with (Z.to_nat a + 32)%nat in * by lia.
    by split_and!.
  - change (getUint32 buffer NaN) with (getUint32 buffer (Int 0)) in Hcl.
    apply getUint32_Normal in Hcl as (_ & _ & Hcl).
    assert (Hempty : sliceNum buffer NaN NaN = []).
    { unfold sliceNum. simpl. change 0 with (0 + 0) at 2. by rewrite slice_Z. }
    change (addNum NaN 4) with NaN in *. change (addNum NaN 12) with NaN in *.
    change (addNum NaN 28) with NaN in *.
    change (addNum NaN (osnpCipherLen env)) with NaN in *.
    rewrite Hempty in *. by split_and!.
Qed.

End DecryptFacts.

Module AsyncFacts.
Import Value Model Async.

Section Laws.
Context {A B C : Type}.
Implicit Types (s : gmap string SnapshotMetadata).

Lemma bind_ret (a : A) (k : A → M B) s : bind (ret a) k s = k a s.
Proof. unfold bind, ret. simpl. by destruct (k a s). Qed.

Lemma bind_throw (e : JsError) (k : A → M B) s : bind (throw e) k s = throw e s.
Proof. done. Qed.

Lemma bind_never (k : A → M B) s : bind never k s = never s.
Proof. done. Qed.

Lemma bind_emit (ev : Effect) (k : unit → M B) s :
  bind (emit ev) k s = prepend [ev] (k tt s).
Proof. done. Qed.

Lemma bind_lift_Normal (a : A) (k : A → M B) s : bind (lift (Normal a)) k s = k a s.
Proof. apply bind_ret. Qed.

Lemma bind_lift_Throw (e : JsError) (k : A → M B) s :
  bind (lift (Throw e)) k s = throw e s.
Proof. done. Qed.

Lemma bind_getMetadata id (k : option SnapshotMetadata → M B) s :
  bind (getMetadata id) k s = k (s !! id) s.
Proof. unfold bind, getMetadata. simpl. by destruct (k (s !! id) s). Qed.

Lemma bind_saveMetadata m (k : unit → M B) s :
  bind (saveMetadata m) k s = prepend [ESaveMetadata m] (k tt (<[snapshotId m := m]> s)).
Proof. done. Qed.

Lemma bind_bind (m : M A) (k1 : A → M B) (k2 : B → M C) s :
  bind (bind m k1) k2 s = bind m (λ a, bind (k1 a) k2) s.
Proof.
  unfold bind. destruct (m s) as [[[a|e]|] s1 es1]; simpl; [|done..].
  destruct (k1 a s1) as [[[b|e]|] s2 es2]; simpl; [|done..].
  by rewrite app_assoc.
Qed.

Lemma bind_if (b : bool) (m1 m2 : M A) (k : A → M B) s :
  bind (if b then m1 else m2) k s = if b then bind m1 k s else bind m2 k s.
Proof. by destruct b. Qed.

Lemma tryCatch_ret (a : A) (h : JsError → M A) s : tryCatch (ret a) h s = ret a s.
Proof. done. Qed.

Lemma tryCatch_throw (e : JsError) (h : JsError → M A) s :
  tryCatch (throw e) h s = h e s.
Proof. unfold tryCatch, throw. simpl. by destruct (h e s). Qed.

Lemma tryCatch_lift (c : Completion A) (h : JsError → M A) s :
  tryCatch (lift c) h s = match c with Normal a => ret a s | Throw e => h e s end.
Proof. destruct c; [done|apply tryCatch_throw]. Qed.

Lemma effects_lift (c : Completion A) s : effects (lift c s) = [].
Proof. by destruct c. Qed.

Lemma storeAfter_lift (c : Completion A) s : storeAfter (lift c s) = s.
Proof. by destruct c. Qed.

Lemma outcome_lift (c : Completion A) s : outcome (lift c s) = Some c.
Proof. by destruct c. Qed.

Lemma outcome_prepend es (r : Run A) : outcome (prepend es r) = outcome r.
Proof. done. Qed.

Lemma storeAfter_prepend es (r : Run A) : storeAfter (prepend es r) = storeAfter r.
Proof. done. Qed.

Lemma effects_prepend es (r : Run A) : effects (prepend es r) = es ++ effects r.
Proof. done. Qed.

Lemma prepend_prepend es1 es2 (r : Run A) :
  prepend es1 (prepend es2 r) = prepend (es1 ++ es2) r.
Proof. unfold prepend. simpl. by rewrite app_assoc. Qed.

(** The run of a bind, by cases on the run of its first part. *)
Lemma bind_run (m : M A) (k : A → M B) s :
  bind m k s
  = match outcome (m s) with
    | Some (Normal a) => prepend (effects (m s)) (k a (storeAfter (m s)))
    | Some (Throw e) =>
        {| outcome := Some (Throw e); storeAfter := storeAfter (m s);
           effects := effects (m s) |}
    | None =>
        {| outcome := None; storeAfter := storeAfter (m s); effects := effects (m s) |}
    end.
Proof. done. Qed.

Lemma tryCatch_run (m : M A) (h : JsError → M A) s :
  tryCatch m h s
  = match outcome (m s) with
    | Some (Throw e) => prepend (effects (m s)) (h e (storeAfter (m s)))
    | _ => m s
    end.
Proof. done. Qed.

End Laws.

Global Opaque bind tryCatch.

(** Run the leading steps of a computation built from the primitives. *)
Ltac mstep :=
  first
  [ rewrite bind_bind
  | rewrite bind_ret
  | rewrite bind_throw
  | rewrite bind_emit
  | rewrite bind_lift_Normal
  | rewrite bind_lift_Throw
  | rewrite bind_getMetadata
  | rewrite bind_saveMetadata
  | rewrite tryCatch_lift
  | rewrite tryCatch_ret
  | rewrite tryCatch_throw
  | rewrite effects_prepend
  | rewrite effects_lift
  | rewrite storeAfter_lift
  | rewrite outcome_lift
  | rewrite outcome_prepend
  | rewrite storeAfter_prepend ].

Ltac msteps := repeat mstep.

(** Split on the completion, or on the condition, that decides the next step. *)
Ltac mcase :=
  match goal with
  | |- context [bind (lift ?c)] => destruct c eqn:?
  | |- context [bind (if ?b then _ else _)] => rewrite bind_if; destruct b eqn:?
  | |- context [match ?c with Normal _ => _ | Throw _ => _ end] => destruct c eqn:?
  | |- context [effects (if ?b then _ else _)] => destruct b eqn:?
  | |- context [outcome (if ?b then _ else _)] => destruct b eqn:?
  end.

Ltac mrun := repeat (msteps; try mcase); msteps.

(** Membership in an explicit list of effects. *)
Ltac in_effects :=
  let Hin := fresh "Hin" in
  intros Hin; simpl in Hin;
  repeat (apply elem_of_cons in Hin as [Hin|Hin]; [try done; simplify_eq|]);
  try (by apply elem_of_nil in Hin); try done.

End AsyncFacts.

Module DecryptTheorems.
Import Js JsFacts Value Platform Msgpack Model Async Decrypt DecryptSpec DecryptFacts.
Import AsyncFacts TestPlatform DecryptExamples.

Lemma decryptOsnp_parse_throw api buffer privateKey s e :
  parseOsnp api buffer = Throw e →
  decryptOsnpSnapshot api buffer privateKey s
  = {| outcome := Some (Throw e); storeAfter := s; effects := [] |}.
Proof. intros H. unfold decryptOsnpSnapshot. rewrite H. by msteps. Qed.

(** The AES-GCM call of [decryptOsnpSnapshot] gets the parsed nonce as IV and
    the parsed ciphertext followed by the parsed tag as data. *)
Lemma decryptOsnp_aes_inputs api buffer privateKey s env iv data result :
  parseOsnp api buffer = Normal env →
  EAesGcmDecrypt iv data result ∈ effects (decryptOsnpSnapshot api buffer privateKey s) →
  iv = osnpNonce env ∧ data = osnpCiphertext env ++ osnpTag env.
Proof.
  intros Hparse. unfold decryptOsnpSnapshot. rewrite Hparse.
  unfold rsaDecrypt, aesDecrypt, decompressGzip.
  mrun; in_effects.
Qed.

(** C3, counterexample.  [osnpTruncated] passes every check of the parser,
    which returns a 3-byte nonce, an empty tag and an empty ciphertext for
    a declared cipher length of 2, and [decryptOsnpSnapshot] goes on to the
    RSA decryption. *)
Lemma osnp_truncated_counterexample :
  ∃ env,
    parseOsnp testApi osnpTruncated = Normal env
    ∧ osnpCipherLen env = 2
    ∧ length (osnpNonce env) = 3%nat
    ∧ length (osnpTag env) = 0%nat
    ∧ length (osnpCiphertext env) = 0%nat
    ∧ ∃ wrappedKey result rest,
        effects (decryptOsnpSnapshot testApi osnpTruncated [] ∅)
        = ERsaDecrypt wrappedKey result :: rest.
Proof.
  eexists. split; [vm_compute; reflexivity|].
  split_and!; try reflexivity.
  do 3 eexists. vm_compute. reflexivity.
Qed.

(** C3, as amended.  [decryptOsnpSnapshot] throws, before any decryption or
    other effect, when the buffer has fewer than 32 bytes, when its first
    four bytes are not "OSNP", or when the header decodes neither at offset
    9 nor at offset 8.  For every accepted buffer that holds the bytes up to
    the end of the declared ciphertext, the header is the value decoded at
    offset 9 (at offset 8 when decoding at 9 throws), and the bytes after
    the header are, in order: the cipher length as four big-endian bytes,
    the 12-byte nonce, the 16-byte tag, and a ciphertext of the declared
    length; AES-GCM is called with this nonce and this ciphertext followed
    by this tag.  For every accepted buffer, whatever its length, the nonce,
    the tag and the ciphertext are the bytes that remain of the 12, 16 and
    declared-length fields (none at all when the offset after the header is
    not a number), and the first effect of the run is the RSA decryption of
    the header's truthy [wrappedKey]: a short buffer is not refused. *)
Theorem osnp_fails_closed_and_layout api (buffer privateKey : list byte)
    (s : gmap string SnapshotMetadata) :
  decodesMagic api →
  ((Z.of_nat (length buffer) < 32
    ∨ slice buffer 0 4 ≠ magicBytes
    ∨ (∃ e9 e8,
         decodeMsgpack api (stackDepth api) buffer (Int 9) = Throw e9
         ∧ decodeMsgpack api (stackDepth api) buffer (Int 8) = Throw e8)) →
   ∃ e, decryptOsnpSnapshot api buffer privateKey s
        = {| outcome := Some (Throw e); storeAfter := s; effects := [] |})
  ∧ (∀ env a,
       parseOsnp api buffer = Normal env →
       osnpAfterHeader env = Int a →
       a + 32 + osnpCipherLen env ≤ Z.of_nat (length buffer) →
       ((osnpHeaderOffset env = 9
         ∧ decodeMsgpack api (stackDepth api) buffer (Int 9)
           = Normal (osnpHeader env, Int a))
        ∨ (osnpHeaderOffset env = 8
           ∧ (∃ e, decodeMsgpack api (stackDepth api) buffer (Int 9) = Throw e)
           ∧ decodeMsgpack api (stackDepth api) buffer (Int 8)
             = Normal (osnpHeader env, Int a)))
       ∧ 0 ≤ a
       ∧ (∃ lenBytes rest,
            drop (Z.to_nat a) buffer
            = lenBytes ++ osnpNonce env ++ osnpTag env ++ osnpCiphertext env ++ rest
            ∧ length lenBytes = 4%nat
            ∧ beUnsigned lenBytes = osnpCipherLen env)
       ∧ length (osnpNonce env) = 12%nat
       ∧ length (osnpTag env) = 16%nat
       ∧ Z.of_nat (length (osnpCiphertext env)) = osnpCipherLen env
       ∧ ∀ iv data result,
           EAesGcmDecrypt iv data result
             ∈ effects (decryptOsnpSnapshot api buffer privateKey s) →
           iv = osnpNonce env ∧ data = osnpCiphertext env ++ osnpTag env)
  ∧ (∀ env,
       parseOsnp api buffer = Normal env →
       (∃ wrappedKey result rest,
          getProp (osnpHeader env) "wrappedKey" = Normal wrappedKey
          ∧ truthy wrappedKey = true
          ∧ effects (decryptOsnpSnapshot api buffer privateKey s)
            = ERsaDecrypt wrappedKey result :: rest)
       ∧ match osnpAfterHeader env with
         | Int a =>
             0 ≤ a ∧ a + 4 ≤ Z.of_nat (length buffer)
             ∧ osnpCipherLen env = beUnsigned (take 4 (drop (Z.to_nat a) buffer))
             ∧ osnpNonce env = take 12 (drop (Z.to_nat a + 4) buffer)
             ∧ osnpTag env = take 16 (drop (Z.to_nat a + 16) buffer)
             ∧ osnpCiphertext env
               = take (Z.to_nat (osnpCipherLen env)) (drop (Z.to_nat a + 32) buffer)
         | NaN =>
             osnpCipherLen env = beUnsigned (take 4 buffer)
             ∧ osnpNonce env = [] ∧ osnpTag env = [] ∧ osnpCiphertext env = []
         end).
Proof.
  intros Hmagic. split_and!.
  - intros Hfail.
    assert (∃ e, parseOsnp api buffer = Throw e) as [e He].
    { destruct (decide (Z.of_nat (length buffer) < 32)) as [Hs|Hs].
      { eexists. by apply parseOsnp_too_small. }
      destruct Hfail as [?|[Hm|(e9 & e8 & H9 & H8)]]; [lia| |].
      - eexists. apply parseOsnp_bad_magic; [done|lia|done].
      - by eapply parseOsnp_header_fails. }
    exists e. by apply decryptOsnp_parse_throw.
  - intros env a Hparse Ha Hlen.
    pose proof (parseOsnp_Normal _ _ _ Hparse)
      as (Hsize & _ & Hhdr & Hcl & Hnonce & Htag & Hct).
    rewrite Ha in *. simpl in Hnonce, Htag, Hct.
    apply getUint32_Normal in Hcl as (Ha0 & Ha4 & Hcl).
    assert (Hcl0 : 0 ≤ osnpCipherLen env) by (rewrite Hcl; apply beUnsigned_nonneg).
    unfold sliceNum in *. simpl in Hnonce, Htag, Hct.
    replace (a + 4 + 28) with (a + 4 + 12 + 16) in Htag by lia.
    rewrite slice_Z in Hnonce, Htag, Hct by lia.
    set (n := Z.to_nat a) in *.
    replace (Z.to_nat (a + 4)) with (n + 4)%nat in * by lia.
    replace (Z.to_nat (a + 4 + 12)) with (n + 4 + 12)%nat in * by lia.
    replace (Z.to_nat (a + 4 + 28)) with (n + 4 + 12 + 16)%nat in * by lia.
    split_and!.
    + done.
    + done.
    + exists (take 4 (drop n buffer)),
        (drop (Z.to_nat (osnpCipherLen env)) (drop (n + 4 + 12 + 16) buffer)).
      split_and!.
      * rewrite Hnonce, Htag, Hct. rewrite <- !drop_drop.
        by rewrite !take_drop.
      * rewrite length_take, length_drop. lia.
      * done.
    + rewrite Hnonce, length_take, length_drop. lia.
    + rewrite Htag, length_take, length_drop. lia.
    + rewrite Hct, length_take, length_drop. lia.
    + intros iv data result. by apply decryptOsnp_aes_inputs.
  - intros env Hparse. split; [|by eapply parseOsnp_slices].
    destruct (parseOsnp_wrappedKey _ _ _ Hparse) as (wrappedKey & Hkey & Htruthy).
    exists wrappedKey. unfold decryptOsnpSnapshot, rsaDecrypt.
    rewrite Hparse. msteps. rewrite Hkey. msteps. simpl. eauto.
Qed.

(** Witness of C3: a two-byte buffer is refused without effects, and the
    complete buffer [osnpComplete] is read field by field. *)
Lemma osnp_fails_closed_and_layout_witness :
  decodesMagic testApi
  ∧ (∃ e, decryptOsnpSnapshot testApi [x4f; x53] [] ∅
          = {| outcome := Some (Throw e); storeAfter := ∅; effects := [] |})
  ∧ (∃ env, parseOsnp testApi osnpComplete = Normal env
            ∧ osnpHeaderOffset env = 9
            ∧ osnpCipherLen env = 2
            ∧ length (osnpNonce env) = 12%nat
            ∧ length (osnpTag env) = 16%nat
            ∧ Z.of_nat (length (osnpCiphertext env)) = osnpCipherLen env).
Proof.
  split; [exact testApi_decodesMagic|]. split.
  - apply (osnp_fails_closed_and_layout testApi [x4f; x53] [] ∅ testApi_decodesMagic).
    left. vm_compute. reflexivity.
  - eexists. split; [vm_compute; reflexivity|].
    split; [reflexivity|]. split; [reflexivity|].
    pose proof (proj1 (proj2 (osnp_fails_closed_and_layout testApi osnpComplete [] ∅
                                testApi_decodesMagic))) as H.
    edestruct H as (_ & _ & _ & Hn & Ht & Hc & _);
      [vm_compute; reflexivity | reflexivity | vm_compute; discriminate |].
    split_and!; [exact Hn | exact Ht | exact Hc].
Defined.

(** The header [{ "__proto__": { wrappedKey } }] of [osnpInheritedKey] has
    no own property; its [wrappedKey] is read through the prototype, the
    buffer is accepted and decrypted. *)
Example osnp_header_inherits_wrappedKey :
  ∃ env,
    parseOsnp testApi osnpInheritedKey = Normal env
    ∧ osnpHeader env = JObjProto (JObj [("wrappedKey", JBytes [xaa; xbb])]) []
    ∧ outcome (decryptOsnpSnapshot testApi osnpInheritedKey [] ∅)
      = Some (Normal (JObj [])).
Proof. eexists. split; [vm_compute; reflexivity|]. split; vm_compute; reflexivity. Qed.

(** A map key that is a map with an own [toString] cannot be converted to a
    property key; keys that are array indices are listed first, in
    ascending order, and a repeated key keeps its place. *)
Example decodeMsgpack_map_keys :
  decodeMsgpack testApi 64 mapWithUnprintableKey (Int 0)
  = Throw (TypeError "Cannot convert object to primitive value")
  ∧ decodeMsgpack testApi 64 mapWithIndexKeys (Int 0)
    = Normal (JObj [("9", JNum 3); ("10", JNum 2); ("b", JNum 4)], Int 14).
Proof. split; vm_compute; reflexivity. Qed.

End DecryptTheorems.

Module DecompressionTheorems.
Import Js JsFacts Value Platform Msgpack Model Async Decrypt DecryptSpec DecryptFacts.
Import AsyncFacts TestPlatform DecryptExamples.

Lemma decryptJson_gunzip api payload privateKey s enc plain :
  getProp payload "enc" = Normal enc →
  aesPlaintexts (effects (decryptJsonSnapshot api payload privateKey s)) = [plain] →
  gunzipCalls (effects (decryptJsonSnapshot api payload privateKey s))
  = if compressionIsGzip enc then [plain] else [].
Proof.
  intros Henc. unfold decryptJsonSnapshot. rewrite Henc. msteps.
  unfold compressionIsGzip.
  destruct (_ || _); [by simpl|].
  generalize (match getProp enc "wrappedKey" with Normal x => x | Throw _ => JUndefined end).
  generalize (match getProp enc "ciphertext" with Normal x => x | Throw _ => JUndefined end).
  generalize (match getProp enc "tag" with Normal x => x | Throw _ => JUndefined end).
  generalize (match getProp enc "nonce" with Normal x => x | Throw _ => JUndefined end).
  intros nonce tag ciphertext wrappedKey.
  unfold base64ToUint8Array, rsaDecrypt, aesDecrypt, decompressGzip.
  destruct (getProp enc "compression") as [c|];
    mrun; simpl; intros; simplify_eq; done.
Qed.

Lemma decryptOsnp_gunzip api buffer privateKey s env plain :
  parseOsnp api buffer = Normal env →
  aesPlaintexts (effects (decryptOsnpSnapshot api buffer privateKey s)) = [plain] →
  gunzipCalls (effects (decryptOsnpSnapshot api buffer privateKey s))
  = if compressionIsGzip (osnpHeader env) then [plain] else [].
Proof.
  intros Hparse. unfold decryptOsnpSnapshot. rewrite Hparse. msteps.
  unfold compressionIsGzip.
  generalize (match getProp (osnpHeader env) "wrappedKey" with
              | Normal x => x | Throw _ => JUndefined end).
  intros wrappedKey.
  unfold rsaDecrypt, aesDecrypt, decompressGzip.
  destruct (getProp (osnpHeader env) "compression") as [c|];
    mrun; simpl; intros; simplify_eq; done.
Qed.

Lemma sniff_beginsWithGzipMagic (bytes : list byte) :
  bool_decide (byteAt bytes 0 = Some 0x1f) && bool_decide (byteAt bytes 1 = Some 0x8b)
  = beginsWithGzipMagic bytes.
Proof.
  destruct bytes as [|b0 [|b1 rest]]; simpl.
  - done.
  - by rewrite andb_false_r.
  - unfold byteAt; simpl. f_equal.
    + destruct b0; vm_compute; reflexivity.
    + destruct b1; vm_compute; reflexivity.
Qed.

Lemma decryptSnapshotData_gunzip api encryptedData privateKeyPem s plain :
  aesPlaintexts (effects (decryptSnapshotData api encryptedData privateKeyPem s)) = [plain] →
  gunzipCalls (effects (decryptSnapshotData api encryptedData privateKeyPem s))
  = if beginsWithGzipMagic plain then [plain] else [].
Proof.
  unfold decryptSnapshotData.
  unfold rsaDecrypt, aesDecrypt, decompressGzip.
  mrun; simpl; intros; simplify_eq;
    match goal with
    | H : _ && _ = _ |- _ => rewrite sniff_beginsWithGzipMagic in H; by rewrite H
    | _ => done
    end.
Qed.

(** C4, counterexample.  The JSON envelope [jsonEnvelopeNoFlag] and the OSNP
    buffer [osnpNoFlag] carry no compression flag and decrypt to bytes that
    begin with [0x1f 0x8b]; neither decryption calls [decompressGzip]: the
    JSON path hands the compressed bytes to [JSON.parse], the OSNP path
    falls back to MessagePack and returns the fixint [0x1f]. *)
Lemma gzip_sniffing_counterexample :
  let json := decryptJsonSnapshot testApi jsonEnvelopeNoFlag [] ∅ in
  let osnp := decryptOsnpSnapshot testApi osnpNoFlag [] ∅ in
  aesPlaintexts (effects json) = [[x1f; x8b; x7b; x7d]]
  ∧ gunzipCalls (effects json) = []
  ∧ outcome json = Some (Throw (ApiError "JSON.parse" "SyntaxError"))
  ∧ aesPlaintexts (effects osnp) = [[x1f; x8b; x7b; x7d]]
  ∧ gunzipCalls (effects osnp) = []
  ∧ outcome osnp = Some (Normal (JNum 31)).
Proof. vm_compute. repeat split. Qed.

(** C4, as amended.  Whenever the AES-GCM decryption of an envelope
    succeeds with plaintext [plain], [decryptJsonSnapshot] and
    [decryptOsnpSnapshot] call [decompressGzip] (on [plain], once) exactly
    when the envelope's [compression] field is the string 'gzip', whatever
    the first bytes of [plain] are; only the flagless decryption of the
    inline decrypt worker, [decryptSnapshotData], decides by the two-byte
    gzip magic at the head of the decrypted bytes. *)
Theorem decompression_follows_flag api (privateKey : list byte)
    (s : gmap string SnapshotMetadata) (plain : list byte) :
  (∀ payload enc,
     getProp payload "enc" = Normal enc →
     aesPlaintexts (effects (decryptJsonSnapshot api payload privateKey s)) = [plain] →
     gunzipCalls (effects (decryptJsonSnapshot api payload privateKey s))
     = if compressionIsGzip enc then [plain] else [])
  ∧ (∀ buffer env,
       parseOsnp api buffer = Normal env →
       aesPlaintexts (effects (decryptOsnpSnapshot api buffer privateKey s)) = [plain] →
       gunzipCalls (effects (decryptOsnpSnapshot api buffer privateKey s))
       = if compressionIsGzip (osnpHeader env) then [plain] else [])
  ∧ (∀ encryptedData privateKeyPem,
       aesPlaintexts (effects (decryptSnapshotData api encryptedData privateKeyPem s))
       = [plain] →
       gunzipCalls (effects (decryptSnapshotData api encryptedData privateKeyPem s))
       = if beginsWithGzipMagic plain then [plain] else []).
Proof.
  split_and!.
  - intros. by apply decryptJson_gunzip.
  - intros. by apply decryptOsnp_gunzip.
  - intros. by apply decryptSnapshotData_gunzip.
Qed.

(** Witness of C4: the JSON envelope with [compression: 'gzip'], the OSNP
    buffer whose header inherits [compression: 'gzip'] from its prototype,
    and a flagless input of the inline worker whose decrypted bytes begin
    with the gzip magic are each decompressed once. *)
Lemma decompression_follows_flag_witness :
  gunzipCalls (effects (decryptJsonSnapshot testApi jsonEnvelopeGzip [] ∅))
  = [[x1f; x8b; x7b; x7d]]
  ∧ gunzipCalls (effects (decryptOsnpSnapshot testApi osnpInheritedGzip [] ∅))
    = [[x1f; x8b; x7b; x7d]]
  ∧ gunzipCalls (effects (decryptSnapshotData testApi workerInputGzip "" ∅))
    = [[x1f; x8b; x7b; x7d]].
Proof.
  destruct (decompression_follows_flag testApi [] ∅ [x1f; x8b; x7b; x7d])
    as (Hjson & Hosnp & Hworker).
  split_and!.
  - rewrite (Hjson jsonEnvelopeGzip _ eq_refl); vm_compute; reflexivity.
  - edestruct (parseOsnp testApi osnpInheritedGzip) as [env|] eqn:Hparse;
      [|vm_compute in Hparse; discriminate].
    rewrite (Hosnp osnpInheritedGzip env Hparse); [|vm_compute; reflexivity].
    vm_compute in Hparse. injection Hparse as <-. vm_compute. reflexivity.
  - rewrite (Hworker workerInputGzip ""); vm_compute; reflexivity.
Defined.

Example decryptJson_gzip_flag :
  let r := decryptJsonSnapshot testApi jsonEnvelopeGzip [] ∅ in
  gunzipCalls (effects r) = [[x1f; x8b; x7b; x7d]]
  ∧ outcome r = Some (Normal (JObj [])).
Proof. vm_compute. split; reflexivity. Qed.

(** The header of [osnpInheritedGzip] has the own property [wrappedKey] and
    inherits [compression]; the decrypted bytes are decompressed. *)
Example decryptOsnp_inherited_gzip_flag :
  let r := decryptOsnpSnapshot testApi osnpInheritedGzip [] ∅ in
  gunzipCalls (effects r) = [[x1f; x8b; x7b; x7d]]
  ∧ outcome r = Some (Normal (JObj [])).
Proof. vm_compute. split; reflexivity. Qed.

End DecompressionTheorems.

Module PipelineFacts.
Import Js JsFacts Value Platform Model Async Chunking Decrypt Pipeline AsyncFacts.

Section WithEnv.
Context (api : Api) (WORKER_COUNT : nat) (chunkEnv : nat → Worker.ChunkEnv)
  (schedule : list nat).
Implicit Types (s : gmap string SnapshotMetadata) (id : string).

Lemma ensure_completed id s m :
  s !! id = Some m → status m = Completed →
  ensureProcessingMetadata api id s = ret (m, true) s.
Proof.
  intros Hm Hst. unfold ensureProcessingMetadata.
  rewrite bind_getMetadata, Hm. by rewrite decide_True.
Qed.

Lemma ensure_resumable id s m :
  s !! id = Some m → status m ≠ Completed →
  ensureProcessingMetadata api id s
  = prepend [ESaveMetadata (withStatus m Processing None)]
      (ret (withStatus m Processing None, false)
         (<[snapshotId m := withStatus m Processing None]> s)).
Proof.
  intros Hm Hst. unfold ensureProcessingMetadata.
  rewrite bind_getMetadata, Hm. rewrite decide_False by done.
  by rewrite bind_saveMetadata.
Qed.

Lemma finallyTerminate_no_pool {A} (m : M A) s :
  existsb isPoolCreated (effects (m s)) = false →
  finallyTerminate m s = m s.
Proof. intros H. unfold finallyTerminate. rewrite H. by destruct (outcome (m s)). Qed.

End WithEnv.
End PipelineFacts.

Module PipelineTheorems.
Import Js JsFacts Value Platform Model Async Chunking Decrypt Pipeline.
Import AsyncFacts PipelineFacts TestPlatform PipelineExamples.

(** C2. When the stored metadata of a snapshot has status 'completed', both
    entry points of the pipeline return at once: the only effect is one
    progress event of stage 'completed' that carries the stored
    [processedMessages] and [totalMessages]; nothing is fetched or
    decrypted, no chunk is submitted, and the metadata store is unchanged. *)
Theorem completed_snapshot_is_skipped api (WORKER_COUNT : nat)
    (chunkEnv : nat → Worker.ChunkEnv) (schedule : list nat)
    (id fileUrl privateKeyPem : string) (decryptedData : JsVal)
    (s : gmap string SnapshotMetadata) (m : SnapshotMetadata) :
  s !! id = Some m →
  status m = Completed →
  let skipped := {|
    outcome := Some (Normal tt);
    storeAfter := s;
    effects := [EProgress {| stage := StCompleted;
                             progress := 100;
                             message := TxtAlreadyLoaded;
                             progressProcessed := Some (processedMessages m);
                             progressTotal := totalMessages m;
                             progressError := None;
                             insertedMessages := None |}] |} in
  decryptAndStreamToIndexedDBMultiWorker api WORKER_COUNT chunkEnv schedule
    id fileUrl privateKeyPem s = skipped
  ∧ cacheDecryptedSnapshotMultiWorker api WORKER_COUNT chunkEnv schedule
      id decryptedData None s = skipped.
Proof.
  intros Hm Hst skipped. split.
  - unfold decryptAndStreamToIndexedDBMultiWorker.
    rewrite tryCatch_run, bind_run, (ensure_completed api id s m Hm Hst).
    reflexivity.
  - unfold cacheDecryptedSnapshotMultiWorker.
    assert (Hbody : tryCatch (cacheBody api WORKER_COUNT chunkEnv schedule id
                                decryptedData None) (recordFailure api id) s
                    = skipped).
    { rewrite tryCatch_run. unfold cacheBody.
      rewrite bind_run, (ensure_completed api id s m Hm Hst). reflexivity. }
    rewrite finallyTerminate_no_pool; rewrite Hbody; reflexivity.
Qed.

Lemma completed_snapshot_is_skipped_witness :
  decryptAndStreamToIndexedDBMultiWorker testApi 2 (λ _, reliable) []
    "snap" "https://files.example/snap.osnp" "pem"
    (sampleStore (sampleMetadata Completed 3 None))
  = {| outcome := Some (Normal tt);
       storeAfter := sampleStore (sampleMetadata Completed 3 None);
       effects := [EProgress {| stage := StCompleted;
                                progress := 100;
                                message := TxtAlreadyLoaded;
                                progressProcessed := Some 3;
                                progressTotal := Some 3;
                                progressError := None;
                                insertedMessages := None |}] |}.
Proof.
  exact (proj1 (completed_snapshot_is_skipped testApi 2 (λ _, reliable) []
                  "snap" "https://files.example/snap.osnp" "pem" (sampleData [])
                  (sampleStore (sampleMetadata Completed 3 None))
                  (sampleMetadata Completed 3 None) eq_refl eq_refl)).
Defined.

End PipelineTheorems.
Module EmptySnapshot.
Import Js JsFacts Value ValueFacts Platform Model Async Chunking Decrypt Pipeline.
Import AsyncFacts PipelineFacts PipelineSpec TestPlatform PipelineExamples.

(** C10. When the decrypted data holds an empty [messages] array and the
    snapshot is not already completed, [cacheDecryptedSnapshotMultiWorker]
    returns normally after: the metadata write of
    [ensureProcessingMetadata] (when [options.metadata] is absent), one
    metadata write with status 'completed', [processedMessages = 0] and
    [totalMessages = 0], and one progress event of stage 'completed' with
    [insertedMessages = 0].  There is no other effect: no worker pool is
    created and no chunk is submitted or written.  The store then holds the
    completed record for the snapshot. *)
Theorem empty_snapshot_completes api (WORKER_COUNT : nat)
    (chunkEnv : nat → Worker.ChunkEnv) (schedule : list nat)
    (id : string) (decryptedData : JsVal)
    (optionsMetadata : option SnapshotMetadata)
    (s : gmap string SnapshotMetadata) :
  getProp decryptedData "messages" = Normal (JArr []) →
  match optionsMetadata with
  | Some m => snapshotId m = id
  | None => ∀ m, s !! id = Some m → status m ≠ Completed ∧ snapshotId m = id
  end →
  let r := cacheDecryptedSnapshotMultiWorker api WORKER_COUNT chunkEnv schedule
             id decryptedData optionsMetadata s in
  ∃ final prefix,
    outcome r = Some (Normal tt)
    ∧ effects r
      = prefix ++ [ESaveMetadata final;
                   EProgress {| stage := StCompleted;
                                progress := 100;
                                message := TxtNoMessages;
                                progressProcessed := Some 0;
                                progressTotal := Some 0;
                                progressError := None;
                                insertedMessages := Some 0 |}]
    ∧ (prefix = [] ∨ ∃ m0, prefix = [ESaveMetadata m0])
    ∧ forallb isMetadataOrProgress (effects r) = true
    ∧ status final = Completed
    ∧ processedMessages final = 0
    ∧ totalMessages final = Some 0
    ∧ storeAfter r !! id = Some final.
Proof.
  intros Hmsgs Hstart r.
  pose proof (getProp_readable _ _ _ "projectId" Hmsgs) as HprojectId.
  pose proof (getProp_readable _ _ _ "queueId" Hmsgs) as HqueueId.
  pose proof (getProp_readable _ _ _ "messageCount" Hmsgs) as HmessageCount.
  assert (Hstart' : ∃ m0 s0 prefix,
    (match optionsMetadata with
     | Some m => ret (m, false)
     | None => ensureProcessingMetadata api id
     end) s = prepend prefix (ret (m0, false) s0)
    ∧ (prefix = [] ∨ prefix = [ESaveMetadata m0])
    ∧ snapshotId m0 = id).
  { destruct optionsMetadata as [m|].
    - exists m, s, []. split_and!; [by destruct (ret (m, false) s)|by left|done].
    - destruct (s !! id) as [m|] eqn:Hm.
      + destruct (Hstart m eq_refl) as [Hnc Hid].
        eexists _, _, _. split; [by apply ensure_resumable|]. split; [by right|done].
      + unfold ensureProcessingMetadata.
        rewrite bind_getMetadata, Hm, bind_saveMetadata.
        eexists _, _, _. split; [reflexivity|]. split; [by right|done]. }
  destruct Hstart' as (m0 & s0 & prefix & Hrun & Hprefix & Hid).
  set (final := {|
    snapshotId := snapshotId m0;
    projectId := lookupChain decryptedData "projectId";
    queueId := lookupChain decryptedData "queueId";
    messageCount := JNum 0;
    totalMessages := Some 0;
    processedMessages := 0;
    firstMessageDate := firstMessageDate m0;
    lastMessageDate := lastMessageDate m0;
    createdAt := createdAt m0;
    status := Completed;
    error := error m0 |}).
  assert (Hbody :
    tryCatch (cacheBody api WORKER_COUNT chunkEnv schedule id decryptedData optionsMetadata)
      (recordFailure api id) s
    = {| outcome := Some (Normal tt);
         storeAfter := <[snapshotId m0 := final]> s0;
         effects := prefix ++ [ESaveMetadata final;
                     EProgress (withInserted
                        (progressEvent StCompleted 100 TxtNoMessages (Some 0) (Some 0)) 0)] |}).
  { rewrite tryCatch_run. unfold cacheBody.
    rewrite bind_run, Hrun. simpl. msteps. simpl.
    rewrite HprojectId, HqueueId, HmessageCount, Hmsgs. msteps. simpl.
    msteps. unfold onProgress, prepend, emit. simpl. by rewrite app_nil_r. }
  subst r. unfold cacheDecryptedSnapshotMultiWorker.
  assert (Hall : forallb isMetadataOrProgress
                   (prefix ++ [ESaveMetadata final;
                      EProgress (withInserted
                        (progressEvent StCompleted 100 TxtNoMessages (Some 0) (Some 0)) 0)])
                 = true).
  { by destruct Hprefix as [->| ->]. }
  rewrite finallyTerminate_no_pool; rewrite Hbody; simpl.
  - exists final, prefix. split_and!; try done.
    + destruct Hprefix as [->| ->]; eauto.
    + by rewrite Hid, lookup_insert_eq.
  - by destruct Hprefix as [->| ->].
Qed.

Lemma empty_snapshot_completes_witness :
  ∃ final,
    storeAfter (cacheDecryptedSnapshotMultiWorker testApi 2 (λ _, reliable) []
                  "snap" (sampleData []) None ∅) !! "snap" = Some final
    ∧ status final = Completed
    ∧ processedMessages final = 0
    ∧ totalMessages final = Some 0
    ∧ forallb isMetadataOrProgress
        (effects (cacheDecryptedSnapshotMultiWorker testApi 2 (λ _, reliable) []
                    "snap" (sampleData []) None ∅)) = true.
Proof.
  destruct (empty_snapshot_completes testApi 2 (λ _, reliable) [] "snap"
              (sampleData []) None ∅)
    as (final & prefix & _ & _ & _ & Hall & Hst & Hproc & Htot & Hfinal).
  - reflexivity.
  - intros m Hm. by rewrite lookup_empty in Hm.
  - exists final. split_and!; assumption.
Defined.

End EmptySnapshot.
Module WorkerFacts.
Import Js Value Platform Model Async Worker Pool PoolSpec.

Lemma progressPosts_not_terminal chunkIndex total calls :
  omap terminalOf (progressPosts chunkIndex total calls) = [].
Proof.
  unfold progressPosts. induction calls as [|c calls IH]; [done|].
  simpl. by destruct (_ || _).
Qed.

(** The retry loop posts progress only. *)
Lemma retryLoop_not_terminal env chunkIndex messages remaining attempt savedCount :
  omap terminalOf (retryLoop env chunkIndex messages remaining attempt savedCount).1.1 = [].
Proof.
  revert attempt savedCount.
  induction remaining as [|remaining IH]; intros attempt savedCount; [done|].
  simpl. destruct (saveMessagesBatch messages _) as [calls settled].
  destruct settled as [v|e]; simpl.
  - apply progressPosts_not_terminal.
  - destruct (decide (attempt = MAX_RETRIES)); simpl.
    + apply progressPosts_not_terminal.
    + specialize (IH (S attempt) (lastSaved savedCount calls)).
      destruct (retryLoop _ _ _ _ _ _) as [[acts' saved'] settled'].
      simpl in *. etrans; [apply (omap_app terminalOf)|].
      rewrite progressPosts_not_terminal. simpl. exact IH.
Qed.

(** A worker script is a list of non-terminal actions followed by the
    verdict for the chunk. *)
Lemma workerScript_shape api chunkEnv (t : Task) :
  ∃ acts,
    workerScript api (chunkEnv (taskIndex t)) (taskIndex t) (taskChunk t)
    = acts ++ [ActPost (verdict api chunkEnv t)]
    ∧ omap terminalOf acts = []
    ∧ acts = (saveMessagesBatchWithRetry (chunkEnv (taskIndex t)) (taskIndex t)
                (taskChunk t)).1.1
    ∧ isTerminal (verdict api chunkEnv t) = true.
Proof.
  unfold workerScript, verdict.
  pose proof (retryLoop_not_terminal (chunkEnv (taskIndex t)) (taskIndex t)
                (taskChunk t) MAX_RETRIES 1 0) as H.
  unfold saveMessagesBatchWithRetry in *.
  destruct (retryLoop _ _ _ _ _ _) as [[acts saved] settled]. simpl in H.
  exists acts. split_and!; [by destruct settled|done|done|by destruct settled].
Qed.

End WorkerFacts.

Module PoolFacts.
Import Js Value Platform Model Async Worker Pool PoolSpec WorkerFacts.

Section WithEnv.
Context (api : Api) (WORKER_COUNT : nat) (chunkEnv : nat → ChunkEnv).
Context (totalMessages insertCount : Z).

Local Abbreviation script t :=
  (workerScript api (chunkEnv (taskIndex t)) (taskIndex t) (taskChunk t)).
Local Abbreviation processNextTask := (Pool.processNextTask api chunkEnv).
Local Abbreviation processChunk := (Pool.processChunk api chunkEnv).
Local Abbreviation submitAll := (Pool.submitAll api chunkEnv).
Local Abbreviation handleWorkerMessage :=
  (Pool.handleWorkerMessage api WORKER_COUNT chunkEnv totalMessages insertCount).
Local Abbreviation turn := (Pool.turn api WORKER_COUNT chunkEnv totalMessages insertCount).
Local Abbreviation wait := (Pool.wait api WORKER_COUNT chunkEnv totalMessages insertCount).
Local Abbreviation pendingActions := (Pool.pendingActions api chunkEnv).
Local Abbreviation pendingVerdicts := (PoolSpec.pendingVerdicts api chunkEnv).

Local Abbreviation StepOk := (PoolSpec.StepOk api chunkEnv).
Local Abbreviation pendingScripts := (PoolSpec.pendingScripts api chunkEnv).

Lemma enqueueAt_fresh w acts rs :
  w ∉ rs.*1 → enqueueAt w acts rs = rs ++ [(w, acts)].
Proof.
  induction rs as [|[w' a'] rs IH]; intros Hw; [done|].
  simpl in *. apply not_elem_of_cons in Hw as [Hne Hw].
  rewrite decide_False by done. by rewrite IH.
Qed.

Lemma wellFormed_script t : wellFormedScript (script t).
Proof.
  destruct (workerScript_shape api chunkEnv t) as (acts & -> & Hacts & _ & Hterm).
  by exists acts, (verdict api chunkEnv t).
Qed.

Lemma terminals_script t : omap terminalOf (script t) = [verdict api chunkEnv t].
Proof.
  destruct (workerScript_shape api chunkEnv t) as (acts & -> & Hacts & _ & Hterm).
  rewrite omap_app, Hacts. simpl. by rewrite Hterm.
Qed.

Lemma processNextTask_idle st :
  taskQueue st = [] ∨ availableWorkers st = [] →
  processNextTask st = (st, []).
Proof.
  intros [H|H]; unfold Pool.processNextTask; rewrite H; [done|].
  by destruct (taskQueue st).
Qed.

(** Handing out a task, from a state where the only departure from the
    invariant may be one waiting task next to one available worker. *)
Lemma processNextTask_dispatch st t q w a :
  taskQueue st = t :: q →
  availableWorkers st = w :: a →
  NoDup (availableWorkers st ++ (running st).*1) →
  processNextTask st
  = ({| workerCount := workerCount st;
        availableWorkers := a;
        taskQueue := q;
        running := running st ++ [(w, script t)];
        chunkProgress := chunkProgress st;
        totalProcessed := totalProcessed st |},
     [EPostToWorker w (taskIndex t) (taskChunk t)]).
Proof.
  intros Hq Ha Hnd. unfold Pool.processNextTask. rewrite Hq, Ha.
  rewrite enqueueAt_fresh; [done|].
  rewrite Ha in Hnd. simpl in Hnd. apply NoDup_cons in Hnd as [Hw _].
  intros Hin. apply Hw. apply elem_of_app. by right.
Qed.

Lemma processChunk_ok st chunk i :
  Inv st →
  let t := {| taskChunk := chunk; taskIndex := i |} in
  StepOk [t] st (processChunk st chunk i).1 (processChunk st chunk i).2.
Proof.
  intros [Hnd Hcount Hscripts Hgreedy] t. unfold Pool.processChunk.
  destruct st as [W avail queue run cp tp]. simpl in *.
  destruct queue as [|t0 queue].
  - destruct avail as [|w avail].
    + rewrite processNextTask_idle by (by right). simpl.
      split; simpl.
      * by split.
      * done.
      * done.
      * unfold PoolSpec.pendingVerdicts. simpl. by rewrite app_nil_r.
      * done.
      * done.
      * done.
      * unfold PoolSpec.pendingScripts. simpl. by rewrite !app_nil_r.
    + erewrite processNextTask_dispatch by (simpl; done). simpl.
      split; simpl.
      * split; simpl.
        -- rewrite fmap_app. simpl.
           eapply NoDup_Permutation_proper; [|exact Hnd].
           rewrite (comm (++) _ [w]). simpl.
           by rewrite (Permutation_middle).
        -- rewrite length_app. simpl in *. lia.
        -- apply Forall_app. split; [done|]. apply Forall_singleton.
           exact (wellFormed_script t).
        -- done.
      * done.
      * done.
      * unfold PoolSpec.pendingVerdicts, terminalPosts.
        cbn [running taskQueue omap list_omap map snd app].
        rewrite bind_app, bind_singleton. cbn [snd].
        pose proof (terminals_script t) as Ht. cbn [taskIndex taskChunk t] in Ht.
        by rewrite Ht, !app_nil_r.
      * done.
      * done.
      * done.
      * unfold PoolSpec.pendingScripts, scriptOf. cbn [running taskQueue].
        rewrite bind_app, !bind_singleton. simpl. by rewrite !app_nil_r.
  - assert (avail = []) as -> by (by apply Hgreedy).
    rewrite processNextTask_idle by (by right). simpl.
    split; simpl.
    + by split.
    + done.
    + done.
    + unfold PoolSpec.pendingVerdicts. cbn [running taskQueue terminalPosts omap list_omap app].
      rewrite <- (assoc_L (++)). f_equiv. simpl. by rewrite map_app.
    + done.
    + done.
    + done.
    + unfold PoolSpec.pendingScripts. cbn [running taskQueue workerActions omap list_omap app].
      rewrite !bind_cons, bind_app, bind_singleton, app_nil_r.
      by rewrite !(assoc_L (++)).
Qed.

Lemma StepOk_refl st : Inv st → StepOk [] st st [].
Proof.
  intros Hinv. split; try done.
  - by rewrite app_nil_r.
  - simpl. by rewrite app_nil_r.
  - simpl. by rewrite app_nil_r.
Qed.

Lemma StepOk_trans p1 p2 st st1 st2 es1 es2 :
  StepOk p1 st st1 es1 → StepOk p2 st1 st2 es2 →
  StepOk (p1 ++ p2) st st2 (es1 ++ es2).
Proof.
  intros [Hi1 Hw1 Hp1 Hv1 Hm1 Hs1 Hc1 Ha1] [Hi2 Hw2 Hp2 Hv2 Hm2 Hs2 Hc2 Ha2].
  split.
  - done.
  - congruence.
  - unfold postedTasks in *. rewrite omap_app, <- (assoc_L (++)), Hp2.
    by rewrite (assoc_L (++)), Hp1, (assoc_L (++)).
  - unfold terminalPosts in *. rewrite omap_app, <- (assoc_L (++)), Hv2.
    by rewrite (assoc_L (++)), Hv1, map_app, (assoc_L (++)).
  - unfold metadataWrites in *. by rewrite omap_app, Hm1, Hm2.
  - unfold submittedTasks in *. by rewrite omap_app, Hs1, Hs2.
  - by rewrite existsb_app, Hc1, Hc2.
  - unfold workerActions in *. rewrite omap_app, <- (assoc_L (++)), Ha2.
    by rewrite (assoc_L (++)), Ha1, bind_app, (assoc_L (++)).
Qed.

Lemma submitAll_ok chunks : ∀ st from,
  Inv st →
  StepOk (indexed chunks from) st (submitAll st chunks from).1
    (submitAll st chunks from).2.
Proof.
  induction chunks as [|chunk chunks IH]; intros st from Hinv.
  - simpl. by apply StepOk_refl.
  - simpl.
    pose proof (processChunk_ok st chunk from Hinv) as H1. simpl in H1.
    destruct (processChunk st chunk from) as [st1 es1]. simpl in H1.
    specialize (IH st1 (S from) (ok_inv _ _ _ _ _ _ H1)).
    destruct (submitAll st1 chunks (S from)) as [st2 es2]. simpl in *.
    unfold indexed. rewrite imap_cons.
    replace (from + 0)%nat with from by lia.
    eapply (StepOk_trans [_]); [exact H1|].
    unfold indexed in IH.
    erewrite imap_ext; [exact IH|].
    intros i x _. simpl. f_equal. lia.
Qed.

Lemma delete_split {A} (l1 l2 : list A) x :
  delete (length l1) (l1 ++ x :: l2) = l1 ++ l2.
Proof. induction l1 as [|y l1 IH]; [done|]. simpl. by rewrite IH. Qed.

Lemma insert_split {A} (l1 l2 : list A) x y :
  <[length l1 := y]> (l1 ++ x :: l2) = l1 ++ y :: l2.
Proof. induction l1 as [|z l1 IH]; [done|]. simpl. by rewrite IH. Qed.

Lemma lookup_split {A} (l : list A) k x :
  l !! k = Some x → ∃ l1 l2, l = l1 ++ x :: l2 ∧ length l1 = k.
Proof.
  intros H. exists (take k l), (drop (S k) l). split.
  - by rewrite take_drop_middle.
  - rewrite length_take. apply lookup_lt_Some in H. lia.
Qed.

Lemma lookup_middle' {A} (l1 l2 : list A) x :
  (l1 ++ x :: l2) !! length l1 = Some x.
Proof. induction l1 as [|y l1 IH]; [done|]. simpl. exact IH. Qed.

(** An action that is not a verdict leaves the pool as it is, up to the
    progress callback. *)
Lemma handle_progress st w act :
  terminalOf act = None →
  ∃ cp tp es,
    (match act with
     | ActPost msg => handleWorkerMessage st w msg
     | _ => (st, [])
     end)
    = ({| workerCount := workerCount st;
          availableWorkers := availableWorkers st;
          taskQueue := taskQueue st;
          running := running st;
          chunkProgress := cp;
          totalProcessed := tp |}, es)
    ∧ postedTasks es = [] ∧ terminalPosts es = [] ∧ metadataWrites es = []
    ∧ submittedTasks es = [] ∧ existsb isPoolCreated es = false
    ∧ workerActions es = [].
Proof.
  intros Hact. destruct st as [W a q r cp tp].
  destruct act as [k ms o|d|[i saved total|i saved|i err]]; simpl in *; try done.
  - by eexists cp, tp, [].
  - by eexists cp, tp, [].
  - by eexists _, _, _.
Qed.

Lemma Inv_same_pool W a q r cp tp cp' tp' :
  Inv (Build_State W a q r cp tp) → Inv (Build_State W a q r cp' tp').
Proof. intros [? ? ? ?]. by split. Qed.

(** A turn on a worker whose next action is not its verdict. *)
Lemma turn_progress st choice l1 l2 w act rest :
  Inv st →
  running st = l1 ++ (w, act :: rest) :: l2 →
  length l1 = (choice `mod` length (running st))%nat →
  rest ≠ [] →
  terminalOf act = None →
  StepOk [] st (turn st choice).1 (turn st choice).2
  ∧ (pendingActions (turn st choice).1 < pendingActions st)%nat.
Proof.
  intros Hinv Hrun Hk Hrest Hact.
  destruct st as [W a q r cp tp]. simpl in Hrun, Hk. subst r.
  unfold Pool.turn. cbn [running]. rewrite <- Hk, lookup_middle'.
  rewrite insert_split.
  destruct rest as [|act' rest']; [done|]. clear Hrest.
  set (rest := act' :: rest') in *.
  cbn [workerCount availableWorkers taskQueue chunkProgress totalProcessed].
  destruct (handle_progress
              (Build_State W a q (l1 ++ (w, rest) :: l2) cp tp) w act Hact)
    as (cp' & tp' & es & -> & Hp & Ht & Hm & Hs & Hc & Hwa).
  cbn [fst snd workerCount availableWorkers taskQueue running].
  destruct Hinv as [Hnd Hcount Hscripts Hgreedy]. simpl in *.
  split; [split|]; simpl.
  - split; simpl.
    + by rewrite fmap_app, fmap_cons in *.
    + rewrite length_app in *. simpl in *. lia.
    + apply Forall_app in Hscripts as [H1 H2].
      apply Forall_cons in H2 as [(pre & msg & Hacts & Hterm & Hpre) H2].
      apply Forall_app. split; [done|]. apply Forall_cons. split; [|done].
      simpl in *. destruct pre as [|p pre]; simplify_eq/=.
      exists pre, msg. split_and!; [done|done|]. by rewrite Hact in Hpre.
    + done.
  - done.
  - by rewrite Hp, app_nil_r.
  - unfold PoolSpec.pendingVerdicts. cbn [running taskQueue].
    unfold terminalPosts in *. cbn [omap list_omap]. rewrite Hact.
    change (list_omap _ _ ?f ?l) with (omap f l). rewrite Ht.
    rewrite !bind_app, !bind_cons. cbn [snd app map].
    change (act :: rest) with ([act] ++ rest).
    rewrite (omap_app terminalOf [act] rest).
    cbn [omap list_omap]. rewrite Hact. simpl. by rewrite app_nil_r.
  - done.
  - done.
  - done.
  - unfold PoolSpec.pendingScripts. cbn [running taskQueue].
    unfold workerActions in *. cbn [omap list_omap].
    change (list_omap _ _ ?f ?l) with (omap f l). rewrite Hwa.
    rewrite !bind_app, !bind_cons. cbn [snd app].
    rewrite app_nil_r. simpl. rewrite <- ?(assoc_L (++)). simpl.
    apply Permutation_middle.
  - unfold Pool.pendingActions. cbn [running taskQueue].
    rewrite !sum_list_with_app. simpl. lia.
Qed.

Lemma handle_verdict st w msg :
  isTerminal msg = true →
  handleWorkerMessage st w msg = processNextTask (release st w).
Proof. by destruct msg. Qed.

(** A turn on a worker whose next action is its verdict: the worker becomes
    available and takes the next waiting task, if any. *)
Lemma turn_verdict st choice l1 l2 w msg :
  Inv st →
  running st = l1 ++ (w, [ActPost msg]) :: l2 →
  length l1 = (choice `mod` length (running st))%nat →
  isTerminal msg = true →
  StepOk [] st (turn st choice).1 (turn st choice).2
  ∧ (pendingActions (turn st choice).1 < pendingActions st)%nat.
Proof.
  intros Hinv Hrun Hk Hterm.
  destruct st as [W a q r cp tp]. simpl in Hrun, Hk. subst r.
  unfold Pool.turn. cbn [running]. rewrite <- Hk, lookup_middle'.
  rewrite delete_split.
  cbn [workerCount availableWorkers taskQueue chunkProgress totalProcessed].
  rewrite handle_verdict by done. unfold release.
  cbn [workerCount availableWorkers taskQueue running chunkProgress totalProcessed].
  destruct Hinv as [Hnd Hcount Hscripts Hgreedy]. simpl in *.
  rewrite fmap_app, fmap_cons in Hnd. simpl in Hnd.
  assert (Hnd' : NoDup ((a ++ [w]) ++ (l1 ++ l2).*1)).
  { rewrite fmap_app. eapply NoDup_Permutation_proper; [|exact Hnd].
    rewrite <- (assoc_L (++)). f_equiv. simpl.
    by rewrite Permutation_middle. }
  apply Forall_app in Hscripts as [H1 H2].
  apply Forall_cons in H2 as [_ H2].
  assert (Hterms : omap terminalOf [ActPost msg] = [msg]).
  { simpl. by rewrite Hterm. }
  destruct q as [|t q].
  - rewrite processNextTask_idle by (by left).
    split; [split|]; simpl.
    + split; simpl; try done.
      * rewrite !length_app in *. simpl in *. lia.
      * by apply Forall_app.
    + done.
    + done.
    + unfold PoolSpec.pendingVerdicts. cbn [running taskQueue map].
      rewrite Hterm. rewrite !bind_app, bind_cons. cbn [snd].
      rewrite Hterms, !app_nil_r. simpl.
      by rewrite Permutation_middle.
    + done.
    + done.
    + done.
    + unfold PoolSpec.pendingScripts. cbn [running taskQueue].
      rewrite !bind_app, bind_cons. cbn [snd app].
      rewrite !app_nil_r. simpl. rewrite <- ?(assoc_L (++)). simpl.
      apply Permutation_middle.
    + unfold Pool.pendingActions. cbn [running taskQueue].
      rewrite !sum_list_with_app. simpl. lia.
  - assert (a = []) as -> by (by apply Hgreedy).
    erewrite processNextTask_dispatch; [|reflexivity|reflexivity|exact Hnd'].
    split; [split|]; simpl.
    + split; simpl; try done.
      * rewrite fmap_app. simpl. rewrite fmap_app in Hnd'. simpl in Hnd'.
        eapply NoDup_Permutation_proper; [|exact Hnd'].
        by rewrite fmap_app, (comm (++) _ [w]).
      * rewrite !length_app in *. simpl in *. lia.
      * apply Forall_app. split; [by apply Forall_app|].
        apply Forall_singleton. exact (wellFormed_script t).
    + done.
    + rewrite app_nil_r. by destruct t.
    + unfold PoolSpec.pendingVerdicts. cbn [running taskQueue map].
      rewrite Hterm. rewrite !bind_app, bind_singleton, bind_cons. cbn [snd].
      pose proof (terminals_script t) as Ht. rewrite Ht, Hterms, !app_nil_r.
      simpl. rewrite <- !(assoc_L (++)). simpl.
      apply Permutation_middle.
    + done.
    + done.
    + done.
    + unfold PoolSpec.pendingScripts, scriptOf. cbn [running taskQueue].
      rewrite !bind_app, bind_singleton, !bind_cons. cbn [snd app].
      rewrite !app_nil_r. simpl. rewrite <- ?(assoc_L (++)). simpl.
      rewrite (Permutation_app_comm (script t)).
      rewrite <- ?(assoc_L (++)). apply Permutation_middle.
    + unfold Pool.pendingActions. cbn [running taskQueue].
      rewrite !sum_list_with_app. simpl. lia.
Qed.

(** One turn of the event loop keeps the invariant, posts only waiting
    tasks, in order, and uses up a pending action. *)
Lemma turn_ok st choice :
  Inv st → running st ≠ [] →
  StepOk [] st (turn st choice).1 (turn st choice).2
  ∧ (pendingActions (turn st choice).1 < pendingActions st)%nat.
Proof.
  intros Hinv Hrun.
  assert (Hlt : (choice `mod` length (running st) < length (running st))%nat).
  { apply Nat.mod_upper_bound. by destruct (running st). }
  destruct (lookup_lt_is_Some_2 _ _ Hlt) as [[w acts] Hlook].
  pose proof (Forall_lookup_1 _ _ _ _ (inv_scripts _ Hinv) Hlook)
    as (pre & msg & Hacts & Hterm & Hpre).
  destruct (lookup_split _ _ _ Hlook) as (l1 & l2 & Hsplit & Hlen).
  simpl in Hacts. subst acts. destruct pre as [|act pre].
  - by eapply turn_verdict.
  - eapply turn_progress; [done|exact Hsplit|done|by destruct pre|].
    change (omap terminalOf ([act] ++ pre) = []) in Hpre.
    rewrite omap_app in Hpre. apply app_eq_nil in Hpre as [Hpre _].
    simpl in Hpre. by destruct (terminalOf act).
Qed.

Lemma drained_spec st :
  Inv st → drained st = true → taskQueue st = [] ∧ running st = [].
Proof.
  intros Hinv [Ha Hq]%andb_prop.
  apply bool_decide_eq_true in Ha, Hq. split; [done|].
  pose proof (inv_count _ Hinv). apply length_zero_iff_nil. lia.
Qed.

(** With at least one worker, waiting ends with a drained pool. *)
Lemma wait_ok fuel : ∀ schedule st,
  Inv st → (0 < workerCount st)%nat → (pendingActions st ≤ fuel)%nat →
  ∃ st' es,
    wait fuel schedule st = Drained st' es
    ∧ StepOk [] st st' es
    ∧ taskQueue st' = [] ∧ running st' = [].
Proof.
  induction fuel as [|fuel IH]; intros schedule st Hinv Hw Hfuel.
  - assert (Hrun : running st = []).
    { destruct (running st) as [|r rs] eqn:Hr; [done|].
      unfold Pool.pendingActions in Hfuel. rewrite Hr in Hfuel. simpl in Hfuel. lia. }
    assert (Hq : taskQueue st = []).
    { destruct (taskQueue st) as [|t q] eqn:Hq; [done|].
      unfold Pool.pendingActions in Hfuel. rewrite Hq in Hfuel. simpl in Hfuel. lia. }
    assert (Hd : drained st = true).
    { unfold drained. pose proof (inv_count _ Hinv) as Hc. rewrite Hrun in Hc.
      simpl in Hc. rewrite !bool_decide_eq_true_2; [done|done|lia]. }
    simpl. rewrite Hd. exists st, []. split_and!; try done. by apply StepOk_refl.
  - simpl. destruct (drained st) eqn:Hd.
    { destruct (drained_spec st Hinv Hd).
      exists st, []. split_and!; try done. by apply StepOk_refl. }
    destruct (running st) as [|r rs] eqn:Hrun.
    { exfalso. pose proof (inv_count _ Hinv) as Hc. rewrite Hrun in Hc. simpl in Hc.
      unfold drained in Hd. rewrite bool_decide_eq_true_2 in Hd by lia. simpl in Hd.
      apply bool_decide_eq_false in Hd.
      pose proof (inv_greedy _ Hinv Hd) as Ha. rewrite Ha in Hc. simpl in Hc. lia. }
    destruct (turn_ok st (hd 0%nat schedule) Hinv) as [Hstep Hlt].
    { by rewrite Hrun. }
    destruct (turn st (hd 0%nat schedule)) as [st1 es1]. simpl in Hstep, Hlt.
    destruct (IH (tl schedule) st1) as (st2 & es2 & Hwait & Hstep2 & Hq & Hr).
    { exact (ok_inv _ _ _ _ _ _ Hstep). }
    { rewrite (ok_workers _ _ _ _ _ _ Hstep). done. }
    { lia. }
    rewrite Hwait. exists st2, (es1 ++ es2). split_and!; try done.
    by apply (StepOk_trans [] [] st st1 st2).
Qed.

Lemma create_Inv W resumeFrom : Inv (create W resumeFrom).
Proof.
  split; simpl.
  - rewrite app_nil_r. apply NoDup_seq.
  - rewrite length_seq. lia.
  - done.
  - done.
Qed.

(** With at least one worker, whatever the storage engine does to each
    chunk, every chunk is submitted and posted to a worker once, in the
    order of the chunks, the workers perform the script of every chunk and
    post its verdict, and the pool drains. *)
Lemma runPool_ok schedule resumeFrom chunks :
  (0 < WORKER_COUNT)%nat →
  ∃ st es,
    runPool api WORKER_COUNT chunkEnv totalMessages insertCount schedule
      resumeFrom chunks = Drained st es
    ∧ submittedTasks es = indexed chunks 0
    ∧ postedTasks es = indexed chunks 0
    ∧ terminalPosts es ≡ₚ map (verdict api chunkEnv) (indexed chunks 0)
    ∧ metadataWrites es = []
    ∧ existsb isPoolCreated es = false
    ∧ workerActions es ≡ₚ indexed chunks 0 ≫= scriptOf api chunkEnv.
Proof.
  intros Hw. unfold runPool.
  pose proof (submitAll_ok chunks (create WORKER_COUNT resumeFrom) 0
                (create_Inv _ _)) as H1.
  destruct (submitAll (create WORKER_COUNT resumeFrom) chunks 0) as [st1 es1].
  simpl in H1.
  destruct (wait_ok (pendingActions st1) schedule st1) as (st2 & es2 & Hwait & H2 & Hq & Hr).
  { exact (ok_inv _ _ _ _ _ _ H1). }
  { rewrite (ok_workers _ _ _ _ _ _ H1). done. }
  { done. }
  rewrite Hwait. exists st2, (es1 ++ es2).
  pose proof (StepOk_trans _ _ _ _ _ _ _ H1 H2) as H.
  rewrite app_nil_r in H.
  destruct H as [Hi Hwk Hp Hv Hm Hs Hc Ha].
  rewrite Hq in Hp. simpl in Hp. rewrite app_nil_r in Hp.
  unfold PoolSpec.pendingVerdicts in Hv. rewrite Hq, Hr in Hv. simpl in Hv.
  rewrite app_nil_r in Hv.
  unfold PoolSpec.pendingScripts in Ha. rewrite Hq, Hr in Ha. simpl in Ha.
  rewrite app_nil_r in Ha.
  split_and!; done.
Qed.

End WithEnv.
End PoolFacts.
Module ResumeFacts.
Import Js JsFacts Value ValueFacts Platform Model Async Chunking ChunkingFacts Decrypt Pipeline.
Import Worker Pool PoolSpec PoolFacts AsyncFacts PipelineFacts PipelineSpec.

Lemma calculateOptimalChunkSize_positive (total : Z) (workers : nat) :
  (0 < workers)%nat →
  ∃ c, calculateOptimalChunkSize total workers = Finite c ∧ 0 < c.
Proof.
  intros Hw. unfold calculateOptimalChunkSize.
  repeat case_match; try (eexists; split; [reflexivity|]);
    unfold CHUNK_SIZE_SMALL, CHUNK_SIZE_MEDIUM, CHUNK_SIZE_LARGE, CHUNK_SIZE_XLARGE;
    lia.
Qed.

Lemma chunkMessages_concat {A} (messages : list A) (c : Z) :
  0 < c →
  ∃ chunks, chunkMessages messages (Finite c) = Some chunks
            ∧ concat chunks = messages.
Proof.
  intros Hc.
  destruct (chunkLoop_spec messages (Z.to_nat c) ltac:(lia) (length messages) 0%nat)
    as (chunks & Hrun & Hcat & _); [lia|].
  exists chunks. rewrite Z2Nat.id in Hrun by lia. by rewrite drop_0 in Hcat.
Qed.

Lemma getProp_defined v name :
  v ≠ JNull → v ≠ JUndefined → ∃ r, getProp v name = Normal r.
Proof. destruct v; intros; simpl; by eauto. Qed.

Section WithEnv.
Context (api : Api) (WORKER_COUNT : nat) (chunkEnv : nat → ChunkEnv)
  (schedule : list nat).

Lemma persistChunks_run total resumeFrom chunks insertCount s :
  (0 < WORKER_COUNT)%nat →
  ∃ es,
    persistChunks api WORKER_COUNT chunkEnv schedule total resumeFrom chunks insertCount s
    = {| outcome := Some (Normal tt); storeAfter := s;
         effects := EPoolCreated WORKER_COUNT (length chunks) :: es |}
    ∧ submittedTasks es = indexed chunks 0
    ∧ postedTasks es = indexed chunks 0
    ∧ terminalPosts es ≡ₚ map (verdict api chunkEnv) (indexed chunks 0)
    ∧ metadataWrites es = []
    ∧ existsb isPoolCreated es = false.
Proof.
  intros Hw. unfold persistChunks. rewrite bind_emit.
  destruct (runPool_ok api WORKER_COUNT chunkEnv total insertCount schedule
              resumeFrom chunks Hw) as (st & es & -> & Hs & Hp & Hv & Hm & Hc & _).
  exists es. by split_and!.
Qed.

(** The run of the persistence path on a snapshot with messages left to
    insert. *)
Lemma cacheBody_resume id decryptedData (messages : list JsVal) existing s :
  (0 < WORKER_COUNT)%nat →
  s !! id = Some existing →
  snapshotId existing = id →
  status existing ≠ Completed →
  getProp decryptedData "messages" = Normal (JArr messages) →
  0 ≤ processedMessages existing < Z.of_nat (length messages) →
  (∀ m, messages !! 0%nat = Some m ∨ last messages = Some m →
        m ≠ JNull ∧ m ≠ JUndefined) →
  let k := processedMessages existing in
  let total := Z.of_nat (length messages) in
  ∃ m0 m1 final saving done chunks es s',
    cacheBody api WORKER_COUNT chunkEnv schedule id decryptedData None s
    = {| outcome := Some (Normal tt);
         storeAfter := s';
         effects := [ESaveMetadata m0; ESaveMetadata m1; EProgress saving;
                     EPoolCreated WORKER_COUNT (length chunks)]
                    ++ es ++ [ESaveMetadata final; EProgress done] |}
    ∧ s' !! id = Some final
    ∧ status final = Completed
    ∧ processedMessages final = total
    ∧ totalMessages final = Some total
    ∧ stage saving = StSaving
    ∧ progressProcessed saving = Some (Z.min k total)
    ∧ stage done = StCompleted
    ∧ insertedMessages done = Some (total - k)
    ∧ concat chunks = drop (Z.to_nat k) messages
    ∧ submittedTasks es = indexed chunks 0
    ∧ postedTasks es = indexed chunks 0
    ∧ terminalPosts es ≡ₚ map (verdict api chunkEnv) (indexed chunks 0)
    ∧ metadataWrites es = []
    ∧ existsb isPoolCreated es = false.
Proof.
  intros Hw Hex Hid Hst Hmsgs Hk Hread k total.
  assert (Htotal : 0 < total) by (unfold total; lia).
  destruct existing as [eid epid eqid ecount etotal k0 efirst elast ecreated est eerr].
  cbn [snapshotId status processedMessages] in *. subst eid k.
  unfold cacheBody.
  rewrite bind_run, (ensure_resumable api id s _ Hex Hst).
  cbn [outcome effects storeAfter prepend ret]. rewrite app_nil_r.
  rewrite (getProp_readable _ _ _ "projectId" Hmsgs),
    (getProp_readable _ _ _ "queueId" Hmsgs),
    (getProp_readable _ _ _ "messageCount" Hmsgs), Hmsgs.
  msteps.
  cbn [default from_option Datatypes.id withStatus snapshotId projectId queueId
    messageCount totalMessages processedMessages firstMessageDate lastMessageDate
    createdAt status error].
  fold total.
  destruct (Z.eqb_spec total 0) as [|_]; [lia|].
  rewrite Z.min_l by lia.
  (* the first and the last message can be read *)
  assert (Hfirst : ∃ d, getProp (default JUndefined (index messages 0)) "created_at"
                        = Normal d).
  { unfold index. simpl. destruct messages as [|m0 ms]; [simpl in *; lia|].
    simpl. destruct (Hread m0) as [? ?]; [by left|]. by apply getProp_defined. }
  assert (Hlast : ∃ d, getProp (default JUndefined (index messages (total - 1)))
                         "created_at" = Normal d).
  { unfold index. destruct (Z.ltb_spec (total - 1) 0); [lia|].
    destruct (lookup_lt_is_Some_2 messages (Z.to_nat (total - 1))) as [m Hm];
      [unfold total; lia|].
    rewrite Hm. simpl.
    destruct (Hread m) as [? ?]; [|by apply getProp_defined].
    right. rewrite last_lookup. rewrite <- Hm. f_equal. unfold total. lia. }
  destruct Hfirst as [firstDate ->]. destruct Hlast as [lastDate ->].
  msteps.
  set (toInsert := if 0 <? k0 then sliceFrom messages k0 else messages).
  assert (HtoInsert : toInsert = drop (Z.to_nat k0) messages).
  { unfold toInsert. destruct (Z.ltb_spec 0 k0).
    - rewrite <- (Z2Nat.id k0) at 1 by lia. apply sliceFrom_nat.
    - replace k0 with 0 by lia. done. }
  assert (Hcount : Z.of_nat (length toInsert) = total - k0).
  { rewrite HtoInsert, length_drop. unfold total. lia. }
  destruct (Z.eqb_spec (Z.of_nat (length toInsert)) 0) as [|_]; [lia|].
  unfold onProgress at 1. rewrite bind_emit.
  destruct (calculateOptimalChunkSize_positive (Z.of_nat (length toInsert))
              WORKER_COUNT Hw) as (c & -> & Hc).
  destruct (chunkMessages_concat toInsert c Hc) as (chunks & -> & Hcat).
  rewrite bind_run.
  match goal with
  | |- context [persistChunks _ _ _ _ ?t ?r ?cs ?n ?s0] =>
      destruct (persistChunks_run t r cs n s0 Hw)
        as (es & Hrun & Hsub & Hpost & Hterm & Hwrites & Hpool)
  end.
  rewrite Hrun. cbn [outcome effects storeAfter].
  msteps. unfold onProgress, emit, prepend.
  cbn [outcome effects storeAfter snapshotId].
  eexists _, _, _, _, _, chunks, es, _. split.
  { f_equal. }
  rewrite lookup_insert_eq. cbn.
  split_and!; try done.
  - by rewrite Hcount.
  - by rewrite Hcat.
Qed.

End WithEnv.
End ResumeFacts.

Module ResumeTheorems.
Import Js JsFacts Value Platform Model Async Chunking ChunkingFacts Decrypt Pipeline.
Import Worker Pool PoolSpec PoolFacts AsyncFacts PipelineFacts PipelineSpec ResumeFacts.
Import TestPlatform PipelineExamples.

(** C1. Let the stored metadata of a snapshot (not yet completed) have
    [processedMessages = k], and let the decrypted data hold [N > k]
    messages.  Then, with at least one worker and whatever happens to the
    batch writes, [cacheDecryptedSnapshotMultiWorker] returns normally; it
    reports the resume point [min(k, N)] in its 'saving' event; the chunks it
    submits to the worker pool, in order, are exactly the messages of
    indices [k .. N-1] ([N - k] messages), and each is posted to a worker
    once; and at the end the stored metadata has [processedMessages = N]
    and status 'completed'. *)
Theorem resume_submits_suffix api (WORKER_COUNT : nat)
    (chunkEnv : nat → ChunkEnv) (schedule : list nat)
    (id : string) (decryptedData : JsVal) (messages : list JsVal)
    (existing : SnapshotMetadata) (s : gmap string SnapshotMetadata) (k : Z) :
  (0 < WORKER_COUNT)%nat →
  s !! id = Some existing →
  snapshotId existing = id →
  status existing ≠ Completed →
  processedMessages existing = k →
  getProp decryptedData "messages" = Normal (JArr messages) →
  0 ≤ k < Z.of_nat (length messages) →
  (∀ m, messages !! 0%nat = Some m ∨ last messages = Some m →
        m ≠ JNull ∧ m ≠ JUndefined) →
  let N := Z.of_nat (length messages) in
  let r := cacheDecryptedSnapshotMultiWorker api WORKER_COUNT chunkEnv schedule
             id decryptedData None s in
  outcome r = Some (Normal tt)
  ∧ (∃ saving, EProgress saving ∈ effects r
               ∧ stage saving = StSaving
               ∧ progressProcessed saving = Some (Z.min k N))
  ∧ (∃ chunks,
       submittedTasks (effects r) = indexed chunks 0
       ∧ postedTasks (effects r) = indexed chunks 0
       ∧ concat chunks = sliceFrom messages (Z.min k N)
       ∧ concat chunks = drop (Z.to_nat k) messages
       ∧ Z.of_nat (length (concat chunks)) = N - k)
  ∧ ∃ final, storeAfter r !! id = Some final
             ∧ processedMessages final = N
             ∧ totalMessages final = Some N
             ∧ status final = Completed.
Proof.
  intros Hw Hex Hid Hst Hk Hmsgs Hrange Hread N r.
  simplify_eq/=.
  destruct (cacheBody_resume api WORKER_COUNT chunkEnv schedule
              (snapshotId existing) decryptedData messages existing s
              Hw Hex eq_refl Hst Hmsgs Hrange Hread)
    as (m0 & m1 & final & saving & done & chunks & es & s' & Hbody & Hfinal
        & Hstatus & Hproc & Htot & Hstage & Hresume & _ & _ & Hcat & Hsub & Hpost
        & _ & _ & Hpool).
  subst r. unfold cacheDecryptedSnapshotMultiWorker, finallyTerminate.
  rewrite tryCatch_run, Hbody. cbn [outcome effects storeAfter].
  rewrite !existsb_app. cbn [existsb isPoolCreated orb].
  split_and!; cbn [outcome effects storeAfter].
  - done.
  - exists saving. split_and!; [|done|done].
    rewrite !elem_of_app, !elem_of_cons. left. left. right. right. by left.
  - exists chunks. split_and!.
    + unfold submittedTasks in *. rewrite !omap_app, Hsub. csimpl.
      by rewrite !app_nil_r.
    + unfold postedTasks in *. rewrite !omap_app, Hpost. csimpl.
      by rewrite !app_nil_r.
    + rewrite Hcat, Z.min_l by lia.
      rewrite <- (Z2Nat.id (processedMessages existing)) at 2 by lia.
      by rewrite sliceFrom_nat.
    + done.
    + rewrite Hcat, length_drop. lia.
  - exists final. by split_and!.
Qed.

Lemma resume_submits_suffix_witness :
  ∃ chunks final,
    submittedTasks
      (effects (cacheDecryptedSnapshotMultiWorker testApi 2 (λ _, reliable) []
                  "snap" (sampleData threeMessages) None
                  (sampleStore (sampleMetadata Processing 1 None))))
    = indexed chunks 0
    ∧ concat chunks = drop 1 threeMessages
    ∧ storeAfter (cacheDecryptedSnapshotMultiWorker testApi 2 (λ _, reliable) []
                    "snap" (sampleData threeMessages) None
                    (sampleStore (sampleMetadata Processing 1 None)))
      !! "snap" = Some final
    ∧ processedMessages final = 3
    ∧ status final = Completed.
Proof.
  destruct (resume_submits_suffix testApi 2 (λ _, reliable) [] "snap"
              (sampleData threeMessages) threeMessages
              (sampleMetadata Processing 1 None)
              (sampleStore (sampleMetadata Processing 1 None)) 1)
    as (_ & _ & (chunks & Hsub & _ & _ & Hcat & _) & final & Hfinal & Hproc & _ & Hst).
  - lia.
  - reflexivity.
  - reflexivity.
  - discriminate.
  - reflexivity.
  - reflexivity.
  - simpl. lia.
  - intros m [Hm|Hm]; simplify_eq/=; split; discriminate.
  - exists chunks, final. split_and!; assumption.
Defined.

End ResumeTheorems.
Module RetryFacts.
Import Js Value Platform Model Async Worker Pool PoolSpec WorkerFacts PoolFacts RetrySpec.

Lemma withoutPosts_progressPosts i total calls :
  withoutPosts (progressPosts i total calls) = [].
Proof.
  unfold progressPosts, withoutPosts. induction calls as [|c calls IH]; [done|].
  simpl. by destruct (_ || _).
Qed.

Lemma withoutPosts_app a b : withoutPosts (a ++ b) = withoutPosts a ++ withoutPosts b.
Proof. apply omap_app. Qed.

Lemma withoutPosts_cons a l :
  withoutPosts (a :: l)
  = match a with ActPost _ => withoutPosts l | _ => a :: withoutPosts l end.
Proof. by destruct a. Qed.

Lemma withoutPosts_nil : withoutPosts [] = [].
Proof. done. Qed.

#[local] Arguments withoutPosts : simpl never.
#[local] Arguments progressPosts : simpl never.
#[local] Arguments saveMessagesBatch : simpl never.

(** Apart from the messages it posts, a worker does what the retry policy
    prescribes. *)
Lemma workerScript_prescribed api env i chunk :
  withoutPosts (workerScript api env i chunk) = prescribed env chunk.
Proof.
  unfold workerScript, saveMessagesBatchWithRetry, MAX_RETRIES, prescribed,
    linearBackoff, backoffDelay, BASE_BACKOFF_MS.
  cbn [retryLoop].
  destruct (saveMessagesBatch chunk (attemptOutcome env 1)) as [c1 s1] eqn:E1.
  destruct (saveMessagesBatch chunk (attemptOutcome env 2)) as [c2 s2] eqn:E2.
  destruct (saveMessagesBatch chunk (attemptOutcome env 3)) as [c3 s3] eqn:E3.
  unfold saveMessagesBatch in E1, E2, E3.
  destruct (attemptOutcome env 1), (attemptOutcome env 2), (attemptOutcome env 3);
    simplify_eq/=;
    repeat (rewrite ?withoutPosts_app, ?withoutPosts_cons, ?withoutPosts_progressPosts,
              ?withoutPosts_nil; cbn [app]);
    reflexivity.
Qed.

(** The verdict on a chunk is ERROR, with the message of the third failure,
    when the three attempts fail, and COMPLETE otherwise. *)
Lemma verdict_exhausted api chunkEnv (t : Task) :
  let env := chunkEnv (taskIndex t) in
  if exhausted env
  then ∃ n e, attemptOutcome env 3 = Failed n e
              ∧ verdict api chunkEnv t = WError (taskIndex t) (workerErrorText api e)
  else ∃ saved, verdict api chunkEnv t = WComplete (taskIndex t) saved.
Proof.
  unfold verdict, exhausted, saveMessagesBatchWithRetry, MAX_RETRIES.
  cbn [retryLoop].
  destruct (saveMessagesBatch (taskChunk t) (attemptOutcome (chunkEnv (taskIndex t)) 1))
    as [c1 s1] eqn:E1.
  destruct (saveMessagesBatch (taskChunk t) (attemptOutcome (chunkEnv (taskIndex t)) 2))
    as [c2 s2] eqn:E2.
  destruct (saveMessagesBatch (taskChunk t) (attemptOutcome (chunkEnv (taskIndex t)) 3))
    as [c3 s3] eqn:E3.
  unfold saveMessagesBatch in E1, E2, E3.
  destruct (attemptOutcome (chunkEnv (taskIndex t)) 1),
           (attemptOutcome (chunkEnv (taskIndex t)) 2),
           (attemptOutcome (chunkEnv (taskIndex t)) 3);
    simplify_eq/=; eauto.
Qed.

End RetryFacts.

Module RetryTheorems.
Import Js Value Platform Model Async Worker Pool PoolSpec WorkerFacts PoolFacts.
Import RetrySpec RetryFacts TestPlatform PipelineExamples.

(** C7. With at least one worker, for every chunk submitted to the pool:
    apart from the messages it posts, the worker makes a first attempt on
    the chunk; after a failed first attempt it sleeps [150 * 1 + random * 200]
    ms and makes a second attempt on the same chunk; after a failed second
    attempt it sleeps [150 * 2 + random * 200] ms and makes a third, and
    never a fourth.  Its script posts exactly one verdict: ERROR for this
    chunk index, with the message of the third failure, when the three
    attempts failed, and COMPLETE otherwise.  Whatever the verdicts are, the
    pool drains: every chunk is posted to a worker once, in order, the
    workers perform the script of every chunk, and every chunk gets its own
    verdict. *)
Theorem failed_chunk_is_retried_and_pool_continues api (WORKER_COUNT : nat)
    (chunkEnv : nat → ChunkEnv) (totalMessages insertCount : Z)
    (schedule : list nat) (resumeFrom : Z) (chunks : list (list JsVal)) :
  (0 < WORKER_COUNT)%nat →
  (∀ i chunk, chunks !! i = Some chunk →
     let t := {| taskChunk := chunk; taskIndex := i |} in
     withoutPosts (scriptOf api chunkEnv t) = prescribed (chunkEnv i) chunk
     ∧ omap terminalOf (scriptOf api chunkEnv t) = [verdict api chunkEnv t]
     ∧ if exhausted (chunkEnv i)
       then ∃ n e, attemptOutcome (chunkEnv i) 3 = Failed n e
                   ∧ verdict api chunkEnv t = WError i (workerErrorText api e)
       else ∃ saved, verdict api chunkEnv t = WComplete i saved)
  ∧ ∃ st es,
      runPool api WORKER_COUNT chunkEnv totalMessages insertCount schedule
        resumeFrom chunks = Drained st es
      ∧ submittedTasks es = indexed chunks 0
      ∧ postedTasks es = indexed chunks 0
      ∧ workerActions es ≡ₚ indexed chunks 0 ≫= scriptOf api chunkEnv
      ∧ terminalPosts es ≡ₚ map (verdict api chunkEnv) (indexed chunks 0).
Proof.
  intros Hw. split.
  - intros i chunk _ t. split_and!.
    + apply workerScript_prescribed.
    + apply (terminals_script api chunkEnv t).
    + exact (verdict_exhausted api chunkEnv t).
  - destruct (runPool_ok api WORKER_COUNT chunkEnv totalMessages insertCount
                schedule resumeFrom chunks Hw)
      as (st & es & Hrun & Hs & Hp & Hv & _ & _ & Ha).
    exists st, es. by split_and!.
Qed.

Lemma failed_chunk_is_retried_and_pool_continues_witness :
  let chunks := [[sampleMessage "mon"]; [sampleMessage "tue"]; [sampleMessage "wed"]] in
  withoutPosts (scriptOf testApi secondChunkBroken
                  {| taskChunk := [sampleMessage "tue"]; taskIndex := 1 |})
  = [ActAttempt 1 [sampleMessage "tue"] (Failed 0 (Error "QuotaExceededError"));
     ActSleep (linearBackoff 1 (1 # 2));
     ActAttempt 2 [sampleMessage "tue"] (Failed 0 (Error "QuotaExceededError"));
     ActSleep (linearBackoff 2 (1 # 2));
     ActAttempt 3 [sampleMessage "tue"] (Failed 0 (Error "QuotaExceededError"))]
  ∧ ∃ st es,
      runPool testApi 2 secondChunkBroken 3 3 [] 0 chunks = Drained st es
      ∧ postedTasks es = indexed chunks 0
      ∧ terminalPosts es ≡ₚ [WComplete 0 1; WError 1 "QuotaExceededError"; WComplete 2 1].
Proof.
  destruct (failed_chunk_is_retried_and_pool_continues testApi 2 secondChunkBroken
              3 3 [] 0
              [[sampleMessage "mon"]; [sampleMessage "tue"]; [sampleMessage "wed"]])
    as [Hscript (st & es & Hrun & _ & Hposted & _ & Hverdicts)].
  - lia.
  - split.
    + exact (proj1 (Hscript 1%nat [sampleMessage "tue"] eq_refl)).
    + exists st, es. split_and!; [exact Hrun|exact Hposted|exact Hverdicts].
Defined.

End RetryTheorems.
Module StatusFacts.
Import Js Value Platform Model Async Chunking Decrypt Pipeline.
Import Worker Pool PoolSpec AsyncFacts StatusSpec.

Lemma metadataWrites_app es1 es2 :
  metadataWrites (es1 ++ es2) = metadataWrites es1 ++ metadataWrites es2.
Proof. apply omap_app. Qed.

Lemma followsBy_app step id from w1 w2 :
  followsBy step id from (w1 ++ w2)
  = followsBy step id from w1 && followsBy step id (lastStatus from w1) w2.
Proof.
  revert from. induction w1 as [|m w1 IH]; intros from; [done|].
  simpl. rewrite IH. unfold lastStatus. rewrite last_cons.
  destruct (last w1); simpl; by rewrite andb_assoc.
Qed.

Lemma lastStatus_app from w1 w2 :
  lastStatus from (w1 ++ w2) = lastStatus (lastStatus from w1) w2.
Proof.
  unfold lastStatus. rewrite last_app. by destruct (last w2).
Qed.

Section Rules.
Context {A B : Type} (id : string).
Implicit Types (P : gmap string SnapshotMetadata → Prop).

Lemma triple_conseq P P' (m : M A) Q Q' :
  (∀ s, P s → P' s) → triple id P' m Q' → (∀ c s, Q' c s → Q c s) →
  triple id P m Q.
Proof.
  intros HP Hm HQ s Hk Hs. destruct (Hm s Hk (HP s Hs)) as (? & ? & ? & Hq).
  split_and!; try done. destruct (outcome (m s)); [by apply HQ|done].
Qed.

Lemma triple_pure (φ : Prop) P (m : M A) Q :
  (φ → triple id P m Q) → triple id (λ s, φ ∧ P s) m Q.
Proof. intros H s Hk [Hφ Hs]. by apply H. Qed.

(** A fact that holds of every store satisfying the precondition may be
    used to choose the rule. *)
Lemma triple_exploit (φ : Prop) P (m : M A) Q :
  (∀ s, P s → φ) → (φ → triple id P m Q) → triple id P m Q.
Proof. intros H1 H2 s Hk Hs. by apply (H2 (H1 s Hs)). Qed.

Lemma triple_ret P (a : A) (Q : Completion A → _ → Prop) :
  (∀ s, P s → Q (Normal a) s) → triple id P (ret a) Q.
Proof. intros H s Hk Hs. simpl. split_and!; try done. by apply H. Qed.

Lemma triple_throw P e (Q : Completion A → _ → Prop) :
  (∀ s, P s → Q (Throw e) s) → triple id P (throw e) Q.
Proof. intros H s Hk Hs. simpl. split_and!; try done. by apply H. Qed.

Lemma triple_never P (Q : Completion A → _ → Prop) : triple id P never Q.
Proof. intros s Hk Hs. simpl. by split_and!. Qed.

Lemma triple_lift P (c : Completion A) (Q : Completion A → _ → Prop) :
  (∀ s, P s → Q c s) → triple id P (lift c) Q.
Proof. destruct c; [apply triple_ret|apply triple_throw]. Qed.

Lemma triple_silent P (m : M A) : silent m → triple id P m (λ _ s, P s).
Proof.
  intros Hm s Hk Hs. destruct (Hm s) as [-> ->]. split_and!; try done.
  by destruct (outcome (m s)).
Qed.

Lemma triple_bind P (m : M A) (k : A → M B) Q1 Q :
  triple id P m Q1 →
  (∀ a, triple id (Q1 (Normal a)) (k a) Q) →
  (∀ e s, Q1 (Throw e) s → Q (Throw e) s) →
  triple id P (bind m k) Q.
Proof.
  intros Hm Hk Hthrow s Hkey Hs. rewrite bind_run.
  destruct (Hm s Hkey Hs) as (Hkey1 & Hf1 & Hl1 & Hq1).
  destruct (outcome (m s)) as [[a|e]|]; simpl.
  - destruct (Hk a _ Hkey1 Hq1) as (Hkey2 & Hf2 & Hl2 & Hq2).
    rewrite metadataWrites_app. unfold follows in *.
    rewrite followsBy_app, lastStatus_app, Hf1, <- Hl1, Hf2. by split_and!.
  - split_and!; try done. by apply Hthrow.
  - by split_and!.
Qed.

Lemma triple_tryCatch P (m : M A) (h : JsError → M A) Q1 Q :
  triple id P m Q1 →
  (∀ e, triple id (Q1 (Throw e)) (h e) Q) →
  (∀ a s, Q1 (Normal a) s → Q (Normal a) s) →
  triple id P (tryCatch m h) Q.
Proof.
  intros Hm Hh Hnormal s Hkey Hs. rewrite tryCatch_run.
  destruct (Hm s Hkey Hs) as (Hkey1 & Hf1 & Hl1 & Hq1).
  destruct (outcome (m s)) as [[a|e]|] eqn:Ho; simpl.
  - rewrite Ho. split_and!; try done. by apply Hnormal.
  - destruct (Hh e _ Hkey1 Hq1) as (Hkey2 & Hf2 & Hl2 & Hq2).
    rewrite metadataWrites_app. unfold follows in *.
    rewrite followsBy_app, lastStatus_app, Hf1, <- Hl1, Hf2. by split_and!.
  - rewrite Ho. by split_and!.
Qed.

End Rules.

Section Primitives.
Context (id : string).
Implicit Types (P : gmap string SnapshotMetadata → Prop).

Lemma triple_emit P ev (Q : Completion unit → _ → Prop) :
  metadataWrites [ev] = [] →
  (∀ s, P s → Q (Normal tt) s) → triple id P (emit ev) Q.
Proof.
  intros Hev H s Hk Hs. unfold emit. cbn [effects storeAfter outcome].
  rewrite Hev. split_and!; try done. by apply H.
Qed.

(** Reading the record of the snapshot: the continuation knows what was read. *)
Lemma triple_getMetadata P (Q : Completion (option SnapshotMetadata) → _ → Prop) :
  (∀ s, P s → keyed id s → Q (Normal (s !! id)) s) →
  triple id P (getMetadata id) Q.
Proof. intros H s Hk Hs. simpl. split_and!; try done. by apply H. Qed.

(** Writing a record of the snapshot by an allowed move. *)
Lemma triple_saveMetadata P m (Q : Completion unit → _ → Prop) :
  snapshotId m = id →
  (∀ s, P s → allowed (statusAt id s) (status m) = true) →
  (∀ s, P s → Q (Normal tt) (<[id := m]> s)) →
  triple id P (saveMetadata m) Q.
Proof.
  intros Hid Hallowed H s Hk Hs. unfold saveMetadata.
  cbn [effects storeAfter outcome]. rewrite Hid.
  split_and!.
  - intros m'. rewrite lookup_insert_eq. by intros [= <-].
  - unfold follows. cbn [metadataWrites omap list_omap followsBy].
    rewrite bool_decide_eq_true_2 by done.
    by rewrite (Hallowed s Hs).
  - unfold statusAt. by rewrite lookup_insert_eq.
  - by apply H.
Qed.

End Primitives.

(** ** Computations that leave the store alone *)

Section Silent.
Context {A B : Type}.

Lemma silent_ret (a : A) : silent (ret a).
Proof. by intros s. Qed.

Lemma silent_throw e : silent (@throw A e).
Proof. by intros s. Qed.

Lemma silent_never : silent (@never A).
Proof. by intros s. Qed.

Lemma silent_lift (c : Completion A) : silent (lift c).
Proof. destruct c; [apply silent_ret|apply silent_throw]. Qed.

Lemma silent_bind (m : M A) (k : A → M B) :
  silent m → (∀ a, silent (k a)) → silent (bind m k).
Proof.
  intros Hm Hk s. rewrite bind_run. destruct (Hm s) as [Hs Hw].
  destruct (outcome (m s)) as [[a|e]|]; simpl; [|done..].
  destruct (Hk a (storeAfter (m s))) as [Hs' Hw'].
  rewrite metadataWrites_app, Hw, Hw', Hs', Hs. done.
Qed.

Lemma silent_tryCatch (m : M A) (h : JsError → M A) :
  silent m → (∀ e, silent (h e)) → silent (tryCatch m h).
Proof.
  intros Hm Hh s. rewrite tryCatch_run. destruct (Hm s) as [Hs Hw].
  destruct (outcome (m s)) as [[a|e]|]; simpl; [done| |done].
  destruct (Hh e (storeAfter (m s))) as [Hs' Hw'].
  rewrite metadataWrites_app, Hw, Hw', Hs', Hs. done.
Qed.

End Silent.

Lemma silent_emit ev : metadataWrites [ev] = [] → silent (emit ev).
Proof. intros Hev s. by split. Qed.

(** Prove that a computation built from the primitives is silent. *)
Ltac silence_with known :=
  repeat first
    [ known
    | apply silent_ret | apply silent_throw | apply silent_never
    | apply silent_lift | (apply silent_emit; reflexivity)
    | assumption
    | (apply silent_bind; [|intros ?])
    | (apply silent_tryCatch; [|intros ?])
    | match goal with
      | |- silent (match ?x with _ => _ end) => destruct x
      | |- silent (let '(_, _) := ?x in _) => destruct x
      end ].

Ltac silence := silence_with fail.

Section Decrypt.
Context (api : Api).

Lemma silent_rsaDecrypt key data : silent (rsaDecrypt api key data).
Proof. unfold rsaDecrypt. silence. Qed.

Lemma silent_aesDecrypt key iv data : silent (aesDecrypt api key iv data).
Proof. unfold aesDecrypt. silence. Qed.

Lemma silent_decompressGzip data : silent (decompressGzip api data).
Proof. unfold decompressGzip. silence. Qed.

Lemma silent_base64ToUint8Array v : silent (base64ToUint8Array api v).
Proof. unfold base64ToUint8Array. silence. Qed.

Lemma silent_importPrivateKey pem : silent (importPrivateKey api pem).
Proof. unfold importPrivateKey. silence. Qed.

Ltac crypto :=
  first
    [ apply silent_rsaDecrypt | apply silent_aesDecrypt | apply silent_decompressGzip
    | apply silent_base64ToUint8Array | apply silent_importPrivateKey ].

Lemma silent_decryptJsonSnapshot payload key : silent (decryptJsonSnapshot api payload key).
Proof. unfold decryptJsonSnapshot. silence_with crypto. Qed.

Lemma silent_decryptOsnpSnapshot buffer key : silent (decryptOsnpSnapshot api buffer key).
Proof. unfold decryptOsnpSnapshot. silence_with crypto. Qed.

(** Decryption never touches the metadata store, provided its status
    callback does not. *)
Lemma silent_decryptSnapshot source pem (onProgress : string → M unit) :
  (∀ text, silent (onProgress text)) →
  silent (decryptSnapshot api source pem onProgress).
Proof.
  intros Hcb. unfold decryptSnapshot.
  silence_with
    ltac:(first [ apply Hcb | apply silent_decryptJsonSnapshot
                | apply silent_decryptOsnpSnapshot | crypto ]).
Qed.

End Decrypt.

End StatusFacts.
Module StatusPipeline.
Import Js Value Platform Model Async Chunking Decrypt Pipeline.
Import Worker Pool PoolSpec AsyncFacts StatusSpec StatusFacts.

Section WithEnv.
Context (api : Api) (WORKER_COUNT : nat) (chunkEnv : nat → ChunkEnv).
Context (schedule : list nat).

(** ** The worker pool writes no metadata, whether it drains or not *)

Lemma processNextTask_writes st :
  metadataWrites (processNextTask api chunkEnv st).2 = [].
Proof.
  unfold processNextTask. by destruct (taskQueue st), (availableWorkers st).
Qed.

Lemma processChunk_writes st chunk i :
  metadataWrites (processChunk api chunkEnv st chunk i).2 = [].
Proof.
  unfold processChunk.
  match goal with |- context [processNextTask api chunkEnv ?st1] =>
    pose proof (processNextTask_writes st1) as H;
    destruct (processNextTask api chunkEnv st1) as [st2 es] end.
  exact H.
Qed.

Lemma submitAll_writes chunks : ∀ st i,
  metadataWrites (submitAll api chunkEnv st chunks i).2 = [].
Proof.
  induction chunks as [|chunk chunks IH]; intros st i; [done|].
  simpl. pose proof (processChunk_writes st chunk i) as H1.
  destruct (processChunk api chunkEnv st chunk i) as [st1 es1].
  specialize (IH st1 (S i)).
  destruct (submitAll api chunkEnv st1 chunks (S i)) as [st2 es2].
  simpl in *. by rewrite metadataWrites_app, H1, IH.
Qed.

Lemma handleWorkerMessage_writes totalMessages insertCount st w msg :
  metadataWrites
    (handleWorkerMessage api WORKER_COUNT chunkEnv totalMessages insertCount st w msg).2
  = [].
Proof. destruct msg; simpl; [done|apply processNextTask_writes..]. Qed.

Lemma turn_writes totalMessages insertCount st choice :
  metadataWrites (turn api WORKER_COUNT chunkEnv totalMessages insertCount st choice).2 = [].
Proof.
  unfold turn. destruct (running st !! _) as [[w [|act rest]]|]; [done| |done].
  match goal with |- context [match act with ActPost msg => handleWorkerMessage _ _ _ _ _ ?st1 w msg | _ => _ end] =>
    pose proof (λ msg, handleWorkerMessage_writes totalMessages insertCount st1 w msg) as H;
    destruct act as [k ms o|d|msg]; [done|done|];
    specialize (H msg);
    destruct (handleWorkerMessage api WORKER_COUNT chunkEnv totalMessages insertCount st1 w msg)
  end.
  exact H.
Qed.

Lemma wait_writes totalMessages insertCount fuel : ∀ sched st,
  match wait api WORKER_COUNT chunkEnv totalMessages insertCount fuel sched st with
  | Drained _ es | Stuck _ es => metadataWrites es = []
  | OutOfFuel => True
  end.
Proof.
  induction fuel as [|fuel IH]; intros sched st; simpl.
  - destruct (drained st); [done|]. by destruct (running st).
  - destruct (drained st); [done|]. destruct (running st) eqn:Hr; [done|].
    pose proof (turn_writes totalMessages insertCount st (hd 0%nat sched)) as H1.
    destruct (turn api WORKER_COUNT chunkEnv totalMessages insertCount st (hd 0%nat sched))
      as [st1 es1].
    specialize (IH (tl sched) st1).
    destruct (wait api WORKER_COUNT chunkEnv totalMessages insertCount fuel (tl sched) st1);
      simpl in *; [| |done]; by rewrite metadataWrites_app, H1, IH.
Qed.

Lemma runPool_writes totalMessages insertCount resumeFrom chunks :
  match runPool api WORKER_COUNT chunkEnv totalMessages insertCount schedule
          resumeFrom chunks with
  | Drained _ es | Stuck _ es => metadataWrites es = []
  | OutOfFuel => True
  end.
Proof.
  unfold runPool.
  pose proof (submitAll_writes chunks (create WORKER_COUNT resumeFrom) 0) as H1.
  destruct (submitAll api chunkEnv (create WORKER_COUNT resumeFrom) chunks 0) as [st1 es1].
  pose proof (wait_writes totalMessages insertCount (pendingActions api chunkEnv st1)
                schedule st1) as H2.
  destruct (wait api WORKER_COUNT chunkEnv totalMessages insertCount _ schedule st1);
    simpl in *; [| |done]; by rewrite metadataWrites_app, H1, H2.
Qed.

Lemma silent_persistChunks totalMessages resumeFrom chunks insertCount :
  silent (persistChunks api WORKER_COUNT chunkEnv schedule totalMessages resumeFrom
            chunks insertCount).
Proof.
  intros s. unfold persistChunks. rewrite bind_emit.
  pose proof (runPool_writes totalMessages insertCount resumeFrom chunks) as H.
  destruct (runPool api WORKER_COUNT chunkEnv totalMessages insertCount schedule
              resumeFrom chunks); simpl; by rewrite ?H.
Qed.

Lemma silent_onProgress p : silent (onProgress p).
Proof. by apply silent_emit. Qed.

Lemma silent_decryptStatus text : silent (decryptStatus text).
Proof. unfold decryptStatus. silence_with ltac:(apply silent_onProgress). Qed.

(** ** Rules for the steps of the pipeline *)

Section Steps.
Context {B : Type} (id : string).
Implicit Types (P : gmap string SnapshotMetadata → Prop).

Lemma triple_bind_save P m (k : unit → M B) Q :
  snapshotId m = id →
  (∀ s, P s → allowed (statusAt id s) (status m) = true) →
  triple id (λ s, statusAt id s = Some (status m)) (k tt) Q →
  triple id P (bind (saveMetadata m) k) Q.
Proof.
  intros Hid Hallowed Hk.
  eapply triple_bind with
    (Q1 := λ c s, match c with
                  | Normal _ => statusAt id s = Some (status m)
                  | Throw _ => False
                  end).
  - apply triple_saveMetadata; [done|done|].
    intros s _. unfold statusAt. by rewrite lookup_insert_eq.
  - by intros [].
  - done.
Qed.

Lemma triple_bind_emit P ev (k : unit → M B) Q :
  metadataWrites [ev] = [] →
  triple id P (k tt) Q →
  triple id P (bind (emit ev) k) Q.
Proof.
  intros Hev Hk.
  eapply triple_bind with
    (Q1 := λ c s, match c with Normal _ => P s | Throw _ => False end).
  - by apply triple_emit.
  - by intros [].
  - done.
Qed.

Lemma triple_bind_silent {A} P (m : M A) (k : A → M B) Q :
  silent m →
  (∀ a, triple id P (k a) Q) →
  (∀ e s, P s → Q (Throw e) s) →
  triple id P (bind m k) Q.
Proof.
  intros Hm Hk Hthrow.
  eapply triple_bind with (Q1 := λ _ s, P s);
    [by apply triple_silent|done|done].
Qed.

Lemma triple_bind_lift {A} P (c : Completion A) (k : A → M B) Q :
  (∀ a, triple id P (k a) Q) →
  (∀ e s, P s → Q (Throw e) s) →
  triple id P (bind (lift c) k) Q.
Proof. intros. apply triple_bind_silent; [apply silent_lift|done|done]. Qed.

Lemma triple_bind_get P (k : option SnapshotMetadata → M B) Q :
  (∀ v, triple id (λ s, P s ∧ s !! id = v ∧ keyed id s) (k v) Q) →
  triple id P (bind (getMetadata id) k) Q.
Proof.
  intros Hk.
  eapply triple_bind with
    (Q1 := λ c s, match c with
                  | Normal v => P s ∧ s !! id = v ∧ keyed id s
                  | Throw _ => False
                  end).
  - apply triple_getMetadata. by intros s Hs Hkey.
  - intros v. apply Hk.
  - done.
Qed.

End Steps.

(** ** The status along the pipeline *)

Definition ensured id (c : Completion (SnapshotMetadata * bool))
    (s : gmap string SnapshotMetadata) : Prop :=
  ∃ metadata skip, c = Normal (metadata, skip)
    ∧ snapshotId metadata = id
    ∧ if skip then statusAt id s = Some Completed
      else statusAt id s = Some Processing ∧ status metadata = Processing.

(** [ensureProcessingMetadata] either finds the snapshot completed and
    writes nothing, or leaves it at 'processing'. *)
Lemma ensure_triple id :
  triple id (λ _, True) (ensureProcessingMetadata api id) (ensured id).
Proof.
  unfold ensureProcessingMetadata.
  apply triple_bind_get. intros [existing|].
  - apply (triple_exploit id (snapshotId existing = id));
      [by intros s (_ & Hs & Hk); apply Hk|intros Hid].
    destruct (decide (status existing = Completed)) as [Hc|Hc].
    + apply triple_ret. intros s (_ & Hs & Hk). exists existing, true.
      split_and!; [done|done|]. unfold statusAt. by rewrite Hs, <- Hc.
    + apply triple_bind_save; [done| |].
      * intros s (_ & Hs & Hk). unfold statusAt. rewrite Hs. simpl.
        by destruct (status existing).
      * apply triple_ret. intros s Hs.
        eexists _, false. split_and!; [reflexivity|done|done|done].
  - apply triple_bind_save; [done| |].
    + intros s (_ & Hs & Hk). unfold statusAt. by rewrite Hs.
    + apply triple_ret. intros s Hs.
      eexists _, false. split_and!; [reflexivity|done|done|done].
Qed.

(** The [catch] block, entered with the snapshot at 'processing' or at
    'error', leaves it at 'error' and rethrows. *)
Lemma recordFailure_triple id e :
  triple id (λ s, statusAt id s = Some Processing ∨ statusAt id s = Some Errored)
    (recordFailure api id e)
    (λ c s, (∃ e', c = Throw e') ∧ statusAt id s = Some Errored).
Proof.
  unfold recordFailure.
  apply triple_bind_get. intros [m|].
  - apply (triple_exploit id (snapshotId m = id ∧ (status m = Processing ∨ status m = Errored))).
    { intros s (Hst & Hs & Hk). split; [by apply Hk|].
      unfold statusAt in Hst. rewrite Hs in Hst. simpl in Hst.
      destruct Hst as [[= ->]|[= ->]]; eauto. }
    intros [Hid Hst].
    apply triple_bind_save; [done| |].
    + intros s (_ & Hs & Hk). unfold statusAt. rewrite Hs. simpl.
      by destruct Hst as [-> | ->].
    + apply triple_bind_emit; [done|]. apply triple_throw. intros s Hs. eauto.
  - apply (triple_exploit id False).
    { intros s (Hst & Hs & _). unfold statusAt in Hst. rewrite Hs in Hst.
      by destruct Hst. }
    done.
Qed.

(** How the [try] block of [cacheDecryptedSnapshotMultiWorker] leaves the
    status: 'completed' when it returns, 'processing' when it throws. *)
Definition cached id (c : Completion unit) (s : gmap string SnapshotMetadata) : Prop :=
  match c with
  | Normal _ => statusAt id s = Some Completed
  | Throw _ => statusAt id s = Some Processing
  end.

Ltac tstep :=
  first
    [ apply triple_bind_lift; [intros ?|by intros]
    | apply triple_bind_emit; [reflexivity|]
    | apply triple_emit; [reflexivity|by intros]
    | apply triple_throw; by intros
    | apply triple_never ].

Ltac tsave :=
  apply triple_bind_save; [done|by intros ? ->|cbn [status]].

Lemma cacheBody_triple id decryptedData optionsMetadata :
  triple id
    (λ s, match optionsMetadata with
          | Some m => snapshotId m = id ∧ status m = Processing
                      ∧ statusAt id s = Some Processing
          | None => True
          end)
    (cacheBody api WORKER_COUNT chunkEnv schedule id decryptedData optionsMetadata)
    (cached id).
Proof.
  unfold cacheBody.
  eapply triple_bind with (Q1 := ensured id).
  - destruct optionsMetadata as [m|]; [|apply ensure_triple].
    apply triple_ret. intros s (Hid & Hst & Hs). by exists m, false.
  - intros [metadata skip].
    apply (triple_exploit id
             (snapshotId metadata = id ∧ (skip = false → status metadata = Processing))).
    { intros s (m' & skip' & [= <- <-] & Hid & H). split; [done|].
      intros ->. by destruct H. }
    intros [Hid Hst].
    apply triple_conseq with
      (P' := λ s, statusAt id s = Some (if skip then Completed else Processing))
      (Q' := cached id); [| |done].
    { intros s (m' & skip' & [= <- <-] & _ & H). destruct skip; [done|by destruct H]. }
    destruct skip.
    { tstep. }
    specialize (Hst eq_refl).
    do 4 tstep. rewrite Hst.
    match goal with |- triple _ _ (match ?x with _ => _ end) _ => destruct x end;
      try tstep.
    destruct (_ =? 0).
    { tsave. tstep. }
    do 2 tstep. tsave.
    destruct (_ =? 0).
    { tsave. tstep. }
    tstep.
    destruct (chunkMessages _ _) as [chunks|]; [|tstep].
    apply triple_bind_silent; [apply silent_persistChunks| |by intros].
    intros []. tsave. tstep.
  - by intros e s (m' & skip' & [=] & _).
Qed.

Lemma triple_pre {A} id P P' (m : M A) Q :
  (∀ s, P s → P' s) → triple id P' m Q → triple id P m Q.
Proof. intros HP Hm. by apply (triple_conseq id P P' m Q Q). Qed.

Lemma triple_finallyTerminate {A} id P (m : M A) Q :
  triple id P m Q → triple id P (finallyTerminate m) Q.
Proof.
  intros Hm s Hk Hs. destruct (Hm s Hk Hs) as (Hk' & Hf & Hl & Hq).
  unfold finallyTerminate.
  destruct (outcome (m s)) as [c|] eqn:Ho; [|by rewrite Ho].
  destruct (existsb isPoolCreated (effects (m s))); [|by rewrite Ho].
  cbn [outcome storeAfter effects].
  rewrite metadataWrites_app. simpl. rewrite app_nil_r. by split_and!.
Qed.

(** How an entry point of the pipeline leaves the status: 'completed' when
    it returns, 'error' when it throws. *)
Definition settled id (c : Completion unit) (s : gmap string SnapshotMetadata) : Prop :=
  match c with
  | Normal _ => statusAt id s = Some Completed
  | Throw _ => statusAt id s = Some Errored
  end.

Lemma cacheDecrypted_triple id decryptedData optionsMetadata :
  triple id
    (λ s, match optionsMetadata with
          | Some m => snapshotId m = id ∧ status m = Processing
                      ∧ statusAt id s = Some Processing
          | None => True
          end)
    (cacheDecryptedSnapshotMultiWorker api WORKER_COUNT chunkEnv schedule id
       decryptedData optionsMetadata)
    (settled id).
Proof.
  unfold cacheDecryptedSnapshotMultiWorker.
  apply triple_finallyTerminate.
  eapply triple_tryCatch with (Q1 := cached id).
  - apply cacheBody_triple.
  - intros e. eapply triple_conseq; [|apply recordFailure_triple|].
    + intros s Hs. by left.
    + by intros [[]|e'] s [[e'' ?] Hs].
  - done.
Qed.

Lemma decryptAndStream_triple id fileUrl privateKeyPem :
  triple id (λ _, True)
    (decryptAndStreamToIndexedDBMultiWorker api WORKER_COUNT chunkEnv schedule id
       fileUrl privateKeyPem)
    (settled id).
Proof.
  unfold decryptAndStreamToIndexedDBMultiWorker.
  eapply triple_tryCatch with
    (Q1 := λ c s, match c with
                  | Normal _ => statusAt id s = Some Completed
                  | Throw _ => statusAt id s = Some Processing
                               ∨ statusAt id s = Some Errored
                  end).
  - eapply triple_bind with (Q1 := ensured id); [apply ensure_triple| |].
    + intros [metadata skip].
      apply (triple_exploit id
               (snapshotId metadata = id ∧ (skip = false → status metadata = Processing))).
      { intros s (m' & skip' & [= <- <-] & Hid & H). split; [done|].
        intros ->. by destruct H. }
      intros [Hid Hst].
      apply triple_pre with
        (P' := λ s, statusAt id s = Some (if skip then Completed else Processing)).
      { intros s (m' & skip' & [= <- <-] & _ & H). destruct skip; [done|by destruct H]. }
      destruct skip.
      { apply triple_emit; [reflexivity|by intros]. }
      specialize (Hst eq_refl).
      apply triple_bind_emit; [reflexivity|].
      apply triple_bind_silent;
        [apply silent_decryptSnapshot, silent_decryptStatus| |by intros; left].
      intros decryptedData.
      apply triple_bind_emit; [reflexivity|].
      eapply triple_conseq; [|apply (cacheDecrypted_triple id decryptedData (Some metadata))|].
      * by intros s Hs.
      * intros [[]|e] s Hs; [done|by right].
    + by intros e s (m' & skip' & [=] & _).
  - intros e. eapply triple_conseq; [|apply recordFailure_triple|].
    + by intros s Hs.
    + by intros [[]|e'] s [[e'' ?] Hs].
  - done.
Qed.

End WithEnv.
End StatusPipeline.

Module SettleFacts.
Import Js Value Platform Model Async Chunking ChunkingFacts Decrypt Pipeline.
Import Worker Pool PoolSpec PoolFacts AsyncFacts PipelineFacts ResumeFacts StatusSpec.

(** ** Computations whose promise settles *)

Section Rules.
Context {A B : Type}.

Lemma settles_ret (a : A) : settles (ret a).
Proof. intros s. by eexists. Qed.

Lemma settles_throw e : settles (@throw A e).
Proof. intros s. by eexists. Qed.

Lemma settles_lift (c : Completion A) : settles (lift c).
Proof. destruct c; [apply settles_ret|apply settles_throw]. Qed.

Lemma settles_bind (m : M A) (k : A → M B) :
  settles m → (∀ a, settles (k a)) → settles (bind m k).
Proof.
  intros Hm Hk s. rewrite bind_run. destruct (Hm s) as [[a|e] ->]; simpl.
  - apply Hk.
  - by eexists.
Qed.

Lemma settles_tryCatch (m : M A) (h : JsError → M A) :
  settles m → (∀ e, settles (h e)) → settles (tryCatch m h).
Proof.
  intros Hm Hh s. rewrite tryCatch_run.
  destruct (Hm s) as [[a|e] Ho]; rewrite Ho; simpl.
  - rewrite Ho. by eexists.
  - apply Hh.
Qed.

Lemma settles_finallyTerminate (m : M A) : settles m → settles (finallyTerminate m).
Proof.
  intros Hm s. unfold finallyTerminate. destruct (Hm s) as [c Ho]. rewrite Ho.
  destruct (existsb _ _); simpl; by eexists.
Qed.

(** The effects of a computation begin with those of its first part. *)
Lemma effects_bind_prefix (m : M A) (k : A → M B) s :
  ∃ rest, effects (bind m k s) = effects (m s) ++ rest.
Proof.
  rewrite bind_run. destruct (outcome (m s)) as [[a|e]|]; simpl.
  - by eexists.
  - exists []. by rewrite app_nil_r.
  - exists []. by rewrite app_nil_r.
Qed.

Lemma effects_tryCatch_prefix (m : M A) (h : JsError → M A) s :
  ∃ rest, effects (tryCatch m h s) = effects (m s) ++ rest.
Proof.
  rewrite tryCatch_run. destruct (outcome (m s)) as [[a|e]|]; simpl.
  - exists []. by rewrite app_nil_r.
  - by eexists.
  - exists []. by rewrite app_nil_r.
Qed.

Lemma effects_finallyTerminate_prefix (m : M A) s :
  ∃ rest, effects (finallyTerminate m s) = effects (m s) ++ rest.
Proof.
  unfold finallyTerminate. destruct (outcome (m s)); [destruct (existsb _ _)|]; simpl.
  - by eexists.
  - exists []. by rewrite app_nil_r.
  - exists []. by rewrite app_nil_r.
Qed.

End Rules.

Lemma settles_emit ev : settles (emit ev).
Proof. intros s. by eexists. Qed.

Lemma settles_getMetadata id : settles (getMetadata id).
Proof. intros s. by eexists. Qed.

Lemma settles_saveMetadata m : settles (saveMetadata m).
Proof. intros s. by eexists. Qed.

(** Prove that a computation built from the primitives settles. *)
Ltac settle_with known :=
  repeat first
    [ known
    | apply settles_ret | apply settles_throw | apply settles_lift
    | apply settles_emit | apply settles_getMetadata | apply settles_saveMetadata
    | assumption
    | (apply settles_bind; [|intros ?])
    | (apply settles_tryCatch; [|intros ?])
    | apply settles_finallyTerminate
    | match goal with
      | |- settles (match ?x with _ => _ end) => destruct x
      | |- settles (let '(_, _) := ?x in _) => destruct x
      end ].

Ltac settle := settle_with fail.

Section WithEnv.
Context (api : Api) (WORKER_COUNT : nat) (chunkEnv : nat → ChunkEnv).
Context (schedule : list nat).
Hypothesis workers : (0 < WORKER_COUNT)%nat.

Lemma settles_rsaDecrypt key data : settles (rsaDecrypt api key data).
Proof. unfold rsaDecrypt. settle. Qed.

Lemma settles_aesDecrypt key iv data : settles (aesDecrypt api key iv data).
Proof. unfold aesDecrypt. settle. Qed.

Lemma settles_decompressGzip data : settles (decompressGzip api data).
Proof. unfold decompressGzip. settle. Qed.

Lemma settles_base64ToUint8Array v : settles (base64ToUint8Array api v).
Proof. unfold base64ToUint8Array. settle. Qed.

Lemma settles_importPrivateKey pem : settles (importPrivateKey api pem).
Proof. unfold importPrivateKey. settle. Qed.

Ltac crypto :=
  first
    [ apply settles_rsaDecrypt | apply settles_aesDecrypt | apply settles_decompressGzip
    | apply settles_base64ToUint8Array | apply settles_importPrivateKey ].

Lemma settles_decryptJsonSnapshot payload key :
  settles (decryptJsonSnapshot api payload key).
Proof. unfold decryptJsonSnapshot. settle_with crypto. Qed.

Lemma settles_decryptOsnpSnapshot buffer key :
  settles (decryptOsnpSnapshot api buffer key).
Proof. unfold decryptOsnpSnapshot. settle_with crypto. Qed.

Lemma settles_onProgress p : settles (onProgress p).
Proof. apply settles_emit. Qed.

Lemma settles_decryptStatus text : settles (decryptStatus text).
Proof. unfold decryptStatus. settle_with ltac:(apply settles_onProgress). Qed.

Lemma settles_decryptSnapshot source pem :
  settles (decryptSnapshot api source pem decryptStatus).
Proof.
  unfold decryptSnapshot.
  settle_with
    ltac:(first [ apply settles_decryptStatus | apply settles_decryptJsonSnapshot
                | apply settles_decryptOsnpSnapshot | crypto ]).
Qed.

Lemma settles_ensureProcessingMetadata id : settles (ensureProcessingMetadata api id).
Proof. unfold ensureProcessingMetadata. settle. Qed.

Lemma settles_recordFailure id e : settles (recordFailure api id e).
Proof. unfold recordFailure. settle_with ltac:(apply settles_onProgress). Qed.

(** With a worker to serve it, the pool drains. *)
Lemma settles_persistChunks total resumeFrom chunks insertCount :
  settles (persistChunks api WORKER_COUNT chunkEnv schedule total resumeFrom chunks
             insertCount).
Proof.
  intros s.
  destruct (persistChunks_run api WORKER_COUNT chunkEnv schedule total resumeFrom
              chunks insertCount s workers) as (es & -> & _).
  by eexists.
Qed.

Lemma settles_cacheBody id decryptedData optionsMetadata :
  settles (cacheBody api WORKER_COUNT chunkEnv schedule id decryptedData optionsMetadata).
Proof.
  unfold cacheBody.
  settle_with
    ltac:(first
      [ apply settles_ensureProcessingMetadata
      | apply settles_onProgress
      | apply settles_persistChunks
      | match goal with
        | |- settles (match chunkMessages ?l (calculateOptimalChunkSize ?n _) with
                      | _ => _ end) =>
            let c := fresh "c" in
            let Hc := fresh "Hc" in
            let chunks := fresh "chunks" in
            destruct (calculateOptimalChunkSize_positive n WORKER_COUNT workers)
              as (c & -> & Hc);
            destruct (chunkMessages_concat l c Hc) as (chunks & -> & _)
        end ]).
Qed.

Lemma settles_cacheDecrypted id decryptedData optionsMetadata :
  settles (cacheDecryptedSnapshotMultiWorker api WORKER_COUNT chunkEnv schedule
             id decryptedData optionsMetadata).
Proof.
  unfold cacheDecryptedSnapshotMultiWorker.
  apply settles_finallyTerminate, settles_tryCatch.
  - apply settles_cacheBody.
  - intros e. apply settles_recordFailure.
Qed.

Lemma settles_decryptAndStream id fileUrl privateKeyPem :
  settles (decryptAndStreamToIndexedDBMultiWorker api WORKER_COUNT chunkEnv schedule
             id fileUrl privateKeyPem).
Proof.
  unfold decryptAndStreamToIndexedDBMultiWorker.
  settle_with
    ltac:(first
      [ apply settles_ensureProcessingMetadata
      | apply settles_onProgress
      | apply settles_decryptSnapshot
      | apply settles_cacheDecrypted
      | apply settles_recordFailure ]).
Qed.

End WithEnv.

Section FirstWrite.
Context (api : Api) (WORKER_COUNT : nat) (chunkEnv : nat → ChunkEnv).
Context (schedule : list nat).

(** Both entry points begin with [ensureProcessingMetadata]: the first
    metadata write of a run on a snapshot that is recorded and not
    completed is the record with status 'processing' and no error text. *)
Lemma first_write_resets id existing s r decryptedData fileUrl privateKeyPem :
  s !! id = Some existing → status existing ≠ Completed →
  r = decryptAndStreamToIndexedDBMultiWorker api WORKER_COUNT chunkEnv schedule
        id fileUrl privateKeyPem s
  ∨ r = cacheDecryptedSnapshotMultiWorker api WORKER_COUNT chunkEnv schedule
          id decryptedData None s →
  head (metadataWrites (effects r)) = Some (withStatus existing Processing None).
Proof.
  intros Hex Hst Hr.
  assert (Hstart : effects (ensureProcessingMetadata api id s)
                   = [ESaveMetadata (withStatus existing Processing None)]).
  { by rewrite (ensure_resumable api id s existing Hex Hst). }
  assert (∃ rest, effects r
                  = ESaveMetadata (withStatus existing Processing None) :: rest)
    as [rest ->]; [|done].
  destruct Hr as [-> | ->].
  - unfold decryptAndStreamToIndexedDBMultiWorker.
    match goal with |- context [tryCatch ?m ?h s] =>
      destruct (effects_tryCatch_prefix m h s) as [rest1 ->] end.
    match goal with |- context [bind ?m ?k s] =>
      destruct (effects_bind_prefix m k s) as [rest2 ->] end.
    rewrite Hstart. simpl. by eexists.
  - unfold cacheDecryptedSnapshotMultiWorker.
    match goal with |- context [finallyTerminate ?m s] =>
      destruct (effects_finallyTerminate_prefix m s) as [rest0 ->] end.
    match goal with |- context [tryCatch ?m ?h s] =>
      destruct (effects_tryCatch_prefix m h s) as [rest1 ->] end.
    unfold cacheBody.
    match goal with |- context [bind ?m ?k s] =>
      destruct (effects_bind_prefix m k s) as [rest2 ->] end.
    rewrite Hstart. simpl. by eexists.
Qed.

End FirstWrite.

End SettleFacts.

Module StatusTheorems.
Import Js Value Platform Model Async Chunking Decrypt Pipeline.
Import Worker Pool PoolSpec AsyncFacts StatusSpec StatusFacts StatusPipeline.
Import SettleFacts TestPlatform PipelineExamples.

(** A run that leaves a completed snapshot's status alone writes nothing. *)
Lemma follows_completed id ws :
  follows id (Some Completed) ws = true → ws = [].
Proof.
  destruct ws as [|m ws]; [done|]. unfold follows. simpl.
  rewrite andb_false_r. done.
Qed.

(** C5, as claimed, fails: a snapshot recorded with status 'error' is moved
    back to 'processing' (and its error text dropped) by the first metadata
    write of the next run of the pipeline, and a run also rewrites a
    'processing' record as 'processing'; so the writes do not follow the
    moves 'processing' to 'completed' or 'error' alone. *)
Lemma error_status_is_left_counterexample :
  let s := sampleStore (sampleMetadata Errored 1 (Some "Transaction aborted")) in
  let r := cacheDecryptedSnapshotMultiWorker testApi 2 (λ _, reliable) []
             "snap" (sampleData threeMessages) None s in
  statusAt "snap" s = Some Errored
  ∧ (∃ m, head (metadataWrites (effects r)) = Some m
          ∧ snapshotId m = "snap" ∧ status m = Processing ∧ error m = None)
  ∧ map status (metadataWrites (effects r)) = [Processing; Processing; Completed]
  ∧ followsBy allowedBySpec "snap" (statusAt "snap" s) (metadataWrites (effects r))
    = false.
Proof.
  split_and!.
  - reflexivity.
  - eexists. split_and!; [vm_compute; reflexivity|reflexivity..].
  - vm_compute. reflexivity.
  - vm_compute. reflexivity.
Qed.

(** C5, amended.  The metadata store accepts every read and write, and the
    progress callback returns.  From a store that holds the record of a
    snapshot under its own id, both entry points of the pipeline write
    records of that snapshot only, and each status they write follows the
    one before it by one of these moves: no record to 'processing';
    'processing' to 'processing', 'completed' or 'error'; 'error' to
    'processing' or 'error'.  The store ends with the last status written.
    'completed' is terminal: for a completed snapshot nothing is written.
    'error' is not: for a snapshot that is recorded and not completed, with
    status 'error' or 'processing', the first write of a run is the stored
    record with status 'processing' and no error text.  With at least one
    worker the run settles, and it leaves the snapshot 'completed' when it
    returns and at 'error' when it throws; so does every run that
    settles. *)
Theorem status_moves_and_completed_is_terminal api (WORKER_COUNT : nat)
    (chunkEnv : nat → ChunkEnv) (schedule : list nat)
    (id fileUrl privateKeyPem : string) (decryptedData : JsVal)
    (s : gmap string SnapshotMetadata) :
  keyed id s →
  ∀ r, r = decryptAndStreamToIndexedDBMultiWorker api WORKER_COUNT chunkEnv schedule
             id fileUrl privateKeyPem s
       ∨ r = cacheDecryptedSnapshotMultiWorker api WORKER_COUNT chunkEnv schedule
               id decryptedData None s →
    follows id (statusAt id s) (metadataWrites (effects r)) = true
    ∧ statusAt id (storeAfter r) = lastStatus (statusAt id s) (metadataWrites (effects r))
    ∧ (statusAt id s = Some Completed → metadataWrites (effects r) = [])
    ∧ (∀ existing, s !! id = Some existing → status existing ≠ Completed →
         head (metadataWrites (effects r))
         = Some (withStatus existing Processing None))
    ∧ ((0 < WORKER_COUNT)%nat →
       ∃ c, outcome r = Some c
            ∧ statusAt id (storeAfter r)
              = Some (match c with Normal _ => Completed | Throw _ => Errored end))
    ∧ match outcome r with
      | Some (Normal _) => statusAt id (storeAfter r) = Some Completed
      | Some (Throw _) => statusAt id (storeAfter r) = Some Errored
      | None => True
      end.
Proof.
  intros Hk r Hr.
  assert (H : keyed id (storeAfter r)
              ∧ follows id (statusAt id s) (metadataWrites (effects r)) = true
              ∧ statusAt id (storeAfter r)
                = lastStatus (statusAt id s) (metadataWrites (effects r))
              ∧ match outcome r with
                | Some c => settled id c (storeAfter r)
                | None => True
                end).
  { destruct Hr as [-> | ->].
    - by apply (decryptAndStream_triple api WORKER_COUNT chunkEnv schedule id).
    - by apply (cacheDecrypted_triple api WORKER_COUNT chunkEnv schedule id
                  decryptedData None). }
  destruct H as (_ & Hf & Hl & Hq). split_and!; [done|done| | | |].
  - intros Hc. rewrite Hc in Hf. by apply (follows_completed id).
  - intros existing Hex Hst.
    by apply (first_write_resets api WORKER_COUNT chunkEnv schedule id existing s r
                decryptedData fileUrl privateKeyPem).
  - intros Hw.
    assert (Hsettles : is_Some (outcome r)).
    { destruct Hr as [-> | ->].
      - by apply settles_decryptAndStream.
      - by apply settles_cacheDecrypted. }
    destruct Hsettles as [c Hc]. exists c. split; [done|].
    rewrite Hc in Hq. by destruct c.
  - by destruct (outcome r) as [[|]|].
Qed.

Lemma status_moves_and_completed_is_terminal_witness :
  let existing := sampleMetadata Errored 1 (Some "Transaction aborted") in
  let s := sampleStore existing in
  let r := cacheDecryptedSnapshotMultiWorker testApi 2 (λ _, reliable) []
             "snap" (sampleData threeMessages) None s in
  follows "snap" (Some Errored) (metadataWrites (effects r)) = true
  ∧ statusAt "snap" (storeAfter r) = Some Completed
  ∧ head (metadataWrites (effects r)) = Some (withStatus existing Processing None)
  ∧ ∃ c, outcome r = Some c
         ∧ statusAt "snap" (storeAfter r)
           = Some (match c with Normal _ => Completed | Throw _ => Errored end).
Proof.
  intros existing s r.
  destruct (status_moves_and_completed_is_terminal testApi 2 (λ _, reliable) []
              "snap" "https://files.example/snap.osnp" "pem"
              (sampleData threeMessages) s)
    with (r := r)
    as (Hf & Hl & _ & Hfirst & Hsettles & _).
  - intros m Hm. unfold s, sampleStore in Hm. simpl in Hm.
    apply lookup_singleton_Some in Hm as [_ <-]. reflexivity.
  - right. reflexivity.
  - split; [exact Hf|]. split; [rewrite Hl; vm_compute; reflexivity|].
    split; [apply Hfirst; [reflexivity|discriminate]|].
    apply Hsettles. lia.
Defined.

End StatusTheorems.
Module PrefetchFacts.
Import Prefetch PrefetchSpec.

(** ** Doubles *)

Lemma digits2_pos_bound (m : positive) : Z.pos m < 2 ^ Z.pos (digits2_pos m).
Proof.
  induction m as [m IH|m IH|]; cbn [digits2_pos]; [| |done].
  - rewrite Pos2Z.inj_succ, Z.pow_succ_r by lia. lia.
  - rewrite Pos2Z.inj_succ, Z.pow_succ_r by lia. lia.
Qed.

(** The mantissa of a binary64 value has at most 53 bits. *)
Lemma valid_mantissa s m e :
  valid_binary 53 1024 (S754_finite s m e) = true → Z.pos m < 9007199254740992.
Proof.
  unfold valid_binary, bounded, canonical_mantissa, fexp, emin.
  intros [Hcanonical _]%andb_true_iff.
  apply Z.eqb_eq in Hcanonical.
  pose proof (digits2_pos_bound m) as Hm.
  assert (Z.pos (digits2_pos m) ≤ 53) by lia.
  eapply Z.lt_le_trans; [exact Hm|].
  change 9007199254740992 with (2 ^ 53). apply Z.pow_le_mono_r; lia.
Qed.

Lemma magnitude_nonneg m e : (0 <= magnitude m e)%Q.
Proof.
  destruct e as [|p|p]; unfold magnitude, Qle; cbn [Qnum Qden inject_Z]; [lia| |lia].
  assert (0 < 2 ^ Z.pos p) by (apply Z.pow_pos_nonneg; lia). nia.
Qed.

(** A value that passes the test [x <= 25] is at most 25. *)
Lemma lessEq_limit_sound x q :
  valueOf x = Some q → lessEq x PREFETCH_SIZE_LIMIT_MB = true → (q <= 25)%Q.
Proof.
  unfold valueOf. destruct (valid_binary 53 1024 x) eqn:Hvalid; [|done].
  destruct x as [s|s| |s m e]; try done.
  - intros [= <-] _. unfold Qle. simpl. lia.
  - intros [= <-]. destruct s.
    + intros _. pose proof (magnitude_nonneg m e) as Hm.
      apply Qle_trans with (0%Q); [|unfold Qle; simpl; lia].
      apply (Qopp_le_compat 0 (magnitude m e)) in Hm. exact Hm.
    + apply valid_mantissa in Hvalid.
      unfold lessEq, SFleb, SFcompare, PREFETCH_SIZE_LIMIT_MB.
      destruct (Z.compare_spec e (-48)) as [->|Hlt|Hgt]; [| |done].
      * rewrite Pos.compare_cont_spec, Pos2Z.inj_compare.
        destruct (Z.compare_spec (Z.pos m) 7036874417766400) as [Hm|Hm|Hm];
          cbn [Pos.switch_Eq]; [| |done];
          intros _; unfold magnitude, Qle; cbn [Qnum Qden];
          change (Z.pos (2 ^ 48)) with 281474976710656; lia.
      * intros _. destruct e as [|p|p]; [lia|lia|].
        unfold magnitude, Qle. cbn [Qnum Qden].
        rewrite Pos2Z.inj_pow.
        assert (562949953421312 ≤ 2 ^ Z.pos p).
        { change 562949953421312 with (2 ^ 49). apply Z.pow_le_mono_r; lia. }
        lia.
Qed.

(** ** The account of a run *)


Lemma audit_app allSnapshots g es1 es2 :
  audit allSnapshots g (es1 ++ es2)
  ↔ audit allSnapshots g es1 ∧ audit allSnapshots (fold_left record es1 g) es2.
Proof.
  revert g. induction es1 as [|e es1 IH]; intros g; simpl; [tauto|].
  rewrite IH. tauto.
Qed.


Lemma starts_app tr es : starts (tr ++ es) = starts tr ++ starts es.
Proof. apply omap_app. Qed.

Section WithSnapshots.
Context (parseFileSizeMb : option string → spec_float) (allSnapshots : list Snapshot).

Local Abbreviation Inv := (PrefetchSpec.Inv allSnapshots).
Local Abbreviation scheduleLoop := (Prefetch.scheduleLoop parseFileSizeMb).
Local Abbreviation schedulePrefetch := (Prefetch.schedulePrefetch parseFileSizeMb allSnapshots).

Lemma initial_Inv : Inv initial opening.
Proof.
  split; simpl.
  - done.
  - done.
  - apply dom_empty_L.
  - intros k ?%elem_of_empty. done.
  - by intros x ?%elem_of_nil.
  - lia.
  - intros _. split; [constructor|]. by intros p ?%elem_of_nil.
Qed.

(** With distinct ids, no id registered means nothing in flight. *)
Lemma nothing_registered st g :
  NoDup (id <$> allSnapshots) → Inv st g → registered g = ∅ → inFlight g = [].
Proof.
  intros Hdistinct Hinv Hnone.
  destruct (inFlight g) as [|p rest] eqn:Hp; [done|].
  destruct (inv_distinct _ _ _ Hinv Hdistinct) as [_ Hall].
  specialize (Hall p). rewrite Hp, Hnone in Hall.
  exfalso. apply (not_elem_of_empty (C:=gset string) (id p.1)), Hall. by left.
Qed.

(** Nothing in flight means no id registered. *)
Lemma nothing_in_flight st g :
  Inv st g → inFlight g = [] → size (activePreparations st) = 0%nat.
Proof.
  intros Hinv Hnone. apply map_size_empty_iff, dom_empty_inv_L.
  rewrite (inv_registered _ _ _ Hinv).
  apply set_eq. intros k. split; [|by intros ?%elem_of_empty].
  intros Hk%(inv_known _ _ _ Hinv). rewrite Hnone in Hk. by apply elem_of_nil in Hk.
Qed.

(** The next snapshot of a list with distinct ids is not in flight. *)
Lemma next_is_fresh st g snapshot :
  NoDup (id <$> allSnapshots) →
  Inv st g → allSnapshots !! nextToSchedule st = Some snapshot →
  id snapshot ∉ id <$> (inFlight g).*1.
Proof.
  intros Hdistinct Hinv Hnext (p & Hid & Hp)%list_elem_of_fmap.
  apply (inv_scheduled _ _ _ Hinv) in Hp.
  apply list_elem_of_lookup in Hp as [i Hi].
  apply lookup_take_Some in Hi as [Hi Hlt].
  assert (i = nextToSchedule st); [|lia].
  eapply (NoDup_lookup (id <$> allSnapshots)); [done| |].
  - by rewrite list_lookup_fmap, Hi.
  - rewrite list_lookup_fmap, Hnext. simpl. by rewrite Hid.
Qed.

Lemma start_ok st g snapshot :
  Inv st g → allSnapshots !! nextToSchedule st = Some snapshot →
  let sizeMb := parseFileSizeMb (file_size snapshot) in
  lessEq (plus (inFlightMb st) sizeMb) PREFETCH_SIZE_LIMIT_MB
  || bool_decide (size (activePreparations st) = 0%nat) = true →
  let st1 := (startPreparation st snapshot sizeMb).1 in
  startRule allSnapshots g snapshot sizeMb
  ∧ Inv {| nextToSchedule := S (nextToSchedule st1);
           inFlightMb := inFlightMb st1;
           activePreparations := activePreparations st1;
           stagedSnapshotQueue := stagedSnapshotQueue st1;
           pending := pending st1 |}
        (record g (Started snapshot sizeMb)).
Proof.
  intros Hinv Hnext sizeMb Hcan st1.
  assert (Htest : lessEq (runningTotal (record g (Started snapshot sizeMb)))
                    PREFETCH_SIZE_LIMIT_MB = true
                  ∨ registered g = ∅).
  { simpl. rewrite <- (inv_total _ _ _ Hinv), <- (inv_registered _ _ _ Hinv).
    apply orb_true_iff in Hcan as [?|Hnone]; [by left|right].
    apply bool_decide_eq_true in Hnone.
    apply map_size_empty_iff in Hnone. rewrite Hnone. apply dom_empty_L. }
  split; [split; [done|]|].
  - intros Hdistinct total sum Htotal Hsum Heq.
    destruct Htest as [Hle|Hnone].
    + left. rewrite <- Heq. by eapply lessEq_limit_sound.
    + right. simpl. by rewrite (nothing_registered st g Hdistinct Hinv Hnone).
  - split; simpl.
    + by rewrite (inv_pending _ _ _ Hinv).
    + by rewrite (inv_total _ _ _ Hinv).
    + by rewrite dom_insert_L, (inv_registered _ _ _ Hinv).
    + intros k. rewrite !fmap_app, elem_of_app. simpl.
      rewrite list_elem_of_singleton, elem_of_union, elem_of_singleton.
      intros [->|Hk]; [by right|left]. by apply (inv_known _ _ _ Hinv).
    + rewrite fmap_app. simpl. intros x [Hx|Hx%list_elem_of_singleton]%elem_of_app.
      * apply (inv_scheduled _ _ _ Hinv) in Hx.
        apply list_elem_of_lookup in Hx as [i [Hi Hlt]%lookup_take_Some].
        apply list_elem_of_lookup. exists i. apply lookup_take_Some. split; [done|lia].
      * subst x. apply list_elem_of_lookup. exists (nextToSchedule st).
        apply lookup_take_Some. split; [done|lia].
    + apply lookup_lt_Some in Hnext. lia.
    + intros Hdistinct.
      destruct (inv_distinct _ _ _ Hinv Hdistinct) as [Hnodup Hall]. split.
      * rewrite !fmap_app. simpl. apply NoDup_app. split_and!.
        -- exact Hnodup.
        -- intros k Hk ->%list_elem_of_singleton.
           by apply (next_is_fresh st g snapshot Hdistinct Hinv Hnext).
        -- apply NoDup_singleton.
      * intros p [Hp| ->%list_elem_of_singleton]%elem_of_app;
          apply elem_of_union; [right; by apply Hall|left; by apply elem_of_singleton].
Qed.

(** A call of the scheduler from a proper state: every start follows the
    rule, and the scheduler stops with something in flight or with the
    whole list scheduled. *)
Lemma scheduleLoop_ok rest : ∀ st g,
  Inv st g → drop (nextToSchedule st) allSnapshots = rest →
  Inv (scheduleLoop rest st).1 (fold_left record (scheduleLoop rest st).2 g)
  ∧ audit allSnapshots g (scheduleLoop rest st).2
  ∧ (inFlight (fold_left record (scheduleLoop rest st).2 g) = [] →
     nextToSchedule (scheduleLoop rest st).1 = length allSnapshots).
Proof.
  induction rest as [|snapshot rest IH]; intros st g Hinv Hrest; simpl.
  - split_and!; [done|done|]. intros _.
    apply drop_nil_inv in Hrest. pose proof (inv_next _ _ _ Hinv). lia.
  - assert (Hnext : allSnapshots !! nextToSchedule st = Some snapshot).
    { rewrite <- (Nat.add_0_r (nextToSchedule st)), <- lookup_drop, Hrest. done. }
    destruct (lessEq _ _ || bool_decide _) eqn:Hcan; simpl.
    + destruct (start_ok st g snapshot Hinv Hnext Hcan) as [Hrule Hinv'].
      match goal with |- context [scheduleLoop rest ?st2] =>
        destruct (IH st2 _ Hinv') as (Hi & Hf & Hp);
        [simpl; rewrite (drop_S _ _ _ Hnext) in Hrest; by simplify_eq|];
        destruct (scheduleLoop rest st2) as [st3 es] end.
      simpl in *. by split_and!.
    + split_and!; [done|done|]. intros Hp. exfalso.
      apply orb_false_iff in Hcan as [_ Hsize].
      apply bool_decide_eq_false in Hsize. apply Hsize.
      by eapply nothing_in_flight.
Qed.

Lemma schedulePrefetch_ok st g :
  Inv st g →
  Inv (schedulePrefetch st).1 (fold_left record (schedulePrefetch st).2 g)
  ∧ audit allSnapshots g (schedulePrefetch st).2
  ∧ (inFlight (fold_left record (schedulePrefetch st).2 g) = [] →
     nextToSchedule (schedulePrefetch st).1 = length allSnapshots).
Proof. intros Hinv. by apply scheduleLoop_ok. Qed.

(** The end of a preparation that is in flight. *)
Lemma release_Inv st g k snapshot sizeMb queue :
  Inv st g → inFlight g !! k = Some (snapshot, sizeMb) →
  Inv {| nextToSchedule := nextToSchedule st;
         inFlightMb := minus (inFlightMb st) sizeMb;
         activePreparations := delete (id snapshot) (activePreparations st);
         stagedSnapshotQueue := queue;
         pending := delete k (pending st) |}
      (record g (Finished k)).
Proof.
  intros Hinv Hk. unfold record. rewrite Hk.
  split; simpl.
  - by rewrite (inv_pending _ _ _ Hinv).
  - by rewrite (inv_total _ _ _ Hinv).
  - by rewrite dom_delete_L, (inv_registered _ _ _ Hinv).
  - intros k' [Hk' Hne%not_elem_of_singleton]%elem_of_difference.
    apply (inv_known _ _ _ Hinv) in Hk'.
    apply list_elem_of_fmap in Hk' as (s' & -> & Hs').
    apply list_elem_of_fmap in Hs' as ([s'' z] & -> & Hp). simpl in *.
    apply list_elem_of_lookup in Hp as [i Hi].
    assert (i ≠ k) by (intros ->; rewrite Hk in Hi; by simplify_eq).
    apply list_elem_of_fmap. exists s''. split; [done|].
    apply list_elem_of_fmap. exists (s'', z). split; [done|].
    apply list_elem_of_lookup.
    destruct (decide (i < k)%nat).
    + exists i. by rewrite list_lookup_delete_lt.
    + exists (pred i). rewrite list_lookup_delete_ge by lia.
      by replace (S (pred i)) with i by lia.
  - intros x Hx. apply (inv_scheduled _ _ _ Hinv).
    apply list_elem_of_fmap in Hx as (p & -> & Hp).
    apply list_elem_of_fmap. exists p. split; [done|].
    by eapply list_elem_of_delete_inv.
  - exact (inv_next _ _ _ Hinv).
  - intros Hdistinct.
    destruct (inv_distinct _ _ _ Hinv Hdistinct) as [Hnodup Hall]. split.
    + eapply sublist_NoDup; [exact Hnodup|].
      do 2 apply fmap_sublist. apply sublist_delete.
    + intros p Hp. apply elem_of_difference. split.
      * apply Hall. by eapply list_elem_of_delete_inv.
      * apply not_elem_of_singleton. intros Hid.
        apply list_elem_of_lookup in Hp as [i Hi].
        assert (Hnth : ∀ j q, inFlight g !! j = Some q →
                  (id <$> (inFlight g).*1) !! j = Some (id q.1)).
        { intros j q Hq. by rewrite !list_lookup_fmap, Hq. }
        destruct (decide (i < k)%nat).
        -- rewrite list_lookup_delete_lt in Hi by done.
           assert (i = k); [|lia].
           eapply (NoDup_lookup _ _ _ _ Hnodup); [by apply Hnth|].
           rewrite (Hnth k _ Hk). simpl. by rewrite Hid.
        -- rewrite list_lookup_delete_ge in Hi by lia.
           assert (S i = k); [|lia].
           eapply (NoDup_lookup _ _ _ _ Hnodup); [by apply Hnth|].
           rewrite (Hnth k _ Hk). simpl. by rewrite Hid.
Qed.

Lemma settle_ok st g k result :
  Inv st g →
  (inFlight g = [] → nextToSchedule st = length allSnapshots) →
  let r := settle parseFileSizeMb allSnapshots st k result in
  Inv r.1 (fold_left record r.2 g)
  ∧ audit allSnapshots g r.2
  ∧ (inFlight (fold_left record r.2 g) = [] →
     nextToSchedule r.1 = length allSnapshots).
Proof.
  intros Hinv Hdone. unfold settle.
  destruct (pending st !! k) as [[snapshot sizeMb]|] eqn:Hk; [|by split_and!].
  rewrite (inv_pending _ _ _ Hinv) in Hk.
  match goal with |- context [Prefetch.schedulePrefetch _ _ ?st1] =>
    destruct (schedulePrefetch_ok st1 (record g (Finished k))) as (Hi & Ha & Hd);
    [by apply release_Inv|];
    destruct (Prefetch.schedulePrefetch parseFileSizeMb allSnapshots st1) as [st2 es]
  end.
  simpl in *. by split_and!.
Qed.

Lemma steps_ok ss : ∀ st g,
  Inv st g →
  (inFlight g = [] → nextToSchedule st = length allSnapshots) →
  let r := steps parseFileSizeMb allSnapshots st ss in
  Inv r.1 (fold_left record r.2 g)
  ∧ audit allSnapshots g r.2
  ∧ (inFlight (fold_left record r.2 g) = [] →
     nextToSchedule r.1 = length allSnapshots).
Proof.
  induction ss as [|s ss IH]; intros st g Hinv Hdone; simpl; [by split_and!|].
  assert (H1 : let r := step parseFileSizeMb allSnapshots st s in
               Inv r.1 (fold_left record r.2 g)
               ∧ audit allSnapshots g r.2
               ∧ (inFlight (fold_left record r.2 g) = [] →
                  nextToSchedule r.1 = length allSnapshots)).
  { destruct s as [k result|]; simpl; [by apply settle_ok|].
    split_and!; [|done|done]. by destruct Hinv. }
  destruct (step parseFileSizeMb allSnapshots st s) as [st1 es1].
  destruct H1 as (Hi1 & Hf1 & Hd1). specialize (IH st1 _ Hi1 Hd1).
  destruct (steps parseFileSizeMb allSnapshots st1 ss) as [st2 es2].
  destruct IH as (Hi2 & Hf2 & Hd2). simpl in *.
  rewrite fold_left_app, audit_app. by split_and!.
Qed.

(** A bulk run: the final state agrees with the account of its events,
    every start follows the rule, and with nothing in flight the whole
    list has been scheduled. *)
Lemma bulkRun_ok ss :
  let r := bulkRun parseFileSizeMb allSnapshots ss in
  Inv r.1 (ledger r.2)
  ∧ audit allSnapshots opening r.2
  ∧ (inFlight (ledger r.2) = [] → nextToSchedule r.1 = length allSnapshots).
Proof.
  unfold bulkRun.
  destruct (schedulePrefetch_ok initial opening initial_Inv) as (Hi0 & Hf0 & Hd0).
  destruct (Prefetch.schedulePrefetch parseFileSizeMb allSnapshots initial) as [st0 es0].
  destruct (steps_ok ss st0 _ Hi0 Hd0) as (Hi1 & Hf1 & Hd1).
  destruct (steps parseFileSizeMb allSnapshots st0 ss) as [st1 es1].
  simpl in *. unfold ledger. rewrite fold_left_app, audit_app. by split_and!.
Qed.

(** ** The order of the starts *)

(** The scheduler starts the snapshots that follow [nextToSchedule], in the
    order of the list, and moves [nextToSchedule] past them. *)
Lemma scheduleLoop_order rest : ∀ st,
  drop (nextToSchedule st) allSnapshots = rest →
  let r := scheduleLoop rest st in
  take (nextToSchedule st) allSnapshots ++ (starts r.2).*1
  = take (nextToSchedule r.1) allSnapshots
  ∧ Forall (λ p, p.2 = parseFileSizeMb (file_size p.1)) (starts r.2).
Proof.
  induction rest as [|snapshot rest IH]; intros st Hrest; simpl.
  - by rewrite app_nil_r.
  - assert (Hnext : allSnapshots !! nextToSchedule st = Some snapshot).
    { rewrite <- (Nat.add_0_r (nextToSchedule st)), <- lookup_drop, Hrest. done. }
    destruct (negb _); simpl; [by rewrite app_nil_r|].
    match goal with |- context [scheduleLoop rest ?st2] =>
      destruct (IH st2) as [Horder Hsizes];
      [simpl; rewrite (drop_S _ _ _ Hnext) in Hrest; by simplify_eq|];
      destruct (scheduleLoop rest st2) as [st3 es] end.
    simpl in *. split; [|by constructor].
    rewrite <- Horder, (take_S_r _ _ _ Hnext), <- (assoc_L (++)). done.
Qed.

Lemma settle_order st k result :
  let r := settle parseFileSizeMb allSnapshots st k result in
  take (nextToSchedule st) allSnapshots ++ (starts r.2).*1
  = take (nextToSchedule r.1) allSnapshots
  ∧ Forall (λ p, p.2 = parseFileSizeMb (file_size p.1)) (starts r.2).
Proof.
  unfold settle. destruct (pending st !! k) as [[snapshot sizeMb]|]; simpl.
  - match goal with |- context [Prefetch.schedulePrefetch _ _ ?st1] =>
      pose proof (scheduleLoop_order _ st1 eq_refl) as Horder;
      fold (schedulePrefetch st1) in Horder;
      destruct (Prefetch.schedulePrefetch parseFileSizeMb allSnapshots st1) as [st2 es]
    end.
    exact Horder.
  - by rewrite app_nil_r.
Qed.

Lemma steps_order ss : ∀ st,
  let r := steps parseFileSizeMb allSnapshots st ss in
  take (nextToSchedule st) allSnapshots ++ (starts r.2).*1
  = take (nextToSchedule r.1) allSnapshots
  ∧ Forall (λ p, p.2 = parseFileSizeMb (file_size p.1)) (starts r.2).
Proof.
  induction ss as [|s ss IH]; intros st; simpl; [by rewrite app_nil_r|].
  assert (H1 : let r := step parseFileSizeMb allSnapshots st s in
               take (nextToSchedule st) allSnapshots ++ (starts r.2).*1
               = take (nextToSchedule r.1) allSnapshots
               ∧ Forall (λ p, p.2 = parseFileSizeMb (file_size p.1)) (starts r.2)).
  { destruct s as [k result|]; simpl; [apply settle_order|by rewrite app_nil_r]. }
  destruct (step parseFileSizeMb allSnapshots st s) as [st1 es1].
  specialize (IH st1).
  destruct (steps parseFileSizeMb allSnapshots st1 ss) as [st2 es2].
  simpl in *. destruct H1 as [H1 Hs1], IH as [H2 Hs2].
  rewrite starts_app. split; [|by apply Forall_app].
  by rewrite fmap_app, (assoc_L (++)), H1, H2.
Qed.

Lemma bulkRun_order ss :
  let r := bulkRun parseFileSizeMb allSnapshots ss in
  (starts r.2).*1 = take (nextToSchedule r.1) allSnapshots
  ∧ Forall (λ p, p.2 = parseFileSizeMb (file_size p.1)) (starts r.2).
Proof.
  unfold bulkRun.
  pose proof (scheduleLoop_order _ initial eq_refl) as [H0 Hs0].
  fold (schedulePrefetch initial) in H0, Hs0.
  destruct (Prefetch.schedulePrefetch parseFileSizeMb allSnapshots initial) as [st0 es0].
  pose proof (steps_order ss st0) as [H1 Hs1].
  destruct (steps parseFileSizeMb allSnapshots st0 ss) as [st1 es1].
  simpl in *. rewrite starts_app. split; [|by apply Forall_app].
  by rewrite fmap_app, H0, H1.
Qed.

End WithSnapshots.
End PrefetchFacts.

Module PrefetchTheorems.
Import Prefetch PrefetchSpec PrefetchFacts PrefetchExamples.




End PrefetchTheorems.
Module PipelineExtraFacts.
Import Js JsFacts Value Platform Model Async Chunking ChunkingFacts Decrypt Pipeline.
Import Worker Pool PoolSpec PoolFacts AsyncFacts PipelineFacts PipelineSpec ResumeFacts.
Import StatusSpec.

Section WithEnv.
Context (api : Api) (WORKER_COUNT : nat) (chunkEnv : nat → ChunkEnv)
  (schedule : list nat).

(** The persistence path up to the pool phase, for any number of workers. *)
Lemma cacheBody_pool_phase id props (messages : list JsVal) existing s chunks :
  s !! id = Some existing →
  snapshotId existing = id →
  status existing ≠ Completed →
  lookupProp props "messages" = Some (JArr messages) →
  0 ≤ processedMessages existing < Z.of_nat (length messages) →
  (∀ m, messages !! 0%nat = Some m ∨ last messages = Some m →
        m ≠ JNull ∧ m ≠ JUndefined) →
  let k := processedMessages existing in
  let total := Z.of_nat (length messages) in
  let toInsert := drop (Z.to_nat k) messages in
  chunkMessages toInsert
    (calculateOptimalChunkSize (Z.of_nat (length toInsert)) WORKER_COUNT) = Some chunks →
  ∃ m0 m1 saving completed done s1,
    cacheBody api WORKER_COUNT chunkEnv schedule id (JObj props) None s
    = prepend [ESaveMetadata m0; ESaveMetadata m1; EProgress saving]
        (bind (persistChunks api WORKER_COUNT chunkEnv schedule total k chunks
                 (Z.of_nat (length toInsert)))
              (λ _, bind (saveMetadata completed) (λ _, onProgress done)) s1)
    ∧ s1 !! id = Some m1
    ∧ status m1 = Processing
    ∧ snapshotId completed = id
    ∧ status completed = Completed
    ∧ processedMessages completed = total.
Proof.
  intros Hex Hid Hst Hmsgs Hk Hread k total toInsert Hchunks.
  assert (Htotal : 0 < total) by (unfold total; lia).
  destruct existing as [eid epid eqid ecount etotal k0 efirst elast ecreated est eerr].
  cbn [snapshotId status processedMessages] in *. subst eid k.
  unfold cacheBody.
  rewrite bind_run, (ensure_resumable api id s _ Hex Hst).
  cbn [outcome effects storeAfter prepend ret]. rewrite app_nil_r.
  msteps. cbn [getProp lookupChain]. msteps. rewrite Hmsgs.
  cbn [default from_option Datatypes.id withStatus snapshotId projectId queueId
    messageCount totalMessages processedMessages firstMessageDate lastMessageDate
    createdAt status error].
  fold total.
  destruct (Z.eqb_spec total 0) as [|_]; [lia|].
  rewrite Z.min_l by lia.
  assert (Hfirst : ∃ d, getProp (default JUndefined (index messages 0)) "created_at"
                        = Normal d).
  { unfold index. simpl. destruct messages as [|m0 ms]; [simpl in *; lia|].
    simpl. destruct (Hread m0) as [? ?]; [by left|]. by apply getProp_defined. }
  assert (Hlast : ∃ d, getProp (default JUndefined (index messages (total - 1)))
                         "created_at" = Normal d).
  { unfold index. destruct (Z.ltb_spec (total - 1) 0); [lia|].
    destruct (lookup_lt_is_Some_2 messages (Z.to_nat (total - 1))) as [m Hm];
      [unfold total; lia|].
    rewrite Hm. simpl.
    destruct (Hread m) as [? ?]; [|by apply getProp_defined].
    right. rewrite last_lookup. rewrite <- Hm. f_equal. unfold total. lia. }
  destruct Hfirst as [firstDate ->]. destruct Hlast as [lastDate ->].
  msteps.
  assert (HtoInsert : (if 0 <? k0 then sliceFrom messages k0 else messages) = toInsert).
  { unfold toInsert. destruct (Z.ltb_spec 0 k0).
    - rewrite <- (Z2Nat.id k0) at 1 by lia. apply sliceFrom_nat.
    - replace k0 with 0 by lia. done. }
  rewrite HtoInsert.
  assert (Hcount : Z.of_nat (length toInsert) = total - k0).
  { unfold toInsert. rewrite length_drop. unfold total. lia. }
  destruct (Z.eqb_spec (Z.of_nat (length toInsert)) 0) as [|_]; [lia|].
  unfold onProgress at 1. rewrite bind_emit, Hchunks.
  rewrite !prepend_prepend. cbn [app].
  eexists _, _, _, _, _, _. split; [reflexivity|].
  rewrite lookup_insert_eq. by split_and!.
Qed.

Lemma indexed_cons chunk chunks from :
  indexed (chunk :: chunks) from
  = {| taskChunk := chunk; taskIndex := from |} :: indexed chunks (S from).
Proof.
  unfold indexed. rewrite imap_cons. rewrite Nat.add_0_r. f_equal.
  apply imap_ext. intros i x _. simpl. f_equal. lia.
Qed.

(** Without workers nothing is ever posted, and the pool is never drained. *)
Lemma submitAll_no_workers chunks : ∀ st from,
  availableWorkers st = [] → running st = [] →
  ∃ st', submitAll api chunkEnv st chunks from
         = (st', (λ t, ESubmit (taskIndex t) (taskChunk t)) <$> indexed chunks from)
         ∧ availableWorkers st' = [] ∧ running st' = []
         ∧ taskQueue st' = taskQueue st ++ indexed chunks from
         ∧ workerCount st' = workerCount st.
Proof.
  induction chunks as [|chunk chunks IH]; intros st from Ha Hr.
  - exists st. simpl. by rewrite app_nil_r.
  - rewrite indexed_cons. simpl. unfold processChunk.
    rewrite processNextTask_idle by (by right).
    match goal with |- context [submitAll api chunkEnv ?st1 chunks (S from)] =>
      destruct (IH st1 (S from) Ha Hr) as (st' & -> & Ha' & Hr' & Hq' & Hw') end.
    exists st'. simpl in *. split_and!; try done.
    by rewrite Hq', <- (assoc_L (++)).
Qed.

Lemma runPool_no_workers totalMessages insertCount resumeFrom chunks :
  chunks ≠ [] →
  ∃ st, runPool api 0 chunkEnv totalMessages insertCount schedule resumeFrom chunks
        = Stuck st ((λ t, ESubmit (taskIndex t) (taskChunk t)) <$> indexed chunks 0).
Proof.
  intros Hchunks. unfold runPool.
  destruct (submitAll_no_workers chunks (create 0 resumeFrom) 0 eq_refl eq_refl)
    as (st1 & -> & Ha & Hr & Hq & Hw).
  exists st1.
  assert (Hd : drained st1 = false).
  { unfold drained. apply andb_false_iff. right. apply bool_decide_eq_false.
    rewrite Hq. simpl. destruct chunks; [done|]. by rewrite indexed_cons. }
  destruct (pendingActions api chunkEnv st1); simpl; rewrite Hd, Hr;
    by rewrite app_nil_r.
Qed.

Lemma persistChunks_no_workers totalMessages resumeFrom chunks insertCount s :
  chunks ≠ [] →
  persistChunks api 0 chunkEnv schedule totalMessages resumeFrom chunks insertCount s
  = {| outcome := None; storeAfter := s;
       effects := EPoolCreated 0 (length chunks)
                  :: ((λ t, ESubmit (taskIndex t) (taskChunk t)) <$> indexed chunks 0) |}.
Proof.
  intros Hchunks. unfold persistChunks. rewrite bind_emit.
  destruct (runPool_no_workers totalMessages insertCount resumeFrom chunks Hchunks)
    as [st ->].
  reflexivity.
Qed.

End WithEnv.
End PipelineExtraFacts.

Module PipelineExtras.
Import Js JsFacts Value Platform Model Async Chunking ChunkingFacts Decrypt Pipeline.
Import Worker Pool PoolSpec PoolFacts AsyncFacts PipelineFacts PipelineSpec ResumeFacts.
Import RetrySpec RetryFacts StatusSpec PipelineExtraFacts TestPlatform PipelineExamples.

(** When the batch write of every chunk fails three times, the persistence
    path still returns normally and records the snapshot as 'completed' with
    [processedMessages] equal to the number of messages: every verdict the
    workers post is an ERROR, none is a COMPLETE, and the errors stay in the
    pool's log. *)
Theorem exhausted_chunks_are_recorded_as_completed api (WORKER_COUNT : nat)
    (chunkEnv : nat → ChunkEnv) (schedule : list nat)
    (id : string) (props : list (string * JsVal)) (messages : list JsVal)
    (existing : SnapshotMetadata) (s : gmap string SnapshotMetadata) :
  (0 < WORKER_COUNT)%nat →
  s !! id = Some existing →
  snapshotId existing = id →
  status existing ≠ Completed →
  lookupProp props "messages" = Some (JArr messages) →
  0 ≤ processedMessages existing < Z.of_nat (length messages) →
  (∀ m, messages !! 0%nat = Some m ∨ last messages = Some m →
        m ≠ JNull ∧ m ≠ JUndefined) →
  (∀ i, exhausted (chunkEnv i) = true) →
  let r := cacheDecryptedSnapshotMultiWorker api WORKER_COUNT chunkEnv schedule
             id (JObj props) None s in
  outcome r = Some (Normal tt)
  ∧ (∃ final, storeAfter r !! id = Some final
              ∧ status final = Completed
              ∧ processedMessages final = Z.of_nat (length messages))
  ∧ terminalPosts (effects r) ≠ []
  ∧ Forall (λ msg, ∃ i text, msg = WError i text) (terminalPosts (effects r)).
Proof.
  intros Hw Hex Hid Hst Hmsgs Hk Hread Hfail r.
  assert (Hread_messages : getProp (JObj props) "messages" = Normal (JArr messages)).
  { simpl. by rewrite Hmsgs. }
  destruct (cacheBody_resume api WORKER_COUNT chunkEnv schedule id (JObj props) messages
              existing s Hw Hex Hid Hst Hread_messages Hk Hread)
    as (m0 & m1 & final & saving & done & chunks & es & s' & Hbody & Hfinal
        & Hstatus & Hproc & _ & _ & _ & _ & _ & Hcat & _ & _ & Hterm & _ & Hpool).
  subst r. unfold cacheDecryptedSnapshotMultiWorker, finallyTerminate.
  rewrite tryCatch_run, Hbody. cbn [outcome effects storeAfter].
  rewrite !existsb_app. cbn [existsb isPoolCreated orb outcome effects storeAfter].
  assert (Hposts : terminalPosts
                     (([ESaveMetadata m0; ESaveMetadata m1; EProgress saving;
                        EPoolCreated WORKER_COUNT (length chunks)]
                       ++ es ++ [ESaveMetadata final; EProgress done])
                      ++ [EPoolTerminated])
                   = terminalPosts es).
  { unfold terminalPosts. rewrite !omap_app. csimpl. by rewrite !app_nil_r. }
  rewrite Hposts.
  assert (Hall : Forall (λ msg, ∃ i text, msg = WError i text)
                   (map (verdict api chunkEnv) (indexed chunks 0))).
  { apply Forall_forall. intros msg (t & -> & _)%list_elem_of_fmap.
    pose proof (verdict_exhausted api chunkEnv t) as Hv. simpl in Hv.
    rewrite Hfail in Hv. destruct Hv as (n & e & _ & ->). eauto. }
  split_and!.
  - done.
  - by exists final.
  - intros Hnil. rewrite Hnil in Hterm. symmetry in Hterm.
    apply Permutation_nil_r in Hterm. apply fmap_nil_inv in Hterm.
    destruct chunks as [|chunk chunks]; [|by rewrite indexed_cons in Hterm].
    simpl in Hcat. symmetry in Hcat. apply drop_nil_inv in Hcat. lia.
  - by rewrite Hterm.
Qed.

Lemma exhausted_chunks_are_recorded_as_completed_witness :
  let r := cacheDecryptedSnapshotMultiWorker testApi 2 (λ _, broken) []
             "snap" (sampleData threeMessages) None
             (sampleStore (sampleMetadata Processing 0 None)) in
  outcome r = Some (Normal tt)
  ∧ statusAt "snap" (storeAfter r) = Some Completed
  ∧ terminalPosts (effects r) = [WError 0 "QuotaExceededError"].
Proof.
  destruct (exhausted_chunks_are_recorded_as_completed testApi 2 (λ _, broken) []
              "snap" [("projectId", JStr "p1"); ("queueId", JStr "q1");
                      ("messages", JArr threeMessages)]
              threeMessages (sampleMetadata Processing 0 None)
              (sampleStore (sampleMetadata Processing 0 None)))
    as (Hout & (final & Hfinal & Hst & _) & _ & _).
  - lia.
  - reflexivity.
  - reflexivity.
  - discriminate.
  - reflexivity.
  - simpl. lia.
  - intros m [Hm|Hm]; simplify_eq/=; split; discriminate.
  - reflexivity.
  - split_and!; [exact Hout| |vm_compute; reflexivity].
    unfold statusAt. unfold sampleData. rewrite Hfinal. simpl. by rewrite Hst.
Defined.

(** When the decrypted data is an object whose [messages] is not an array
    (or is absent), the persistence path throws
    [Error('Invalid snapshot format: missing messages array')]: the record of
    the snapshot ends with status 'error' and this text, the last progress
    event is of stage 'error' with this text, no worker pool is created and
    no chunk is submitted. *)
Theorem missing_messages_array_is_an_error api (WORKER_COUNT : nat)
    (chunkEnv : nat → ChunkEnv) (schedule : list nat)
    (id : string) (decryptedData messages' : JsVal)
    (s : gmap string SnapshotMetadata) :
  keyed id s →
  statusAt id s ≠ Some Completed →
  getProp decryptedData "messages" = Normal messages' →
  isArray messages' = false →
  let text := "Invalid snapshot format: missing messages array" in
  let r := cacheDecryptedSnapshotMultiWorker api WORKER_COUNT chunkEnv schedule
             id decryptedData None s in
  outcome r = Some (Throw (Error text))
  ∧ (∃ m, storeAfter r !! id = Some m ∧ status m = Errored ∧ error m = Some text)
  ∧ (∃ p, last (effects r) = Some (EProgress p)
          ∧ stage p = StError ∧ progressError p = Some text)
  ∧ existsb isPoolCreated (effects r) = false
  ∧ submittedTasks (effects r) = [].
Proof.
  intros Hkey Hst Hmsgs Harr text r.
  assert (Hensure : ∃ m0,
    ensureProcessingMetadata api id s
    = prepend [ESaveMetadata m0] (ret (m0, false) (<[id := m0]> s))
    ∧ snapshotId m0 = id).
  { destruct (s !! id) as [m|] eqn:Hm.
    - exists (withStatus m Processing None).
      rewrite (ensure_resumable api id s m Hm).
      + rewrite (Hkey m Hm). split; [done|]. simpl. by apply Hkey.
      + intros Hc. apply Hst. unfold statusAt. by rewrite Hm, <- Hc.
    - eexists. unfold ensureProcessingMetadata.
      rewrite bind_getMetadata, Hm, bind_saveMetadata. done. }
  destruct Hensure as (m0 & Hensure & Hid).
  assert (Hbody :
    cacheBody api WORKER_COUNT chunkEnv schedule id decryptedData None s
    = {| outcome := Some (Throw (Error text));
         storeAfter := <[id := m0]> s;
         effects := [ESaveMetadata m0] |}).
  { unfold cacheBody. rewrite bind_run, Hensure.
    cbn [outcome effects storeAfter prepend ret]. rewrite app_nil_r.
    assert (Hprops : ∀ name, ∃ v, getProp decryptedData name = Normal v).
    { intros name. destruct decryptedData; simplify_eq/=; eauto. }
    destruct (Hprops "projectId") as [? ->], (Hprops "queueId") as [? ->],
      (Hprops "messageCount") as [? ->].
    rewrite Hmsgs. msteps. by destruct messages'. }
  subst r. unfold cacheDecryptedSnapshotMultiWorker.
  assert (Hrun :
    tryCatch (cacheBody api WORKER_COUNT chunkEnv schedule id decryptedData None)
      (recordFailure api id) s
    = {| outcome := Some (Throw (Error text));
         storeAfter := <[id := withStatus m0 Errored (Some text)]> (<[id := m0]> s);
         effects := [ESaveMetadata m0;
                     ESaveMetadata (withStatus m0 Errored (Some text));
                     EProgress {| stage := StError; progress := 0;
                                  message := TxtFailed;
                                  progressProcessed := None;
                                  progressTotal := None;
                                  progressError := Some text;
                                  insertedMessages := None |}] |}).
  { rewrite tryCatch_run, Hbody. cbn [outcome effects storeAfter].
    unfold recordFailure. rewrite bind_getMetadata, lookup_insert_eq.
    msteps. unfold onProgress. msteps. cbn [withStatus snapshotId]. rewrite Hid.
    reflexivity. }
  rewrite finallyTerminate_no_pool; rewrite Hrun; [|done].
  cbn [outcome effects storeAfter]. split_and!.
  - done.
  - eexists. rewrite lookup_insert_eq. done.
  - eexists. split; [reflexivity|done].
  - done.
  - done.
Qed.

Lemma missing_messages_array_is_an_error_witness :
  outcome (cacheDecryptedSnapshotMultiWorker testApi 2 (λ _, reliable) []
             "snap" (JObj [("projectId", JStr "p1")]) None ∅)
  = Some (Throw (Error "Invalid snapshot format: missing messages array")).
Proof.
  apply (missing_messages_array_is_an_error testApi 2 (λ _, reliable) []
           "snap" (JObj [("projectId", JStr "p1")]) JUndefined ∅).
  - intros m Hm. by rewrite lookup_empty in Hm.
  - discriminate.
  - reflexivity.
  - reflexivity.
Defined.

(** With a worker count of zero and messages left to insert, the persistence
    path never settles: every chunk is queued, none is posted to a worker,
    the promise stays pending, the pool is not terminated, and the record of
    the snapshot stays at 'processing'. *)
Theorem no_workers_never_settles api (chunkEnv : nat → ChunkEnv) (schedule : list nat)
    (id : string) (props : list (string * JsVal)) (messages : list JsVal)
    (existing : SnapshotMetadata) (s : gmap string SnapshotMetadata) :
  s !! id = Some existing →
  snapshotId existing = id →
  status existing ≠ Completed →
  lookupProp props "messages" = Some (JArr messages) →
  0 ≤ processedMessages existing < Z.of_nat (length messages) →
  (∀ m, messages !! 0%nat = Some m ∨ last messages = Some m →
        m ≠ JNull ∧ m ≠ JUndefined) →
  let r := cacheDecryptedSnapshotMultiWorker api 0 chunkEnv schedule
             id (JObj props) None s in
  outcome r = None
  ∧ statusAt id (storeAfter r) = Some Processing
  ∧ submittedTasks (effects r) ≠ []
  ∧ postedTasks (effects r) = []
  ∧ EPoolTerminated ∉ effects r.
Proof.
  intros Hex Hid Hst Hmsgs Hk Hread r.
  set (toInsert := drop (Z.to_nat (processedMessages existing)) messages).
  assert (Hne : toInsert ≠ []).
  { unfold toInsert. intros Hnil. apply drop_nil_inv in Hnil. lia. }
  assert (Hchunks : ∃ chunks,
    chunkMessages toInsert (calculateOptimalChunkSize (Z.of_nat (length toInsert)) 0)
    = Some chunks ∧ chunks ≠ []).
  { unfold calculateOptimalChunkSize. simpl.
    assert (Hc : ∀ c, 0 < c → ∃ chunks,
      chunkMessages toInsert (Finite c) = Some chunks ∧ chunks ≠ []).
    { intros c Hc. destruct (chunkMessages_concat toInsert c Hc) as (chunks & Hr & Hcat).
      exists chunks. split; [done|]. intros ->. by apply Hne. }
    repeat case_match; try (apply Hc; done).
    simpl. destruct toInsert; [done|]. simpl. eauto. }
  destruct Hchunks as (chunks & Hchunks & Hnonempty).
  destruct (cacheBody_pool_phase api 0 chunkEnv schedule id props messages existing s
              chunks Hex Hid Hst Hmsgs Hk Hread Hchunks)
    as (m0 & m1 & saving & completed & done & s1 & Hbody & Hs1 & Hst1 & _).
  assert (Hrun :
    cacheBody api 0 chunkEnv schedule id (JObj props) None s
    = {| outcome := None; storeAfter := s1;
         effects := [ESaveMetadata m0; ESaveMetadata m1; EProgress saving;
                     EPoolCreated 0 (length chunks)]
                    ++ ((λ t, ESubmit (taskIndex t) (taskChunk t)) <$> indexed chunks 0) |}).
  { rewrite Hbody, bind_run.
    rewrite (persistChunks_no_workers api chunkEnv schedule) by done.
    reflexivity. }
  subst r. unfold cacheDecryptedSnapshotMultiWorker, finallyTerminate.
  rewrite tryCatch_run, Hrun. cbn [outcome effects storeAfter].
  destruct chunks as [|chunk chunks]; [done|]. rewrite indexed_cons.
  split_and!.
  - done.
  - unfold statusAt. by rewrite Hs1, <- Hst1.
  - done.
  - unfold postedTasks. rewrite omap_app. csimpl.
    clear. generalize (indexed chunks 1). intros l.
    induction l as [|t l IH]; [done|]. by csimpl.
  - intros Hin. apply elem_of_app in Hin as [Hin|Hin].
    + repeat (apply elem_of_cons in Hin as [Hin|Hin]; [done|]).
      by apply elem_of_nil in Hin.
    + apply list_elem_of_fmap in Hin as (t & Ht & _). done.
Qed.

Lemma no_workers_never_settles_witness :
  outcome (cacheDecryptedSnapshotMultiWorker testApi 0 (λ _, reliable) []
             "snap" (sampleData threeMessages) None
             (sampleStore (sampleMetadata Processing 1 None)))
  = None.
Proof.
  apply (no_workers_never_settles testApi (λ _, reliable) [] "snap"
           [("projectId", JStr "p1"); ("queueId", JStr "q1");
            ("messages", JArr threeMessages)]
           threeMessages (sampleMetadata Processing 1 None)
           (sampleStore (sampleMetadata Processing 1 None))).
  - reflexivity.
  - reflexivity.
  - discriminate.
  - reflexivity.
  - simpl. lia.
  - intros m [Hm|Hm]; simplify_eq/=; split; discriminate.
Defined.

End PipelineExtras.
Module PoolProgressFacts.
Import Js Value Platform Model Async Worker Pool PoolSpec PoolProgressSpec.

Lemma savedSoFar_insert (cp : gmap nat (Z * Z)) i v :
  savedSoFar (<[i := v]> cp)
  = savedSoFar cp - match cp !! i with Some prev => prev.1 | None => 0 end + v.1.
Proof.
  unfold savedSoFar.
  destruct (cp !! i) as [prev|] eqn:Hi.
  - assert (H1 : map_fold (λ _ (entry : Z * Z) acc, entry.1 + acc) 0 cp
                 = prev.1 + map_fold (λ _ (entry : Z * Z) acc, entry.1 + acc) 0
                              (delete i cp)).
    { rewrite <- (insert_delete_id cp i prev Hi) at 1.
      rewrite map_fold_insert_L; [done|intros; lia|apply lookup_delete_eq]. }
    assert (H2 : map_fold (λ _ (entry : Z * Z) acc, entry.1 + acc) 0 (<[i := v]> cp)
                 = v.1 + map_fold (λ _ (entry : Z * Z) acc, entry.1 + acc) 0
                           (delete i cp)).
    { rewrite <- insert_delete_eq.
      rewrite map_fold_insert_L; [done|intros; lia|apply lookup_delete_eq]. }
    lia.
  - rewrite map_fold_insert_L; [lia|intros; lia|done].
Qed.

Section WithEnv.
Context (api : Api) (WORKER_COUNT : nat) (chunkEnv : nat → ChunkEnv).
Context (totalMessages insertCount : Z) (resumeFrom : Z).

Local Abbreviation accounted := (PoolProgressSpec.accounted resumeFrom).

Lemma processNextTask_accounted st :
  accounted st → accounted (processNextTask api chunkEnv st).1.
Proof.
  unfold processNextTask, PoolProgressSpec.accounted.
  by destruct (taskQueue st), (availableWorkers st).
Qed.

Lemma processChunk_accounted st chunk i :
  accounted st → accounted (processChunk api chunkEnv st chunk i).1.
Proof.
  intros H. unfold processChunk.
  match goal with |- context [processNextTask api chunkEnv ?st1] =>
    pose proof (processNextTask_accounted st1 H) as H1;
    destruct (processNextTask api chunkEnv st1) end.
  exact H1.
Qed.

Lemma submitAll_accounted chunks : ∀ st i,
  accounted st → accounted (submitAll api chunkEnv st chunks i).1.
Proof.
  induction chunks as [|chunk chunks IH]; intros st i H; [done|].
  simpl. pose proof (processChunk_accounted st chunk i H) as H1.
  destruct (processChunk api chunkEnv st chunk i) as [st1 es1].
  specialize (IH st1 (S i) H1).
  by destruct (submitAll api chunkEnv st1 chunks (S i)).
Qed.

Lemma handleWorkerMessage_accounted st w msg :
  accounted st →
  accounted (handleWorkerMessage api WORKER_COUNT chunkEnv totalMessages insertCount
               st w msg).1.
Proof.
  intros H. destruct msg as [i saved total|i saved|i text]; simpl.
  - unfold PoolProgressSpec.accounted in *. simpl. rewrite savedSoFar_insert, H. simpl.
    destruct (chunkProgress st !! i); lia.
  - by apply processNextTask_accounted.
  - by apply processNextTask_accounted.
Qed.

Lemma turn_accounted st choice :
  accounted st →
  accounted (turn api WORKER_COUNT chunkEnv totalMessages insertCount st choice).1.
Proof.
  intros H. unfold turn.
  destruct (running st !! _) as [[w [|act rest]]|]; [done| |done].
  match goal with
  | |- context [match act with
                | ActPost msg => handleWorkerMessage _ _ _ _ _ ?st1 w msg
                | _ => _ end] =>
      pose proof (λ msg, handleWorkerMessage_accounted st1 w msg H) as H1;
      destruct act as [k ms o|d|msg]; [done|done|];
      specialize (H1 msg);
      destruct (handleWorkerMessage api WORKER_COUNT chunkEnv totalMessages
                  insertCount st1 w msg)
  end.
  exact H1.
Qed.

Lemma wait_accounted fuel : ∀ sched st,
  accounted st →
  match wait api WORKER_COUNT chunkEnv totalMessages insertCount fuel sched st with
  | Drained st' _ | Stuck st' _ => accounted st'
  | OutOfFuel => True
  end.
Proof.
  induction fuel as [|fuel IH]; intros sched st H; simpl.
  - destruct (drained st); [done|]. by destruct (running st).
  - destruct (drained st); [done|]. destruct (running st) eqn:Hr; [done|].
    pose proof (turn_accounted st (hd 0%nat sched) H) as H1.
    destruct (turn api WORKER_COUNT chunkEnv totalMessages insertCount st (hd 0%nat sched))
      as [st1 es1].
    specialize (IH (tl sched) st1 H1).
    by destruct (wait api WORKER_COUNT chunkEnv totalMessages insertCount fuel
                   (tl sched) st1).
Qed.

End WithEnv.
End PoolProgressFacts.

Module PoolTrackingFacts.
Import Js Value Platform Model Async Worker Pool PoolSpec PoolProgressSpec.

Lemma progressPosts_app es1 es2 :
  progressPosts (es1 ++ es2) = progressPosts es1 ++ progressPosts es2.
Proof. apply omap_app. Qed.

Lemma progressCounts_app es1 es2 :
  progressCounts (es1 ++ es2) = progressCounts es1 ++ progressCounts es2.
Proof. apply omap_app. Qed.

Lemma lastReported_snoc posts post :
  lastReported (posts ++ [post]) = <[post.1 := post.2]> (lastReported posts).
Proof. unfold lastReported. by rewrite fold_left_app. Qed.

Lemma sum_insert (last : gmap nat Z) i v :
  map_fold (λ _ (saved : Z) acc, saved + acc) 0 (<[i := v]> last)
  = map_fold (λ _ (saved : Z) acc, saved + acc) 0 last - default 0 (last !! i) + v.
Proof.
  destruct (last !! i) as [prev|] eqn:Hi; simpl.
  - assert (H1 : map_fold (λ _ (saved : Z) acc, saved + acc) 0 last
                 = prev + map_fold (λ _ (saved : Z) acc, saved + acc) 0 (delete i last)).
    { rewrite <- (insert_delete_id last i prev Hi) at 1.
      rewrite map_fold_insert_L; [done|intros; lia|apply lookup_delete_eq]. }
    assert (H2 : map_fold (λ _ (saved : Z) acc, saved + acc) 0 (<[i := v]> last)
                 = v + map_fold (λ _ (saved : Z) acc, saved + acc) 0 (delete i last)).
    { rewrite <- insert_delete_eq.
      rewrite map_fold_insert_L; [done|intros; lia|apply lookup_delete_eq]. }
    lia.
  - rewrite map_fold_insert_L; [lia|intros; lia|done].
Qed.

Lemma reportedTotal_snoc posts post :
  reportedTotal (posts ++ [post])
  = reportedTotal posts - default 0 (lastReported posts !! post.1) + post.2.
Proof. unfold reportedTotal. by rewrite lastReported_snoc, sum_insert. Qed.

Lemma runningCounts_snoc resumeFrom posts post :
  runningCounts resumeFrom (posts ++ [post])
  = runningCounts resumeFrom posts ++ [resumeFrom + reportedTotal (posts ++ [post])].
Proof.
  unfold runningCounts. rewrite length_app. simpl.
  rewrite Nat.add_1_r, seq_S, fmap_app. simpl. f_equal.
  - apply list_fmap_ext. intros k j [-> Hj]%lookup_seq. simpl.
    by rewrite take_app_le by lia.
  - by rewrite firstn_all2 by (rewrite length_app; simpl; lia).
Qed.

Section WithEnv.
Context (api : Api) (WORKER_COUNT : nat) (chunkEnv : nat → ChunkEnv).
Context (totalMessages insertCount : Z) (resumeFrom : Z).

Local Abbreviation tracked := (PoolProgressSpec.tracked resumeFrom).

(** A step that posts no PROGRESS message, calls no progress callback and
    leaves the progress state alone. *)
Lemma tracked_quiet st st' es es' :
  tracked st es →
  chunkProgress st' = chunkProgress st → totalProcessed st' = totalProcessed st →
  progressPosts es' = [] → progressCounts es' = [] →
  tracked st' (es ++ es').
Proof.
  intros [Hlast Htotal Hcounts] Hcp Htp Hposts Hcalls.
  split; rewrite ?progressPosts_app, ?progressCounts_app, ?Hposts, ?Hcalls, ?app_nil_r;
    congruence.
Qed.

Lemma processNextTask_tracked st es :
  tracked st es →
  tracked (processNextTask api chunkEnv st).1 (es ++ (processNextTask api chunkEnv st).2).
Proof.
  intros H. apply (tracked_quiet st); [done|..];
    unfold processNextTask; by destruct (taskQueue st), (availableWorkers st).
Qed.

Lemma processChunk_tracked st es chunk i :
  tracked st es →
  tracked (processChunk api chunkEnv st chunk i).1
          (es ++ (processChunk api chunkEnv st chunk i).2).
Proof.
  intros H. unfold processChunk.
  match goal with |- context [processNextTask api chunkEnv ?st1] =>
    assert (H1 : tracked st1 (es ++ [ESubmit i chunk]))
      by (by apply (tracked_quiet st));
    pose proof (processNextTask_tracked st1 _ H1) as H2;
    destruct (processNextTask api chunkEnv st1) as [st2 es2] end.
  simpl in *. by rewrite <- (assoc_L (++)) in H2.
Qed.

Lemma submitAll_tracked chunks : ∀ st es i,
  tracked st es →
  tracked (submitAll api chunkEnv st chunks i).1
          (es ++ (submitAll api chunkEnv st chunks i).2).
Proof.
  induction chunks as [|chunk chunks IH]; intros st es i H; simpl.
  - by rewrite app_nil_r.
  - pose proof (processChunk_tracked st es chunk i H) as H1.
    destruct (processChunk api chunkEnv st chunk i) as [st1 es1].
    specialize (IH st1 _ (S i) H1).
    destruct (submitAll api chunkEnv st1 chunks (S i)) as [st2 es2].
    simpl in *. by rewrite (assoc_L (++)).
Qed.

(** A PROGRESS message: the callback replaces the count the chunk reported
    before and is handed the new total. *)
Lemma updateProgress_tracked st es w i saved total :
  tracked st es →
  tracked (updateProgress WORKER_COUNT totalMessages insertCount st i saved total).1
          (es ++ EWorker w (ActPost (WProgress i saved total))
              :: (updateProgress WORKER_COUNT totalMessages insertCount st i saved total).2).
Proof.
  intros [Hlast Htotal Hcounts].
  assert (Hprev : match chunkProgress st !! i with
                  | Some prev => prev.1
                  | None => 0
                  end = default 0 (lastReported (progressPosts es) !! i)).
  { rewrite <- Hlast, lookup_fmap. by destruct (chunkProgress st !! i). }
  assert (Hposts : progressPosts
                     (es ++ EWorker w (ActPost (WProgress i saved total))
                         :: (updateProgress WORKER_COUNT totalMessages insertCount
                               st i saved total).2)
                   = progressPosts es ++ [(i, saved)]).
  { by rewrite progressPosts_app. }
  assert (Hnew : totalProcessed st
                 + (saved - match chunkProgress st !! i with
                            | Some prev => prev.1
                            | None => 0
                            end)
                 = resumeFrom + reportedTotal (progressPosts es ++ [(i, saved)])).
  { rewrite reportedTotal_snoc, Hprev, Htotal. simpl. lia. }
  split; rewrite Hposts.
  - simpl. by rewrite fmap_insert, Hlast, lastReported_snoc.
  - exact Hnew.
  - rewrite progressCounts_app, runningCounts_snoc, Hcounts. simpl.
    by rewrite Hnew.
Qed.

Lemma turn_tracked st es choice :
  tracked st es →
  tracked (turn api WORKER_COUNT chunkEnv totalMessages insertCount st choice).1
          (es ++ (turn api WORKER_COUNT chunkEnv totalMessages insertCount st choice).2).
Proof.
  intros H. unfold turn.
  destruct (running st !! _) as [[w [|act rest]]|].
  - by apply (tracked_quiet st).
  - match goal with
    | |- context [match act with
                  | ActPost msg => handleWorkerMessage _ _ _ _ _ ?st1 w msg
                  | _ => _ end] =>
        assert (H1 : tracked st1 es) by (by destruct H);
        destruct act as [k ms o|d|[i saved total|i saved|i text]];
        [simpl|simpl| |simpl|simpl]
    end.
    + by apply (tracked_quiet st).
    + by apply (tracked_quiet st).
    + cbn [handleWorkerMessage].
      match goal with |- context [updateProgress _ _ _ ?st1 i saved total] =>
        pose proof (updateProgress_tracked st1 es w i saved total H1) as H2;
        destruct (updateProgress WORKER_COUNT totalMessages insertCount st1 i saved total)
          as [st2 es2] end.
      exact H2.
    + match goal with |- context [processNextTask api chunkEnv ?st2] =>
        assert (H2 : tracked st2 (es ++ [EWorker w (ActPost (WComplete i saved))]))
          by (by apply (tracked_quiet st));
        pose proof (processNextTask_tracked st2 _ H2) as H3;
        destruct (processNextTask api chunkEnv st2) as [st3 es3] end.
      simpl in *. by rewrite <- (assoc_L (++)) in H3.
    + match goal with |- context [processNextTask api chunkEnv ?st2] =>
        assert (H2 : tracked st2 (es ++ [EWorker w (ActPost (WError i text))]))
          by (by apply (tracked_quiet st));
        pose proof (processNextTask_tracked st2 _ H2) as H3;
        destruct (processNextTask api chunkEnv st2) as [st3 es3] end.
      simpl in *. by rewrite <- (assoc_L (++)) in H3.
  - simpl. by rewrite app_nil_r.
Qed.

Lemma wait_tracked fuel : ∀ sched st es,
  tracked st es →
  match wait api WORKER_COUNT chunkEnv totalMessages insertCount fuel sched st with
  | Drained st' es' | Stuck st' es' => tracked st' (es ++ es')
  | OutOfFuel => True
  end.
Proof.
  induction fuel as [|fuel IH]; intros sched st es H; simpl.
  - destruct (drained st); [by rewrite app_nil_r|].
    destruct (running st); [by rewrite app_nil_r|done].
  - destruct (drained st); [by rewrite app_nil_r|].
    destruct (running st) eqn:Hr; [by rewrite app_nil_r|].
    pose proof (turn_tracked st es (hd 0%nat sched) H) as H1.
    destruct (turn api WORKER_COUNT chunkEnv totalMessages insertCount st (hd 0%nat sched))
      as [st1 es1].
    specialize (IH (tl sched) st1 _ H1).
    destruct (wait api WORKER_COUNT chunkEnv totalMessages insertCount fuel
                (tl sched) st1); simpl in *; [| |done]; by rewrite (assoc_L (++)).
Qed.

Lemma runPool_tracked schedule chunks :
  match runPool api WORKER_COUNT chunkEnv totalMessages insertCount schedule
          resumeFrom chunks with
  | Drained st es | Stuck st es => tracked st es
  | OutOfFuel => True
  end.
Proof.
  unfold runPool.
  assert (H0 : tracked (create WORKER_COUNT resumeFrom) []).
  { split; simpl.
    - by rewrite fmap_empty.
    - unfold reportedTotal, lastReported. simpl. rewrite map_fold_empty. lia.
    - done. }
  pose proof (submitAll_tracked chunks _ _ 0 H0) as H1.
  destruct (submitAll api chunkEnv (create WORKER_COUNT resumeFrom) chunks 0)
    as [st1 es1].
  pose proof (wait_tracked (pendingActions api chunkEnv st1) schedule st1 _ H1) as H2.
  by destruct (wait api WORKER_COUNT chunkEnv totalMessages insertCount _ schedule st1).
Qed.

End WithEnv.
End PoolTrackingFacts.

Module PoolExtras.
Import Js Value Platform Model Async Worker Pool PoolSpec PoolFacts WorkerFacts.
Import PoolProgressSpec PoolProgressFacts PoolTrackingFacts.
Import RetrySpec RetryFacts WorkerCount.
Import TestPlatform PipelineExamples.

(** With at least one worker the pool drains with its progress counter equal
    to the resume point plus, for every chunk that posted a PROGRESS
    message, the count of the last such message of the chunk: a count
    reported earlier, by this or by a failed attempt, is replaced and never
    added twice.  The pool's table of chunk counts holds exactly these last
    counts, and the progress callback is handed, after each PROGRESS
    message, the resume point plus the last counts up to that message. *)
Theorem progress_counter_is_accounted api (WORKER_COUNT : nat)
    (chunkEnv : nat → ChunkEnv) (totalMessages insertCount : Z)
    (schedule : list nat) (resumeFrom : Z) (chunks : list (list JsVal)) :
  (0 < WORKER_COUNT)%nat →
  ∃ st es,
    runPool api WORKER_COUNT chunkEnv totalMessages insertCount schedule
      resumeFrom chunks = Drained st es
    ∧ totalProcessed st = resumeFrom + savedSoFar (chunkProgress st)
    ∧ (λ entry : Z * Z, entry.1) <$> chunkProgress st
      = lastReported (progressPosts es)
    ∧ totalProcessed st = resumeFrom + reportedTotal (progressPosts es)
    ∧ progressCounts es = runningCounts resumeFrom (progressPosts es).
Proof.
  intros Hw.
  destruct (runPool_ok api WORKER_COUNT chunkEnv totalMessages insertCount schedule
              resumeFrom chunks Hw) as (st & es & Hrun & _).
  exists st, es. split; [done|].
  pose proof (runPool_tracked api WORKER_COUNT chunkEnv totalMessages insertCount
                resumeFrom schedule chunks) as Htracked.
  rewrite Hrun in Htracked. destruct Htracked as [Hlast Htotal Hcounts].
  split_and!; [|done..].
  unfold runPool in Hrun.
  pose proof (submitAll_accounted api chunkEnv resumeFrom chunks
                (create WORKER_COUNT resumeFrom) 0) as H1.
  destruct (submitAll api chunkEnv (create WORKER_COUNT resumeFrom) chunks 0)
    as [st1 es1].
  pose proof (wait_accounted api WORKER_COUNT chunkEnv totalMessages insertCount
                resumeFrom (pendingActions api chunkEnv st1) schedule st1) as H2.
  destruct (wait api WORKER_COUNT chunkEnv totalMessages insertCount _ schedule st1);
    simplify_eq.
  apply H2, H1. unfold PoolProgressSpec.accounted. simpl.
  unfold savedSoFar. by rewrite map_fold_empty, Z.add_0_r.
Qed.

Lemma progress_counter_is_accounted_witness :
  ∃ st es,
    runPool testApi 2 secondChunkBroken 3 3 [] 0
      [[sampleMessage "mon"]; [sampleMessage "tue"]; [sampleMessage "wed"]]
    = Drained st es
    ∧ totalProcessed st = 2
    ∧ reportedTotal (progressPosts es) = 2
    ∧ progressCounts es = runningCounts 0 (progressPosts es)
    ∧ progressPosts es ≠ [].
Proof.
  destruct (progress_counter_is_accounted testApi 2 secondChunkBroken 3 3 [] 0
              [[sampleMessage "mon"]; [sampleMessage "tue"]; [sampleMessage "wed"]])
    as (st & es & Hrun & _ & _ & Htotal & Hcounts); [lia|].
  exists st, es. split; [exact Hrun|].
  assert (Hst : totalProcessed st = 2 ∧ progressPosts es ≠ []).
  { vm_compute in Hrun. injection Hrun as <- <-. split; [reflexivity|discriminate]. }
  destruct Hst as [Hst Hposts].
  split_and!; [exact Hst|lia|exact Hcounts|exact Hposts].
Defined.

(** The worker count chosen by [getOptimalWorkerCount] from the initial
    configuration lies between 2 and 8, whatever the browser reports, so a
    pool of that many workers posts every chunk and drains. *)
Theorem optimal_worker_count_drains_the_pool api (chunkEnv : nat → ChunkEnv)
    (totalMessages insertCount : Z) (schedule : list nat) (resumeFrom : Z)
    (chunks : list (list JsVal)) (hardwareConcurrency : option Z) :
  let workers := getOptimalWorkerCount WORKER_COUNT_DEFAULT hardwareConcurrency in
  2 ≤ workers ≤ 8
  ∧ ∃ st es,
      runPool api (Z.to_nat workers) chunkEnv totalMessages insertCount schedule
        resumeFrom chunks = Drained st es
      ∧ postedTasks es = indexed chunks 0.
Proof.
  intros workers.
  assert (Hrange : 2 ≤ workers ≤ 8).
  { unfold workers, getOptimalWorkerCount, WORKER_COUNT_DEFAULT.
    destruct hardwareConcurrency as [cores|]; [|lia].
    destruct (cores =? 0); lia. }
  split; [done|].
  destruct (runPool_ok api (Z.to_nat workers) chunkEnv totalMessages insertCount
              schedule resumeFrom chunks) as (st & es & Hrun & _ & Hposted & _); [lia|].
  by exists st, es.
Qed.

End PoolExtras.
Module WorkerExtraFacts.
Import Js Value Platform Model Async Worker Pool PoolSpec PoolProgressSpec.

(** The last progress callback of a run of successful puts that reaches the
    total is the total. *)
Lemma last_putCallbacks n : ∀ completed total,
  (0 < n)%nat → completed + Z.of_nat n = total →
  last (putCallbacks n completed total) = Some total.
Proof.
  induction n as [|n IH]; intros completed total Hn Hsum; [lia|].
  simpl. destruct n as [|n].
  - simpl. rewrite app_nil_r.
    replace (completed + 1 =? total) with true by (symmetry; apply Z.eqb_eq; lia).
    rewrite orb_true_r. simpl. f_equal. lia.
  - rewrite last_app, (IH (completed + 1) total); [done|lia|lia].
Qed.

(** After an attempt that commits, [savedCount] is the number of puts that
    succeeded, provided it was zero before an attempt on an empty chunk. *)
Lemma lastSaved_committed messages succeeded savedCount :
  (messages = [] → savedCount = 0) →
  lastSaved savedCount (saveMessagesBatch messages (Committed succeeded)).1
  = Z.of_nat (Nat.min succeeded (length messages)).
Proof.
  intros Hempty. unfold saveMessagesBatch, lastSaved. cbn [fst].
  set (completed := Nat.min succeeded (length messages)).
  destruct (Z.eqb_spec (Z.of_nat completed) (Z.of_nat (length messages))) as [Heq|Hne].
  - rewrite app_nil_r. destruct completed as [|c] eqn:Hc.
    + simpl. rewrite Hempty; [done|]. apply length_zero_iff_nil. lia.
    + rewrite (last_putCallbacks (S c) 0 (Z.of_nat (length messages))); [|lia|lia].
      simpl. lia.
  - rewrite last_snoc. done.
Qed.

(** A failed attempt on an empty chunk leaves [savedCount] alone. *)
Lemma lastSaved_failed_empty succeeded e savedCount :
  lastSaved savedCount (saveMessagesBatch [] (Failed succeeded e)).1 = savedCount.
Proof. unfold saveMessagesBatch, lastSaved. simpl. by rewrite Nat.min_0_r. Qed.

End WorkerExtraFacts.

Module WorkerExtras.
Import Js Value Platform Model Async Worker Pool PoolSpec PoolProgressSpec.
Import WorkerExtraFacts TestPlatform PipelineExamples.

(** When one of the three attempts on a chunk commits, the worker's verdict
    is COMPLETE for this chunk, and the count it carries is the number of
    puts that succeeded in the attempt that committed (at most the length of
    the chunk): what earlier, failed attempts had saved is not added. *)
Theorem complete_reports_the_committing_attempt api (chunkEnv : nat → ChunkEnv)
    (t : Task) (puts : nat) :
  committedPuts (chunkEnv (taskIndex t)) = Some puts →
  verdict api chunkEnv t
  = WComplete (taskIndex t) (Z.of_nat (Nat.min puts (length (taskChunk t)))).
Proof.
  unfold committedPuts, verdict, saveMessagesBatchWithRetry, MAX_RETRIES.
  cbn [retryLoop]. intros Hputs.
  set (env := chunkEnv (taskIndex t)) in *.
  set (chunk := taskChunk t) in *.
  pose proof (lastSaved_committed chunk) as Hlast.
  destruct (attemptOutcome env 1) as [n1|n1 e1] eqn:H1.
  { simplify_eq. specialize (Hlast puts 0 (λ _, eq_refl)).
    destruct (saveMessagesBatch chunk (Committed puts)) as [c1 s1] eqn:E1.
    unfold saveMessagesBatch in E1. simplify_eq/=. by rewrite Hlast. }
  destruct (saveMessagesBatch chunk (Failed n1 e1)) as [c1 s1] eqn:E1.
  assert (Hs1 : s1 = Throw e1) by (unfold saveMessagesBatch in E1; by simplify_eq/=).
  assert (He1 : chunk = [] → lastSaved 0 c1 = 0).
  { intros Hc. rewrite Hc in E1. pose proof (lastSaved_failed_empty n1 e1 0) as H.
    by rewrite E1 in H. }
  subst s1. cbn [decide]. destruct (decide (1%nat = 3%nat)) as [|_]; [done|].
  destruct (attemptOutcome env 2) as [n2|n2 e2] eqn:H2.
  { simplify_eq. specialize (Hlast puts (lastSaved 0 c1) He1).
    destruct (saveMessagesBatch chunk (Committed puts)) as [c2 s2] eqn:E2.
    unfold saveMessagesBatch in E2. simplify_eq/=. by rewrite Hlast. }
  destruct (saveMessagesBatch chunk (Failed n2 e2)) as [c2 s2] eqn:E2.
  assert (Hs2 : s2 = Throw e2) by (unfold saveMessagesBatch in E2; by simplify_eq/=).
  assert (He2 : chunk = [] → lastSaved (lastSaved 0 c1) c2 = 0).
  { intros Hc. rewrite Hc in E2.
    pose proof (lastSaved_failed_empty n2 e2 (lastSaved 0 c1)) as H.
    rewrite E2 in H. simpl in H. rewrite H. by apply He1. }
  subst s2. destruct (decide (2%nat = 3%nat)) as [|_]; [done|].
  destruct (attemptOutcome env 3) as [n3|n3 e3] eqn:H3; [|done].
  simplify_eq. specialize (Hlast puts (lastSaved (lastSaved 0 c1) c2) He2).
  destruct (saveMessagesBatch chunk (Committed puts)) as [c3 s3] eqn:E3.
  unfold saveMessagesBatch in E3. simplify_eq/=. by rewrite Hlast.
Qed.

Lemma complete_reports_the_committing_attempt_witness :
  verdict testApi (λ _, reliable)
    {| taskChunk := threeMessages; taskIndex := 4 |}
  = WComplete 4 3.
Proof.
  exact (complete_reports_the_committing_attempt testApi (λ _, reliable)
           {| taskChunk := threeMessages; taskIndex := 4 |} 8 eq_refl).
Defined.

(** The stand-alone worker of indexeddb-worker.ts and the worker inlined in
    the pool do the same whenever the first batch write commits; when it
    fails, the stand-alone worker posts ERROR at once, with no second
    attempt and no pause. *)
Theorem standalone_worker_agrees_until_first_failure api (env : ChunkEnv)
    (chunkIndex : nat) (messages : list JsVal) :
  match attemptOutcome env 1 with
  | Committed puts =>
      Worker.workerScript api env chunkIndex messages
      = StandaloneWorker.workerScript api (attemptOutcome env 1) chunkIndex messages
  | Failed puts e =>
      RetrySpec.withoutPosts
        (StandaloneWorker.workerScript api (attemptOutcome env 1) chunkIndex messages)
      = [ActAttempt 1 messages (Failed puts e)]
      ∧ last (StandaloneWorker.workerScript api (attemptOutcome env 1) chunkIndex
                messages)
        = Some (ActPost (WError chunkIndex (errorMessage api e)))
  end.
Proof.
  unfold Worker.workerScript, StandaloneWorker.workerScript,
    saveMessagesBatchWithRetry, MAX_RETRIES. cbn [retryLoop].
  destruct (attemptOutcome env 1) as [puts|puts e] eqn:H1.
  - destruct (saveMessagesBatch messages (Committed puts)) as [calls settled] eqn:E.
    unfold saveMessagesBatch in E. simplify_eq/=. reflexivity.
  - destruct (saveMessagesBatch messages (Failed puts e)) as [calls settled] eqn:E.
    unfold saveMessagesBatch in E. simplify_eq/=. split.
    + rewrite RetryFacts.withoutPosts_app, RetryFacts.withoutPosts_progressPosts. done.
    + by rewrite last_cons, last_snoc.
Qed.

End WorkerExtras.
Module ChunkingExtraFacts.
Import Js JsFacts Chunking ChunkingFacts.

Lemma ceilDiv_unique (a b n : Z) :
  0 < b → (n - 1) * b < a ≤ n * b → ceilDiv a b = n.
Proof.
  intros Hb Hn. unfold ceilDiv.
  rewrite <- (Z.div_unique (- a) b (- n) (n * b - a)); lia.
Qed.

Lemma ceilDiv_bounds (a b : Z) :
  0 < b → (ceilDiv a b - 1) * b < a ≤ ceilDiv a b * b.
Proof.
  intros Hb. unfold ceilDiv.
  pose proof (Z.div_mod (- a) b ltac:(lia)).
  pose proof (Z.mod_pos_bound (- a) b Hb). lia.
Qed.

Lemma length_concat_le {A} (chunks : list (list A)) (c : nat) :
  Forall (λ ch, (length ch ≤ c)%nat) chunks →
  (length (concat chunks) ≤ length chunks * c)%nat.
Proof.
  induction 1 as [|ch chunks Hch _ IH]; [done|].
  simpl. rewrite length_app. lia.
Qed.

(** The number of chunks, and the length of the chunks before the last. *)
Lemma chunks_counted {A} (messages : list A) (chunkSize : Z) :
  0 < chunkSize →
  ∃ chunks,
    chunkMessages messages (Finite chunkSize) = Some chunks
    ∧ Z.of_nat (length chunks) = ceilDiv (Z.of_nat (length messages)) chunkSize
    ∧ ∀ j ch, chunks !! j = Some ch → (S j < length chunks)%nat →
        Z.of_nat (length ch) = chunkSize.
Proof.
  intros Hpos. set (c := Z.to_nat chunkSize).
  assert (Hc : chunkSize = Z.of_nat c) by lia.
  destruct (chunkLoop_spec messages c ltac:(lia) (length messages) 0%nat)
    as (chunks & Hrun & Hcat & Hnth); [lia|].
  rewrite drop_0 in Hcat. simpl in Hnth.
  exists chunks. split; [simpl; by rewrite Hc|].
  assert (Hlens : Forall (λ ch, (length ch ≤ c)%nat) chunks).
  { apply Forall_lookup. intros j ch Hj. destruct (Hnth j ch Hj) as [_ ->].
    rewrite length_take. lia. }
  pose proof (length_concat_le chunks c Hlens) as Hle. rewrite Hcat in Hle.
  split.
  - symmetry. apply ceilDiv_unique; [lia|].
    destruct (length chunks) as [|n] eqn:Hn.
    + apply length_zero_iff_nil in Hn. subst chunks. simpl in Hcat.
      subst messages. simpl. lia.
    + destruct (lookup_lt_is_Some_2 chunks n) as [ch Hch]; [lia|].
      destruct (Hnth n ch Hch) as [Hlt _]. nia.
  - intros j ch Hj Hnext.
    destruct (lookup_lt_is_Some_2 chunks (S j)) as [ch' Hch']; [lia|].
    destruct (Hnth (S j) ch' Hch') as [Hlt _].
    destruct (Hnth j ch Hj) as [_ ->].
    rewrite length_take, length_drop. nia.
Qed.

End ChunkingExtraFacts.

Module ChunkingExtras.
Import Js JsFacts Chunking ChunkingFacts ChunkingExtraFacts.

(** For a positive chunk size, [chunkMessages] returns
    [ceil(length / chunkSize)] chunks, and every chunk but the last holds
    exactly [chunkSize] messages. *)
Theorem chunkMessages_count {A} (messages : list A) (chunkSize : Z) :
  0 < chunkSize →
  ∃ chunks,
    chunkMessages messages (Finite chunkSize) = Some chunks
    ∧ Z.of_nat (length chunks) = ceilDiv (Z.of_nat (length messages)) chunkSize
    ∧ ∀ j ch, chunks !! j = Some ch → (S j < length chunks)%nat →
        Z.of_nat (length ch) = chunkSize.
Proof. apply chunks_counted. Qed.

Lemma chunkMessages_count_witness :
  ∃ chunks,
    chunkMessages [1; 2; 3; 4; 5; 6; 7] (Finite 3) = Some chunks
    ∧ Z.of_nat (length chunks) = 3.
Proof.
  destruct (chunkMessages_count [1; 2; 3; 4; 5; 6; 7] 3) as (chunks & Hrun & Hlen & _);
    [lia|].
  exists chunks. split; [exact Hrun|]. rewrite Hlen. reflexivity.
Defined.

(** With at least one worker, the chunk size chosen for a message array is
    at least 1000, and the array is cut into at most
    [max(22, 2 * workers)] chunks. *)
Theorem chunk_count_is_bounded {A} (messages : list A) (workerCount : nat) :
  (0 < workerCount)%nat →
  ∃ chunkSize chunks,
    calculateOptimalChunkSize (Z.of_nat (length messages)) workerCount
    = Finite chunkSize
    ∧ 1000 ≤ chunkSize
    ∧ chunkMessages messages (Finite chunkSize) = Some chunks
    ∧ Z.of_nat (length chunks) ≤ Z.max 22 (2 * Z.of_nat workerCount).
Proof.
  intros Hw. set (n := Z.of_nat (length messages)).
  assert (Hsize : ∃ c, calculateOptimalChunkSize n workerCount = Finite c
                       ∧ 1000 ≤ c
                       ∧ ceilDiv n c ≤ Z.max 22 (2 * Z.of_nat workerCount)).
  { unfold calculateOptimalChunkSize, CHUNK_SIZE_SMALL, CHUNK_SIZE_MEDIUM,
      CHUNK_SIZE_LARGE, CHUNK_SIZE_XLARGE.
    destruct (Z.ltb_spec n 4000).
    { eexists. split_and!; [done|lia|].
      pose proof (ceilDiv_bounds n 1000 ltac:(lia)). lia. }
    destruct (Z.ltb_spec n 16000).
    { eexists. split_and!; [done|lia|].
      pose proof (ceilDiv_bounds n 2000 ltac:(lia)). lia. }
    destruct (Z.ltb_spec n 64000).
    { eexists. split_and!; [done|lia|].
      pose proof (ceilDiv_bounds n 3000 ltac:(lia)). lia. }
    destruct (Z.eqb_spec (Z.of_nat workerCount * 2) 0); [lia|].
    eexists. split_and!; [done|lia|].
    set (target := Z.of_nat workerCount * 2) in *.
    set (c := Z.max 5000 (ceilDiv n target)).
    pose proof (ceilDiv_bounds n target ltac:(lia)).
    pose proof (ceilDiv_bounds n c ltac:(lia)).
    assert (ceilDiv n target ≤ c) by lia.
    assert (ceilDiv n c ≤ target); [|lia].
    apply Z.nlt_ge. intros Hgt. nia. }
  destruct Hsize as (c & Hc & Hmin & Hbound).
  destruct (chunks_counted messages c ltac:(lia)) as (chunks & Hrun & Hlen & _).
  exists c, chunks. split_and!; [done|done|done|]. by rewrite Hlen.
Qed.

Lemma chunk_count_is_bounded_witness :
  ∃ chunkSize chunks,
    calculateOptimalChunkSize 7 4 = Finite chunkSize
    ∧ chunkMessages [1; 2; 3; 4; 5; 6; 7] (Finite chunkSize) = Some chunks
    ∧ Z.of_nat (length chunks) ≤ 22.
Proof.
  destruct (chunk_count_is_bounded [1; 2; 3; 4; 5; 6; 7] 4)
    as (c & chunks & Hc & _ & Hrun & Hlen); [lia|].
  exists c, chunks. split_and!; [exact Hc|exact Hrun|]. simpl in Hlen. lia.
Defined.

End ChunkingExtras.
Module BitFacts.
Import Js Value Platform Msgpack.

Lemma toInt32_mod z : toInt32 z mod 2 ^ 32 = z mod 2 ^ 32.
Proof.
  unfold toInt32.
  rewrite Zminus_mod, Zmod_mod, <- Zminus_mod. f_equal. lia.
Qed.

Lemma toInt32_congr x y : x mod 2 ^ 32 = y mod 2 ^ 32 → toInt32 x = toInt32 y.
Proof.
  intros H. unfold toInt32.
  rewrite (Zplus_mod x), (Zplus_mod y), H. done.
Qed.

Lemma toInt32_range z : - 2 ^ 31 ≤ toInt32 z < 2 ^ 31.
Proof.
  unfold toInt32. pose proof (Z.mod_pos_bound (z + 2 ^ 31) (2 ^ 32) ltac:(lia)). lia.
Qed.

(** ToInt32 of a number given modulo [2^32] by its unsigned value. *)
Lemma toInt32_unsigned z u :
  0 ≤ u < 2 ^ 32 → z mod 2 ^ 32 = u →
  toInt32 z = if u <? 2 ^ 31 then u else u - 2 ^ 32.
Proof.
  intros Hu Hz. rewrite (toInt32_congr z u) by (by rewrite Hz, Z.mod_small).
  unfold toInt32. destruct (Z.ltb_spec u (2 ^ 31)).
  - rewrite Z.mod_small by lia. lia.
  - replace (u + 2 ^ 31) with (u - 2 ^ 31 + 1 * 2 ^ 32) by lia.
    rewrite Z.mod_add by lia. rewrite Z.mod_small by lia. lia.
Qed.

Lemma lor_mod x y :
  Z.lor x y mod 2 ^ 32 = Z.lor (x mod 2 ^ 32) (y mod 2 ^ 32).
Proof.
  apply Z.bits_inj'. intros n Hn.
  rewrite Z.lor_spec, !Z.testbit_mod_pow2, Z.lor_spec by lia.
  by destruct (n <? 32).
Qed.

Lemma shiftl_mod x n :
  0 ≤ n → Z.shiftl x n mod 2 ^ 32 = (x mod 2 ^ 32 * 2 ^ n) mod 2 ^ 32.
Proof.
  intros Hn. rewrite Z.shiftl_mul_pow2 by done.
  by rewrite Zmult_mod_idemp_l.
Qed.

Lemma shl_mod x n : 0 ≤ n → shl x n mod 2 ^ 32 = (x * 2 ^ n) mod 2 ^ 32.
Proof.
  intros Hn. unfold shl.
  rewrite toInt32_mod, shiftl_mod, toInt32_mod by done.
  by rewrite Zmult_mod_idemp_l.
Qed.

Lemma bor_mod x y :
  bor x y mod 2 ^ 32 = Z.lor (x mod 2 ^ 32) (y mod 2 ^ 32).
Proof. unfold bor. by rewrite toInt32_mod, lor_mod, !toInt32_mod. Qed.

(** Joining a multiple of [2^n] and a number below [2^n] adds them. *)
Lemma lor_disjoint a b n :
  0 ≤ n → 0 ≤ b < 2 ^ n → Z.lor (a * 2 ^ n) b = a * 2 ^ n + b.
Proof.
  intros Hn Hb. rewrite <- Z.add_lor_land.
  replace (Z.land (a * 2 ^ n) b) with 0; [lia|].
  symmetry. apply Z.bits_inj'. intros m Hm.
  rewrite Z.land_spec, Z.bits_0.
  destruct (Z.ltb_spec m n).
  - by rewrite Z.mul_pow2_bits_low.
  - rewrite <- (Z.mod_small b (2 ^ n)) by done.
    rewrite Z.mod_pow2_bits_high by lia. apply andb_false_r.
Qed.

Section Bytes.
Context (b0 b1 b2 b3 : Z).
Hypothesis (H0 : 0 ≤ b0 < 256) (H1 : 0 ≤ b1 < 256) (H2 : 0 ≤ b2 < 256)
  (H3 : 0 ≤ b3 < 256).

Lemma join16 : bor (shl b0 8) b1 = b0 * 256 + b1.
Proof.
  assert (Hmod : bor (shl b0 8) b1 mod 2 ^ 32 = b0 * 256 + b1).
  { rewrite bor_mod, shl_mod by lia.
    rewrite !Z.mod_small by lia.
    change 256 with (2 ^ 8). apply lor_disjoint; lia. }
  unfold bor at 1. unfold bor in Hmod. rewrite toInt32_mod in Hmod.
  rewrite (toInt32_unsigned _ (b0 * 256 + b1)); [|lia|done].
  destruct (Z.ltb_spec (b0 * 256 + b1) (2 ^ 31)); lia.
Qed.

Lemma join32_mod :
  bor (bor (bor (shl b0 24) (shl b1 16)) (shl b2 8)) b3 mod 2 ^ 32
  = ((b0 * 256 + b1) * 256 + b2) * 256 + b3.
Proof.
  rewrite !bor_mod, !shl_mod by lia.
  rewrite !Z.mod_small by lia.
  rewrite (lor_disjoint b0 (b1 * 2 ^ 16) 24) by lia.
  replace (b0 * 2 ^ 24 + b1 * 2 ^ 16) with ((b0 * 256 + b1) * 2 ^ 16) by lia.
  rewrite (lor_disjoint _ (b2 * 2 ^ 8) 16) by lia.
  replace ((b0 * 256 + b1) * 2 ^ 16 + b2 * 2 ^ 8)
    with (((b0 * 256 + b1) * 256 + b2) * 2 ^ 8) by lia.
  rewrite lor_disjoint by lia. lia.
Qed.

End Bytes.

End BitFacts.

Module MsgpackExtraFacts.
Import Js Value Platform Msgpack BitFacts.

Lemma byteAt_range buffer i z : byteAt buffer i = Some z → 0 ≤ z < 256.
Proof.
  unfold byteAt. destruct (index buffer i) as [b|]; [|done].
  intros [= <-]. unfold byteToZ. pose proof (Byte.to_N_bounded b). lia.
Qed.

Lemma be16_value buffer o b0 b1 :
  byteAt buffer o = Some b0 → byteAt buffer (o + 1) = Some b1 →
  be16 buffer o = b0 * 256 + b1.
Proof.
  intros H0 H1. unfold be16. rewrite H0, H1. simpl.
  apply join16; by eapply byteAt_range.
Qed.

Lemma be32_mod buffer o b0 b1 b2 b3 :
  byteAt buffer o = Some b0 → byteAt buffer (o + 1) = Some b1 →
  byteAt buffer (o + 2) = Some b2 → byteAt buffer (o + 3) = Some b3 →
  be32 buffer o mod 2 ^ 32 = ((b0 * 256 + b1) * 256 + b2) * 256 + b3.
Proof.
  intros H0 H1 H2 H3. unfold be32. rewrite H0, H1, H2, H3. simpl.
  apply join32_mod; by eapply byteAt_range.
Qed.

End MsgpackExtraFacts.

Module MsgpackExtras.
Import Js Value Platform Msgpack BitFacts MsgpackExtraFacts.

(** The 16-bit and 32-bit integer formats are read as big-endian numbers:
    for the bytes [b0 b1 (b2 b3)] that follow the leading byte, uint 16
    ([0xcd]) is [b0 * 256 + b1] and int 16 ([0xd1]) is its two's complement
    reading; uint 32 ([0xce]) is [((b0 * 256 + b1) * 256 + b2) * 256 + b3] and
    int 32 ([0xd2]) is its two's complement reading; the new offset is past
    the number. *)
Theorem decodeMsgpack_reads_big_endian api depth (buffer : list byte) (offset : Z) :
  (∀ b0 b1,
     byteAt buffer (offset + 1) = Some b0 →
     byteAt buffer (offset + 2) = Some b1 →
     let u := b0 * 256 + b1 in
     (byteAt buffer offset = Some 0xcd →
      decodeMsgpack api (S depth) buffer (Int offset)
      = Normal (JNum u, Int (offset + 3)))
     ∧ (byteAt buffer offset = Some 0xd1 →
        decodeMsgpack api (S depth) buffer (Int offset)
        = Normal (JNum (if u <? 2 ^ 15 then u else u - 2 ^ 16), Int (offset + 3))))
  ∧ (∀ b0 b1 b2 b3,
       byteAt buffer (offset + 1) = Some b0 →
       byteAt buffer (offset + 2) = Some b1 →
       byteAt buffer (offset + 3) = Some b2 →
       byteAt buffer (offset + 4) = Some b3 →
       let u := ((b0 * 256 + b1) * 256 + b2) * 256 + b3 in
       (byteAt buffer offset = Some 0xce →
        decodeMsgpack api (S depth) buffer (Int offset)
        = Normal (JNum u, Int (offset + 5)))
       ∧ (byteAt buffer offset = Some 0xd2 →
          decodeMsgpack api (S depth) buffer (Int offset)
          = Normal (JNum (if u <? 2 ^ 31 then u else u - 2 ^ 32), Int (offset + 5)))).
Proof.
  split.
  - intros b0 b1 Hb0 Hb1 u.
    assert (Hv : be16 buffer (offset + 1) = u).
    { apply be16_value; [done|]. by replace (offset + 1 + 1) with (offset + 2) by lia. }
    pose proof (byteAt_range _ _ _ Hb0). pose proof (byteAt_range _ _ _ Hb1).
    split; intros Htag; cbn [decodeMsgpack]; rewrite Htag; cbn; rewrite Hv.
    + reflexivity.
    + unfold advance. cbn. do 3 f_equal.
      destruct (Z.ltb_spec 32767 u), (Z.ltb_spec u (2 ^ 15)); lia.
  - intros b0 b1 b2 b3 Hb0 Hb1 Hb2 Hb3 u.
    assert (Hv : be32 buffer (offset + 1) mod 2 ^ 32 = u).
    { apply be32_mod; [done|..].
      - by replace (offset + 1 + 1) with (offset + 2) by lia.
      - by replace (offset + 1 + 2) with (offset + 3) by lia.
      - by replace (offset + 1 + 3) with (offset + 4) by lia. }
    pose proof (byteAt_range _ _ _ Hb0). pose proof (byteAt_range _ _ _ Hb1).
    pose proof (byteAt_range _ _ _ Hb2). pose proof (byteAt_range _ _ _ Hb3).
    assert (Hu : 0 ≤ u < 2 ^ 32) by (unfold u; lia).
    split; intros Htag; cbn [decodeMsgpack]; rewrite Htag; cbn.
    + unfold toUint32. by rewrite Hv.
    + by rewrite (toInt32_unsigned _ u Hu Hv).
Qed.

Example decodeMsgpack_int32_minus_two :
  decodeMsgpack TestPlatform.testApi 1 [xd2; xff; xff; xff; xfe] (Int 0)
  = Normal (JNum (-2), Int 5).
Proof. reflexivity. Qed.

Example decodeMsgpack_uint16_258 :
  decodeMsgpack TestPlatform.testApi 1 [x00; xcd; x01; x02] (Int 1)
  = Normal (JNum 258, Int 4).
Proof. reflexivity. Qed.

End MsgpackExtras.
Module NormalizeFacts.
Import Js Value Platform Msgpack NormalizeSpec.

(** Induction on values, through the items of arrays, the property values
    of objects and their replaced prototypes. *)
Definition JsVal_nested_ind (P : JsVal → Prop)
    (Hundefined : P JUndefined) (Hnull : P JNull)
    (Hbool : ∀ b, P (JBool b)) (Hnum : ∀ z, P (JNum z))
    (Hfloat : ∀ w bits, P (JFloat w bits)) (Hstr : ∀ s, P (JStr s))
    (Hbytes : ∀ bs, P (JBytes bs))
    (Harr : ∀ items, Forall P items → P (JArr items))
    (Hobj : ∀ props, Forall (λ kv, P kv.2) props → P (JObj props))
    (Hproto : ∀ proto props,
        P proto → Forall (λ kv, P kv.2) props → P (JObjProto proto props))
  : ∀ v, P v :=
  fix go (v : JsVal) : P v :=
    match v with
    | JUndefined => Hundefined
    | JNull => Hnull
    | JBool b => Hbool b
    | JNum z => Hnum z
    | JFloat w bits => Hfloat w bits
    | JStr s => Hstr s
    | JBytes bs => Hbytes bs
    | JArr items =>
        Harr items
          ((fix all (l : list JsVal) : Forall P l :=
              match l with
              | [] => @List.Forall_nil _ P
              | x :: l' => @List.Forall_cons _ P x l' (go x) (all l')
              end) items)
    | JObj props =>
        Hobj props
          ((fix all (l : list (string * JsVal)) : Forall (λ kv, P kv.2) l :=
              match l with
              | [] => @List.Forall_nil _ (λ kv, P kv.2)
              | kv :: l' => @List.Forall_cons _ (λ kv, P kv.2) kv l' (go kv.2) (all l')
              end) props)
    | JObjProto proto props =>
        Hproto proto props (go proto)
          ((fix all (l : list (string * JsVal)) : Forall (λ kv, P kv.2) l :=
              match l with
              | [] => @List.Forall_nil _ (λ kv, P kv.2)
              | kv :: l' => @List.Forall_cons _ (λ kv, P kv.2) kv l' (go kv.2) (all l')
              end) props)
    end.

(** ** Array indices are written in one way *)

Lemma digitOf_range c d : digitOf c = Some d → 0 ≤ d ≤ 9.
Proof.
  unfold digitOf.
  destruct (Z.leb_spec 48 (Z.of_nat (nat_of_ascii c))); simpl; [|done].
  destruct (Z.leb_spec (Z.of_nat (nat_of_ascii c)) 57); [|done].
  intros [= <-]. lia.
Qed.

Lemma digitOf_inj c1 c2 d : digitOf c1 = Some d → digitOf c2 = Some d → c1 = c2.
Proof.
  unfold digitOf.
  destruct (_ && _); [|done]. destruct (_ && _); [|done].
  intros [= H1] [= H2].
  rewrite <- (ascii_nat_embedding c1), <- (ascii_nat_embedding c2).
  f_equal. lia.
Qed.

Lemma parseDigits_bounds s acc r :
  0 ≤ acc → parseDigits s acc = Some r →
  acc * 10 ^ Z.of_nat (String.length s) ≤ r
  < (acc + 1) * 10 ^ Z.of_nat (String.length s).
Proof.
  revert acc. induction s as [|c s IH]; intros acc Hacc;
    cbn [parseDigits String.length].
  - intros [= <-]. simpl. lia.
  - destruct (digitOf c) as [d|] eqn:Hd; [|done].
    apply digitOf_range in Hd. intros Hr.
    apply IH in Hr; [|lia].
    rewrite Nat2Z.inj_succ, Z.pow_succ_r by lia.
    assert (0 < 10 ^ Z.of_nat (String.length s)) by (apply Z.pow_pos_nonneg; lia).
    nia.
Qed.

Lemma parseDigits_inj s1 s2 a1 a2 r :
  String.length s1 = String.length s2 → 0 ≤ a1 → 0 ≤ a2 →
  parseDigits s1 a1 = Some r → parseDigits s2 a2 = Some r →
  a1 = a2 ∧ s1 = s2.
Proof.
  revert s2 a1 a2. induction s1 as [|c1 s1 IH]; intros [|c2 s2] a1 a2 Hlen H1 H2;
    simpl in *; try done.
  - by intros [= <-] [= <-].
  - destruct (digitOf c1) as [d1|] eqn:Hd1; [|done].
    destruct (digitOf c2) as [d2|] eqn:Hd2; [|done].
    pose proof (digitOf_range _ _ Hd1). pose proof (digitOf_range _ _ Hd2).
    intros Hr1 Hr2.
    destruct (IH s2 (a1 * 10 + d1) (a2 * 10 + d2)) as [Ha ->];
      [lia|lia|lia|done|done|].
    assert (a1 = a2) by lia. assert (d1 = d2) by lia. subst.
    split; [done|]. f_equal. by eapply digitOf_inj.
Qed.

Lemma arrayIndex_inj k1 k2 n :
  arrayIndex k1 = Some n → arrayIndex k2 = Some n → k1 = k2.
Proof.
  assert (Hshape : ∀ k, arrayIndex k = Some n →
    ∃ c rest d, k = String c rest ∧ digitOf c = Some d
      ∧ parseDigits rest d = Some n
      ∧ (d = 0 → rest = "")).
  { intros [|c rest]; [done|]. unfold arrayIndex.
    destruct (Ascii.eqb_spec c "0") as [->|Hc]; simpl.
    - destruct (String.eqb_spec rest "") as [->|]; simpl; [|done].
      intros Hn. vm_compute in Hn. injection Hn as <-.
      by exists "0"%char, "", 0.
    - destruct (digitOf c) as [d|] eqn:Hd; [|done].
      destruct (parseDigits rest (0 * 10 + d)) as [m|] eqn:Hm; [|done].
      destruct (m <? 2 ^ 32 - 1); [|done]. intros [= <-].
      exists c, rest, d. split_and!; try done.
      intros ->. destruct Hc.
      by apply (digitOf_inj c "0"%char 0). }
  intros (c1 & r1 & d1 & -> & Hd1 & Hp1 & Hz1)%Hshape
         (c2 & r2 & d2 & -> & Hd2 & Hp2 & Hz2)%Hshape.
  pose proof (digitOf_range _ _ Hd1). pose proof (digitOf_range _ _ Hd2).
  pose proof (parseDigits_bounds r1 d1 n ltac:(lia) Hp1) as Hb1.
  pose proof (parseDigits_bounds r2 d2 n ltac:(lia) Hp2) as Hb2.
  assert (Hlen : String.length r1 = String.length r2).
  { destruct (decide (d1 = 0)) as [->|]; [rewrite Hz1 in * by done|];
      (destruct (decide (d2 = 0)) as [->|]; [rewrite Hz2 in * by done|]);
      simpl in *.
    - done.
    - assert (0 < 10 ^ Z.of_nat (String.length r2)) by (apply Z.pow_pos_nonneg; lia).
      nia.
    - assert (0 < 10 ^ Z.of_nat (String.length r1)) by (apply Z.pow_pos_nonneg; lia).
      nia.
    - destruct (Nat.lt_trichotomy (String.length r1) (String.length r2))
        as [Hlt|[Heq|Hlt]]; [|done|]; exfalso.
      + assert (10 ^ (Z.of_nat (String.length r1) + 1)
                ≤ 10 ^ Z.of_nat (String.length r2))
          by (apply Z.pow_le_mono_r; lia).
        rewrite Z.pow_add_r in * by lia.
        assert (0 < 10 ^ Z.of_nat (String.length r1)) by (apply Z.pow_pos_nonneg; lia).
        nia.
      + assert (10 ^ (Z.of_nat (String.length r2) + 1)
                ≤ 10 ^ Z.of_nat (String.length r1))
          by (apply Z.pow_le_mono_r; lia).
        rewrite Z.pow_add_r in * by lia.
        assert (0 < 10 ^ Z.of_nat (String.length r2)) by (apply Z.pow_pos_nonneg; lia).
        nia. }
  destruct (parseDigits_inj r1 r2 d1 d2 n Hlen) as [-> ->]; [lia|lia|done|done|].
  f_equal. by eapply digitOf_inj.
Qed.

Lemma arrayIndex_nonneg k n : arrayIndex k = Some n → 0 ≤ n.
Proof.
  destruct k as [|c rest]; [done|]. unfold arrayIndex.
  destruct (_ && _); [done|].
  destruct (parseDigits _ 0) as [m|] eqn:Hm; [|done].
  destruct (m <? 2 ^ 32 - 1); [|done]. intros [= <-].
  apply parseDigits_bounds in Hm; [|lia].
  assert (0 < 10 ^ Z.of_nat (String.length (String c rest)))
    by (apply Z.pow_pos_nonneg; lia).
  nia.
Qed.

(** ** Own properties keep their order *)

Lemma lookupProp_None props k : lookupProp props k = None ↔ k ∉ props.*1.
Proof.
  induction props as [|[k0 w] props IH]; simpl.
  - split; [intros _; apply not_elem_of_nil|done].
  - rewrite not_elem_of_cons.
    destruct (String.eqb_spec k0 k) as [->|Hne]; [split; [done|by intros [? _]]|].
    rewrite IH. split; [by intros ?; split|by intros [_ ?]].
Qed.

Lemma setProp_keys props k v :
  k ∈ props.*1 → (setProp props k v).*1 = props.*1.
Proof.
  induction props as [|[k0 w] props IH]; simpl.
  - by intros ?%elem_of_nil.
  - destruct (String.eqb_spec k0 k) as [->|Hne]; [done|].
    intros [?|Hin]%elem_of_cons; [done|]. csimpl. f_equal. by apply IH.
Qed.

Lemma indicesFirst_keys lo props1 props2 :
  props1.*1 = props2.*1 → indicesFirst lo props1 → indicesFirst lo props2.
Proof.
  revert lo props2. induction props1 as [|[k1 w1] props1 IH];
    intros lo [|[k2 w2] props2]; simpl; try done.
  intros [= <- Hkeys]. destruct (arrayIndex k1).
  - intros [? ?]. split; [done|]. by apply IH.
  - intros Hall.
    pose proof (proj2 (Forall_fmap fst (λ k, arrayIndex k = None) props1) Hall) as Hk.
    change (Forall (λ k, arrayIndex k = None) (list_fmap _ _ fst props1)) in Hk.
    rewrite Hkeys in Hk.
    exact (proj1 (Forall_fmap fst (λ k, arrayIndex k = None) props2) Hk).
Qed.

Lemma insertIndexed_keys props n k v :
  (insertIndexed props n k v).*1 ≡ₚ k :: props.*1.
Proof.
  induction props as [|[k0 w] props IH]; simpl; [done|].
  destruct (arrayIndex k0) as [m|]; [|done].
  destruct (m <? n); [|done]. simpl. rewrite IH. apply Permutation_swap.
Qed.

Lemma insertIndexed_sorted lo props n k v :
  indicesFirst lo props → lo ≤ n → arrayIndex k = Some n →
  (∀ k', k' ∈ props.*1 → arrayIndex k' ≠ Some n) →
  indicesFirst lo (insertIndexed props n k v).
Proof.
  intros Hsorted Hlo Hk. revert lo Hsorted Hlo.
  induction props as [|[k0 w] props IH]; intros lo Hsorted Hlo Hfresh; simpl in *.
  - by rewrite Hk.
  - destruct (arrayIndex k0) as [m|] eqn:Hk0.
    + destruct Hsorted as [Hm Hsorted].
      destruct (Z.ltb_spec m n).
      * simpl. rewrite Hk0. split; [done|].
        apply IH; [done|lia|]. intros k' Hin. apply Hfresh. by right.
      * simpl. rewrite Hk, Hk0. split; [done|]. split; [|done].
        assert (m ≠ n); [|lia]. intros ->. by apply (Hfresh k0); [left|].
    + simpl. rewrite Hk, Hk0. done.
Qed.

Lemma append_sorted lo props k v :
  indicesFirst lo props → arrayIndex k = None →
  indicesFirst lo (props ++ [(k, v)]).
Proof.
  intros Hsorted Hk. revert lo Hsorted.
  induction props as [|[k0 w] props IH]; intros lo Hsorted; simpl in *.
  - by rewrite Hk.
  - destruct (arrayIndex k0) as [m|].
    + destruct Hsorted. split; [done|]. by apply IH.
    + apply Forall_app. split; [done|]. by apply Forall_singleton.
Qed.

Lemma fromEntries_store entries : fromEntries entries = JObj (fold_left store entries []).
Proof.
  reflexivity.
Qed.

Lemma store_ownOrder props kv : ownOrder props → ownOrder (store props kv).
Proof.
  destruct kv as [k v]. intros [Hnodup Hsorted]. unfold store.
  destruct (lookupProp props k) as [w|] eqn:Hlook.
  - assert (Hin : k ∈ props.*1).
    { destruct (decide (k ∈ props.*1)) as [|Hnot]; [done|].
      apply lookupProp_None in Hnot. congruence. }
    split.
    + by rewrite setProp_keys.
    + apply (indicesFirst_keys _ props); [|done]. by rewrite setProp_keys.
  - apply lookupProp_None in Hlook. unfold defineOwn.
    destruct (arrayIndex k) as [n|] eqn:Hk.
    + split.
      * rewrite insertIndexed_keys. by apply NoDup_cons.
      * apply (insertIndexed_sorted 0 props n k v Hsorted);
          [by eapply arrayIndex_nonneg|done|].
        intros k' Hin Hk'. destruct Hlook.
        by rewrite (arrayIndex_inj k k' n).
    + split.
      * rewrite fmap_app. simpl. apply NoDup_app. split_and!; [done| |apply NoDup_singleton].
        intros k' Hin ->%list_elem_of_singleton. done.
      * by apply append_sorted.
Qed.

Lemma store_values (Q : JsVal → Prop) props kv :
  Forall (λ kv, Q kv.2) props → Q kv.2 → Forall (λ kv, Q kv.2) (store props kv).
Proof.
  destruct kv as [k v]. intros Hall Hv. unfold store. simpl in Hv.
  destruct (lookupProp props k) as [w|].
  - induction Hall as [|[k0 w0] props Hw0 Hall IH]; simpl.
    + by apply Forall_singleton.
    + destruct (String.eqb k0 k); by constructor.
  - unfold defineOwn. destruct (arrayIndex k) as [n|].
    + induction Hall as [|[k0 w0] props Hw0 Hall IH]; simpl.
      * by apply Forall_singleton.
      * destruct (arrayIndex k0) as [m|]; [destruct (m <? n)|];
          repeat constructor; done.
    + apply Forall_app. split; [done|]. by apply Forall_singleton.
Qed.

Lemma fold_store_ownOrder entries acc :
  ownOrder acc → ownOrder (fold_left store entries acc).
Proof.
  revert acc. induction entries as [|kv entries IH]; intros acc Hacc; [done|].
  simpl. apply IH. by apply store_ownOrder.
Qed.

Lemma fold_store_values (Q : JsVal → Prop) entries acc :
  Forall (λ kv, Q kv.2) acc → Forall (λ kv, Q kv.2) entries →
  Forall (λ kv, Q kv.2) (fold_left store entries acc).
Proof.
  revert acc. induction entries as [|kv entries IH]; intros acc Hacc Hall; [done|].
  apply Forall_cons in Hall as [Hkv Hall].
  simpl. apply IH; [|done]. by apply store_values.
Qed.

(** Lower bound of an index that follows in a sorted list. *)
Lemma indicesFirst_later lo acc k v rest n :
  indicesFirst lo (acc ++ (k, v) :: rest) → arrayIndex k = Some n →
  lo ≤ n ∧ Forall (λ kv, ∃ m, arrayIndex kv.1 = Some m ∧ m < n) acc.
Proof.
  intros Hsorted Hk. revert lo Hsorted.
  induction acc as [|[k0 w] acc IH]; intros lo Hsorted; simpl in *.
  - rewrite Hk in Hsorted. by destruct Hsorted.
  - destruct (arrayIndex k0) as [m|] eqn:Hk0.
    + destruct Hsorted as [Hm Hsorted].
      destruct (IH _ Hsorted) as [Hn Hall].
      split; [lia|]. constructor; [|done]. exists m. split; [done|lia].
    + apply Forall_app in Hsorted as [_ Hsorted].
      apply Forall_cons in Hsorted as [Hnone _]. simpl in Hnone. congruence.
Qed.

Lemma insertIndexed_last acc n k v :
  Forall (λ kv, ∃ m, arrayIndex kv.1 = Some m ∧ m < n) acc →
  insertIndexed acc n k v = acc ++ [(k, v)].
Proof.
  induction 1 as [|[k0 w] acc (m & Hm & Hlt) _ IH]; simpl in *; [done|].
  rewrite Hm. destruct (Z.ltb_spec m n); [|lia]. by rewrite IH.
Qed.

(** Storing the own properties of an object again, in their order, gives
    the same own properties. *)
Lemma fold_store_replay rest acc :
  ownOrder (acc ++ rest) → fold_left store rest acc = acc ++ rest.
Proof.
  revert acc. induction rest as [|[k v] rest IH]; intros acc Hord.
  - by rewrite app_nil_r.
  - simpl.
    assert (Hstep : match lookupProp acc k with
                    | Some _ => setProp acc k v
                    | None => defineOwn acc k v
                    end = acc ++ [(k, v)]).
    { destruct Hord as [Hnodup Hsorted].
      rewrite fmap_app in Hnodup. apply NoDup_app in Hnodup as (_ & Hdisj & _).
      assert (Hfresh : k ∉ acc.*1).
      { intros Hin. apply (Hdisj k Hin). simpl. by left. }
      apply lookupProp_None in Hfresh. rewrite Hfresh. unfold defineOwn.
      destruct (arrayIndex k) as [n|] eqn:Hk; [|done].
      apply insertIndexed_last.
      by destruct (indicesFirst_later _ _ _ _ _ _ Hsorted Hk). }
    rewrite Hstep. rewrite IH; rewrite <- (assoc_L (++)); done.
Qed.

Lemma ownOrder_nil : ownOrder [].
Proof. split; [apply NoDup_nil_2|done]. Qed.

Lemma fromEntries_ownOrder entries props :
  fromEntries entries = JObj props → ownOrder props.
Proof.
  rewrite fromEntries_store. intros [= <-].
  apply fold_store_ownOrder, ownOrder_nil.
Qed.

Lemma fromEntries_id props : ownOrder props → fromEntries props = JObj props.
Proof.
  intros Hord. rewrite fromEntries_store. f_equal.
  by apply (fold_store_replay props []).
Qed.

(** ** [normalizeMsgpackValue] *)

Lemma existsb_false {A} (f : A → bool) (l : list A) :
  existsb f l = false ↔ Forall (λ x, f x = false) l.
Proof.
  induction l as [|x l IH]; simpl; [by split|].
  rewrite orb_false_iff, IH, Forall_cons. done.
Qed.

Lemma Forall_id_map {A} (P : A → Prop) (l : list A) :
  Forall id (map P l) ↔ Forall P l.
Proof.
  induction l as [|x l IH]; simpl; [by split|].
  by rewrite !Forall_cons, IH.
Qed.

Lemma normal_JArr items : normal (JArr items) ↔ Forall normal items.
Proof.
  unfold normal. cbn [hasBytes hasReplacedPrototype wellOrdered].
  rewrite !existsb_false, Forall_id_map.
  change (Forall (λ x, hasBytes x = false ∧ hasReplacedPrototype x = false
                       ∧ wellOrdered x) items)
    with (Forall (λ x, (λ x, hasBytes x = false) x
                       ∧ (λ x, hasReplacedPrototype x = false) x
                       ∧ wellOrdered x) items).
  by rewrite !Forall_and.
Qed.

Lemma normal_JObj props :
  normal (JObj props) ↔ ownOrder props ∧ Forall (λ kv, normal kv.2) props.
Proof.
  unfold normal. cbn [hasBytes hasReplacedPrototype wellOrdered].
  rewrite !existsb_false, (Forall_id_map (λ kv, wellOrdered kv.2)).
  change (Forall (λ kv : string * JsVal,
                    hasBytes kv.2 = false ∧ hasReplacedPrototype kv.2 = false
                    ∧ wellOrdered kv.2) props)
    with (Forall (λ kv : string * JsVal,
                    (λ kv : string * JsVal, hasBytes kv.2 = false) kv
                    ∧ (λ kv : string * JsVal, hasReplacedPrototype kv.2 = false) kv
                    ∧ (λ kv : string * JsVal, wellOrdered kv.2) kv) props).
  rewrite !Forall_and. tauto.
Qed.

Section Normalize.
Context (api : Api).

Lemma normalize_JArr items :
  normalizeMsgpackValue api (JArr items)
  = cbind (normalizeItems api items) (λ items', Normal (JArr items')).
Proof.
  cbn [normalizeMsgpackValue]. f_equal.
  induction items as [|x items IH]; [done|].
  cbn [normalizeItems]. by rewrite <- IH.
Qed.

Lemma normalize_entries props :
  (fix entries (props : list (string * JsVal))
     : Completion (list (string * JsVal)) :=
     match props with
     | [] => Normal []
     | (k, v) :: rest =>
         cbind (normalizeMsgpackValue api v) (λ v',
         cbind (entries rest) (λ rest', Normal ((k, v') :: rest')))
     end) props
  = normalizeEntries api props.
Proof.
  induction props as [|[k v] props IH]; [done|].
  cbn [normalizeEntries]. by rewrite <- IH.
Qed.

Lemma normalize_JObj props :
  normalizeMsgpackValue api (JObj props)
  = cbind (normalizeEntries api props) (λ es, Normal (fromEntries es)).
Proof. cbn [normalizeMsgpackValue]. by rewrite normalize_entries. Qed.

Lemma normalize_JObjProto proto props :
  normalizeMsgpackValue api (JObjProto proto props)
  = if instanceofUint8Array proto
    then Throw (TypeError "TextDecoder.decode: the input is not a buffer source")
    else cbind (normalizeEntries api props) (λ es, Normal (fromEntries es)).
Proof. cbn [normalizeMsgpackValue]. by rewrite normalize_entries. Qed.

Lemma normalizeItems_Forall (Q : JsVal → Prop) items items' :
  Forall (λ x, ∀ w, normalizeMsgpackValue api x = Normal w → Q w) items →
  normalizeItems api items = Normal items' → Forall Q items'.
Proof.
  intros Hall. revert items'.
  induction Hall as [|x items Hx _ IH]; intros items'; cbn [normalizeItems].
  - by intros [= <-].
  - destruct (normalizeMsgpackValue api x) as [x'|]; [|done]. simpl.
    destruct (normalizeItems api items) as [rest'|]; [|done]. simpl.
    intros [= <-]. constructor; [by apply Hx|by apply IH].
Qed.

Lemma normalizeEntries_Forall (Q : JsVal → Prop) props es :
  Forall (λ kv, ∀ w, normalizeMsgpackValue api kv.2 = Normal w → Q w) props →
  normalizeEntries api props = Normal es → Forall (λ kv, Q kv.2) es.
Proof.
  intros Hall. revert es.
  induction Hall as [|[k x] props Hx _ IH]; intros es; cbn [normalizeEntries].
  - by intros [= <-].
  - simpl in Hx.
    destruct (normalizeMsgpackValue api x) as [x'|]; [|done]. simpl.
    destruct (normalizeEntries api props) as [rest'|]; [|done]. simpl.
    intros [= <-]. constructor; [by apply Hx|by apply IH].
Qed.

Lemma fromEntries_normal es :
  Forall (λ kv, normal kv.2) es → normal (fromEntries es).
Proof.
  intros Hall. rewrite fromEntries_store. apply normal_JObj. split.
  - apply fold_store_ownOrder, ownOrder_nil.
  - by apply (fold_store_values normal).
Qed.

(** What [normalizeMsgpackValue] returns is [normal]. *)
Lemma normalize_normal v w :
  normalizeMsgpackValue api v = Normal w → normal w.
Proof.
  revert w.
  induction v as [| | | | | | |items IH|props IH|proto props _ IH]
    using JsVal_nested_ind; intros r;
    try (by intros [= <-]).
  - rewrite normalize_JArr.
    destruct (normalizeItems api items) as [items'|] eqn:Hitems; [|done].
    intros [= <-]. apply normal_JArr. by eapply normalizeItems_Forall.
  - rewrite normalize_JObj.
    destruct (normalizeEntries api props) as [es|] eqn:Hes; [|done].
    intros [= <-]. apply fromEntries_normal.
    by eapply (normalizeEntries_Forall normal).
  - rewrite normalize_JObjProto. destruct (instanceofUint8Array proto); [done|].
    destruct (normalizeEntries api props) as [es|] eqn:Hes; [|done].
    intros [= <-]. apply fromEntries_normal.
    by eapply (normalizeEntries_Forall normal).
Qed.

(** A [normal] value is returned as it is. *)
Lemma normalize_fixed v : normal v → normalizeMsgpackValue api v = Normal v.
Proof.
  induction v as [| | | | | | |items IH|props IH|proto props _ IH]
    using JsVal_nested_ind; try done.
  - by intros [? _].
  - intros Hall%normal_JArr. rewrite normalize_JArr.
    assert (normalizeItems api items = Normal items) as ->; [|done].
    induction IH as [|x items Hx _ IHitems]; [done|].
    apply Forall_cons in Hall as [Hnx Hall].
    cbn [normalizeItems]. by rewrite (Hx Hnx), (IHitems Hall).
  - intros [Hord Hall]%normal_JObj. rewrite normalize_JObj.
    assert (normalizeEntries api props = Normal props) as ->.
    { clear Hord. induction IH as [|[k x] props Hx _ IHprops]; [done|].
      apply Forall_cons in Hall as [Hnx Hall]. simpl in Hx, Hnx.
      cbn [normalizeEntries]. by rewrite (Hx Hnx), (IHprops Hall). }
    simpl. f_equal. by apply fromEntries_id.
  - by intros (_ & ? & _).
Qed.

Lemma normalizeEntries_total props :
  Forall (λ kv, ∃ w, normalizeMsgpackValue api kv.2 = Normal w) props →
  ∃ es, normalizeEntries api props = Normal es.
Proof.
  induction 1 as [|[k x] props [w Hw] _ [es Hes]]; [by eexists|].
  cbn [normalizeEntries]. simpl in Hw. rewrite Hw, Hes. by eexists.
Qed.

(** [normalizeMsgpackValue] returns unless an object that inherits from a
    [Uint8Array] is reached. *)
Lemma normalize_total v :
  inheritsBytes v = false → ∃ w, normalizeMsgpackValue api v = Normal w.
Proof.
  induction v as [| | | | | | |items IH|props IH|proto props _ IH]
    using JsVal_nested_ind; try (by eexists).
  - cbn [inheritsBytes]. intros Hall%existsb_false. rewrite normalize_JArr.
    assert (∃ items', normalizeItems api items = Normal items') as [items' ->];
      [|by eexists].
    induction IH as [|x items Hx _ IHitems]; [by eexists|].
    apply Forall_cons in Hall as [Hnx Hall].
    destruct (Hx Hnx) as [w Hw]. destruct (IHitems Hall) as [items' Hitems].
    cbn [normalizeItems]. rewrite Hw, Hitems. by eexists.
  - cbn [inheritsBytes]. intros Hall%existsb_false. rewrite normalize_JObj.
    destruct (normalizeEntries_total props) as [es ->]; [|by eexists].
    apply Forall_forall. intros kv Hin.
    rewrite Forall_forall in IH, Hall. by apply IH, Hall.
  - cbn [inheritsBytes]. intros [Hproto Hall%existsb_false]%orb_false_iff.
    rewrite normalize_JObjProto, Hproto.
    destruct (normalizeEntries_total props) as [es ->]; [|by eexists].
    apply Forall_forall. intros kv Hin.
    rewrite Forall_forall in IH, Hall. by apply IH, Hall.
Qed.

End Normalize.

End NormalizeFacts.

Module NormalizeExtras.
Import Js Value Platform Msgpack NormalizeSpec NormalizeFacts.

(** [normalizeMsgpackValue] replaces every binary by text, at any depth.
    It returns unless it reaches an object that inherits from a
    [Uint8Array]; what it returns holds no binary and is returned as it is
    when normalized again; and a value without binaries whose objects are
    ordinary (prototype not replaced, properties in the order of own
    properties) is returned as it is. *)
Theorem normalize_leaves_no_binary api (v : JsVal) :
  (inheritsBytes v = false → ∃ w, normalizeMsgpackValue api v = Normal w)
  ∧ (∀ w, normalizeMsgpackValue api v = Normal w →
       hasBytes w = false ∧ normalizeMsgpackValue api w = Normal w)
  ∧ (hasBytes v = false → hasReplacedPrototype v = false → wellOrdered v →
     normalizeMsgpackValue api v = Normal v).
Proof.
  split_and!.
  - apply normalize_total.
  - intros w Hw. pose proof (normalize_normal api v w Hw) as Hnormal.
    split; [by destruct Hnormal|by apply normalize_fixed].
  - intros. by apply normalize_fixed.
Qed.

Example normalize_nested :
  normalizeMsgpackValue TestPlatform.testApi
    (JArr [JObj [("k", JBytes [x68; x69])]; JNum 1])
  = Normal (JArr [JObj [("k", JStr "hi")]; JNum 1]).
Proof. reflexivity. Qed.

(** A decoded map whose prototype was replaced becomes an ordinary object
    that keeps the own properties only; one that inherits from a binary
    cannot be normalized. *)
Example normalize_replaced_prototype :
  normalizeMsgpackValue TestPlatform.testApi
    (JObjProto (JObj [("a", JNum 1)]) [("k", JBytes [x68; x69])])
  = Normal (JObj [("k", JStr "hi")])
  ∧ normalizeMsgpackValue TestPlatform.testApi
      (JObjProto (JBytes [x68]) [("k", JNum 1)])
    = Throw (TypeError "TextDecoder.decode: the input is not a buffer source").
Proof. split; reflexivity. Qed.

End NormalizeExtras.
Module DecryptExtras.
Import Js JsFacts Value Platform Msgpack Model Async Decrypt DecryptSpec.
Import DecryptFacts AsyncFacts TestPlatform DecryptExamples.

Lemma decryptOsnp_throws api buffer privateKey s e :
  parseOsnp api buffer = Throw e →
  decryptOsnpSnapshot api buffer privateKey s
  = {| outcome := Some (Throw e); storeAfter := s; effects := [] |}.
Proof. intros H. unfold decryptOsnpSnapshot. rewrite H. by msteps. Qed.

(** A JSON envelope whose [enc] lacks one of [wrappedKey], [ciphertext],
    [nonce], [tag] (the field is absent, or empty, or otherwise falsy) is
    refused with [Error('Invalid snapshot format: missing encryption
    fields')] before any call into Web Crypto. *)
Theorem json_envelope_missing_field api (payload enc : JsVal)
    (privateKey : list byte) (s : gmap string SnapshotMetadata) (name : string) :
  getProp payload "enc" = Normal enc →
  name ∈ ["wrappedKey"; "ciphertext"; "nonce"; "tag"] →
  (∀ v, getProp enc name = Normal v → truthy v = false) →
  decryptJsonSnapshot api payload privateKey s
  = {| outcome := Some (Throw (Error "Invalid snapshot format: missing encryption fields"));
       storeAfter := s;
       effects := [] |}.
Proof.
  intros Henc Hname Hfalsy. unfold decryptJsonSnapshot. rewrite Henc. msteps.
  assert (Hfield :
    truthy (match getProp enc name with Normal x => x | Throw _ => JUndefined end)
    = false).
  { destruct (getProp enc name) as [v|]; [by apply Hfalsy|done]. }
  repeat (apply elem_of_cons in Hname as [->|Hname]);
    [..|by apply elem_of_nil in Hname];
    rewrite Hfield; simpl; rewrite ?orb_true_r; reflexivity.
Qed.

Lemma json_envelope_missing_field_witness :
  outcome (decryptJsonSnapshot testApi
             (JObj [("enc", JObj [("wrappedKey", JStr "k"); ("ciphertext", JStr "c");
                                  ("nonce", JStr "")])])
             [] ∅)
  = Some (Throw (Error "Invalid snapshot format: missing encryption fields")).
Proof.
  rewrite (json_envelope_missing_field testApi
             (JObj [("enc", JObj [("wrappedKey", JStr "k"); ("ciphertext", JStr "c");
                                  ("nonce", JStr "")])])
             (JObj [("wrappedKey", JStr "k"); ("ciphertext", JStr "c");
                    ("nonce", JStr "")])
             [] ∅ "nonce").
  - reflexivity.
  - reflexivity.
  - right. right. left.
  - intros v [= <-]. reflexivity.
Defined.

(** When the JSON attempt of [decryptSnapshot] throws, whatever it throws is
    dropped and the OSNP decoder runs on the same bytes: for a buffer that is
    shorter than 32 bytes or does not begin with "OSNP", the error
    [decryptSnapshot] reports is the OSNP parser's, not the one of the JSON
    attempt. *)
Theorem json_failure_is_reported_as_osnp_failure api (buffer : list byte)
    (privateKeyPem : string) (privateKey : list byte)
    (s : gmap string SnapshotMetadata) (e : JsError) :
  decodesMagic api →
  importPrivateKey api privateKeyPem s = ret privateKey s →
  outcome (bind (lift (jsonParse api (utf8Decode api buffer)))
                (λ parsed, decryptJsonSnapshot api parsed privateKey) s)
  = Some (Throw e) →
  Z.of_nat (length buffer) < 32 ∨ slice buffer 0 4 ≠ magicBytes →
  outcome (decryptSnapshot api (FromBuffer buffer) privateKeyPem (λ _, ret tt) s)
  = Some (Throw (Error (if Z.of_nat (length buffer) <? 32
                        then "Snapshot buffer is too small"
                        else "Not an OSNP snapshot"))).
Proof.
  intros Hmagic Hkey Hjson Hosnp. unfold decryptSnapshot.
  msteps. rewrite bind_run, Hkey. cbn [outcome effects storeAfter ret prepend].
  msteps. rewrite tryCatch_run.
  set (attempt := bind (lift (jsonParse api (utf8Decode api buffer)))
                    (λ parsed, decryptJsonSnapshot api parsed privateKey) s) in *.
  assert (Hstore : storeAfter attempt = s).
  { unfold attempt.
    apply (StatusFacts.silent_bind (lift (jsonParse api (utf8Decode api buffer)))
             (λ parsed, decryptJsonSnapshot api parsed privateKey)).
    - apply StatusFacts.silent_lift.
    - intros parsed. apply StatusFacts.silent_decryptJsonSnapshot. }
  rewrite Hjson, Hstore. rewrite outcome_prepend.
  destruct (Z.ltb_spec (Z.of_nat (length buffer)) 32) as [Hsmall|Hbig].
  - by rewrite (decryptOsnp_throws api buffer privateKey s _
                  (parseOsnp_too_small api buffer Hsmall)).
  - destruct Hosnp as [?|Hne]; [lia|].
    by rewrite (decryptOsnp_throws api buffer privateKey s _
                  (parseOsnp_bad_magic api buffer Hmagic Hbig Hne)).
Qed.

Lemma json_failure_is_reported_as_osnp_failure_witness :
  outcome (decryptSnapshot testApi (FromBuffer [x7b; x7d]) "pem" (λ _, ret tt) ∅)
  = Some (Throw (Error "Snapshot buffer is too small")).
Proof.
  apply (json_failure_is_reported_as_osnp_failure testApi [x7b; x7d] "pem"
           (list_byte_of_string "pem") ∅
           (Error "Invalid snapshot format: missing encryption fields")).
  - exact testApi_decodesMagic.
  - vm_compute. reflexivity.
  - vm_compute. reflexivity.
  - left. simpl. lia.
Defined.

End DecryptExtras.
Module PrefetchExtras.
Import Prefetch PrefetchSpec PrefetchFacts PrefetchExamples.

(** Throughout a bulk run over snapshots with distinct ids, the preparations
    are started in the order of the snapshot list, one per snapshot and
    without gaps: the snapshots started so far are the first
    [nextToSchedule] of the list, each with the size [parseFileSizeMb] gives
    for it; and once nothing is in flight, every snapshot of the list has
    been started exactly once. *)
Theorem preparations_start_in_list_order (parseFileSizeMb : option string → spec_float)
    (allSnapshots : list Snapshot) (ss : list Step) :
  NoDup (id <$> allSnapshots) →
  let r := bulkRun parseFileSizeMb allSnapshots ss in
  (starts r.2).*1 = take (nextToSchedule r.1) allSnapshots
  ∧ Forall (λ p, p.2 = parseFileSizeMb (file_size p.1)) (starts r.2)
  ∧ (pending r.1 = [] → (starts r.2).*1 = allSnapshots).
Proof.
  intros Hdistinct r.
  destruct (bulkRun_order parseFileSizeMb allSnapshots ss) as [Horder Hsizes].
  destruct (bulkRun_ok parseFileSizeMb allSnapshots ss) as (Hinv & _ & Hdone).
  fold r in Horder, Hsizes, Hinv, Hdone.
  split_and!; [done|done|].
  intros Hidle. rewrite (inv_pending _ _ _ Hinv) in Hidle.
  rewrite Horder, (Hdone Hidle). apply take_ge. lia.
Qed.

Lemma preparations_start_in_list_order_witness :
  (starts
     (bulkRun sampleSizes sampleSnapshots
        [Settle 0 (Staged true); Take; Settle 0 Rejected; Settle 0 (Staged false)]).2).*1
  = sampleSnapshots.
Proof.
  destruct (preparations_start_in_list_order sampleSizes sampleSnapshots
              [Settle 0 (Staged true); Take; Settle 0 Rejected; Settle 0 (Staged false)])
    as (_ & _ & Hall).
  - apply (bool_decide_unpack _). vm_compute. exact I.
  - apply Hall. vm_compute. reflexivity.
Defined.

End PrefetchExtras.
Module ManagerFacts.
Import Js Value Manager.

(** What the cursor handler returns from any point of the walk. *)
Lemma cursorLoop_spec records : ∀ offset limit messages currentOffset,
  cursorLoop records offset limit messages currentOffset
  = messages ++ (withoutSnapshotId <$>
      take (Z.to_nat (limit - Z.of_nat (length messages)))
        (drop (Z.to_nat (offset - currentOffset)) records)).
Proof.
  induction records as [|record rest IH]; intros offset limit messages currentOffset;
    simpl.
  - rewrite drop_nil, take_nil, app_nil_r. by destruct (_ <=? _).
  - destruct (Z.leb_spec limit (Z.of_nat (length messages))) as [Hfull|Hroom].
    { replace (Z.to_nat _) with 0%nat by lia. by rewrite app_nil_r. }
    rewrite IH.
    destruct (Z.leb_spec offset currentOffset) as [Hpast|Hbefore].
    + replace (Z.to_nat (offset - currentOffset)) with 0%nat by lia.
      replace (Z.to_nat (offset - (currentOffset + 1))) with 0%nat by lia.
      rewrite length_app. simpl.
      replace (Z.to_nat (limit - Z.of_nat (length messages)))
        with (S (Z.to_nat (limit - Z.of_nat (length messages + 1)))) by lia.
      simpl. by rewrite <- (assoc_L (++)).
    + replace (Z.to_nat (offset - currentOffset))
        with (S (Z.to_nat (offset - (currentOffset + 1)))) by lia.
      done.
Qed.

End ManagerFacts.

Module ManagerExtras.
Import Js Value Manager ManagerFacts.

(** [getMessages] returns the window [offset, offset + limit) of the
    snapshot's records in cursor order (reversed for 'desc'), each without
    its [snapshotId] property; the options default to offset 0, limit 100
    and ascending order.  A negative offset behaves as 0, a limit that is
    not positive gives no message, and an offset past the end gives none.
    Reading page after page with a positive limit returns every record
    exactly once, in order. *)
Theorem getMessages_is_the_requested_window (records : list JsVal)
    (offset limit : option Z) (order : option Order) :
  let cursor := match order with Some Desc => reverse records | _ => records end in
  getMessages records offset limit order
  = withoutSnapshotId <$>
      take (Z.to_nat (default 100 limit)) (drop (Z.to_nat (default 0 offset)) cursor)
  ∧ (∀ (pageSize : Z) (pages : nat), 0 < pageSize →
       mjoin ((λ page : nat,
                 getMessages records (Some (Z.of_nat page * pageSize)) (Some pageSize) order)
              <$> seq 0 pages)
       = withoutSnapshotId <$> take (pages * Z.to_nat pageSize) cursor).
Proof.
  intros cursor.
  assert (Hwindow : ∀ offset limit,
    getMessages records offset limit order
    = withoutSnapshotId <$>
        take (Z.to_nat (default 100 limit)) (drop (Z.to_nat (default 0 offset)) cursor)).
  { intros o l. unfold getMessages. fold cursor. rewrite cursorLoop_spec. simpl.
    by rewrite !Z.sub_0_r. }
  split; [apply Hwindow|].
  intros pageSize pages Hsize.
  induction pages as [|pages IH]; [done|].
  rewrite seq_S, fmap_app, join_app, IH. simpl.
  rewrite app_nil_r, Hwindow, <- fmap_app. simpl.
  replace (Z.to_nat (Z.of_nat pages * pageSize))
    with (pages * Z.to_nat pageSize)%nat by nia.
  rewrite take_take_drop. do 2 f_equal. lia.
Qed.

(** Records stored by [saveMessagesBatch] carry the [snapshotId] they were
    stored under; [getMessages] gives back the message without it. *)
Example getMessages_second_page :
  getMessages
    [ JObj [("id", JStr "m1"); ("snapshotId", JStr "s")];
      JObj [("id", JStr "m2"); ("snapshotId", JStr "s")];
      JObj [("id", JStr "m3"); ("snapshotId", JStr "s")] ]
    (Some 2) (Some 2) None
  = [JObj [("id", JStr "m3")]].
Proof. vm_compute. reflexivity. Qed.

End ManagerExtras.
Module DownloadExtras.
Import Js Value Platform Model Async Async.Notations Decrypt Pipeline.
Import AsyncFacts PoolSpec StatusSpec PipelineFacts TestPlatform PipelineExamples.
Import DownloadExamples.

(** When the download answers with a status that is not ok, the multi-worker
    entry point rejects with [Error('Failed to download file: <status>')].
    Before that it stores the record as 'processing' and reports the two
    download events; afterwards the record is 'error' with that text and the
    last event is the error event.  The private key is not imported, nothing
    is decrypted and no worker pool is created: these six effects are all
    that happens. *)
Theorem failed_download_is_recorded api (WORKER_COUNT : nat)
    (chunkEnv : nat → Worker.ChunkEnv) (schedule : list nat)
    (id fileUrl privateKeyPem : string) (statusCode : Z) (body : list byte)
    (s : gmap string SnapshotMetadata) :
  keyed id s →
  statusAt id s ≠ Some Completed →
  fetch api fileUrl = Normal (false, statusCode, body) →
  let text := "Failed to download file: " +:+ toDecimal statusCode in
  let r := decryptAndStreamToIndexedDBMultiWorker api WORKER_COUNT chunkEnv schedule
             id fileUrl privateKeyPem s in
  outcome r = Some (Throw (Error text))
  ∧ ∃ m0,
      snapshotId m0 = id ∧ status m0 = Processing
      ∧ storeAfter r = <[id := withStatus m0 Errored (Some text)]> (<[id := m0]> s)
      ∧ effects r
        = [ ESaveMetadata m0;
            EProgress (progressEvent StDownloading 0 TxtDownloading None None);
            EProgress (progressEvent StDownloading 10
                         (TxtStatus "Downloading snapshot file...") None None);
            EFetch fileUrl;
            ESaveMetadata (withStatus m0 Errored (Some text));
            EProgress {| stage := StError; progress := 0; message := TxtFailed;
                         progressProcessed := None; progressTotal := None;
                         progressError := Some text; insertedMessages := None |} ].
Proof.
  intros Hkey Hst Hfetch text r.
  assert (Hensure : ∃ m0,
    ensureProcessingMetadata api id s
    = prepend [ESaveMetadata m0] (ret (m0, false) (<[id := m0]> s))
    ∧ snapshotId m0 = id ∧ status m0 = Processing).
  { destruct (s !! id) as [m|] eqn:Hm.
    - exists (withStatus m Processing None).
      rewrite (ensure_resumable api id s m Hm).
      + rewrite (Hkey m Hm). split; [done|]. simpl. split; [by apply Hkey|done].
      + intros Hc. apply Hst. unfold statusAt. by rewrite Hm, <- Hc.
    - eexists. unfold ensureProcessingMetadata.
      rewrite bind_getMetadata, Hm, bind_saveMetadata. done. }
  destruct Hensure as (m0 & Hensure & Hid & Hproc).
  assert (Hdownload : ∀ s1,
    decryptSnapshot api (FromUrl fileUrl) privateKeyPem decryptStatus s1
    = {| outcome := Some (Throw (Error text)); storeAfter := s1;
         effects := [EProgress (progressEvent StDownloading 10
                                  (TxtStatus "Downloading snapshot file...") None None);
                     EFetch fileUrl] |}).
  { intros s1. unfold decryptSnapshot, decryptStatus, onProgress.
    change (includes "Downloading snapshot file..." "Downloading") with true.
    cbn iota. msteps. rewrite Hfetch. msteps. cbn [negb]. msteps. reflexivity. }
  subst r. unfold decryptAndStreamToIndexedDBMultiWorker.
  match goal with |- context [tryCatch ?m _ s] =>
    assert (Hrun : m s
      = {| outcome := Some (Throw (Error text)); storeAfter := <[id := m0]> s;
           effects := [ESaveMetadata m0;
                       EProgress (progressEvent StDownloading 0 TxtDownloading None None);
                       EProgress (progressEvent StDownloading 10
                                    (TxtStatus "Downloading snapshot file...") None None);
                       EFetch fileUrl] |})
  end.
  { rewrite bind_run, Hensure.
    cbn [outcome effects storeAfter prepend ret]. rewrite app_nil_r.
    unfold onProgress at 1. rewrite bind_emit, bind_run, Hdownload. reflexivity. }
  rewrite tryCatch_run, Hrun. cbn [outcome effects storeAfter].
  unfold recordFailure. rewrite bind_getMetadata, lookup_insert_eq.
  msteps. unfold onProgress. msteps. cbn [withStatus snapshotId errorMessage].
  rewrite Hid. split; [reflexivity|].
  exists m0. split_and!; done.
Qed.

Lemma failed_download_is_recorded_witness :
  outcome (decryptAndStreamToIndexedDBMultiWorker
             notFoundApi 2 (λ _, reliable) []
             "snap" "https://example.org/snap" "pem" ∅)
  = Some (Throw (Error "Failed to download file: 404")).
Proof.
  apply (failed_download_is_recorded notFoundApi
           2 (λ _, reliable) [] "snap" "https://example.org/snap" "pem" 404 [] ∅).
  - intros m Hm. by rewrite lookup_empty in Hm.
  - discriminate.
  - reflexivity.
Defined.

End DownloadExtras.
Module MsgpackTruncationFacts.
Import Js Value Platform Msgpack.

Lemma byteAt_last (prefix : list byte) (tag : byte) :
  byteAt (prefix ++ [tag]) (Z.of_nat (length prefix)) = Some (byteToZ tag).
Proof.
  unfold byteAt, index.
  destruct (Z.ltb_spec (Z.of_nat (length prefix)) 0); [lia|].
  rewrite Nat2Z.id, lookup_app_r, Nat.sub_diag by lia. done.
Qed.

Lemma byteAt_past (prefix : list byte) (tag : byte) (k : Z) :
  0 < k → byteAt (prefix ++ [tag]) (Z.of_nat (length prefix) + k) = None.
Proof.
  intros Hk. unfold byteAt, index.
  destruct (Z.ltb_spec (Z.of_nat (length prefix) + k) 0); [done|].
  rewrite lookup_ge_None_2; [done|]. rewrite length_app. simpl. lia.
Qed.

Lemma dataView_past (prefix : list byte) (tag : byte) (size : Z) :
  0 < size →
  ∃ what, dataView (prefix ++ [tag]) (Z.of_nat (length prefix) + 1) size
          = Throw (RangeError what).
Proof.
  intros Hsize. unfold dataView. rewrite length_app. simpl.
  destruct (Z.ltb_spec (Z.of_nat (length prefix) + 1) 0); [lia|].
  destruct (Z.ltb_spec (Z.of_nat (length prefix + 1))
              (Z.of_nat (length prefix) + 1 + size)); [|lia].
  simpl. eauto.
Qed.

End MsgpackTruncationFacts.

Module MsgpackTruncation.
Import Js Value Platform Msgpack MsgpackTruncationFacts.

(** A buffer that ends right after the leading byte of a number is not
    always refused.  The 8-, 16- and 32-bit integer formats read the missing
    bytes as [undefined]: uint 8 and int 8 give [undefined], the 16- and
    32-bit formats give 0, and the offset returned lies past the end of the
    buffer.  Only the formats read through a [DataView] (float 32, float 64,
    uint 64, int 64) throw a [RangeError]. *)
Theorem decodeMsgpack_truncated_number api depth (prefix : list byte) :
  let o := Z.of_nat (length prefix) in
  let run tag := decodeMsgpack api (S depth) (prefix ++ [tag]) (Int o) in
  (run xcc = Normal (JUndefined, Int (o + 2)) ∧ run xd0 = Normal (JUndefined, Int (o + 2)))
  ∧ (run xcd = Normal (JNum 0, Int (o + 3)) ∧ run xd1 = Normal (JNum 0, Int (o + 3)))
  ∧ (run xce = Normal (JNum 0, Int (o + 5)) ∧ run xd2 = Normal (JNum 0, Int (o + 5)))
  ∧ (∀ tag, tag ∈ [xca; xcb; xcf; xd3] → ∃ what, run tag = Throw (RangeError what)).
Proof.
  intros o run.
  assert (Hrest : ∀ tag k, 0 < k → byteAt (prefix ++ [tag]) (o + k) = None)
    by (intros; by apply byteAt_past).
  assert (Hrest' : ∀ tag k, 0 < k → byteAt (prefix ++ [tag]) (o + 1 + k) = None).
  { intros tag k Hk. replace (o + 1 + k) with (o + (1 + k)) by lia. apply Hrest. lia. }
  split_and!;
    try (subst run; cbn beta; cbn [decodeMsgpack]; rewrite byteAt_last; cbn;
         unfold be16, be32; rewrite ?Hrest, ?Hrest' by lia; reflexivity).
  intros tag Htag.
  assert (H4 := dataView_past prefix tag 4 ltac:(lia)).
  assert (H8 := dataView_past prefix tag 8 ltac:(lia)).
  destruct H4 as [w4 H4], H8 as [w8 H8].
  subst run; cbn beta; cbn [decodeMsgpack]; rewrite byteAt_last.
  repeat (apply elem_of_cons in Htag as [->|Htag]); [..|by apply elem_of_nil in Htag];
    cbn; fold o in H4, H8; rewrite ?H4, ?H8; simpl; eauto.
Qed.

Example decodeMsgpack_truncated_uint32 :
  decodeMsgpack TestPlatform.testApi 1 [xce] (Int 0) = Normal (JNum 0, Int 5).
Proof. reflexivity. Qed.

End MsgpackTruncation.
Module SequentialFacts.
Import Js JsFacts Value Platform Model Chunking Sequential.
Import DecryptFacts (slice_Z).

Section Laws.
Context {A B : Type}.

Lemma seq_bind_known (m : M A) (k : A → M B) s a s1 es :
  m s = {| settled := Normal a; finalStore := s1; events := es |} →
  bind m k s = prepend es (k a s1).
Proof. intros Hm. unfold bind. by rewrite Hm. Qed.

Lemma seq_bind_thrown (m : M A) (k : A → M B) s e s1 es :
  m s = {| settled := Throw e; finalStore := s1; events := es |} →
  bind m k s = {| settled := Throw e; finalStore := s1; events := es |}.
Proof. intros Hm. unfold bind. by rewrite Hm. Qed.

Lemma seq_bind_ret (a : A) (k : A → M B) s : bind (ret a) k s = k a s.
Proof. unfold bind. simpl. by destruct (k a s). Qed.

Lemma seq_bind_lift (a : A) (k : A → M B) s : bind (lift (Normal a)) k s = k a s.
Proof. apply seq_bind_ret. Qed.

Lemma seq_bind_throw (e : JsError) (k : A → M B) s : bind (throw e) k s = throw e s.
Proof. done. Qed.

End Laws.

Lemma seq_bind_save {B} (m : SnapshotMetadata) (k : unit → M B) s :
  bind (saveMetadata m) k s = prepend [EvSaveMetadata m] (k tt (<[snapshotId m := m]> s)).
Proof. done. Qed.

Lemma seq_bind_progress {B} (p : Report) (k : unit → M B) s :
  bind (onProgress p) k s = prepend [EvProgress p] (k tt s).
Proof. done. Qed.

Lemma seq_bind_get {B} (id : string) (k : option SnapshotMetadata → M B) s :
  bind (getMetadata id) k s = k (s !! id) s.
Proof. unfold bind. simpl. by destruct (k (s !! id) s). Qed.

Lemma seq_prepend_prepend {A} (es1 es2 : list Event) (r : Run A) :
  prepend es1 (prepend es2 r) = prepend (es1 ++ es2) r.
Proof. unfold prepend. simpl. by rewrite (assoc_L (++)). Qed.

Section WithEnv.
Context (api : Api) (decryptSnapshot : string → string → list string * Completion JsVal).
Context (batchOutcome : nat → AttemptOutcome).
Context (messages : list JsVal) (batchSize totalBatches : Z).

(** The batch with index [i]. *)
Local Abbreviation batchAt i :=
  (slice messages (Z.of_nat i * batchSize)
     (Z.min (Z.of_nat i * batchSize + batchSize) (Z.of_nat (length messages)))).

Lemma saveBatch_run i s :
  let r := saveBatch batchOutcome messages batchSize totalBatches i s in
  finalStore r = s
  ∧ savedBatches (events r) = [(i, batchAt i)]
  ∧ settled r = match batchOutcome i with
                | Committed _ => Normal tt
                | Failed _ e => Throw e
                end
  ∧ (∀ e, last (events r) ≠ Some (EvSaveMetadata e)).
Proof.
  unfold saveBatch.
  destruct (saveMessagesBatch _ _) as [calls result] eqn:Hsave. simpl.
  assert (Hnone : ∀ (f : Z → Event) (l : list Z),
    (∀ z, ∃ p, f z = EvProgress p) →
    omap (λ e, match e with
               | EvSaveBatch batchIndex batch _ => Some (batchIndex, batch)
               | _ => None
               end) (f <$> l) = []).
  { intros f l Hf. induction l as [|z l IH]; [done|]. simpl.
    destruct (Hf z) as [p ->]. done. }
  split_and!.
  - done.
  - unfold savedBatches. simpl. rewrite Hnone; [done|]. intros z. eauto.
  - unfold saveMessagesBatch in Hsave. destruct (batchOutcome i); by simplify_eq.
  - intros e. destruct calls as [|c calls _] using rev_ind; [done|].
    rewrite fmap_app. simpl. rewrite app_comm_cons, last_snoc. done.
Qed.

(** While the batches commit the loop goes on. *)
Lemma batchLoop_commits indices : ∀ s,
  (∀ i, i ∈ indices → ∃ n, batchOutcome i = Committed n) →
  let r := batchLoop batchOutcome messages batchSize totalBatches indices s in
  settled r = Normal tt ∧ finalStore r = s
  ∧ savedBatches (events r) = (λ i, (i, batchAt i)) <$> indices.
Proof.
  induction indices as [|i indices IH]; intros s Hcommit; [done|].
  cbn [batchLoop]. unfold bind.
  destruct (saveBatch_run i s) as (Hs & Hb & Hr & _).
  destruct (Hcommit i) as [n Hn]; [left|]. rewrite Hn in Hr.
  rewrite Hr, Hs. simpl.
  destruct (IH s) as (IH1 & IH2 & IH3).
  { intros i' Hi'. apply Hcommit. by right. }
  split_and!; [done|done|].
  unfold savedBatches in *. by rewrite omap_app, Hb, IH3.
Qed.

(** The first failure ends the loop. *)
Lemma batchLoop_fails before : ∀ j after s n e,
  (∀ i, i ∈ before → ∃ n, batchOutcome i = Committed n) →
  batchOutcome j = Failed n e →
  let r := batchLoop batchOutcome messages batchSize totalBatches
             (before ++ j :: after) s in
  settled r = Throw e ∧ finalStore r = s
  ∧ savedBatches (events r) = (λ i, (i, batchAt i)) <$> (before ++ [j])
  ∧ (∀ m, last (events r) ≠ Some (EvSaveMetadata m)).
Proof.
  induction before as [|i before IH]; intros j after s n e Hcommit Hfail.
  - cbn [batchLoop app]. unfold bind.
    destruct (saveBatch_run j s) as (Hs & Hb & Hr & Hl).
    rewrite Hfail in Hr. rewrite Hr. simpl. done.
  - cbn [batchLoop app]. unfold bind.
    destruct (saveBatch_run i s) as (Hs & Hb & Hr & _).
    destruct (Hcommit i) as [n' Hn]; [left|]. rewrite Hn in Hr.
    rewrite Hr, Hs. simpl.
    destruct (IH j after s n e) as (IH1 & IH2 & IH3 & IH4); [|done|].
    { intros i' Hi'. apply Hcommit. by right. }
    split_and!; [done|done|..].
    + unfold savedBatches in *. by rewrite omap_app, Hb, IH3.
    + intros m. rewrite last_app.
      destruct (last (events _)) as [ev|] eqn:Hlast.
      * intros [= ->]. by apply (IH4 m).
      * apply last_None in Hlast. rewrite Hlast in IH3. by destruct before.
Qed.

End WithEnv.

(** The batch with index [n] holds the next [b] messages, or what is left. *)
Lemma batch_take {A} (l : list A) (b : Z) (n : nat) :
  0 < b →
  slice l (Z.of_nat n * b) (Z.min (Z.of_nat n * b + b) (Z.of_nat (length l)))
  = take (Z.to_nat b) (drop (n * Z.to_nat b) l).
Proof.
  intros Hb.
  destruct (decide (Z.of_nat n * b + b ≤ Z.of_nat (length l))) as [Hin|Hout].
  - rewrite Z.min_l by lia. rewrite slice_Z by lia. do 2 f_equal. nia.
  - rewrite Z.min_r by lia.
    destruct (decide (Z.of_nat n * b ≤ Z.of_nat (length l))) as [Hstart|Hpast].
    + replace (slice l (Z.of_nat n * b) (Z.of_nat (length l)))
        with (slice l (Z.of_nat n * b)
                (Z.of_nat n * b + (Z.of_nat (length l) - Z.of_nat n * b)))
        by (f_equal; lia).
      rewrite slice_Z by lia.
      replace (Z.to_nat (Z.of_nat n * b)) with (n * Z.to_nat b)%nat by nia.
      rewrite !take_ge; [done|rewrite length_drop; nia|rewrite length_drop; nia].
    + rewrite (drop_ge l) by nia. rewrite take_nil.
      unfold slice, clampIndex.
      destruct (Z.ltb_spec (Z.of_nat n * b) 0); [nia|].
      destruct (Z.ltb_spec (Z.of_nat (length l)) 0); [lia|].
      rewrite Z.min_id, (Z.min_r (Z.of_nat n * b)), Z.sub_diag by lia. done.
Qed.

(** The batches tile the array. *)
Lemma batches_tile {A} (l : list A) (b : nat) : ∀ n : nat,
  mjoin ((λ i : nat, take b (drop (i * b) l)) <$> seq 0 n) = take (n * b) l.
Proof.
  induction n as [|n IH]; [done|].
  rewrite seq_S, fmap_app, join_app, IH. simpl. rewrite app_nil_r.
  rewrite take_take_drop. f_equal. lia.
Qed.

Lemma calculateOptimalBatchSize_pos total : 0 < calculateOptimalBatchSize total.
Proof. unfold calculateOptimalBatchSize. repeat case_match; done. Qed.

Section Load.
Context (api : Api) (decryptSnapshot : string → string → list string * Completion JsVal).
Context (batchOutcome : nat → AttemptOutcome).

Lemma savedBatches_app es1 es2 :
  savedBatches (es1 ++ es2) = savedBatches es1 ++ savedBatches es2.
Proof. apply omap_app. Qed.

Lemma decryptStatus_no_batch statuses :
  savedBatches (statuses ≫= decryptStatus) = [].
Proof.
  induction statuses as [|st statuses IH]; [done|].
  rewrite bind_cons, savedBatches_app, IH, app_nil_r.
  unfold decryptStatus. repeat case_match; done.
Qed.

(** The [try] block up to the batch loop: the record is written afresh as
    'processing' with no message processed, whatever the store held. *)
Lemma load_until_batches (id fileUrl privateKeyPem : string)
    (s : gmap string SnapshotMetadata) (statuses : list string)
    (decryptedData : JsVal) (messages : list JsVal) :
  decryptSnapshot fileUrl privateKeyPem = (statuses, Normal decryptedData) →
  getProp decryptedData "messages" = Normal (JArr messages) →
  (∀ m, messages !! 0%nat = Some m ∨ last messages = Some m →
        m ≠ JNull ∧ m ≠ JUndefined) →
  let total := Z.of_nat (length messages) in
  let batchSize := calculateOptimalBatchSize total in
  let totalBatches := ceilDiv total batchSize in
  ∃ (m1 mc : SnapshotMetadata) (s1 : gmap string SnapshotMetadata)
    (pre : list Event) (pc : Report),
    s1 !! id = Some m1
    ∧ snapshotId m1 = id ∧ status m1 = Processing ∧ processedMessages m1 = 0
    ∧ snapshotId mc = id ∧ status mc = Completed ∧ processedMessages mc = total
    ∧ totalMessages mc = Some total
    ∧ savedBatches pre = []
    ∧ reportStage pc = StCompleted
    ∧ load api decryptSnapshot batchOutcome id fileUrl privateKeyPem s
      = prepend pre
          (bind (batchLoop batchOutcome messages batchSize totalBatches
                   (seq 0 (Z.to_nat totalBatches)))
                (λ _, bind (saveMetadata mc) (λ _, onProgress pc)) s1).
Proof.
  intros Hdecrypt Hmessages Hread total batchSize totalBatches.
  assert (Hprops : ∀ name, ∃ v, getProp decryptedData name = Normal v).
  { intros name. destruct decryptedData; simplify_eq/=; eauto. }
  destruct (Hprops "projectId") as [projectId' HprojectId],
    (Hprops "queueId") as [queueId' HqueueId],
    (Hprops "messageCount") as [messageCount' HmessageCount].
  assert (Hdates : ∃ firstDate lastDate, ∀ s0,
    (if 0 <? total
     then bind (lift (getProp (default JUndefined (index messages 0)) "created_at"))
            (λ firstDate,
               bind (lift (getProp (default JUndefined (index messages (total - 1)))
                             "created_at"))
                 (λ lastDate, ret (firstDate, lastDate)))
     else ret (JUndefined, JUndefined)) s0
    = {| settled := Normal (firstDate, lastDate); finalStore := s0; events := [] |}).
  { destruct (Z.ltb_spec 0 total) as [Hpos|Hzero]; [|by eexists _, _].
    assert (Hdefined : ∀ v, v ≠ JNull ∧ v ≠ JUndefined →
              ∃ d, getProp v "created_at" = Normal d).
    { intros v [? ?]. destruct v; simpl; eauto; done. }
    destruct messages as [|first rest] eqn:Hm; [simpl in *; lia|].
    destruct (Hdefined first) as [d0 Hd0]; [apply Hread; by left|].
    assert (Hlast : ∃ final, last (first :: rest) = Some final
                             ∧ index (first :: rest) (total - 1) = Some final).
    { destruct (last (first :: rest)) as [final|] eqn:Hl.
      - exists final. split; [done|]. unfold index.
        destruct (Z.ltb_spec (total - 1) 0); [lia|].
        rewrite last_lookup in Hl. rewrite <- Hl. f_equal. subst total. simpl. lia.
      - by apply last_None in Hl. }
    destruct Hlast as (final & Hl & Hindex).
    destruct (Hdefined final) as [d1 Hd1]; [apply Hread; by right|].
    exists d0, d1. intros s0. rewrite Hindex. simpl. rewrite Hd0, Hd1.
    by rewrite !seq_bind_lift. }
  destruct Hdates as (firstDate & lastDate & Hdates).
  eexists _, _, _, _, _. split_and!; cycle -1.
  { unfold load.
    rewrite seq_bind_save, seq_bind_progress.
    rewrite (seq_bind_known _ _ _ decryptedData
               (<[id := _]> s) (EvDecrypt fileUrl :: (statuses ≫= decryptStatus)))
      by (unfold awaitDecrypt; by rewrite Hdecrypt).
    rewrite seq_bind_progress.
    rewrite HprojectId, HqueueId, HmessageCount, Hmessages, !seq_bind_lift.
    cbn [firstMessageDate lastMessageDate]. fold total.
    rewrite (seq_bind_known _ _ _ _ _ _ (Hdates _)).
    rewrite seq_bind_save, seq_bind_progress.
    rewrite !seq_prepend_prepend. reflexivity. }
  { apply lookup_insert_eq. }
  all: try reflexivity.
  rewrite !savedBatches_app.
    change (EvDecrypt fileUrl :: ?l) with ([EvDecrypt fileUrl] ++ l).
    rewrite !savedBatches_app, decryptStatus_no_batch. done.
Qed.

End Load.

End SequentialFacts.
Module SequentialTheorems.
Import Js JsFacts Value Platform Model Chunking Sequential SequentialFacts.
Import StatusSpec TestPlatform PipelineExamples SequentialExamples.
Import ChunkingExtraFacts (ceilDiv_bounds).

Section WithEnv.
Context (api : Api) (decryptSnapshot : string → string → list string * Completion JsVal).
Context (batchOutcome : nat → AttemptOutcome).

(** Past the check for a completed record the entry point runs [load]. *)
Lemma sequential_starts_over id fileUrl privateKeyPem s :
  statusAt id s ≠ Some Completed →
  decryptAndStreamToIndexedDB api decryptSnapshot batchOutcome id fileUrl privateKeyPem s
  = tryCatch (load api decryptSnapshot batchOutcome id fileUrl privateKeyPem)
      (recordFailure api id) s.
Proof.
  intros Hst. unfold decryptAndStreamToIndexedDB, tryCatch.
  rewrite seq_bind_get. unfold statusAt in Hst.
  destruct (s !! id) as [existing|]; [|done].
  rewrite decide_False; [done|]. intros Hc. apply Hst. simpl. by rewrite Hc.
Qed.

End WithEnv.

(** The single-threaded pipeline starts over on every run that does not find
    a completed record: whatever the store held for the snapshot, and
    however many messages an earlier run had stored, it hands every message
    of the snapshot to the store again, from the first, in batches of the
    size chosen for the snapshot ([ceil(total / batchSize)] of them, in
    order, each the next [batchSize] messages).  When every batch write
    commits, the promise resolves and the record ends as 'completed' with
    all messages counted. *)
Theorem sequential_load_writes_every_message api
    (decryptSnapshot : string → string → list string * Completion JsVal)
    (batchOutcome : nat → AttemptOutcome) (id fileUrl privateKeyPem : string)
    (s : gmap string SnapshotMetadata) (statuses : list string)
    (decryptedData : JsVal) (messages : list JsVal) :
  statusAt id s ≠ Some Completed →
  decryptSnapshot fileUrl privateKeyPem = (statuses, Normal decryptedData) →
  getProp decryptedData "messages" = Normal (JArr messages) →
  (∀ m, messages !! 0%nat = Some m ∨ last messages = Some m →
        m ≠ JNull ∧ m ≠ JUndefined) →
  (∀ i, ∃ n, batchOutcome i = Committed n) →
  let total := Z.of_nat (length messages) in
  let batchSize := Z.to_nat (calculateOptimalBatchSize total) in
  let totalBatches := Z.to_nat (ceilDiv total (calculateOptimalBatchSize total)) in
  let r := decryptAndStreamToIndexedDB api decryptSnapshot batchOutcome
             id fileUrl privateKeyPem s in
  settled r = Normal tt
  ∧ savedBatches (events r)
    = (λ i, (i, take batchSize (drop (i * batchSize) messages))) <$> seq 0 totalBatches
  ∧ mjoin (savedBatches (events r)).*2 = messages
  ∧ ∃ m, finalStore r !! id = Some m
         ∧ status m = Completed ∧ processedMessages m = total
         ∧ totalMessages m = Some total.
Proof.
  intros Hst Hdecrypt Hmessages Hread Hcommit total batchSize totalBatches r.
  pose proof (calculateOptimalBatchSize_pos total) as Hpos.
  destruct (load_until_batches api decryptSnapshot batchOutcome id fileUrl privateKeyPem
              s statuses decryptedData messages Hdecrypt Hmessages Hread)
    as (m1 & mc & s1 & pre & pc & Hs1 & Hid1 & Hst1 & Hp1 & Hidc & Hstc & Hpc & Htc
        & Hpre & _ & Hload).
  destruct (batchLoop_commits batchOutcome messages (calculateOptimalBatchSize total)
              (ceilDiv total (calculateOptimalBatchSize total)) (seq 0 totalBatches) s1)
    as (Hsettled & Hstore & Hsaved); [by intros|].
  assert (Hbatches : savedBatches (events r)
    = (λ i, (i, take batchSize (drop (i * batchSize) messages))) <$> seq 0 totalBatches
    ∧ settled r = Normal tt
    ∧ finalStore r = <[id := mc]> s1).
  { assert (Hbody :
      bind (batchLoop batchOutcome messages (calculateOptimalBatchSize total)
              (ceilDiv total (calculateOptimalBatchSize total)) (seq 0 totalBatches))
           (λ _, bind (saveMetadata mc) (λ _, onProgress pc)) s1
      = {| settled := Normal tt; finalStore := <[id := mc]> s1;
           events := events (batchLoop batchOutcome messages
                               (calculateOptimalBatchSize total)
                               (ceilDiv total (calculateOptimalBatchSize total))
                               (seq 0 totalBatches) s1)
                     ++ [EvSaveMetadata mc; EvProgress pc] |}).
    { unfold bind. rewrite Hsettled, Hstore. simpl. by rewrite Hidc. }
    subst r. rewrite sequential_starts_over by done.
    unfold tryCatch. rewrite Hload. fold total totalBatches. rewrite Hbody.
    cbn [prepend settled finalStore events]. split_and!; [|done|done].
    rewrite !savedBatches_app, Hpre, Hsaved. simpl.
    rewrite app_nil_r. apply list_fmap_ext. intros _ i _.
    by rewrite batch_take. }
  destruct Hbatches as (Hbatches & Hr & Hfinal).
  split_and!; [done|done| |].
  - rewrite Hbatches, <- list_fmap_compose.
    change (snd ∘ _) with (λ i : nat, take batchSize (drop (i * batchSize) messages)).
    rewrite batches_tile. apply take_ge.
    pose proof (ceilDiv_bounds total (calculateOptimalBatchSize total) Hpos).
    subst total totalBatches batchSize. nia.
  - exists mc. rewrite Hfinal, lookup_insert_eq. done.
Qed.

Lemma sequential_load_writes_every_message_witness :
  mjoin (savedBatches
           (events (decryptAndStreamToIndexedDB testApi sampleDecrypt allCommit
                      "snap" "https://example.org/snap" "pem"
                      (sampleStore (sampleMetadata Processing 400 None))))).*2
  = manyMessages.
Proof.
  apply (sequential_load_writes_every_message testApi sampleDecrypt allCommit
           "snap" "https://example.org/snap" "pem"
           (sampleStore (sampleMetadata Processing 400 None))
           ["Downloading snapshot file..."; "Decrypting snapshot..."]
           (sampleData manyMessages) manyMessages).
  - vm_compute. discriminate.
  - reflexivity.
  - reflexivity.
  - intros m [Hm|Hm]; vm_compute in Hm; injection Hm as <-; split; discriminate.
  - intros i. by exists 500%nat.
Defined.

(** In the single-threaded pipeline the first batch write that fails ends
    the load: the promise rejects with the error of that write, the batches
    after it are never written, and the record ends as 'error' with the
    text of the error and with no message counted as processed, although
    the batches before it are in the store.  The last progress event is the
    error event. *)
Theorem sequential_failed_batch_aborts api
    (decryptSnapshot : string → string → list string * Completion JsVal)
    (batchOutcome : nat → AttemptOutcome) (id fileUrl privateKeyPem : string)
    (s : gmap string SnapshotMetadata) (statuses : list string)
    (decryptedData : JsVal) (messages : list JsVal)
    (j succeeded : nat) (e : JsError) :
  statusAt id s ≠ Some Completed →
  decryptSnapshot fileUrl privateKeyPem = (statuses, Normal decryptedData) →
  getProp decryptedData "messages" = Normal (JArr messages) →
  (∀ m, messages !! 0%nat = Some m ∨ last messages = Some m →
        m ≠ JNull ∧ m ≠ JUndefined) →
  let total := Z.of_nat (length messages) in
  let totalBatches := Z.to_nat (ceilDiv total (calculateOptimalBatchSize total)) in
  (j < totalBatches)%nat →
  (∀ i, (i < j)%nat → ∃ n, batchOutcome i = Committed n) →
  batchOutcome j = Failed succeeded e →
  let r := decryptAndStreamToIndexedDB api decryptSnapshot batchOutcome
             id fileUrl privateKeyPem s in
  settled r = Throw e
  ∧ (savedBatches (events r)).*1 = seq 0 (S j)
  ∧ (∃ m, finalStore r !! id = Some m
          ∧ status m = Errored ∧ error m = Some (errorMessage api e)
          ∧ processedMessages m = 0)
  ∧ ∃ p, last (events r) = Some (EvProgress p)
         ∧ reportStage p = StError ∧ reportError p = Some (errorMessage api e).
Proof.
  intros Hst Hdecrypt Hmessages Hread total totalBatches Hj Hbefore Hfail r.
  destruct (load_until_batches api decryptSnapshot batchOutcome id fileUrl privateKeyPem
              s statuses decryptedData messages Hdecrypt Hmessages Hread)
    as (m1 & mc & s1 & pre & pc & Hs1 & Hid1 & Hst1 & Hp1 & _ & _ & _ & _
        & Hpre & _ & Hload).
  assert (Hsplit : seq 0 totalBatches = seq 0 j ++ j :: seq (S j) (totalBatches - S j)).
  { replace totalBatches with (j + S (totalBatches - S j))%nat at 1 by lia.
    by rewrite seq_app. }
  destruct (batchLoop_fails batchOutcome messages (calculateOptimalBatchSize total)
              (ceilDiv total (calculateOptimalBatchSize total))
              (seq 0 j) j (seq (S j) (totalBatches - S j)) s1 succeeded e)
    as (Hsettled & Hstore & Hsaved & _); [|done|].
  { intros i Hi. apply Hbefore. apply elem_of_seq in Hi. lia. }
  rewrite <- Hsplit in Hsettled, Hstore, Hsaved.
  assert (Hbody :
    bind (batchLoop batchOutcome messages (calculateOptimalBatchSize total)
            (ceilDiv total (calculateOptimalBatchSize total)) (seq 0 totalBatches))
         (λ _, bind (saveMetadata mc) (λ _, onProgress pc)) s1
    = {| settled := Throw e; finalStore := s1;
         events := events (batchLoop batchOutcome messages
                             (calculateOptimalBatchSize total)
                             (ceilDiv total (calculateOptimalBatchSize total))
                             (seq 0 totalBatches) s1) |}).
  { unfold bind. by rewrite Hsettled, Hstore. }
  subst r. rewrite sequential_starts_over by done.
  unfold tryCatch. rewrite Hload. fold total totalBatches. rewrite Hbody.
  cbn [prepend settled finalStore events].
  unfold recordFailure. rewrite seq_bind_get, Hs1, seq_bind_save, seq_bind_progress.
  cbn [prepend settled finalStore events throw Pipeline.withStatus snapshotId].
  rewrite Hid1. split_and!.
  - done.
  - rewrite !savedBatches_app, Hpre, Hsaved. simpl.
    rewrite app_nil_r, <- list_fmap_compose.
    change (fst ∘ _) with (@Datatypes.id nat). rewrite list_fmap_id.
    symmetry. apply seq_S.
  - eexists. rewrite lookup_insert_eq. done.
  - eexists. rewrite app_nil_r, !app_assoc, last_snoc. done.
Qed.

Lemma sequential_failed_batch_aborts_witness :
  settled (decryptAndStreamToIndexedDB testApi sampleDecrypt secondFails
             "snap" "https://example.org/snap" "pem" ∅)
  = Throw (Error "Transaction aborted").
Proof.
  apply (sequential_failed_batch_aborts testApi sampleDecrypt secondFails
           "snap" "https://example.org/snap" "pem" ∅
           ["Downloading snapshot file..."; "Decrypting snapshot..."]
           (sampleData manyMessages) manyMessages 1 0 (Error "Transaction aborted")).
  - discriminate.
  - reflexivity.
  - reflexivity.
  - intros m [Hm|Hm]; vm_compute in Hm; injection Hm as <-; split; discriminate.
  - vm_compute. lia.
  - intros i Hi. exists 500%nat. by destruct i as [|[|i]]; [|lia..].
  - reflexivity.
Defined.

End SequentialTheorems.
Module SavePoolFacts.
Import Js Value Platform Model SavePool.

Section WithEnv.
Context (api : Api) (chunkOutcome : nat → AttemptOutcome).

(** A task posted to an idle worker starts a script of its own. *)
Lemma enqueueAt_idle w script rs :
  w ∉ rs.*1 → enqueueAt w script rs = rs ++ [(w, script)].
Proof.
  induction rs as [|[w0 msgs0] rs IH]; simpl; [done|].
  intros Hw. apply not_elem_of_cons in Hw as [Hne Hw].
  rewrite decide_False by done. by rewrite IH.
Qed.

Lemma workerScript_failed chunkIndex messages succeeded e :
  chunkOutcome chunkIndex = Failed succeeded e →
  Forall (λ msg, isComplete msg = false) (workerScript api chunkOutcome chunkIndex messages).
Proof.
  intros Hfail. unfold workerScript. rewrite Hfail.
  apply Forall_app. split; [|by repeat constructor].
  apply Forall_fmap, Forall_true. done.
Qed.

Lemma completeLast_snoc (calls : list Z) (total : Z) (final : Msg) :
  completeLast (((λ saved, MsgProgress saved total) <$> calls) ++ [final]).
Proof.
  intros i msg Hi Hc. rewrite length_app. simpl.
  apply lookup_app_Some in Hi as [Hi|[Hge Hi]].
  - rewrite list_lookup_fmap in Hi. destruct (calls !! i); by simplify_eq/=.
  - apply list_lookup_singleton_Some in Hi as [Hi _]. lia.
Qed.

Lemma workerScript_completeLast chunkIndex messages :
  completeLast (workerScript api chunkOutcome chunkIndex messages).
Proof. unfold workerScript. destruct (chunkOutcome chunkIndex); apply completeLast_snoc. Qed.

Lemma completeLast_tail msg rest : completeLast (msg :: rest) → completeLast rest.
Proof. intros Hc i m Hi Hm. specialize (Hc (S i) m Hi Hm). simpl in Hc. lia. Qed.

Lemma completeLast_head msg rest :
  completeLast (msg :: rest) → isComplete msg = true → rest = [].
Proof.
  intros Hc Hm. specialize (Hc 0%nat msg eq_refl Hm). simpl in Hc.
  destruct rest; [done|simpl in Hc; lia].
Qed.

(** ** The busy workers after a turn *)

Lemma running_step_elem (rs : list (nat * list Msg)) k w msg rest w' msgs :
  rs !! k = Some (w, msg :: rest) →
  (w', msgs) ∈ match rest with
               | [] => delete k rs
               | _ => <[k := (w, rest)]> rs
               end →
  (w', msgs) ∈ rs ∨ (w' = w ∧ msgs = rest).
Proof.
  intros Hk Hin. destruct rest as [|msg' rest'].
  - left. by eapply list_elem_of_delete_inv.
  - apply list_elem_of_lookup in Hin as [i Hi].
    apply list_lookup_insert_Some in Hi as [(-> & Heq & _)|[_ Hi]].
    + right. by simplify_eq.
    + left. by eapply list_elem_of_lookup_2.
Qed.

Lemma running_delete_workers (rs : list (nat * list Msg)) k :
  NoDup rs.*1 → NoDup (delete k rs).*1.
Proof.
  intros Hnd. eapply sublist_NoDup; [done|].
  apply fmap_sublist, sublist_delete.
Qed.

Lemma running_step_workers (rs : list (nat * list Msg)) k w msg rest :
  rs !! k = Some (w, msg :: rest) →
  NoDup rs.*1 →
  NoDup (match rest with
         | [] => delete k rs
         | _ => <[k := (w, rest)]> rs
         end).*1.
Proof.
  intros Hk Hnd. destruct rest as [|msg' rest'].
  - by apply running_delete_workers.
  - rewrite list_fmap_insert. simpl. rewrite list_insert_id; [done|].
    by rewrite list_lookup_fmap, Hk.
Qed.

(** The worker whose entry is deleted is no longer busy. *)
Lemma running_delete_gone (rs : list (nat * list Msg)) k w msgs msgs' :
  NoDup rs.*1 → rs !! k = Some (w, msgs) → (w, msgs') ∉ delete k rs.
Proof.
  intros Hnd Hk Hin.
  rewrite <- (take_drop_middle rs k (w, msgs) Hk) in Hnd.
  rewrite fmap_app, fmap_cons in Hnd. simpl in Hnd.
  apply NoDup_app in Hnd as (_ & Hleft & Hright).
  apply NoDup_cons in Hright as [Hright _].
  rewrite delete_take_drop in Hin. apply elem_of_app in Hin as [Hin|Hin].
  - apply (Hleft w); [|left]. apply list_elem_of_fmap. by exists (w, msgs').
  - apply Hright. apply list_elem_of_fmap. by exists (w, msgs').
Qed.

(** ** The invariant *)

Lemma savePool_create_Inv workers : Inv (create workers).
Proof.
  split; simpl.
  - apply NoDup_seq.
  - intros w Hw%elem_of_seq. lia.
  - constructor.
  - intros w msgs Hin. by apply elem_of_nil in Hin.
  - intros w msgs Hin. by apply elem_of_nil in Hin.
Qed.

Lemma processNextTask_Inv st :
  Inv st → Inv (processNextTask api chunkOutcome st).1.
Proof.
  intros Hinv. unfold processNextTask.
  destruct (taskQueue st) as [|task queue]; [done|].
  destruct (availableWorkers st) as [|w available] eqn:Hav; [done|].
  destruct Hinv as [Hd Hr Hw Hb Hs]. rewrite Hav in Hd, Hr, Hb.
  apply NoDup_cons in Hd as [Hfresh Hd].
  assert (Hidle : w ∉ (running st).*1).
  { intros ([w' msgs] & -> & Hin)%list_elem_of_fmap.
    apply (Hb _ _ Hin). left. }
  split; simpl; rewrite ?enqueueAt_idle by done.
  - done.
  - intros w' Hw'. apply Hr. by right.
  - rewrite fmap_app. simpl. apply NoDup_app. split_and!; [done| |apply NoDup_singleton].
    intros w' Hw' ->%list_elem_of_singleton. done.
  - intros w' msgs [Hin|[= -> ->]%list_elem_of_singleton]%elem_of_app.
    + destruct (Hb w' msgs Hin) as [Hna Hlt]. split; [|done].
      intros Hin'. apply Hna. by right.
    + split; [done|]. apply Hr. left.
  - intros w' msgs [Hin|[= -> ->]%list_elem_of_singleton]%elem_of_app.
    + by eapply Hs.
    + apply workerScript_completeLast.
Qed.

Lemma processChunk_Inv st chunk chunkIndex :
  Inv st → Inv (processChunk api chunkOutcome st chunk chunkIndex).1.
Proof.
  intros Hinv. unfold processChunk.
  match goal with |- context [processNextTask _ _ ?st1] =>
    pose proof (processNextTask_Inv st1) as Hnext;
    destruct (processNextTask api chunkOutcome st1) as [st2 es]
  end.
  apply Hnext. by destruct Hinv.
Qed.

Lemma submitAll_Inv chunks : ∀ st index,
  Inv st → Inv (submitAll api chunkOutcome st chunks index).1.
Proof.
  induction chunks as [|chunk chunks IH]; intros st index Hinv; [done|].
  simpl.
  pose proof (processChunk_Inv st chunk index Hinv) as H1.
  destruct (processChunk api chunkOutcome st chunk index) as [st1 es1].
  pose proof (IH st1 (S index) H1) as H2.
  by destruct (submitAll api chunkOutcome st1 chunks (S index)) as [st2 es2].
Qed.

(** ** A doomed pool stays doomed *)

Lemma processNextTask_doomed st :
  Inv st → doomed chunkOutcome st →
  doomed chunkOutcome (processNextTask api chunkOutcome st).1.
Proof.
  intros Hinv Hdoomed. unfold processNextTask.
  destruct (taskQueue st) as [|task queue] eqn:Hq; [done|].
  destruct (availableWorkers st) as [|w available] eqn:Hav; [done|].
  destruct Hinv as [Hd Hr Hw Hb Hs]. rewrite Hav in Hd, Hr, Hb.
  unfold doomed in Hdoomed. rewrite Hq, Hav in Hdoomed.
  apply NoDup_cons in Hd as [Hfresh Hd].
  assert (Hidle : w ∉ (running st).*1).
  { intros ([w' msgs] & -> & Hin)%list_elem_of_fmap.
    apply (Hb _ _ Hin). left. }
  unfold doomed. simpl. rewrite enqueueAt_idle by done.
  destruct Hdoomed as [(t & succeeded & e & Ht & Hfail)|(w' & Hlt & Hna & Hscript)].
  - apply elem_of_cons in Ht as [->|Ht].
    + right. exists w. split_and!.
      * apply Hr. left.
      * done.
      * intros msgs [Hin|[= ->]%list_elem_of_singleton]%elem_of_app.
        -- exfalso. apply Hidle. apply list_elem_of_fmap. by exists (w, msgs).
        -- by eapply workerScript_failed.
    + left. exists t, succeeded, e. done.
  - right. exists w'. split_and!.
    + done.
    + intros Hin. apply Hna. by right.
    + intros msgs [Hin|[= -> ->]%list_elem_of_singleton]%elem_of_app.
      * by apply Hscript.
      * exfalso. apply Hna. left.
Qed.

Lemma processChunk_doomed st chunk chunkIndex :
  Inv st →
  doomed chunkOutcome st ∨ (∃ succeeded e, chunkOutcome chunkIndex = Failed succeeded e) →
  doomed chunkOutcome (processChunk api chunkOutcome st chunk chunkIndex).1.
Proof.
  intros Hinv Hcase. unfold processChunk.
  match goal with |- context [processNextTask _ _ ?st1] =>
    pose proof (processNextTask_doomed st1) as Hnext;
    destruct (processNextTask api chunkOutcome st1) as [st2 es]
  end.
  apply Hnext; [by destruct Hinv|].
  destruct Hcase as [[(t & succeeded & e & Ht & Hfail)|Hworker]|(succeeded & e & Hfail)].
  - left. exists t, succeeded, e. split; [|done]. simpl. apply elem_of_app. by left.
  - by right.
  - left. exists {| taskChunk := chunk; taskIndex := chunkIndex |}, succeeded, e.
    split; [|done]. simpl. apply elem_of_app. right. left.
Qed.

Lemma submitAll_doomed chunks : ∀ st index,
  Inv st →
  doomed chunkOutcome st
  ∨ (∃ j chunk succeeded e, chunks !! j = Some chunk
                            ∧ chunkOutcome (index + j) = Failed succeeded e) →
  doomed chunkOutcome (submitAll api chunkOutcome st chunks index).1.
Proof.
  induction chunks as [|chunk chunks IH]; intros st index Hinv Hcase.
  - destruct Hcase as [?|(j & c & ? & ? & Hj & _)]; [done|by destruct j].
  - simpl.
    pose proof (processChunk_Inv st chunk index Hinv) as Hinv1.
    pose proof (processChunk_doomed st chunk index Hinv) as Hdoomed1.
    destruct (processChunk api chunkOutcome st chunk index) as [st1 es1].
    pose proof (IH st1 (S index) Hinv1) as IH1.
    destruct (submitAll api chunkOutcome st1 chunks (S index)) as [st2 es2].
    simpl in *. apply IH1.
    destruct Hcase as [Hdoomed|(j & c & succeeded & e & Hj & Hfail)].
    + left. apply Hdoomed1. by left.
    + destruct j as [|j].
      * left. apply Hdoomed1. right. rewrite Nat.add_0_r in Hfail. eauto.
      * right. exists j, c, succeeded, e. split; [done|].
        by replace (S (index + j)) with (index + S j)%nat by lia.
Qed.

(** One turn of the event loop keeps the invariant, and a doomed pool
    doomed. *)
Lemma turn_keeps st choice :
  Inv st →
  Inv (turn api chunkOutcome st choice).1
  ∧ (doomed chunkOutcome st → doomed chunkOutcome (turn api chunkOutcome st choice).1).
Proof.
  intros Hinv. unfold turn.
  destruct (running st !! _) as [[w [|msg rest]]|] eqn:Hk; [| |done].
  { (* an empty script is dropped *)
    destruct Hinv as [Hd Hr Hw Hb Hs]. split.
    - split; simpl; [done|done|by apply running_delete_workers|..].
      + intros w' msgs Hin%list_elem_of_delete_inv. by eapply Hb.
      + intros w' msgs Hin%list_elem_of_delete_inv. by eapply Hs.
    - intros [Hqueue|(w' & Hlt & Hna & Hscript)]; [by left|right].
      exists w'. split_and!; [done|done|].
      intros msgs Hin%list_elem_of_delete_inv. by apply Hscript. }
  set (running' := match rest with
                   | [] => delete _ (running st)
                   | _ => <[_ := (w, rest)]> (running st)
                   end).
  set (st1 := {| workerCount := workerCount st;
                 availableWorkers := availableWorkers st;
                 taskQueue := taskQueue st;
                 running := running';
                 progressMap := progressMap st |}).
  pose proof (list_elem_of_lookup_2 _ _ _ Hk) as Hin.
  destruct Hinv as [Hd Hr Hw Hb Hs].
  assert (Hinv1 : Inv st1).
  { split; simpl; [done|done|by eapply running_step_workers|..].
    - intros w' msgs [Hold|[-> ->]]%(running_step_elem _ _ _ _ _ _ _ Hk).
      + by eapply Hb.
      + by eapply Hb.
    - intros w' msgs [Hold|[-> ->]]%(running_step_elem _ _ _ _ _ _ _ Hk).
      + by eapply Hs.
      + eapply completeLast_tail. by eapply Hs. }
  assert (Hdoomed1 : doomed chunkOutcome st → doomed chunkOutcome st1).
  { intros [Hqueue|(w' & Hlt & Hna & Hscript)]; [by left|right].
    exists w'. split_and!; [done|done|]. simpl.
    intros msgs [Hold|[-> ->]]%(running_step_elem _ _ _ _ _ _ _ Hk).
    - by apply Hscript.
    - specialize (Hscript _ Hin). by apply Forall_cons in Hscript as [_ ?]. }
  destruct msg as [saved total|chunkIndex saved|chunkIndex error]; simpl.
  - (* PROGRESS *)
    split; [by destruct Hinv1|].
    intros Hdoomed. by destruct (Hdoomed1 Hdoomed) as [?|?]; [left|right].
  - (* COMPLETE: the worker's last message *)
    assert (rest = []) as -> by (eapply completeLast_head; [by eapply Hs|done]).
    set (released := {| workerCount := workerCount st;
                        availableWorkers := availableWorkers st ++ [w];
                        taskQueue := taskQueue st;
                        running := running';
                        progressMap := progressMap st |}).
    assert (Hreleased : Inv released).
    { destruct (Hb _ _ Hin) as [Hna Hlt].
      split; simpl.
      - apply NoDup_app. split_and!; [done| |apply NoDup_singleton].
        by intros w' Hw' ->%list_elem_of_singleton.
      - intros w' [Hw' | ->%list_elem_of_singleton]%elem_of_app; [by apply Hr|done].
      - by apply running_delete_workers.
      - intros w' msgs Hin'. pose proof Hin' as Hold%list_elem_of_delete_inv.
        destruct (Hb _ _ Hold) as [Hna' Hlt']. split; [|done].
        intros [? | ->%list_elem_of_singleton]%elem_of_app; [done|].
        by eapply running_delete_gone.
      - intros w' msgs Hold%list_elem_of_delete_inv. by eapply Hs. }
    pose proof (processNextTask_Inv released Hreleased) as Hnext.
    pose proof (processNextTask_doomed released Hreleased) as Hnextd.
    destruct (processNextTask api chunkOutcome released) as [st2 es] eqn:Hst2.
    split; [done|]. intros Hdoomed. apply Hnextd.
    destruct Hdoomed as [Hqueue|(w' & Hlt & Hna & Hscript)]; [by left|right].
    exists w'. simpl. split_and!; [done| |].
    + intros [? | ->%list_elem_of_singleton]%elem_of_app; [done|].
      specialize (Hscript _ Hin). by apply Forall_cons in Hscript as [? _].
    + intros msgs Hold%list_elem_of_delete_inv. by apply Hscript.
  - (* ERROR: nothing is done *)
    split; [done|]. done.
Qed.

Lemma doomed_not_drained st :
  Inv st → doomed chunkOutcome st → drained st = false.
Proof.
  intros [Hd Hr _ _ _] Hdoomed. unfold drained.
  destruct Hdoomed as [(t & _ & _ & Ht & _)|(w & Hlt & Hna & _)].
  - apply andb_false_intro2. apply bool_decide_eq_false. intros Hq.
    rewrite Hq in Ht. by apply elem_of_nil in Ht.
  - apply andb_false_intro1. apply bool_decide_eq_false. intros Hlen.
    assert (Hsub : w :: availableWorkers st ⊆+ seq 0 (workerCount st)).
    { apply NoDup_submseteq; [by apply NoDup_cons|].
      intros x [->|Hx]%elem_of_cons; apply elem_of_seq; [lia|].
      specialize (Hr x Hx). lia. }
    apply submseteq_length in Hsub. rewrite length_seq in Hsub. simpl in Hsub. lia.
Qed.

(** A doomed pool never reports completion, however long one waits. *)
Lemma wait_doomed fuel : ∀ schedule st,
  Inv st → doomed chunkOutcome st →
  isDrained (wait api chunkOutcome fuel schedule st) = false.
Proof.
  induction fuel as [|fuel IH]; intros schedule st Hinv Hdoomed; simpl;
    rewrite (doomed_not_drained st Hinv Hdoomed).
  - by destruct (running st).
  - destruct (running st) eqn:Hrun; [done|].
    destruct (turn_keeps st (hd 0%nat schedule) Hinv) as [Hinv1 Hdoomed1].
    destruct (turn api chunkOutcome st (hd 0%nat schedule)) as [st1 es1].
    specialize (IH (tl schedule) st1 Hinv1 (Hdoomed1 Hdoomed)).
    by destruct (wait api chunkOutcome fuel (tl schedule) st1).
Qed.

End WithEnv.
End SavePoolFacts.

Module SavePoolTheorems.
Import Js Value Platform Model SavePool SavePoolFacts.
Import TestPlatform PipelineExamples SavePoolExamples.

(** The save pool of the fully-offloaded pipeline has no branch for a
    worker's ERROR message: the worker that reported it is never made
    available again.  So once the write of one chunk fails, the condition
    polled by [waitForCompletion] (every worker available and the queue
    empty) never holds: whatever the number of workers, the order in which
    the workers are served and however long one waits, the save stage does
    not complete. *)
Theorem failed_write_blocks_the_save_pool api (chunkOutcome : nat → AttemptOutcome)
    (workers : nat) (chunks : list (list JsVal)) (j : nat) (chunk : list JsVal)
    (succeeded : nat) (e : JsError) :
  chunks !! j = Some chunk →
  chunkOutcome j = Failed succeeded e →
  ∀ (fuel : nat) (schedule : list nat),
    isDrained (runPool api chunkOutcome workers chunks fuel schedule) = false.
Proof.
  intros Hchunk Hfail fuel schedule. unfold runPool.
  pose proof (submitAll_Inv api chunkOutcome chunks (create workers) 0
                (savePool_create_Inv workers)) as Hinv.
  pose proof (submitAll_doomed api chunkOutcome chunks (create workers) 0
                (savePool_create_Inv workers)) as Hdoomed.
  destruct (submitAll api chunkOutcome (create workers) chunks 0) as [st1 es1].
  simpl in Hinv, Hdoomed.
  pose proof (wait_doomed api chunkOutcome fuel schedule st1 Hinv) as Hwait.
  destruct (wait api chunkOutcome fuel schedule st1); [|done|done].
  simpl in Hwait. apply Hwait, Hdoomed. right.
  exists j, chunk, succeeded, e. done.
Qed.

Lemma failed_write_blocks_the_save_pool_witness :
  isDrained (runPool testApi secondWriteFails 4 twoChunks 100 []) = false.
Proof.
  apply (failed_write_blocks_the_save_pool testApi secondWriteFails 4 twoChunks
           1 [sampleMessage "wed"] 0 (Error "QuotaExceededError")).
  - reflexivity.
  - reflexivity.
Defined.

(** On the same chunks the pool drains when every write commits; with the
    failing second write the run ends with nothing left to run and the
    worker that took the second chunk (worker 1) missing from the available
    workers. *)
Example save_pool_drains_when_writes_commit :
  isDrained (runPool testApi everyWriteCommits 4 twoChunks 100 []) = true
  ∧ match runPool testApi secondWriteFails 4 twoChunks 100 [] with
    | Stuck st _ => availableWorkers st
    | _ => []
    end = [2; 3; 0]%nat.
Proof. vm_compute. split; reflexivity. Qed.

End SavePoolTheorems.
